(* ===== verification/_CoqProject ===== *)
-Q . S2P
Prelude.v
Errors.v
Bytes.v
Ident.v
F64.v
Contact.v
Fixtures.v
Bucket.v
BucketSpec.v
Table.v
TableSpec.v
TypesSpec.v
Store.v
StoreSpec.v
Messages.v
Effects.v
Protocol.v
Lookup.v
DhtNode.v
SampleNode.v
NodeSafety.v
NodeSpec.v
Channel.v
Transport.v
Udp.v
Tcp.v
Mock.v
NetworkSpec.v
SocketSpec.v
Deployment.v
Cli.v
System.v
Termination.v
Locks.v
Liveness.v
Responsive.v
LivenessSpec.v
LookupRef.v
LookupSpec.v
Quiet.v
ProtocolSpec.v
RpcSpec.v
ContactSpec.v
ValueSpec.v
MaintenanceSpec.v
SystemSpec.v
