(* ===== verification/Prelude.v ===== *)
(** * A verified model of kademlia-rs

    This library models the Rust crate under src/src/ (a Kademlia distributed
    hash table) and proves the properties that make its parts correct. It
    follows the code file by file; each definition has the name of the Rust
    item it models.

    ** The program and the files

    - 160-bit identifiers with the XOR metric (src/src/node_id.rs): [Ident],
      module [NodeId], over the bytes of [Bytes].
    - Contacts with response statistics (src/src/node.rs): [Contact], modules
      [ResponseStats] and [Node]; IEEE-754 doubles are in [F64].
    - K-buckets (src/src/routing/k_bucket.rs): [Bucket], module [KBucket], with
      the abstract specification [KBucket.update_spec]; theorems in [BucketSpec].
    - The routing table (src/src/routing/routing_table.rs): [Table], modules
      [UpdateStatus] and [RoutingTable]; theorems in [TableSpec], and in
      [TypesSpec] that contacts stay in the ranges of their Rust types.
    - Key-value storage (src/src/storage.rs): [Store]. The Rust trait is the
      class [Storage.t], what clients may rely on the class [Storage.Laws], and
      [MemoryStorage] and [DualStorage] are instances of the first; both have
      the laws. Theorems in [StoreSpec].
    - Messages (src/src/protocol/message.rs): [Messages]; errors
      (src/src/error.rs): [Errors].
    - The protocol (src/src/protocol/operation.rs): [Protocol] has the remote
      procedure calls, the handlers of inbound requests and the recording of
      contacts, [Lookup] the iterative lookups and the network store.
    - The node with its background tasks (src/src/network/node.rs): [DhtNode];
      a node together with its transport, as [with_udp] and [with_tcp] make it:
      [Deployment].
    - The transports (src/src/network/udp.rs, tcp.rs and mock.rs): [Udp], [Tcp]
      and [Mock] over the table of waiters they share, [Transport], and the
      bounded queue of outgoing messages, [Channel]. [Udp] and [Tcp] have the
      step relations of their endpoints (receiving, accepting and sending
      tasks, callers that send or wait). Theorems in [NetworkSpec] and
      [SocketSpec].
    - The composition of a node and its UDP transport: [System]. The example
      program (src/examples/simple_node.rs): [Cli]. Theorems in [SystemSpec].

    A request comes in from a transport, whose handler is the node's
    forwarder; the protocol records the sender in the routing table (which may
    ping another contact first), answers from the table and the storage, and
    copies values to a new contact. Lookups, stores and the background tasks
    use the same calls. All of them share the routing table, the storage and
    the map of pending requests, each behind its own lock.

    ** Asynchronous code

    [Effects] has programs ([prog]) as trees of actions: one action per lock
    section, message, wait, spawned task and timer, so that other tasks can
    run exactly at the [await]s of the code. Each lock section names its
    [Lock] and can only run while no other task holds it; where the code keeps
    a guard across an [await], as the health check does with the pending
    requests, the program holds the lock meanwhile ([guarded]). [step] is the
    step relation of a task among [Others], [node_run] the interleavings of all
    tasks of a node, [solo] a task running by itself, [amid] a task running
    among others that change the state between its steps, and [terminates] the
    absence of infinite runs. [guards] is what every action of a program does: a
    fact proved with it holds of every interleaving ([node_run_guards]). [NodeSafety] uses it for the invariant of
    a node, [Quiet] for what the client side leaves alone, [Termination] has
    the measure of [find_node]; the theorems are in [NodeSpec], [LookupSpec],
    [LookupRef], [ProtocolSpec], [RpcSpec], [ContactSpec], [ValueSpec] and
    [MaintenanceSpec]. [Fixtures] and [SampleNode] have the concrete contacts
    and the node of the witnesses.

    [Liveness] defines fair runs of a node, infinite or finite: every task makes
    a step unless from some time on it cannot go on. A lock that is free again
    and again is thus given to each task that waits for it, as tokio's queues
    of waiters do; and nothing is said of a task that waits for a [send], since
    [network.send] waits for room in the queue of the transport. [Locks] shows
    that the one lock held across an [await] is always released, so that all
    locks are free again and again; from there [Liveness] proves that a
    responsive program that terminates ends in a fair run whose sends return
    ([sends_return]) and that a loop comes back to its head; [Responsive] shows
    that the operations are responsive, [LivenessSpec] draws the conclusions.
    The network may lose every message, as each wait ends by its timeout; that
    the sends return is an assumption on the transport, and
    [LivenessSpec.ping_waits_for_send] shows that it is needed.

    The calls of [wait_response] are not part of these programs (the answer to
    a wait is any): [Waiters] in [Transport] has them as a state machine over
    the transports' table, with the removal after a deadline as a step of its
    own.

    ** What the theorems show

    - Safety: in any interleaving, with any answers of the network, the
      routing table keeps its invariant and the node speaks in its own name;
      the invariant of every reachable table and of every bucket. On the UDP
      transport the packets taken from the queue and those still in it are
      the messages the tasks sent, in order.
    - Liveness: no deadlock; in fair runs whose sends return the operations end
      and the background tasks recur.
    - Types: contacts and statistics stay in the ranges of their Rust types.
    - Function: every branch of the operations on identifiers, buckets,
      tables and storages, errors and panics included; [KBucket.update] is
      equivalent to its specification; lookups in the table agree with the list
      of its contacts; what a request is answered, what [find_node] returns,
      and that it is what a reference computes while all answer; when
      [record_contact] reports a new contact, what is stored and read; what a
      round of each background task does; a remote call over the in-memory
      transport from the request to the waiter; the outcomes of the example's
      subcommands.
    - Termination and bounds: of the table's recursion, of [find_node], of all
      operations; at most 50 queries of [find_value]; the rate limiter.
    - Round trips: storage, frames of the TCP transport, a message from the
      queue of one TCP transport to the handler of another.
    - Defects of the code, stated as what it does: recorded responses that
      never reach the table, stale entries of the replacement cache that bring a
      contact into a bucket twice, the wrong candidate dropped by [find_node],
      duplicates in [find_value], requests left pending, responses lost before
      the waiter registers, waiters removed by an older one, operations that
      hang in a send, values that come back after they expired, transports
      unregistered by another one.

    ** Choices

    - Results are [Result]s of [Errors]; a panic, or a loop out of fuel, is an
      outcome of [exec] below. A panic in a lock section leaves the state as it
      was before the section; the task ends.
    - Integers have their machine width: the overflow checks of a debug build
      are the class [Profile], and every theorem holds for both profiles unless
      it says otherwise.
    - [SystemTime::now], [Instant::now] and random draws are arguments; in a
      lock section each of the two clocks is read once. Durations and instants
      are nanoseconds, [LastSeen] seconds.
    - The iteration order of a [HashMap] is an instance of [HashOrder]:
      theorems hold for every order.
    - Fuel: [RoutingTable.update] gets 161 calls, one per prefix length and one
      more, and never needs more ([table_update_total]); the TCP connection
      gets the length of its stream plus one, as every frame takes at least
      five bytes. Asynchronous loops need no fuel: they are an action.
    - SHA-256, hex, [bincode], the binding of sockets and the textual form of
      addresses are parameters of the definitions that use them; tokio's [mpsc]
      channel is the class [Mpsc] with its laws, and [ListChannel] an instance.

    ** Not modelled

    What the operating system does with datagrams and connections (a transport
    gets any bytes, and its sends any results), the encoding of messages and
    the parsing of arguments ([bincode] and [clap] derive them), logging
    ([tracing] calls, [init_tracing] and [dump_storage]), the derived [Debug],
    [Display], [Hash] and serde code, and the tests. The locks of tokio are not poisoned by a panic. Limits of memory:
    [VecDeque::with_capacity] panics for a bucket size no memory could hold,
    which [with_k] accepts. The table that [wait_response] uses has a lock of
    its own, never held across an [await]: its sections are single steps.

    This file has what all others share: outcomes of computations, machine
    integers, iterator functions, stable sorting, hash maps and automation. *)

From stdpp Require Export base tactics list sorting gmap numbers option strings.
From Stdlib Require Export ZArith Lia.

#[export] Set Default Goal Selector "!".

Declare Scope kad_scope.
Delimit Scope kad_scope with kad.
Open Scope kad_scope.

(** ** Outcomes of a Rust computation

    A Rust function returns a value, panics ([expect], an out-of-range index,
    an arithmetic overflow in a build with overflow checks), or, for a loop or
    a recursion modelled with fuel, exhausts its fuel.  [Err] values are
    ordinary return values (see [Errors]). *)
Inductive exec (A : Type) : Type :=
  | Done (a : A)
  | Panic
  | OutOfFuel.
Arguments Done {A} a.
Arguments Panic {A}.
Arguments OutOfFuel {A}.

#[export] Instance exec_eq_dec {A} `{EqDecision A} : EqDecision (exec A).
Proof. solve_decision. Defined.

#[export] Instance exec_ret : MRet exec := fun A a => Done a.
#[export] Instance exec_bind : MBind exec := fun A B f m =>
  match m with
  | Done a => f a
  | Panic => Panic
  | OutOfFuel => OutOfFuel
  end.

(** A computation that returns (neither panics nor runs out of fuel). *)
Definition returns {A} (m : exec A) : Prop := exists a, m = Done a.

Lemma exec_bind_Done {A B} (f : A -> exec B) a : (Done a ≫= f) = f a.
Proof. reflexivity. Qed.

Lemma exec_bind_inv {A B} (f : A -> exec B) m b :
  (m ≫= f) = Done b -> exists a, m = Done a /\ f a = Done b.
Proof. destruct m; cbn; try discriminate. eauto. Qed.

Lemma returns_Done {A} (a : A) : returns (Done a).
Proof. eexists; reflexivity. Qed.

Lemma returns_bind {A B} (f : A -> exec B) m :
  returns m -> (forall a, m = Done a -> returns (f a)) -> returns (m ≫= f).
Proof. intros [a ->] Hf. apply Hf. reflexivity. Qed.

(** A computation that does not run out of fuel. *)
Definition enough_fuel {A} (m : exec A) : Prop := m <> OutOfFuel.

Lemma enough_fuel_Done {A} (a : A) : enough_fuel (Done a).
Proof. done. Qed.
Lemma enough_fuel_Panic {A} : enough_fuel (@Panic A).
Proof. done. Qed.
Lemma enough_fuel_bind {A B} (f : A -> exec B) m :
  enough_fuel m -> (forall a, m = Done a -> enough_fuel (f a)) -> enough_fuel (m ≫= f).
Proof. unfold enough_fuel. destruct m; cbn; auto. Qed.

Create HintDb kad.
#[export] Hint Resolve returns_Done enough_fuel_Done enough_fuel_Panic : kad.
#[export] Hint Extern 1 (enough_fuel (_ ≫= _)) => apply enough_fuel_bind; [|intros] : kad.
#[export] Hint Extern 0 (enough_fuel (mret _)) => apply enough_fuel_Done : kad.

(** Inverts every [_ ≫= _ = Done _] hypothesis. *)
Ltac exec_inv :=
  repeat match goal with
  | H : (_ ≫= _) = Done _ |- _ =>
      apply exec_bind_inv in H; destruct H as (? & ? & H)
  | H : Done _ = Done _ |- _ => injection H as H
  | H : mret _ = Done _ |- _ => injection H as H
  | H : Panic = Done _ |- _ => discriminate H
  | H : OutOfFuel = Done _ |- _ => discriminate H
  end.

(** Case analysis on the discriminee of the first [match] of the goal. *)
Ltac kcase := repeat (case_match; simplify_eq/=; try done).

(** Proves a decidable goal by evaluating its decision procedure. *)
Ltac by_decide := refine (bool_decide_unpack _ _); vm_compute; exact I.

(** ** Build profile

    [cargo build] compiles with overflow checks, [cargo build --release]
    without: an overflowing [+] panics in the first and wraps in the second.
    The repository's Cargo.toml sets no profile, so both are programs of the
    repository and the model takes the choice as a parameter. *)
Class Profile := overflow_checks : bool.

Definition debug_build : Profile := true.
Definition release_build : Profile := false.

(** ** Machine integers: unsigned w-bit integers are [Z] values in range. *)
Definition U8_MAX : Z := 2 ^ 8 - 1.
Definition U32_MAX : Z := 2 ^ 32 - 1.
Definition U64_MAX : Z := 2 ^ 64 - 1.

(** [a + b] on an unsigned type with maximum [m]. *)
Definition uadd `{Profile} (m a b : Z) : exec Z :=
  if Z.leb (a + b) m then Done (a + b)%Z
  else if overflow_checks then Panic else Done ((a + b) mod (m + 1))%Z.

(** [a.saturating_add(b)] on an unsigned type with maximum [m]. *)
Definition usat_add (m a b : Z) : Z := Z.min m (a + b).

Lemma uadd_exact `{Profile} m a b : (a + b <= m)%Z -> uadd m a b = Done (a + b)%Z.
Proof. intros Hle. unfold uadd. destruct (Z.leb_spec (a + b) m); [done | lia]. Qed.

Lemma uadd_bounds `{Profile} m a b c :
  (0 <= m -> 0 <= a -> 0 <= b -> uadd m a b = Done c -> 0 <= c <= m)%Z.
Proof.
  unfold uadd. intros Hm Ha Hb. destruct (Z.leb_spec (a + b) m).
  - intros [= <-]. lia.
  - destruct overflow_checks; [discriminate |]. intros [= <-].
    pose proof (Z.mod_pos_bound (a + b) (m + 1)). lia.
Qed.

Lemma uadd_fuel `{Profile} m a b : enough_fuel (uadd m a b).
Proof. unfold uadd. repeat case_match; auto with kad. Qed.
#[export] Hint Resolve uadd_fuel : kad.

(** ** Durations: [std::time::Duration] as a number of nanoseconds. *)
Definition Duration := Z.
Bind Scope Z_scope with Duration.
Definition from_secs (s : Z) : Duration := (s * 1000000000)%Z.
Definition from_millis (ms : Z) : Duration := (ms * 1000000)%Z.
(** [as_millis() as u64]: [as_millis] is a [u128], the cast keeps 64 bits. *)
Definition as_millis_u64 (d : Duration) : Z := (d / 1000000) mod 2 ^ 64.

(** ** Iterator methods on vectors and deques *)
Section iter.
Context {A : Type}.
Implicit Types (l : list A) (p : A -> bool).

(** [iter().position(p)] *)
Fixpoint position p l : option nat :=
  match l with
  | [] => None
  | x :: l' => if p x then Some 0 else S <$> position p l'
  end.

(** [iter().position(p)] when evaluating [p] can panic. *)
Fixpoint positionM (p : A -> exec bool) l : exec (option nat) :=
  match l with
  | [] => mret None
  | x :: l' =>
      b ← p x;
      if b : bool then mret (Some 0) else
      r ← positionM p l';
      mret (S <$> r)
  end.

(** [iter().find(p)] *)
Fixpoint find_first p l : option A :=
  match l with
  | [] => None
  | x :: l' => if p x then Some x else find_first p l'
  end.

Lemma position_Some p l i :
  position p l = Some i ->
  exists x, l !! i = Some x /\ p x = true /\
    forall j y, j < i -> l !! j = Some y -> p y = false.
Proof.
  revert i. induction l as [|x l IH]; intros i; cbn; [done|].
  destruct (p x) eqn:Hp.
  - intros [= <-]. exists x. split_and!; [done..|]. intros; lia.
  - destruct (position p l) as [j|] eqn:Hj; cbn; [|done].
    intros [= <-]. destruct (IH j eq_refl) as (y & Hy & Hpy & Hmin).
    exists y. split_and!; [done..|].
    intros [|j'] z Hlt Hz; cbn in Hz; [congruence|]. apply (Hmin j'); [lia|done].
Qed.

Lemma position_intro p l i x :
  l !! i = Some x -> p x = true ->
  (forall j y, j < i -> l !! j = Some y -> p y = false) ->
  position p l = Some i.
Proof.
  revert i. induction l as [|y l IH]; intros i; cbn; [done|]. intros Hx Hp Hmin.
  destruct i as [|i]; cbn in Hx.
  - injection Hx as ->. by rewrite Hp.
  - rewrite (Hmin 0 y) by (lia || done). rewrite (IH i); [done..|].
    intros j z Hj Hz. apply (Hmin (S j) z); [lia|done].
Qed.

Lemma position_None p l :
  position p l = None <-> Forall (fun x => p x = false) l.
Proof.
  induction l as [|x l IH]; cbn; [split; auto|].
  rewrite Forall_cons. destruct (p x) eqn:Hp; [naive_solver|].
  rewrite fmap_None, IH. naive_solver.
Qed.

Lemma position_is_Some p l :
  is_Some (position p l) <-> exists x, x ∈ l /\ p x = true.
Proof.
  split.
  - intros [i (x & Hx & Hp & _)%position_Some].
    exists x. split; [by eapply list_elem_of_lookup_2|done].
  - intros (x & Hx & Hp). rewrite <-not_eq_None_Some, position_None, Forall_forall.
    intros Hall. specialize (Hall x Hx). congruence.
Qed.

Lemma find_first_position p l :
  find_first p l = position p l ≫= fun i => l !! i.
Proof.
  induction l as [|x l IH]; cbn; [done|].
  destruct (p x); [done|]. rewrite IH. by destruct (position p l).
Qed.

(** Splitting a list at the position found. *)
Lemma position_split p l i :
  position p l = Some i ->
  exists l1 x l2, l = l1 ++ x :: l2 /\ length l1 = i /\ p x = true /\
    Forall (fun y => p y = false) l1.
Proof.
  revert i. induction l as [|x l IH]; intros i; cbn; [done|].
  destruct (p x) eqn:Hp.
  - intros [= <-]. by exists [], x, l.
  - destruct (position p l) as [j|]; [|done]. intros [= <-].
    destruct (IH j eq_refl) as (l1 & y & l2 & -> & <- & Hy & Hl1).
    exists (x :: l1), y, l2. auto.
Qed.

Lemma position_split_intro p l1 x l2 :
  Forall (fun y => p y = false) l1 -> p x = true ->
  position p (l1 ++ x :: l2) = Some (length l1).
Proof.
  intros Hl1 Hx. induction Hl1 as [|y l1 Hy Hl1 IH]; cbn; [by rewrite Hx|].
  by rewrite Hy, IH.
Qed.

Lemma positionM_split (p : A -> exec bool) l i :
  positionM p l = Done (Some i) ->
  exists l1 x l2, l = l1 ++ x :: l2 /\ length l1 = i /\ p x = Done true /\
    Forall (fun y => p y = Done false) l1.
Proof.
  revert i. induction l as [|x l IH]; intros i; cbn; [done|].
  destruct (p x) as [[]| |] eqn:Hp; cbn; try done.
  - intros [= <-]. by exists [], x, l.
  - destruct (positionM p l) as [[j|]| |]; cbn; try done. intros [= <-].
    destruct (IH j eq_refl) as (l1 & y & l2 & -> & <- & Hy & Hl1).
    exists (x :: l1), y, l2. auto.
Qed.

Lemma positionM_split_intro (p : A -> exec bool) l1 x l2 :
  Forall (fun y => p y = Done false) l1 -> p x = Done true ->
  positionM p (l1 ++ x :: l2) = Done (Some (length l1)).
Proof.
  intros Hl1 Hx. induction Hl1 as [|y l1 Hy Hl1 IH]; cbn; [by rewrite Hx|].
  by rewrite Hy, exec_bind_Done, IH.
Qed.

Lemma positionM_None (p : A -> exec bool) l :
  positionM p l = Done None <-> Forall (fun y => p y = Done false) l.
Proof.
  induction l as [|x l IH]; cbn; [split; auto|].
  rewrite Forall_cons. destruct (p x) as [[]| |]; cbn; [naive_solver| |naive_solver..].
  destruct (positionM p l) as [[j|]| |]; cbn; naive_solver.
Qed.

Lemma positionM_returns (p : A -> exec bool) l :
  (forall x, x ∈ l -> returns (p x)) -> returns (positionM p l).
Proof.
  induction l as [|x l IH]; cbn; [eauto with kad|]. intros Hp.
  destruct (Hp x) as [b Hb]; [by left|]. rewrite Hb. cbn.
  destruct b; [eauto with kad|].
  destruct IH as [r Hr]; [intros y Hy; apply Hp; by right|].
  rewrite Hr. cbn. eauto with kad.
Qed.

Lemma positionM_fuel (p : A -> exec bool) l :
  (forall x, enough_fuel (p x)) -> enough_fuel (positionM p l).
Proof.
  intros Hp. induction l as [|x l IH]; cbn; [auto with kad|].
  apply enough_fuel_bind; [done|]. intros [] _; [auto with kad|].
  apply enough_fuel_bind; auto with kad.
Qed.

Lemma length_delete_lookup l i x :
  l !! i = Some x -> S (length (delete i l)) = length l.
Proof. intros Hx. by rewrite (delete_Permutation l i x Hx) at 2. Qed.
End iter.
#[export] Hint Resolve Forall_delete : kad.

(** ** Sorting

    [slice::sort_by] is a stable sort; stdpp's [merge_sort] is one too. *)
Section sort_by.
Context {A : Type} (cmp : A -> A -> comparison).

Definition cmp_le (x y : A) : Prop := cmp x y <> Gt.

#[global] Instance cmp_le_dec x y : Decision (cmp_le x y).
Proof. unfold cmp_le. destruct (cmp x y); (left; congruence) || (right; congruence). Defined.

Definition sort_by : list A -> list A := merge_sort cmp_le.

Lemma sort_by_Permutation l : sort_by l ≡ₚ l.
Proof. apply merge_sort_Permutation. Qed.

Lemma elem_of_sort_by x l : x ∈ sort_by l <-> x ∈ l.
Proof. by rewrite sort_by_Permutation. Qed.

Lemma length_sort_by l : length (sort_by l) = length l.
Proof. by rewrite sort_by_Permutation. Qed.

Context (key : A -> Z) (Hkey : forall x y, cmp x y = Z.compare (key x) (key y)).

Lemma cmp_le_key x y : cmp_le x y <-> (key x <= key y)%Z.
Proof using Hkey. unfold cmp_le. by rewrite Hkey. Qed.

Lemma sort_by_sorted l :
  StronglySorted (fun x y => (key x <= key y)%Z) (sort_by l).
Proof using Hkey.
  assert (Transitive cmp_le) by (intros ???; rewrite !cmp_le_key; lia).
  assert (Total cmp_le) by (intros ??; rewrite !cmp_le_key; lia).
  pose proof (StronglySorted_merge_sort cmp_le l) as Hs. revert Hs.
  unfold sort_by. generalize (merge_sort cmp_le l) as l'. intros l'.
  induction 1 as [|x l' Hs IH Hx]; constructor; [done|].
  eapply Forall_impl; [exact Hx|]. intros y. apply cmp_le_key.
Qed.
End sort_by.

(** The prefix of a sorted list is no further than the rest. *)
Lemma sorted_take_closest {A} (key : A -> Z) n l x y :
  StronglySorted (fun x y => (key x <= key y)%Z) l ->
  x ∈ take n l -> y ∈ drop n l -> (key x <= key y)%Z.
Proof.
  intros Hs Hx Hy. rewrite <-(take_drop n l) in Hs.
  by eapply (StronglySorted_app_1_elem_of _ _ _ _ _ Hs).
Qed.

Lemma sorted_take {A} (R : A -> A -> Prop) n l :
  StronglySorted R l -> StronglySorted R (take n l).
Proof. intros Hs. rewrite <-(take_drop n l) in Hs. by eapply StronglySorted_app_1_l. Qed.

Lemma sorted_remove_middle {A} (R : A -> A -> Prop) l1 x l2 :
  StronglySorted R (l1 ++ x :: l2) -> StronglySorted R (l1 ++ l2).
Proof.
  rewrite !StronglySorted_app, StronglySorted_cons.
  intros (H12 & H1 & _ & H2). split_and!; [|done..].
  intros y z Hy Hz. apply H12; [done | by right].
Qed.

Lemma sorted_snoc {A} (R : A -> A -> Prop) l x :
  StronglySorted R l -> Forall (fun y => R y x) l -> StronglySorted R (l ++ [x]).
Proof.
  intros Hl Hx. apply StronglySorted_app. rewrite Forall_forall in Hx. split_and!.
  - intros y z Hy ->%list_elem_of_singleton. by apply Hx.
  - done.
  - repeat constructor.
Qed.

Lemma NoDup_perm {A} (l l' : list A) : l ≡ₚ l' -> NoDup l -> NoDup l'.
Proof. by intros ->. Qed.

Lemma NoDup_snoc {A} (l : list A) x : NoDup (l ++ [x]) <-> NoDup l /\ x ∉ l.
Proof.
  rewrite NoDup_app. split.
  - intros (Hl & Hx & _). split; [done|]. intros Hin. apply (Hx x Hin). by left.
  - intros [Hl Hx]. split_and!; [done| |apply NoDup_singleton].
    by intros y Hy ->%list_elem_of_singleton.
Qed.

Lemma NoDup_middle {A} (l1 : list A) x l2 :
  NoDup (l1 ++ x :: l2) <-> NoDup (l1 ++ l2) /\ x ∉ l1 ++ l2.
Proof. rewrite <-Permutation_middle, NoDup_cons. tauto. Qed.

Lemma elem_of_take_l {A} n (l : list A) x : x ∈ take n l -> x ∈ l.
Proof. intros Hx. rewrite <-(take_drop n l). set_solver. Qed.

(** ** Filters *)
Lemma length_filter_split {A} (P Q : A -> Prop) `{!forall x, Decision (P x), !forall x, Decision (Q x)} l :
  length (filter P l) =
    length (filter P (filter Q l)) + length (filter P (filter (fun x => ~ Q x) l)).
Proof.
  induction l as [|x l IH]; [done|]. rewrite !filter_cons.
  destruct (decide (Q x)), (decide (~ Q x)); try tauto; rewrite filter_cons; destruct (decide (P x));
    cbn [length]; rewrite IH; lia.
Qed.

(** ** Concatenation of lists *)
Lemma NoDup_bind_disjoint {A B} (f : A -> list B) l :
  NoDup l -> (forall x, x ∈ l -> NoDup (f x)) ->
  (forall x y z, x ∈ l -> y ∈ l -> z ∈ f x -> z ∈ f y -> x = y) ->
  NoDup (l ≫= f).
Proof.
  induction 1 as [|x l Hx Hl IH]; intros Hf Hd; cbn; [constructor|].
  apply NoDup_app. split_and!.
  - apply Hf. by left.
  - intros z Hz (y & Hzy & Hy)%list_elem_of_bind. apply Hx.
    by rewrite (Hd x y z) by (done || by constructor).
  - apply IH; [intros; apply Hf; by right|]. intros a b z Ha Hb. apply Hd; by right.
Qed.

Lemma length_bind {A B} (f : A -> list B) l :
  length (l ≫= f) = sum_list ((fun x => length (f x)) <$> l).
Proof. induction l as [|x l IH]; csimpl; [done|]. by rewrite length_app, IH. Qed.

(** A list sorted by distinct keys is determined by its elements. *)
Lemma sorted_perm_unique {A} (key : A -> Z) l1 l2 :
  NoDup (key <$> l1) ->
  StronglySorted (fun x y => key x <= key y)%Z l1 ->
  StronglySorted (fun x y => key x <= key y)%Z l2 ->
  l1 ≡ₚ l2 -> l1 = l2.
Proof.
  intros Hnd Hs1. revert l2 Hnd. induction Hs1 as [|x l1 Hs1 IH Hx]; intros l2 Hnd Hs2 Hp.
  { symmetry. by apply Permutation_nil. }
  destruct l2 as [|y l2]; [by symmetry in Hp; apply Permutation_nil_cons in Hp|].
  apply StronglySorted_cons in Hs2 as [Hy Hs2]. rewrite fmap_cons, NoDup_cons in Hnd.
  destruct Hnd as [Hkx Hnd].
  assert (x = y) as ->.
  { assert (y ∈ x :: l1) as Hy1 by (rewrite Hp; by left).
    assert (x ∈ y :: l2) as Hx2 by (rewrite <-Hp; by left).
    apply elem_of_cons in Hy1 as [->|Hy1]; [done|]. apply elem_of_cons in Hx2 as [->|Hx2]; [done|].
    rewrite Forall_forall in Hx, Hy. specialize (Hx y Hy1). specialize (Hy x Hx2).
    destruct Hkx. apply list_elem_of_fmap. exists y. split; [cbn in *; lia|done]. }
  f_equal. apply IH; [done..|]. by apply Permutation_cons_inv in Hp.
Qed.

(** ** Hash maps

    A [HashMap] is a finite map; the order in which it is iterated is not
    specified, so it is an instance of this class: any listing of the entries. *)
Class HashOrder (K A : Type) `{Countable K} := {
  hash_iter : gmap K A -> list (K * A);
  hash_iter_perm m : hash_iter m ≡ₚ map_to_list m
}.
#[global] Arguments hash_iter {K A _ _ _} m : simpl never.

Section hash_map.
Context {K A : Type} `{Countable K, !HashOrder K A}.

Definition hash_keys (m : gmap K A) : list K := (hash_iter m).*1.
Definition hash_values (m : gmap K A) : list A := (hash_iter m).*2.

Lemma elem_of_hash_iter m i x : (i, x) ∈ hash_iter m <-> m !! i = Some x.
Proof. by rewrite hash_iter_perm, elem_of_map_to_list. Qed.

Lemma NoDup_hash_keys m : NoDup (hash_keys m).
Proof. unfold hash_keys. rewrite hash_iter_perm. apply NoDup_fst_map_to_list. Qed.

Lemma elem_of_hash_keys m i : i ∈ hash_keys m <-> is_Some (m !! i).
Proof.
  unfold hash_keys. rewrite list_elem_of_fmap. split.
  - intros ([j x] & -> & Hx%elem_of_hash_iter). eauto.
  - intros [x Hx]. exists (i, x). by rewrite elem_of_hash_iter.
Qed.

Lemma elem_of_hash_values m x : x ∈ hash_values m <-> exists i, m !! i = Some x.
Proof.
  unfold hash_values. rewrite list_elem_of_fmap. split.
  - intros ([j y] & -> & Hx%elem_of_hash_iter). eauto.
  - intros [i Hx]. exists (i, x). by rewrite elem_of_hash_iter.
Qed.
End hash_map.

(** One order a program could use. *)
Definition listed_order {K A} `{Countable K} : HashOrder K A :=
  {| hash_iter := map_to_list; hash_iter_perm m := reflexivity _ |}.

(** The values of a map by two orders are the same up to order. *)
Lemma hash_values_perm {K A} `{Countable K} (h1 h2 : HashOrder K A) (m : gmap K A) :
  @hash_values _ _ _ _ h1 m ≡ₚ @hash_values _ _ _ _ h2 m.
Proof. unfold hash_values. by rewrite !hash_iter_perm. Qed.
