(* ===== verification/Errors.v ===== *)
(** * Error values of the crate (src/src/error.rs, [Result] of src/src/lib.rs) *)

From S2P Require Import Prelude.

(** The kinds of [std::io::Error] the code distinguishes. *)
Inductive ErrorKind := UnexpectedEof | OtherIo.

Inductive Error :=
  | Io (kind : ErrorKind)
  | Serialization
  | Bincode
  | NodeNotFound
  | ValueNotFound
  | Network (msg : string)
  | Timeout
  | InvalidNodeId
  | Other (msg : string).

#[export] Instance error_kind_eq_dec : EqDecision ErrorKind.
Proof. solve_decision. Defined.
#[export] Instance error_eq_dec : EqDecision Error.
Proof. solve_decision. Defined.

(** [pub type Result<T> = std::result::Result<T, Error>] *)
Inductive Result (A : Type) :=
  | Ok (a : A)
  | Err (e : Error).
Arguments Ok {A} a.
Arguments Err {A} e.

#[export] Instance result_ret : MRet Result := fun A a => Ok a.
#[export] Instance result_bind : MBind Result := fun A B f r =>
  match r with Ok a => f a | Err e => Err e end.

(** [r.is_ok()] and [r.ok()] *)
Definition is_ok {A} (r : Result A) : bool :=
  match r with Ok _ => true | Err _ => false end.
Definition ok {A} (r : Result A) : option A :=
  match r with Ok a => Some a | Err _ => None end.

(** The [?] operator inside a computation that can panic: an [Err] returns
    from the enclosing function with the state reached so far. *)
Definition try {A B} (r : Result A) (on_err : Error -> B) (k : A -> B) : B :=
  match r with Ok a => k a | Err e => on_err e end.
