(* ===== verification/Bytes.v ===== *)
(** * Bytes, byte strings and big-endian values

    [u8] is the Standard Library's type of the 256 bytes, so a [Vec<u8>] or a
    [[u8; n]] needs no range side condition.  [be_val] is the number a
    big-endian byte string denotes and [bits] its bits, most significant
    first: the two views of an identifier the theorems of [Ident] relate. *)

From Stdlib Require Import Strings.Byte.
From S2P Require Import Prelude.

Definition u8 := Byte.byte.

#[export] Instance u8_eq_dec : EqDecision u8 := Byte.byte_eq_dec.
#[export] Program Instance u8_countable : Countable u8 :=
  inj_countable Byte.to_N Byte.of_N _.
Next Obligation. intros b. apply Byte.of_to_N. Qed.

Definition u8_val (b : u8) : Z := Z.of_N (Byte.to_N b).
Definition u8_of (z : Z) : u8 :=
  default Byte.x00 (Byte.of_N (Z.to_N (z mod 256))).

Lemma u8_val_range b : (0 <= u8_val b < 256)%Z.
Proof. unfold u8_val. pose proof (Byte.to_N_bounded b). lia. Qed.

Lemma u8_val_of z : u8_val (u8_of z) = (z mod 256)%Z.
Proof.
  unfold u8_of, u8_val. pose proof (Z.mod_pos_bound z 256).
  destruct (Byte.of_N (Z.to_N (z mod 256))) as [b|] eqn:Hb; cbn.
  - apply Byte.to_of_N in Hb. lia.
  - apply Byte.of_N_None_iff in Hb. lia.
Qed.

Lemma u8_val_of_small z : (0 <= z < 256)%Z -> u8_val (u8_of z) = z.
Proof. intros. by rewrite u8_val_of, Z.mod_small. Qed.

Lemma u8_of_val b : u8_of (u8_val b) = b.
Proof.
  unfold u8_of. rewrite Z.mod_small by apply u8_val_range.
  unfold u8_val. by rewrite N2Z.id, Byte.of_to_N.
Qed.

#[export] Instance u8_val_inj : Inj (=) (=) u8_val.
Proof. intros a b Hab. by rewrite <-(u8_of_val a), Hab, u8_of_val. Qed.

(** Bit operators on [u8]; [1 << k] with [k < 8]. *)
Definition u8_xor (a b : u8) : u8 := u8_of (Z.lxor (u8_val a) (u8_val b)).
Definition u8_and (a b : u8) : u8 := u8_of (Z.land (u8_val a) (u8_val b)).
Definition u8_or (a b : u8) : u8 := u8_of (Z.lor (u8_val a) (u8_val b)).
Definition u8_not (a : u8) : u8 := u8_of (Z.lxor (u8_val a) 255).
Definition u8_bit (k : nat) : u8 := u8_of (Z.shiftl 1 (Z.of_nat k)).
Definition u8_is_zero (a : u8) : bool := Z.eqb (u8_val a) 0.

(** Bit [k] of a byte, least significant first. *)
Definition u8_testbit (b : u8) (k : nat) : bool := Z.testbit (u8_val b) (Z.of_nat k).

Lemma u8_val_testbit_high b k : (8 <= k)%Z -> Z.testbit (u8_val b) k = false.
Proof.
  intros Hk. rewrite <-(Z.mod_small (u8_val b) (2 ^ 8)) by apply u8_val_range.
  apply Z.mod_pow2_bits_high. lia.
Qed.

Lemma u8_ext a b :
  (forall k, k < 8 -> u8_testbit a k = u8_testbit b k) -> a = b.
Proof.
  intros Hab. apply u8_val_inj, Z.bits_inj'. intros k Hk.
  destruct (Z.lt_ge_cases k 8).
  - specialize (Hab (Z.to_nat k)). unfold u8_testbit in Hab.
    rewrite Z2Nat.id in Hab by lia. apply Hab. lia.
  - by rewrite !u8_val_testbit_high.
Qed.

Lemma u8_testbit_of z k : k < 8 -> u8_testbit (u8_of z) k = Z.testbit z (Z.of_nat k).
Proof.
  intros Hk. unfold u8_testbit. rewrite u8_val_of.
  change 256%Z with (2 ^ 8)%Z. apply Z.mod_pow2_bits_low. lia.
Qed.

Section testbit.
Variables (a b : u8) (k : nat) (Hk : k < 8).
Lemma u8_xor_testbit :
  u8_testbit (u8_xor a b) k = xorb (u8_testbit a k) (u8_testbit b k).
Proof using Hk. unfold u8_xor. rewrite u8_testbit_of by done. apply Z.lxor_spec. Qed.
Lemma u8_and_testbit :
  u8_testbit (u8_and a b) k = andb (u8_testbit a k) (u8_testbit b k).
Proof using Hk. unfold u8_and. rewrite u8_testbit_of by done. apply Z.land_spec. Qed.
Lemma u8_or_testbit :
  u8_testbit (u8_or a b) k = orb (u8_testbit a k) (u8_testbit b k).
Proof using Hk. unfold u8_or. rewrite u8_testbit_of by done. apply Z.lor_spec. Qed.
Lemma u8_not_testbit : u8_testbit (u8_not a) k = negb (u8_testbit a k).
Proof using Hk.
  unfold u8_not. rewrite u8_testbit_of by done. rewrite Z.lxor_spec.
  change 255%Z with (Z.ones 8). rewrite Z.ones_spec_low by lia. apply xorb_true_r.
Qed.
Lemma u8_bit_testbit j : j < 8 -> u8_testbit (u8_bit k) j = bool_decide (j = k).
Proof using Hk.
  intros Hj. unfold u8_bit. rewrite u8_testbit_of by done.
  rewrite Z.shiftl_mul_pow2, Z.mul_1_l, Z.pow2_bits_eqb by lia.
  case_bool_decide; destruct (Z.eqb_spec (Z.of_nat k) (Z.of_nat j)); lia || done.
Qed.
End testbit.

(** [byte & (1 << k) != 0] tests bit [k]. *)
Lemma u8_mask_nonzero b k :
  k < 8 -> negb (u8_is_zero (u8_and b (u8_bit k))) = u8_testbit b k.
Proof.
  intros Hk. destruct (u8_testbit b k) eqn:Hb.
  - apply negb_true_iff, Z.eqb_neq. intros H0.
    assert (u8_testbit (u8_and b (u8_bit k)) k = true) as Ht.
    { rewrite u8_and_testbit, u8_bit_testbit, Hb by done. by rewrite bool_decide_eq_true_2. }
    unfold u8_testbit in Ht. rewrite H0, Z.bits_0 in Ht. done.
  - apply negb_false_iff, Z.eqb_eq.
    change 0%Z with (u8_val (u8_of 0)). f_equal. apply u8_ext. intros j Hj.
    rewrite u8_and_testbit, u8_bit_testbit, u8_testbit_of, Z.bits_0 by done.
    case_bool_decide; subst; [by rewrite Hb | apply andb_false_r].
Qed.

Lemma lxor_cancel x y : Z.lxor x (Z.lxor x y) = y.
Proof. by rewrite <-Z.lxor_assoc, Z.lxor_nilpotent, Z.lxor_0_l. Qed.

(** ** Big-endian values *)
Fixpoint be_val (l : list u8) : Z :=
  match l with
  | [] => 0
  | b :: l' => u8_val b * 2 ^ (8 * Z.of_nat (length l')) + be_val l'
  end.

Lemma be_val_bound l : (0 <= be_val l < 2 ^ (8 * Z.of_nat (length l)))%Z.
Proof.
  induction l as [|b l IH]; cbn [be_val length]; [done|].
  pose proof (u8_val_range b).
  rewrite Nat2Z.inj_succ, Z.mul_succ_r, Z.pow_add_r by lia.
  change (2 ^ 8)%Z with 256%Z. nia.
Qed.

Lemma be_val_inj l1 l2 : length l1 = length l2 -> be_val l1 = be_val l2 -> l1 = l2.
Proof.
  revert l2. induction l1 as [|a l1 IH]; intros [|b l2]; cbn; try done.
  intros [= Hlen] Hv. rewrite <-Hlen in Hv.
  pose proof (be_val_bound l1) as B1. pose proof (be_val_bound l2) as B2.
  rewrite <-Hlen in B2.
  destruct (Z.div_mod_unique (2 ^ (8 * Z.of_nat (length l1)))
    (u8_val a) (u8_val b) (be_val l1) (be_val l2)) as [Hab Hl]; [lia..|].
  f_equal; [by apply u8_val_inj | by apply IH].
Qed.

(** [[u8; n]::cmp]: lexicographic comparison. *)
Fixpoint bytes_cmp (l1 l2 : list u8) : comparison :=
  match l1, l2 with
  | [], [] => Eq
  | [], _ :: _ => Lt
  | _ :: _, [] => Gt
  | a :: l1', b :: l2' =>
      match Z.compare (u8_val a) (u8_val b) with
      | Eq => bytes_cmp l1' l2'
      | c => c
      end
  end.

Lemma bytes_cmp_be l1 l2 :
  length l1 = length l2 -> bytes_cmp l1 l2 = Z.compare (be_val l1) (be_val l2).
Proof.
  revert l2. induction l1 as [|a l1 IH]; intros [|b l2]; cbn; try done.
  intros [= Hlen]. rewrite IH, Hlen by done.
  pose proof (be_val_bound l1) as B1. pose proof (be_val_bound l2) as B2.
  rewrite Hlen in B1. set (p := (2 ^ _)%Z) in *.
  destruct (Z.compare_spec (u8_val a) (u8_val b)); symmetry.
  - destruct (Z.compare_spec (be_val l1) (be_val l2));
      [apply Z.compare_eq_iff | apply Z.compare_lt_iff | apply Z.compare_gt_iff]; nia.
  - apply Z.compare_lt_iff. nia.
  - apply Z.compare_gt_iff. nia.
Qed.

(** ** Bits, most significant first *)
Definition byte_bits (b : u8) : list bool := (fun j => u8_testbit b (7 - j)) <$> seq 0 8.
Definition bits (l : list u8) : list bool := l ≫= byte_bits.

Lemma bits_cons b l : bits (b :: l) = byte_bits b ++ bits l.
Proof. reflexivity. Qed.

Lemma length_byte_bits b : length (byte_bits b) = 8.
Proof. reflexivity. Qed.

Lemma length_bits l : length (bits l) = 8 * length l.
Proof. induction l as [|b l IH]; [done|]. rewrite bits_cons, length_app, IH. cbn. lia. Qed.

Lemma lookup_byte_bits b j : j < 8 -> byte_bits b !! j = Some (u8_testbit b (7 - j)).
Proof. intros Hj. unfold byte_bits. by rewrite list_lookup_fmap, lookup_seq_lt. Qed.

Lemma lookup_bits l i :
  bits l !! i = (fun b => u8_testbit b (7 - i mod 8)) <$> l !! (i / 8).
Proof.
  revert i. induction l as [|b l IH]; intros i; [done|].
  rewrite bits_cons.
  destruct (Nat.lt_ge_cases i 8) as [Hi|Hi].
  - rewrite lookup_app_l, lookup_byte_bits by done.
    by rewrite Nat.div_small, Nat.mod_small.
  - rewrite lookup_app_r by done. rewrite length_byte_bits.
    destruct (Nat.le_exists_sub 8 i Hi) as (i' & -> & _). rewrite Nat.add_sub, IH.
    change (i' + 8) with (i' + 1 * 8).
    by rewrite Nat.div_add, Nat.Div0.mod_add, Nat.add_1_r by done.
Qed.

(** Splitting a number at a power of two splits its bits. *)
Lemma hi_lo_testbit n h v i :
  (0 <= n -> 0 <= v < 2 ^ n -> 0 <= i ->
   Z.testbit (h * 2 ^ n + v) i = if Z.ltb i n then Z.testbit v i else Z.testbit h (i - n))%Z.
Proof.
  intros Hn Hv Hi. destruct (Z.ltb_spec i n).
  - rewrite <-(Z.mod_pow2_bits_low (h * 2 ^ n + v) n i) by done.
    f_equal. rewrite Z.add_comm, Z.mod_add by lia. by apply Z.mod_small.
  - replace i with ((i - n) + n)%Z at 1 by lia.
    rewrite <-Z.shiftr_spec, Z.shiftr_div_pow2 by lia.
    f_equal. rewrite Z.div_add_l by lia. rewrite (Z.div_small v) by done. lia.
Qed.

Lemma be_val_testbit l i b :
  bits l !! i = Some b ->
  Z.testbit (be_val l) (8 * Z.of_nat (length l) - 1 - Z.of_nat i) = b.
Proof.
  revert i. induction l as [|x l IH]; intros i Hi; [done|].
  rewrite bits_cons in Hi.
  cbn [be_val length].
  assert (i < 8 * S (length l)) as Hlt.
  { apply lookup_lt_Some in Hi. rewrite length_app, length_bits in Hi.
    rewrite length_byte_bits in Hi. lia. }
  rewrite hi_lo_testbit by (lia || apply be_val_bound).
  destruct (Nat.lt_ge_cases i 8) as [H8|H8].
  - rewrite lookup_app_l, lookup_byte_bits in Hi by done. injection Hi as <-.
    destruct (Z.ltb_spec (8 * Z.of_nat (S (length l)) - 1 - Z.of_nat i)
      (8 * Z.of_nat (length l))); [lia|].
    unfold u8_testbit. f_equal. lia.
  - rewrite lookup_app_r in Hi by done. rewrite length_byte_bits in Hi.
    destruct (Z.ltb_spec (8 * Z.of_nat (S (length l)) - 1 - Z.of_nat i)
      (8 * Z.of_nat (length l))); [|lia].
    rewrite <-(IH (i - 8) Hi). f_equal. lia.
Qed.

Lemma be_val_xor l1 l2 :
  length l1 = length l2 ->
  be_val (zip_with u8_xor l1 l2) = Z.lxor (be_val l1) (be_val l2).
Proof.
  revert l2. induction l1 as [|a l1 IH]; intros [|b l2]; cbn; try done.
  intros [= Hlen]. rewrite length_zip_with_l_eq, IH, Hlen by done.
  pose proof (be_val_bound l1) as B1. pose proof (be_val_bound l2) as B2.
  rewrite Hlen in B1. set (n := (8 * Z.of_nat (length l2))%Z) in *.
  assert (0 <= Z.lxor (be_val l1) (be_val l2) < 2 ^ n)%Z as B3.
  { pose proof (be_val_bound (zip_with u8_xor l1 l2)) as B.
    by rewrite length_zip_with_l_eq, IH, Hlen in B by done. }
  apply Z.bits_inj'. intros i Hi.
  rewrite Z.lxor_spec, !hi_lo_testbit by lia.
  destruct (Z.ltb_spec i n); rewrite <-?Z.lxor_spec; [done|].
  unfold u8_xor. rewrite u8_val_of. change 256%Z with (2 ^ 8)%Z.
  destruct (Z.lt_ge_cases (i - n) 8).
  - by rewrite Z.mod_pow2_bits_low.
  - rewrite Z.mod_pow2_bits_high, Z.lxor_spec, !u8_val_testbit_high by lia. done.
Qed.

(** ** Position of the first set bit *)
Lemma position_app {A} (p : A -> bool) l1 l2 :
  position p (l1 ++ l2) =
    match position p l1 with
    | Some i => Some i
    | None => Nat.add (length l1) <$> position p l2
    end.
Proof.
  induction l1 as [|x l1 IH]; cbn.
  - by destruct (position p l2).
  - destruct (p x); [done|]. rewrite IH.
    destruct (position p l1); [done|]. by destruct (position p l2).
Qed.

Lemma position_fmap {A} (f : A -> bool) (l : list A) : position id (f <$> l) = position f l.
Proof. induction l as [|x l IH]; csimpl; [done|]. by rewrite IH. Qed.

Lemma position_byte_bits b :
  position id (byte_bits b) = position (fun j => u8_testbit b (7 - j)) (seq 0 8).
Proof. apply position_fmap. Qed.

Lemma position_byte_zero b : u8_is_zero b = true -> position id (byte_bits b) = None.
Proof.
  intros Hb%Z.eqb_eq. apply position_None, Forall_fmap, Forall_forall.
  intros j _. cbn. unfold u8_testbit. rewrite Hb. apply Z.bits_0.
Qed.

(** The most significant set bit of a positive value. *)
Lemma bits_log2 l :
  (0 < be_val l)%Z ->
  (Z.log2 (be_val l) < 8 * Z.of_nat (length l))%Z /\
  bits l !! Z.to_nat (8 * Z.of_nat (length l) - 1 - Z.log2 (be_val l)) = Some true.
Proof.
  intros Hpos. pose proof (be_val_bound l) as Bd. set (n := (8 * Z.of_nat (length l))%Z) in *.
  assert (Z.log2 (be_val l) < n)%Z as Hln by (apply Z.log2_lt_pow2; lia).
  pose proof (Z.log2_nonneg (be_val l)). split; [done|].
  destruct (lookup_lt_is_Some_2 (bits l) (Z.to_nat (n - 1 - Z.log2 (be_val l)))) as [b Hb].
  { rewrite length_bits. lia. }
  rewrite Hb. f_equal. rewrite <-(be_val_testbit _ _ _ Hb). fold n.
  rewrite <-(Z.bit_log2 (be_val l)) by done. f_equal. lia.
Qed.

Lemma position_bits_bounds l i (n := (8 * Z.of_nat (length l))%Z) :
  position id (bits l) = Some i ->
  i < 8 * length l /\ (2 ^ (n - 1 - Z.of_nat i) <= be_val l < 2 ^ (n - Z.of_nat i))%Z.
Proof.
  intros (b & Hi & Hb & Hmin)%position_Some. cbn in Hb. subst b.
  pose proof (lookup_lt_Some _ _ _ Hi) as Hlt. rewrite length_bits in Hlt.
  pose proof (be_val_bound l) as Bd. fold n in Bd.
  apply be_val_testbit in Hi. fold n in Hi.
  assert (2 ^ (n - 1 - Z.of_nat i) <= be_val l)%Z as Hlo.
  { destruct (Z.lt_ge_cases (be_val l) (2 ^ (n - 1 - Z.of_nat i))) as [Hc|]; [|done].
    rewrite <-(Z.mod_small (be_val l) (2 ^ (n - 1 - Z.of_nat i))) in Hi by lia.
    rewrite Z.mod_pow2_bits_high in Hi by lia. done. }
  split_and!; [done..|].
  assert (0 < be_val l)%Z as Hpos.
  { pose proof (Z.pow_pos_nonneg 2 (n - 1 - Z.of_nat i)). lia. }
  destruct (bits_log2 l Hpos) as [Hln Htop]. fold n in Hln, Htop.
  apply Z.log2_lt_cancel. rewrite Z.log2_pow2 by lia.
  destruct (Z.lt_ge_cases (Z.log2 (be_val l)) (n - Z.of_nat i)) as [|Hc]; [done|].
  apply Hmin in Htop; [done | lia].
Qed.

(** The first set bit bounds the value: [2^(n-1-i) <= v < 2^(n-i)]. *)
Lemma be_val_position l i (n := (8 * Z.of_nat (length l))%Z) :
  position id (bits l) = Some i <->
  i < 8 * length l /\ (2 ^ (n - 1 - Z.of_nat i) <= be_val l < 2 ^ (n - Z.of_nat i))%Z.
Proof.
  split; [apply position_bits_bounds|]. intros [Hi [Hlo Hhi]].
  destruct (position id (bits l)) as [j|] eqn:Hj.
  - destruct (position_bits_bounds l j Hj) as (Hlt & Hlo' & Hhi'). fold n in Hlo', Hhi'.
    f_equal.
    assert (n - 1 - Z.of_nat i < n - Z.of_nat j)%Z by (apply (Z.pow_lt_mono_r_iff 2); lia).
    assert (n - 1 - Z.of_nat j < n - Z.of_nat i)%Z by (apply (Z.pow_lt_mono_r_iff 2); lia).
    lia.
  - exfalso. apply position_None in Hj.
    destruct (bits_log2 l) as [_ Htop].
    { pose proof (Z.pow_pos_nonneg 2 (n - 1 - Z.of_nat i)). lia. }
    apply (Forall_lookup_1 _ _ _ _ Hj) in Htop. done.
Qed.

Lemma position_bits_None l : position id (bits l) = None <-> be_val l = 0%Z.
Proof.
  split.
  - intros Hn. pose proof (be_val_bound l). destruct (Z.eq_dec (be_val l) 0); [done|].
    destruct (bits_log2 l) as [_ Htop]; [lia|].
    apply position_None in Hn. apply (Forall_lookup_1 _ _ _ _ Hn) in Htop. done.
  - intros H0. destruct (position id (bits l)) as [i|] eqn:Hi; [|done].
    apply position_bits_bounds in Hi as [Hlt [Hlo _]]. rewrite H0 in Hlo.
    pose proof (Z.pow_pos_nonneg 2 (8 * Z.of_nat (length l) - 1 - Z.of_nat i)). lia.
Qed.
