(* ===== verification/Ident.v ===== *)
(** * 160-bit identifiers and the XOR metric (src/src/node_id.rs)

    [NodeId.t] is the 20-byte array of the struct.  The byte loops of the code
    are translated as loops; the theorems relate them to the 160-bit number
    [NodeId.val] the bytes denote. *)

From S2P Require Import Prelude Errors Bytes.

#[local] Arguments Nat.modulo : simpl never.
#[local] Arguments Nat.div : simpl never.

Definition KEY_LENGTH_BYTES : nat := 20.
Definition KEY_LENGTH_BITS : nat := KEY_LENGTH_BYTES * 8.

Module NodeId.

Record t := Mk {
  bytes : list u8;
  bytes_len : Is_true (length bytes =? KEY_LENGTH_BYTES)
}.
Add Printing Constructor t.

Lemma length_bytes (a : t) : length (bytes a) = KEY_LENGTH_BYTES.
Proof. apply Nat.eqb_eq, Is_true_eq_true, bytes_len. Qed.

(** [PartialEq]: equality of the byte arrays. *)
Lemma bytes_inj (a b : t) : bytes a = bytes b -> a = b.
Proof.
  destruct a as [la Ha], b as [lb Hb]. cbn. intros ->. f_equal. apply proof_irrel.
Qed.

#[export] Instance t_eq_dec : EqDecision t.
Proof.
  intros a b. destruct (decide (bytes a = bytes b)) as [E|E].
  - left. by apply bytes_inj.
  - right. congruence.
Defined.

Definition eqb (a b : t) : bool := bool_decide (a = b).

Lemma mk_len (l : list u8) : length l = KEY_LENGTH_BYTES -> Is_true (length l =? KEY_LENGTH_BYTES).
Proof. intros ->. by apply Is_true_eq_left, Nat.eqb_refl. Qed.

(** The array with the given bytes, for lists whose length is computed. *)
Definition of_list (l : list u8) (H : length l = KEY_LENGTH_BYTES) : t := Mk l (mk_len l H).

(** The identifier with the given big-endian value. *)
Fixpoint be_bytes (n : nat) (v : Z) : list u8 :=
  match n with
  | 0 => []
  | S n' => u8_of (Z.shiftr v (8 * Z.of_nat n')) :: be_bytes n' v
  end.
Lemma length_be_bytes n v : length (be_bytes n v) = n.
Proof. induction n; cbn; auto. Qed.

Definition of_val (v : Z) : t := of_list _ (length_be_bytes KEY_LENGTH_BYTES v).

(** [random()]: [rng.fill] of the [rand] crate supplies the bytes. *)
Section random.
Variable fill : list u8.
Lemma length_fill :
  length (take KEY_LENGTH_BYTES (fill ++ replicate KEY_LENGTH_BYTES Byte.x00))
    = KEY_LENGTH_BYTES.
Proof. rewrite length_take, length_app, length_replicate. lia. Qed.
Definition random : t := of_list _ length_fill.
End random.

(** [from_bytes]: the first 20 bytes, or all the bytes followed by zeros. *)
Definition from_bytes_list (data : list u8) : list u8 :=
  if KEY_LENGTH_BYTES <=? length data
  then take KEY_LENGTH_BYTES data
  else data ++ replicate (KEY_LENGTH_BYTES - length data) Byte.x00.
Lemma length_from_bytes_list data : length (from_bytes_list data) = KEY_LENGTH_BYTES.
Proof.
  unfold from_bytes_list. destruct (Nat.leb_spec KEY_LENGTH_BYTES (length data)).
  - rewrite length_take. lia.
  - rewrite length_app, length_replicate. lia.
Qed.
Definition from_bytes (data : list u8) : t := of_list _ (length_from_bytes_list data).

(** [distance]: byte-wise XOR. *)
Lemma length_distance a b : length (zip_with u8_xor (bytes a) (bytes b)) = KEY_LENGTH_BYTES.
Proof. rewrite length_zip_with_l_eq; rewrite ?length_bytes; done. Qed.
Definition distance (self other : t) : t := of_list _ (length_distance self other).

Definition bit_at (self : t) (pos : nat) : bool :=
  if KEY_LENGTH_BITS <=? pos then false else
  let byte_pos := pos / 8 in
  let bit_pos := 7 - (pos mod 8) in
  negb (u8_is_zero (u8_and (nth byte_pos (bytes self) Byte.x00) (u8_bit bit_pos))).

(** [leading_zeros]: the inner loop reports whether it broke out of ['outer]. *)
Fixpoint leading_zeros_byte (byte : u8) (bit_range : list nat) (count : nat) : nat * bool :=
  match bit_range with
  | [] => (count, false)
  | bit :: rest =>
      if negb (u8_is_zero (u8_and byte (u8_bit bit))) then (count, true)
      else leading_zeros_byte byte rest (S count)
  end.
Fixpoint leading_zeros_loop (bs : list u8) (count : nat) : nat :=
  match bs with
  | [] => count
  | byte :: rest =>
      let '(count', broke) := leading_zeros_byte byte (rev (seq 0 8)) count in
      if broke then count' else leading_zeros_loop rest count'
  end.
Definition leading_zeros (self : t) : nat := leading_zeros_loop (bytes self) 0.

Definition common_prefix_length (self other : t) : nat :=
  leading_zeros (distance self other).

(** [bucket_index]: the loop on [j] over the bits of a non-zero byte, inside
    the loop on [i] over the bytes. *)
Fixpoint bucket_index_byte (byte : u8) (i : nat) (js : list nat) : option nat :=
  match js with
  | [] => None
  | j :: rest =>
      let bit := 7 - j in
      if negb (u8_is_zero (u8_and byte (u8_bit bit))) then Some (i * 8 + j)
      else bucket_index_byte byte i rest
  end.
Fixpoint bucket_index_loop (bs : list u8) (i : nat) : option nat :=
  match bs with
  | [] => None
  | byte :: rest =>
      if u8_is_zero byte then bucket_index_loop rest (S i)
      else match bucket_index_byte byte i (seq 0 8) with
           | Some r => Some r
           | None => bucket_index_loop rest (S i)
           end
  end.
Definition bucket_index (self other : t) : option nat :=
  let d := distance self other in
  if forallb u8_is_zero (bytes d) then None
  else bucket_index_loop (bytes d) 0.

(** [Ord::cmp] *)
Definition cmp (self other : t) : comparison := bytes_cmp (bytes self) (bytes other).

(** [random_in_bucket]: [coin n] is the [n]-th [rng.gen::<bool>()]. *)
Section random_in_bucket.
Variable coin : nat -> bool.
Definition set_random_bit (bs : list u8) (bit : nat) (b : bool) : list u8 :=
  let b_pos := bit / 8 in
  let offset := 7 - (bit mod 8) in
  alter (fun x => if b then u8_or x (u8_bit offset)
                  else u8_and x (u8_not (u8_bit offset))) b_pos bs.
Fixpoint random_tail (bs : list u8) (bit n draw : nat) : list u8 :=
  match n with
  | 0 => bs
  | S n' => random_tail (set_random_bit bs bit (coin draw)) (S bit) n' (S draw)
  end.
Definition random_in_bucket_bytes (base : t) (bucket : nat) : list u8 :=
  let byte_pos := bucket / 8 in
  let bit_pos := 7 - (bucket mod 8) in
  let flipped := alter (fun x => u8_xor x (u8_bit bit_pos)) byte_pos (bytes base) in
  random_tail flipped (S bucket) (KEY_LENGTH_BITS - S bucket) 0.
Lemma length_random_tail bs bit n draw : length (random_tail bs bit n draw) = length bs.
Proof.
  revert bs bit draw. induction n as [|n IH]; intros bs bit draw; cbn; [done|].
  rewrite IH. apply length_alter.
Qed.
Lemma length_random_in_bucket base i :
  length (random_in_bucket_bytes base i) = KEY_LENGTH_BYTES.
Proof.
  unfold random_in_bucket_bytes.
  by rewrite length_random_tail, length_alter, length_bytes.
Qed.
Definition random_in_bucket (base : t) (bucket : nat) : option t :=
  if KEY_LENGTH_BITS <=? bucket then None
  else Some (of_list _ (length_random_in_bucket base bucket)).
End random_in_bucket.

(** [from_socket_addr], [from_hex] and [to_hex] call the [sha2] and [hex]
    crates; [addr.to_string()] is given as its bytes. *)
Section external.
Variable sha256 : list u8 -> list u8.
Definition from_socket_addr (addr_str : list u8) : t :=
  from_bytes (take KEY_LENGTH_BYTES (sha256 addr_str)).

Context {HexError : Type}.
Variable hex_decode : string -> list u8 + HexError.
Variable hex_encode : list u8 -> string.
Definition from_hex (hex_str : string) : t + HexError :=
  match hex_decode hex_str with
  | inl bs => inl (from_bytes bs)
  | inr e => inr e
  end.
Definition to_hex (self : t) : string := hex_encode (bytes self).
End external.

(** The 160-bit number an identifier denotes (abstract view). *)
Definition val (a : t) : Z := be_val (bytes a).

(** ** Lemmas: the byte loops and the number *)

Lemma val_bound a : (0 <= val a < 2 ^ 160)%Z.
Proof. unfold val. pose proof (be_val_bound (bytes a)) as B. by rewrite length_bytes in B. Qed.

#[export] Instance val_inj : Inj (=) (=) val.
Proof. intros a b Hab. apply bytes_inj, be_val_inj; by rewrite ?length_bytes. Qed.

Lemma val_distance a b : val (distance a b) = Z.lxor (val a) (val b).
Proof. apply be_val_xor. by rewrite !length_bytes. Qed.

#[export] Instance t_countable : Countable t.
Proof.
  refine (inj_countable' bytes (fun l => from_bytes l) _). intros a.
  apply bytes_inj. cbn. unfold from_bytes_list. rewrite length_bytes. cbn -[KEY_LENGTH_BYTES].
  rewrite <-(length_bytes a), Nat.leb_refl. by apply take_ge.
Defined.

Lemma bit_at_lookup a i : bit_at a i = default false (bits (bytes a) !! i).
Proof.
  unfold bit_at. rewrite lookup_bits. destruct (Nat.leb_spec KEY_LENGTH_BITS i) as [Hi|Hi].
  - rewrite lookup_ge_None_2; [done|]. rewrite length_bytes.
    apply Nat.div_le_lower_bound; [done|]. unfold KEY_LENGTH_BITS in Hi. lia.
  - rewrite nth_lookup, u8_mask_nonzero by lia.
    destruct (lookup_lt_is_Some_2 (bytes a) (i / 8)) as [b ->]; [|done].
    rewrite length_bytes. apply Nat.Div0.div_lt_upper_bound. unfold KEY_LENGTH_BITS in Hi. lia.
Qed.

Lemma bits_lookup_bit_at a i :
  i < KEY_LENGTH_BITS -> bits (bytes a) !! i = Some (bit_at a i).
Proof.
  intros Hi. rewrite bit_at_lookup.
  destruct (lookup_lt_is_Some_2 (bits (bytes a)) i) as [b Hb]; [|by rewrite Hb].
  rewrite length_bits, length_bytes. unfold KEY_LENGTH_BITS in Hi. lia.
Qed.

Lemma leading_zeros_byte_position byte ks c :
  Forall (fun k => k < 8) ks ->
  leading_zeros_byte byte ks c =
    match position (u8_testbit byte) ks with
    | Some j => (c + j, true)
    | None => (c + length ks, false)
    end.
Proof.
  intros Hks. revert c. induction Hks as [|k ks Hk Hks IH]; intros c; cbn.
  - by rewrite Nat.add_0_r.
  - rewrite u8_mask_nonzero by done. destruct (u8_testbit byte k); [by rewrite Nat.add_0_r|].
    rewrite IH. destruct (position _ ks); cbn; f_equal; lia.
Qed.

Lemma leading_zeros_loop_position bs c :
  leading_zeros_loop bs c = c + default (8 * length bs) (position id (bits bs)).
Proof.
  revert c. induction bs as [|b bs IH]; intros c; [cbn; lia|].
  cbn [leading_zeros_loop]. rewrite leading_zeros_byte_position by (cbn; repeat constructor; lia).
  rewrite bits_cons.
  rewrite position_app, position_byte_bits.
  change (position (u8_testbit b) (rev (seq 0 8)))
    with (position (fun j => u8_testbit b (7 - j)) (seq 0 8)).
  destruct (position _ (seq 0 8)) as [j|]; [done|].
  rewrite IH. rewrite length_byte_bits.
  change (length (rev (seq 0 8))) with 8. cbn [length].
  destruct (position id (bits bs)); cbn -[Nat.mul]; lia.
Qed.

Lemma bucket_index_byte_position byte i s n :
  bucket_index_byte byte i (seq s n) =
    (fun p => i * 8 + (s + p)) <$> position (fun j => u8_testbit byte (7 - j)) (seq s n).
Proof.
  revert s. induction n as [|n IH]; intros s; cbn [seq bucket_index_byte position]; [done|].
  rewrite u8_mask_nonzero by lia. destruct (u8_testbit byte (7 - s)); cbn.
  - by rewrite Nat.add_0_r.
  - rewrite IH. destruct (position _ _); cbn; [f_equal; lia|done].
Qed.

Lemma bucket_index_loop_position bs i :
  bucket_index_loop bs i = Nat.add (i * 8) <$> position id (bits bs).
Proof.
  revert i. induction bs as [|b bs IH]; intros i; [done|].
  cbn [bucket_index_loop]. rewrite bits_cons.
  rewrite position_app. rewrite length_byte_bits.
  assert (Hrest : bucket_index_loop bs (S i)
    = Nat.add (i * 8) <$> (Nat.add 8 <$> position id (bits bs))).
  { rewrite IH. destruct (position id (bits bs)); cbn; [f_equal; lia|done]. }
  destruct (u8_is_zero b) eqn:Hz.
  - by rewrite position_byte_zero.
  - rewrite bucket_index_byte_position. rewrite position_byte_bits.
    by destruct (position _ (seq 0 8)) as [j|].
Qed.

Lemma bucket_index_position a b :
  bucket_index a b = position id (bits (bytes (distance a b))).
Proof.
  unfold bucket_index. rewrite bucket_index_loop_position.
  set (l := bytes (distance a b)). destruct (forallb u8_is_zero l) eqn:Hz.
  - symmetry. rewrite forallb_forall in Hz. clear -Hz.
    induction l as [|x l IH]; [done|]. rewrite bits_cons.
    rewrite position_app, position_byte_zero by (apply Hz; by left).
    rewrite IH; [done|]. intros y Hy. apply Hz. by right.
  - destruct (position id (bits l)); done.
Qed.

Lemma distance_eq_zero a b : val (distance a b) = 0%Z <-> a = b.
Proof.
  rewrite val_distance, Z.lxor_eq_0_iff. split; [apply (inj val) | by intros ->].
Qed.

Lemma bit_at_distance a b i : bit_at (distance a b) i = xorb (bit_at a i) (bit_at b i).
Proof.
  destruct (Nat.lt_ge_cases i KEY_LENGTH_BITS) as [Hi|Hi].
  - pose proof (bits_lookup_bit_at a i Hi) as Ha. pose proof (bits_lookup_bit_at b i Hi) as Hb.
    pose proof (bits_lookup_bit_at (distance a b) i Hi) as Hd.
    apply be_val_testbit in Ha, Hb, Hd. rewrite length_bytes in Ha, Hb, Hd.
    rewrite <-Ha, <-Hb, <-Hd. fold (val a) (val b) (val (distance a b)).
    by rewrite val_distance, Z.lxor_spec.
  - unfold bit_at. by destruct (Nat.leb_spec KEY_LENGTH_BITS i); [|lia].
Qed.

Lemma bucket_index_None a b : bucket_index a b = None <-> a = b.
Proof. rewrite bucket_index_position, position_bits_None. apply distance_eq_zero. Qed.

Lemma bucket_index_lt a b i : bucket_index a b = Some i -> i < KEY_LENGTH_BITS.
Proof.
  rewrite bucket_index_position. intros [Hi _]%be_val_position.
  rewrite length_bytes in Hi. unfold KEY_LENGTH_BITS. lia.
Qed.

Lemma bucket_index_first_bit a b i :
  bucket_index a b = Some i <->
  bit_at a i <> bit_at b i /\ forall j, j < i -> bit_at a j = bit_at b j.
Proof.
  rewrite bucket_index_position. split.
  - intros (x & Hx & Hpx & Hmin)%position_Some. cbn in Hpx. subst x.
    assert (i < KEY_LENGTH_BITS) as Hi.
    { apply lookup_lt_Some in Hx. rewrite length_bits, length_bytes in Hx.
      unfold KEY_LENGTH_BITS. lia. }
    rewrite bits_lookup_bit_at, bit_at_distance in Hx by done. injection Hx as Hx.
    split; [by destruct (bit_at a i), (bit_at b i)|].
    intros j Hj. specialize (Hmin j (bit_at (distance a b) j) Hj).
    rewrite bits_lookup_bit_at, bit_at_distance in Hmin by lia.
    specialize (Hmin eq_refl). unfold id in Hmin. by destruct (bit_at a j), (bit_at b j).
  - intros [Hi Hmin].
    assert (i < KEY_LENGTH_BITS) as Hlt.
    { destruct (Nat.lt_ge_cases i KEY_LENGTH_BITS) as [|Hge]; [done|].
      unfold bit_at in Hi. by destruct (Nat.leb_spec KEY_LENGTH_BITS i); [|lia]. }
    apply (position_intro _ _ _ (bit_at (distance a b) i)).
    + by apply bits_lookup_bit_at.
    + rewrite bit_at_distance. by destruct (bit_at a i), (bit_at b i).
    + intros j y Hj Hy. rewrite bits_lookup_bit_at in Hy by lia. injection Hy as <-.
      rewrite bit_at_distance, Hmin by done. apply xorb_nilpotent.
Qed.

(** *** Bits of an array updated at one byte *)
Lemma bits_alter f k bs i :
  bits (alter f (k / 8) bs) !! i =
    if decide (i / 8 = k / 8)
    then (fun b => u8_testbit (f b) (7 - i mod 8)) <$> bs !! (i / 8)
    else bits bs !! i.
Proof.
  rewrite !lookup_bits. case_decide as E.
  - rewrite E, list_lookup_alter_eq. by destruct (bs !! (k / 8)).
  - by rewrite list_lookup_alter_ne.
Qed.

Lemma same_byte_offset i k : i / 8 = k / 8 -> (7 - i mod 8 = 7 - k mod 8 <-> i = k).
Proof.
  intros E. pose proof (Nat.div_mod_eq i 8). pose proof (Nat.div_mod_eq k 8).
  pose proof (Nat.mod_upper_bound i 8). pose proof (Nat.mod_upper_bound k 8). lia.
Qed.

Lemma bits_flip k bs i :
  bits (alter (fun x => u8_xor x (u8_bit (7 - k mod 8))) (k / 8) bs) !! i =
    (if decide (i = k) then negb else id) <$> bits bs !! i.
Proof.
  rewrite bits_alter, lookup_bits. case_decide as E.
  - destruct (bs !! (i / 8)) as [b|]; csimpl; [|done]. f_equal.
    rewrite u8_xor_testbit, u8_bit_testbit by lia.
    pose proof (same_byte_offset i k E). repeat (case_decide || case_bool_decide);
      try tauto; unfold id;
      by rewrite ?xorb_true_r, ?xorb_false_r.
  - rewrite decide_False by congruence. by destruct (bs !! (i / 8)).
Qed.

Lemma bits_set_random_bit bs k b i :
  bits (set_random_bit bs k b) !! i =
    (if decide (i = k) then fun _ => b else id) <$> bits bs !! i.
Proof.
  unfold set_random_bit. rewrite bits_alter, lookup_bits. case_decide as E.
  - destruct (bs !! (i / 8)) as [x|]; csimpl; [|done]. f_equal.
    pose proof (same_byte_offset i k E).
    destruct b; rewrite ?u8_or_testbit, ?u8_and_testbit, ?u8_not_testbit, u8_bit_testbit by lia;
      repeat (case_decide || case_bool_decide); try tauto; unfold id;
      by rewrite ?orb_true_r, ?orb_false_r, ?andb_false_r, ?andb_true_r.
  - rewrite decide_False by congruence. by destruct (bs !! (i / 8)).
Qed.

Lemma bits_random_tail coin bs bit n draw i :
  i < bit -> bits (random_tail coin bs bit n draw) !! i = bits bs !! i.
Proof.
  revert bs bit draw. induction n as [|n IH]; intros bs bit draw Hi; cbn [random_tail]; [done|].
  rewrite IH, bits_set_random_bit, decide_False by lia. by destruct (bits bs !! i).
Qed.

(** The bits from [bit] on are the draws. *)
Lemma bits_random_tail_drawn coin bs bit n draw i :
  bit <= i < bit + n -> i < length (bits bs) ->
  bits (random_tail coin bs bit n draw) !! i = Some (coin (draw + (i - bit))).
Proof.
  revert bs bit draw. induction n as [|n IH]; intros bs bit draw Hi Hlen; cbn [random_tail]; [lia|].
  destruct (decide (i = bit)) as [->|Hne].
  - rewrite bits_random_tail, bits_set_random_bit, decide_True by lia.
    destruct (lookup_lt_is_Some_2 _ _ Hlen) as [x ->]. cbn. do 2 f_equal. lia.
  - rewrite IH; [do 2 f_equal; lia|lia|].
    unfold set_random_bit. rewrite length_bits, length_alter. by rewrite length_bits in Hlen.
Qed.

(** An identifier is its bits. *)
Lemma bit_at_ext a b : (forall j, j < KEY_LENGTH_BITS -> bit_at a j = bit_at b j) -> a = b.
Proof.
  intros Hab. destruct (bucket_index a b) as [i|] eqn:Hi; [|by apply bucket_index_None].
  pose proof (bucket_index_lt _ _ _ Hi). apply bucket_index_first_bit in Hi as [Hne _].
  by destruct Hne; apply Hab.
Qed.

Lemma bit_at_random_in_bucket coin base i id' j :
  random_in_bucket coin base i = Some id' -> j <= i ->
  bit_at id' j = if decide (j = i) then negb (bit_at base j) else bit_at base j.
Proof.
  unfold random_in_bucket. destruct (Nat.leb_spec KEY_LENGTH_BITS i); [done|].
  intros [= <-] Hj. rewrite (bit_at_lookup (of_list _ _)). cbn [bytes of_list].
  unfold random_in_bucket_bytes.
  rewrite bits_random_tail, bits_flip, bits_lookup_bit_at by lia. csimpl.
  by case_decide.
Qed.

Lemma bit_at_random_drawn coin base i id' j :
  random_in_bucket coin base i = Some id' -> i < j < KEY_LENGTH_BITS ->
  bit_at id' j = coin (j - S i).
Proof.
  unfold random_in_bucket. destruct (Nat.leb_spec KEY_LENGTH_BITS i); [done|].
  intros [= <-] Hj. rewrite (bit_at_lookup (of_list _ _)). cbn [bytes of_list].
  unfold random_in_bucket_bytes. rewrite bits_random_tail_drawn; [done|lia|].
  rewrite length_bits, length_alter, length_bytes. exact (proj2 Hj).
Qed.

(** Every draw in a bucket that exists falls in it. *)
Lemma random_in_bucket_index coin base i :
  i < KEY_LENGTH_BITS ->
  exists r, random_in_bucket coin base i = Some r /\ bucket_index base r = Some i.
Proof.
  intros Hi. assert (exists r, random_in_bucket coin base i = Some r) as [r Hr].
  { unfold random_in_bucket. destruct (Nat.leb_spec KEY_LENGTH_BITS i); [lia|eauto]. }
  exists r. split; [done|]. apply bucket_index_first_bit. split.
  - rewrite (bit_at_random_in_bucket _ _ _ _ _ Hr) by done.
    rewrite decide_True by done. by destruct (bit_at base i).
  - intros j Hj. rewrite (bit_at_random_in_bucket _ _ _ _ _ Hr) by lia.
    by rewrite decide_False by lia.
Qed.
End NodeId.
Export (hints) NodeId.
Abbreviation NodeId := NodeId.t.

(** ** The identifier space *)

(** C21: the XOR distance is a metric on 160-bit identifiers (README.md, "Node
    ID"): it is the exclusive or of the two numbers, it is zero exactly on
    equal identifiers, symmetric, satisfies the triangle inequality, and is
    unidirectional (one identifier lies at each distance from a given one). *)
Theorem distance_xor_metric (a b c : NodeId) :
  NodeId.val (NodeId.distance a b) = Z.lxor (NodeId.val a) (NodeId.val b) /\
  (NodeId.val (NodeId.distance a b) = 0%Z <-> a = b) /\
  NodeId.distance a b = NodeId.distance b a /\
  (NodeId.val (NodeId.distance a c)
     <= NodeId.val (NodeId.distance a b) + NodeId.val (NodeId.distance b c))%Z /\
  (exists! d, NodeId.distance a d = b).
Proof.
  split_and!.
  - apply NodeId.val_distance.
  - apply NodeId.distance_eq_zero.
  - apply (inj NodeId.val). rewrite !NodeId.val_distance. apply Z.lxor_comm.
  - rewrite !NodeId.val_distance.
    pose proof (NodeId.val_bound a). pose proof (NodeId.val_bound b).
    pose proof (NodeId.val_bound c).
    set (x := Z.lxor (NodeId.val a) (NodeId.val b)).
    set (y := Z.lxor (NodeId.val b) (NodeId.val c)).
    replace (Z.lxor (NodeId.val a) (NodeId.val c)) with (Z.lxor x y).
    + rewrite <-(Z.add_lxor_2land x y).
      assert (0 <= Z.land x y)%Z; [|lia].
      apply Z.land_nonneg. left. apply Z.lxor_nonneg. lia.
    + unfold x, y. by rewrite Z.lxor_assoc, lxor_cancel.
  - exists (NodeId.distance a b). split.
    + apply (inj NodeId.val). by rewrite !NodeId.val_distance, lxor_cancel.
    + intros d <-. apply (inj NodeId.val). by rewrite !NodeId.val_distance, lxor_cancel.
Qed.

(** C20: [bucket_index] finds the first bit in which two identifiers differ. It
    is [None] exactly on equal identifiers; otherwise it is the length of
    their common prefix, the identifiers agree before that bit and differ at
    it, and their distance lies in the range [2^(159-i), 2^(160-i)). *)
Theorem bucket_index_spec (a b : NodeId) :
  match NodeId.bucket_index a b with
  | None => a = b
  | Some i =>
      i < KEY_LENGTH_BITS /\
      NodeId.common_prefix_length a b = i /\
      (forall j, j < i -> NodeId.bit_at a j = NodeId.bit_at b j) /\
      NodeId.bit_at a i <> NodeId.bit_at b i /\
      (2 ^ (159 - Z.of_nat i) <= NodeId.val (NodeId.distance a b)
         < 2 ^ (160 - Z.of_nat i))%Z
  end.
Proof.
  destruct (NodeId.bucket_index a b) as [i|] eqn:Hi.
  - pose proof (NodeId.bucket_index_lt _ _ _ Hi) as Hlt.
    pose proof (proj1 (NodeId.bucket_index_first_bit _ _ _) Hi) as [Hne Hpre].
    rewrite NodeId.bucket_index_position in Hi. split_and!; [done| |done|done|..].
    1: { unfold NodeId.common_prefix_length, NodeId.leading_zeros.
         rewrite NodeId.leading_zeros_loop_position. by rewrite Hi. }
    all: apply be_val_position in Hi as (_ & Hlo & Hhi);
      rewrite NodeId.length_bytes in Hlo, Hhi; done.
  - by apply NodeId.bucket_index_None.
Qed.

Lemma cmp_val (a b : NodeId) : NodeId.cmp a b = Z.compare (NodeId.val a) (NodeId.val b).
Proof. apply bytes_cmp_be. by rewrite !NodeId.length_bytes. Qed.

(** The order [Ord for NodeId] is the order of the 160-bit numbers, bit
    [i] of an identifier is bit [159 - i] of its number, and positions past
    the end read as [false]. *)
Lemma cmp_bit_at_value (a b : NodeId) (i : nat) :
  NodeId.cmp a b = Z.compare (NodeId.val a) (NodeId.val b) /\
  (NodeId.cmp a b = Eq <-> a = b) /\
  NodeId.bit_at a i =
    (if i <? KEY_LENGTH_BITS then Z.testbit (NodeId.val a) (159 - Z.of_nat i) else false).
Proof.
  pose proof (cmp_val a b) as Hc.
  split_and!; [done|..].
  - rewrite Hc, Z.compare_eq_iff. split; [apply (inj NodeId.val) | by intros ->].
  - destruct (Nat.ltb_spec i KEY_LENGTH_BITS) as [Hi|Hi].
    + apply (NodeId.bits_lookup_bit_at a) in Hi. symmetry.
      apply be_val_testbit in Hi. by rewrite NodeId.length_bytes in Hi.
    + unfold NodeId.bit_at. by destruct (Nat.leb_spec KEY_LENGTH_BITS i); [|lia].
Qed.

(** C27: [random_in_bucket] succeeds exactly on bucket indices below 160.
    Whatever bits the generator supplies, the identifier it returns falls in
    the requested bucket of [base], and every identifier of the bucket is
    returned for some bits. *)
Theorem random_in_bucket_lands (base : NodeId) (i : nat) :
  (forall coin, match NodeId.random_in_bucket coin base i with
                | Some r => i < KEY_LENGTH_BITS /\ NodeId.bucket_index base r = Some i
                | None => KEY_LENGTH_BITS <= i
                end) /\
  (forall r, NodeId.bucket_index base r = Some i ->
     exists coin, NodeId.random_in_bucket coin base i = Some r).
Proof.
  assert (forall coin, KEY_LENGTH_BITS <= i -> NodeId.random_in_bucket coin base i = None) as Hnone.
  { intros coin Hi. unfold NodeId.random_in_bucket. by destruct (Nat.leb_spec KEY_LENGTH_BITS i); [|lia]. }
  split.
  - intros coin. destruct (Nat.le_gt_cases KEY_LENGTH_BITS i) as [Hi|Hi]; [by rewrite Hnone|].
    by destruct (NodeId.random_in_bucket_index coin base i Hi) as (r & -> & ?).
  - intros r Hr. pose proof (NodeId.bucket_index_lt _ _ _ Hr) as Hlt.
    apply NodeId.bucket_index_first_bit in Hr as [Hne Hpre].
    exists (fun n => NodeId.bit_at r (S i + n)).
    destruct (NodeId.random_in_bucket_index (fun n => NodeId.bit_at r (S i + n)) base i Hlt)
      as (r' & Hr' & _).
    rewrite Hr'. f_equal. apply NodeId.bit_at_ext. intros j Hj.
    destruct (Nat.le_gt_cases j i) as [Hji|Hji].
    + rewrite (NodeId.bit_at_random_in_bucket _ _ _ _ _ Hr') by done. case_decide as E.
      * subst j. by destruct (NodeId.bit_at base i), (NodeId.bit_at r i).
      * apply Hpre. lia.
    + rewrite (NodeId.bit_at_random_drawn _ _ _ _ _ Hr') by lia. f_equal. lia.
Qed.

(** [from_bytes] keeps the first 20 bytes and pads shorter data with
    zeros; it is no hash. It inverts [as_bytes], bytes after the twentieth are
    ignored, and trailing zero bytes are indistinguishable from padding, so
    distinct keys of the public [Node::store] / [Node::get] collide. *)
Lemma from_bytes_truncates_and_pads (a : NodeId) (data suffix : list u8) (n : nat) :
  NodeId.from_bytes (NodeId.bytes a) = a /\
  NodeId.from_bytes (NodeId.bytes a ++ suffix) = a /\
  NodeId.from_bytes (data ++ replicate n Byte.x00) = NodeId.from_bytes data /\
  NodeId.bytes (NodeId.from_bytes data) =
    take KEY_LENGTH_BYTES (data ++ replicate KEY_LENGTH_BYTES Byte.x00).
Proof.
  assert (forall d, NodeId.from_bytes_list d =
    take KEY_LENGTH_BYTES (d ++ replicate KEY_LENGTH_BYTES Byte.x00)) as Hd.
  { intros d. unfold NodeId.from_bytes_list.
    destruct (Nat.leb_spec KEY_LENGTH_BYTES (length d)).
    - by rewrite take_app_le.
    - rewrite take_app_ge, take_replicate by lia. f_equal. f_equal. lia. }
  assert (forall s, NodeId.from_bytes (NodeId.bytes a ++ s) = a) as Ha.
  { intros s. apply NodeId.bytes_inj. cbn. rewrite Hd, <-(NodeId.length_bytes a), <-app_assoc.
    by rewrite take_app_length. }
  split_and!; [|apply Ha| |apply Hd].
  - rewrite <-(app_nil_r (NodeId.bytes a)) at 1. apply Ha.
  - apply NodeId.bytes_inj. cbn. rewrite !Hd, <-app_assoc, <-replicate_add.
    rewrite !take_app, !take_replicate. f_equal. f_equal. lia.
Qed.
