(* ===== verification/F64.v ===== *)
(** * The [f64] arithmetic of the response statistics

    [f64] is IEEE 754 binary64.  The Standard Library's [SpecFloat] gives its
    operations as executable functions on integers (53 bits of precision,
    maximal exponent 1024, round to nearest even); the Rust casts between
    [u64] and [f64] are written here.  The main result is that the quotient of
    two [u32] counters compares with one half exactly as the integers do. *)

From Stdlib Require Import SpecFloat.
From S2P Require Import Prelude.

#[local] Open Scope Z_scope.

Definition f64 := spec_float.
Definition f64_add : f64 -> f64 -> f64 := SFadd 53 1024.
Definition f64_sub : f64 -> f64 -> f64 := SFsub 53 1024.
Definition f64_mul : f64 -> f64 -> f64 := SFmul 53 1024.
Definition f64_div : f64 -> f64 -> f64 := SFdiv 53 1024.
(** [x >= y], false when either is NaN *)
Definition f64_ge (x y : f64) : bool := SFleb y x.

(** [z as f64] for an unsigned integer: round to nearest even. *)
Definition f64_of_uint (z : Z) : f64 := binary_normalize 53 1024 z 0 false.

(** [x as u64]: truncation, saturating at the bounds; NaN becomes 0. *)
Definition f64_to_u64 (x : f64) : Z :=
  match x with
  | S754_zero _ | S754_nan => 0
  | S754_infinity s => if s then 0 else U64_MAX
  | S754_finite s m e =>
      if s then 0 else Z.min U64_MAX (Z.shiftl (Zpos m) e)
  end.

(** The literals of the source. *)
Definition f64_0_2 : f64 := S754_finite false 7205759403792794 (-55).
Definition f64_0_5 : f64 := S754_finite false 4503599627370496 (-53).
Definition f64_1_0 : f64 := S754_finite false 4503599627370496 (-52).
Definition f64_3_0 : f64 := S754_finite false 6755399441055744 (-51).

Example literals_normal :
  f64_of_uint 1 = f64_1_0 /\ f64_of_uint 3 = f64_3_0 /\
  f64_div f64_1_0 (f64_of_uint 5) = f64_0_2 /\ f64_div f64_1_0 (f64_of_uint 2) = f64_0_5.
Proof. vm_compute. done. Qed.

(** ** Digits and shifts *)
Lemma digits2_log2 p : Zpos (digits2_pos p) = Z.log2 (Zpos p) + 1.
Proof.
  induction p as [p IH|p IH|]; cbn [digits2_pos]; [| |done].
  - rewrite Pos2Z.inj_succ, IH, Pos2Z.inj_xI, Z.log2_succ_double by done. lia.
  - rewrite Pos2Z.inj_succ, IH, Pos2Z.inj_xO, Z.log2_double by done. lia.
Qed.

Lemma Zdigits2_log2 z : 0 < z -> Zdigits2 z = Z.log2 z + 1.
Proof. destruct z; [lia| |lia]. intros _. apply digits2_log2. Qed.

Lemma Zdigits2_range z n : 0 < n -> 2 ^ (n - 1) <= z < 2 ^ n -> Zdigits2 z = n.
Proof.
  intros Hn Hz. pose proof (Z.pow_pos_nonneg 2 (n - 1)).
  rewrite Zdigits2_log2 by lia. rewrite (Z.log2_unique z (n - 1)); [lia|lia|].
  by replace (Z.succ (n - 1)) with n by lia.
Qed.

Lemma iter_xO k p : Zpos (Pos.iter xO p k) = Zpos p * 2 ^ Zpos k.
Proof.
  revert p. induction k as [|k IH] using Pos.peano_ind; intros p; [cbn; lia|].
  rewrite Pos.iter_succ, Pos2Z.inj_succ, Z.pow_succ_r, Pos2Z.inj_xO, IH by lia. lia.
Qed.

(** ** Rounding of mantissas that are already in range *)
Lemma fexp_normal d : -1021 <= d -> fexp 53 1024 d = d - 53.
Proof. unfold fexp, SpecFloat.emin. lia. Qed.

Lemma shr_m_of_loc m l : shr_m (shr_record_of_loc m l) = m.
Proof. by destruct l as [|[]]. Qed.

Lemma loc_of_shr_of_loc m l : loc_of_shr_record (shr_record_of_loc m l) = l.
Proof. by destruct l as [|[]]. Qed.

Lemma shr_fexp_53 m e l :
  2 ^ 52 <= m < 2 ^ 53 -> -1074 <= e ->
  shr_fexp 53 1024 m e l = (shr_record_of_loc m l, e).
Proof.
  intros Hm He. unfold shr_fexp.
  rewrite (Zdigits2_range m 53), fexp_normal by lia.
  by replace (53 + e - 53 - e) with 0 by lia.
Qed.

Lemma shr_fexp_54 m e l :
  2 ^ 53 <= m < 2 ^ 54 -> -1074 <= e ->
  shr_fexp 53 1024 m e l = (shr_1 (shr_record_of_loc m l), e + 1).
Proof.
  intros Hm He. unfold shr_fexp.
  rewrite (Zdigits2_range m 54), fexp_normal by lia.
  by replace (54 + e - 53 - e) with 1 by lia.
Qed.

(** Dropping the last bit; the dropped bit of the largest mantissa is zero. *)
Lemma shr_1_half m l :
  0 < m <= 2 ^ 54 - 2 ->
  exists b s, shr_1 (shr_record_of_loc m l) = Build_shr_record (m / 2) b s
    /\ (m / 2 = 2 ^ 53 - 1 -> b = false).
Proof.
  intros Hm. pose proof (shr_m_of_loc m l) as E.
  destruct (shr_record_of_loc m l) as [m' r s]. cbn in E. subst m'.
  destruct m as [|[p|p|]|]; try lia; cbn [shr_1]; do 2 eexists.
  - replace (Zpos p~1 / 2) with (Zpos p); [split; [reflexivity | intros; lia]|].
    apply (Z.div_unique _ _ _ 1); lia.
  - replace (Zpos p~0 / 2) with (Zpos p); [split; [reflexivity | done]|].
    by rewrite Pos2Z.inj_xO, Z.mul_comm, Z.div_mul by lia.
  - split; [reflexivity | done].
Qed.

Lemma round_aux_finish m e :
  2 ^ 52 <= m < 2 ^ 53 -> -1074 <= e <= 971 ->
  (let '(mrs, e') := shr_fexp 53 1024 m e loc_Exact in
   match shr_m mrs with
   | 0 => S754_zero false
   | Zpos p => if e' <=? 1024 - 53 then S754_finite false p e' else S754_infinity false
   | Zneg _ => S754_nan
   end) = S754_finite false (Z.to_pos m) e.
Proof.
  intros Hm He. rewrite shr_fexp_53, shr_m_of_loc by lia.
  destruct m as [|p|p]; [lia| |lia]. destruct (Z.leb_spec e (1024 - 53)); [done|lia].
Qed.

Lemma round_aux_53 m e l :
  2 ^ 52 <= m -> round_nearest_even m l < 2 ^ 53 -> m <= round_nearest_even m l ->
  -1074 <= e <= 971 ->
  binary_round_aux 53 1024 false m e l
    = S754_finite false (Z.to_pos (round_nearest_even m l)) e.
Proof.
  intros Hm Hr Hle He. unfold binary_round_aux.
  rewrite shr_fexp_53, shr_m_of_loc, loc_of_shr_of_loc by lia.
  apply round_aux_finish; lia.
Qed.

Lemma round_nearest_even_ge m l : m <= round_nearest_even m l <= m + 1.
Proof. destruct l as [|[]]; cbn; try lia. destruct (Z.even m); lia. Qed.

Lemma f64_of_uint_small p (d := Z.log2 (Zpos p)) :
  Zpos p < 2 ^ 53 ->
  exists m, f64_of_uint (Zpos p) = S754_finite false m (d - 52) /\
    Zpos m = Zpos p * 2 ^ (52 - d) /\ 2 ^ 52 <= Zpos m < 2 ^ 53.
Proof.
  intros Hp. pose proof (Z.log2_spec (Zpos p) ltac:(lia)) as [Hlo Hhi]. fold d in Hlo, Hhi.
  assert (0 <= d < 53) as Hd.
  { split; [apply Z.log2_nonneg | apply Z.log2_lt_pow2; lia]. }
  assert (exists m, shl_align p 0 (d - 52) = (m, d - 52) /\ Zpos m = Zpos p * 2 ^ (52 - d))
    as (m & Hsh & Hm).
  { unfold shl_align. destruct (d - 52 - 0) as [|k|k] eqn:Hk; [|lia|].
    - exists p. replace (d - 52) with 0 by lia. replace (52 - d) with 0 by lia. by rewrite Z.mul_1_r.
    - eexists. split; [reflexivity|]. rewrite iter_xO. do 2 f_equal. lia. }
  exists m. assert (2 ^ 52 <= Zpos m < 2 ^ 53) as Hr.
  { rewrite Hm. replace 52 with (d + (52 - d)) at 1 by lia.
    replace 53 with (Z.succ d + (52 - d)) by lia. rewrite !Z.pow_add_r by lia.
    pose proof (Z.pow_pos_nonneg 2 (52 - d)). nia. }
  split; [|split; [exact Hm|exact Hr]].
  unfold f64_of_uint, binary_normalize, binary_round.
  rewrite digits2_log2, fexp_normal by lia. fold d.
  replace (d + 1 + 0 - 53) with (d - 52) by lia. rewrite Hsh.
  by rewrite round_aux_53 by (cbn [round_nearest_even]; lia).
Qed.

(** ** The quotient of two normalized mantissas *)
Section quotient.
Variables (m1 m2 : Z) (H1 : 2 ^ 52 <= m1 < 2 ^ 53) (H2 : 2 ^ 52 <= m2 < 2 ^ 53).
Variable d : Z.
Hypothesis Hd : -100 <= d <= 100.
Let q := (m1 * 2 ^ 53) / m2.
Let r := (m1 * 2 ^ 53) mod m2.

Lemma quotient_eq : m1 * 2 ^ 53 = m2 * q + r /\ 0 <= r < m2.
Proof using H2.
  unfold q, r. split; [apply Z.div_mod; lia | apply Z.mod_pos_bound; lia].
Qed.

Lemma quotient_lt :
  m1 < m2 ->
  exists p, binary_round_aux 53 1024 false q (d - 53) (new_location m2 r)
    = S754_finite false p (d - 53) /\ 2 ^ 52 <= Zpos p.
Proof using H1 H2 Hd.
  intros Hlt. destruct quotient_eq as [Hq Hr].
  assert (2 ^ 52 <= q) by nia. assert (q <= 2 ^ 53 - 2) by nia.
  pose proof (round_nearest_even_ge q (new_location m2 r)).
  eexists. split; [apply round_aux_53; lia | lia].
Qed.

Lemma quotient_ge :
  m2 <= m1 ->
  exists p, binary_round_aux 53 1024 false q (d - 53) (new_location m2 r)
    = S754_finite false p (d - 52) /\ 2 ^ 52 <= Zpos p.
Proof using H1 H2 Hd.
  intros Hle. destruct quotient_eq as [Hq Hr].
  assert (2 ^ 53 <= q) by nia. assert (q <= 2 ^ 54 - 2) by nia.
  unfold binary_round_aux. rewrite shr_fexp_54 by lia.
  destruct (shr_1_half q (new_location m2 r)) as (b & s & Hs & Hb); [lia|].
  rewrite Hs. cbn [shr_m]. set (h := q / 2) in *.
  set (l := loc_of_shr_record _). pose proof (round_nearest_even_ge h l) as Hrd.
  assert (2 ^ 52 <= h) by (unfold h; apply Z.div_le_lower_bound; lia).
  assert (h < 2 ^ 53) by (unfold h; apply Z.div_lt_upper_bound; lia).
  assert (round_nearest_even h l < 2 ^ 53).
  { destruct (Z.eq_dec h (2 ^ 53 - 1)) as [E|]; [|lia].
    unfold l. rewrite (Hb E). destruct s; cbn; lia. }
  eexists. split; [rewrite round_aux_finish; [f_equal; lia|lia|lia] | lia].
Qed.
End quotient.

(** The quotient compares with one half as the integers do. *)
Lemma f64_ge_half p e :
  2 ^ 52 <= Zpos p -> f64_ge (S754_finite false p e) f64_0_5 = (-53 <=? e).
Proof.
  intros Hp. unfold f64_ge, SFleb, SFcompare, f64_0_5.
  destruct (Z.compare_spec (-53) e) as [<-|Hlt|Hgt]; cbn [Z.leb Z.compare].
  - assert (Zpos 4503599627370496 = 2 ^ 52) as Hc by reflexivity.
    revert Hc. generalize 4503599627370496%positive as c. intros c Hc.
    destruct (Pos.compare_cont Eq c p) eqn:E; [done..|].
    apply (Pos.compare_gt_iff c p) in E. lia.
  - by destruct (Z.leb_spec (-53) e); [|lia].
  - by destruct (Z.leb_spec (-53) e); [lia|].
Qed.

Lemma f64_div_finite m1 e1 m2 e2 :
  2 ^ 52 <= Zpos m1 < 2 ^ 53 -> 2 ^ 52 <= Zpos m2 < 2 ^ 53 -> -100 <= e1 - e2 <= 100 ->
  exists p, f64_div (S754_finite false m1 e1) (S754_finite false m2 e2)
      = S754_finite false p (e1 - e2 - (if Zpos m1 <? Zpos m2 then 53 else 52))
    /\ 2 ^ 52 <= Zpos p.
Proof.
  intros H1 H2 Hd. unfold f64_div, SFdiv, SFdiv_core_binary.
  rewrite !(Zdigits2_range _ 53) by lia.
  replace (53 + e1 - (53 + e2)) with (e1 - e2) by lia. rewrite fexp_normal by lia.
  rewrite Z.min_l by lia. replace (e1 - e2 - (e1 - e2 - 53)) with 53 by lia.
  rewrite Z.shiftl_mul_pow2 by lia.
  pose proof (quotient_lt _ _ H1 H2 _ Hd) as Hq1. pose proof (quotient_ge _ _ H1 H2 _ Hd) as Hq2.
  revert Hq1 Hq2. unfold Z.div, Z.modulo.
  destruct (Z.div_eucl (Zpos m1 * 2 ^ 53) (Zpos m2)) as [q r]. intros Hq1 Hq2.
  destruct (Z.ltb_spec (Zpos m1) (Zpos m2)); auto.
Qed.

Lemma f64_ratio_half s t :
  0 <= s < 2 ^ 33 -> 0 < t < 2 ^ 33 ->
  f64_ge (f64_div (f64_of_uint s) (f64_of_uint t)) f64_0_5 = (t <=? 2 * s).
Proof.
  intros Hs Ht. destruct t as [|t|]; [lia| |lia].
  destruct (f64_of_uint_small t) as (m2 & -> & Hm2 & R2); [lia|].
  destruct s as [|s|]; [by destruct (Z.leb_spec (Zpos t) (2 * 0)); [lia|]| |lia].
  destruct (f64_of_uint_small s) as (m1 & -> & Hm1 & R1); [lia|].
  pose proof (Z.log2_spec (Zpos s) ltac:(lia)) as Ls.
  pose proof (Z.log2_spec (Zpos t) ltac:(lia)) as Lt.
  set (ds := Z.log2 (Zpos s)) in *. set (dt := Z.log2 (Zpos t)) in *.
  assert (0 <= ds < 33) by (split; [apply Z.log2_nonneg | apply Z.log2_lt_pow2; lia]).
  assert (0 <= dt < 33) by (split; [apply Z.log2_nonneg | apply Z.log2_lt_pow2; lia]).
  destruct (f64_div_finite m1 (ds - 52) m2 (dt - 52) R1 R2) as (p & -> & Hp); [lia|].
  rewrite f64_ge_half by done.
  (* scale both integers by [2 ^ 52] *)
  assert (Zpos s * 2 ^ 52 = Zpos m1 * 2 ^ ds) as Es.
  { rewrite Hm1, <-Z.mul_assoc, <-Z.pow_add_r by lia. do 2 f_equal. lia. }
  assert (Zpos t * 2 ^ 52 = Zpos m2 * 2 ^ dt) as Et.
  { rewrite Hm2, <-Z.mul_assoc, <-Z.pow_add_r by lia. do 2 f_equal. lia. }
  assert (forall a b, 0 <= a -> a <= b -> 2 ^ b = 2 ^ (b - a) * 2 ^ a) as Hpow.
  { intros a b Ha Hab. rewrite <-Z.pow_add_r by lia. f_equal. lia. }
  clear Hm1 Hm2. apply eq_iff_eq_true. rewrite !Z.leb_le.
  destruct (Z.ltb_spec (Zpos m1) (Zpos m2)) as [Hlt|Hge].
  - destruct (Z.le_gt_cases dt ds) as [Hd|Hd].
    + pose proof (Hpow dt ds ltac:(lia) Hd) as P. pose proof (Z.pow_pos_nonneg 2 (ds - dt)).
      split; [|lia]. intros _. nia.
    + pose proof (Hpow (Z.succ ds) dt ltac:(lia) ltac:(lia)) as P. rewrite Z.pow_succ_r in P by lia.
      pose proof (Z.pow_pos_nonneg 2 (dt - Z.succ ds)). split; [lia|]. intros. exfalso. nia.
  - destruct (Z.le_gt_cases (dt - 1) ds) as [Hd|Hd].
    + split; [|lia]. intros _. destruct (Z.eq_dec ds (dt - 1)) as [E|].
      * pose proof (Hpow ds dt ltac:(lia) ltac:(lia)) as P. replace (dt - ds) with 1 in P by lia. nia.
      * pose proof (Hpow dt ds ltac:(lia) ltac:(lia)) as P. pose proof (Z.pow_pos_nonneg 2 (ds - dt)). nia.
    + split; [lia|]. intros. exfalso.
      pose proof (Hpow (2 + ds) dt ltac:(lia) ltac:(lia)) as P. rewrite Z.pow_add_r in P by lia.
      pose proof (Z.pow_pos_nonneg 2 (dt - (2 + ds))). nia.
Qed.

(** ** Tripling a small integer is exact *)
Lemma iter_shr_1_exact k m :
  SpecFloat.iter_pos shr_1 k (Build_shr_record (m * 2 ^ Zpos k) false false)
    = Build_shr_record m false false.
Proof.
  assert (forall z, shr_1 (Build_shr_record (2 * z) false false) = Build_shr_record z false false)
    as Hs by (by intros [|?|?]).
  revert m. induction k as [k IH|k IH|]; intros m; cbn [SpecFloat.iter_pos].
  - replace (m * 2 ^ Zpos k~1) with (2 * (m * 2 ^ Zpos k * 2 ^ Zpos k)).
    + by rewrite Hs, !IH.
    + rewrite Pos2Z.inj_xI, Z.pow_add_r, Z.pow_twice_r by lia. ring.
  - replace (m * 2 ^ Zpos k~0) with (m * 2 ^ Zpos k * 2 ^ Zpos k).
    + by rewrite !IH.
    + rewrite (Pos2Z.inj_xO k), Z.pow_twice_r. ring.
  - by rewrite Z.mul_comm, Hs.
Qed.

(** A product whose low bits are zero rounds to itself. *)
Lemma shr_fexp_exact r k e :
  2 ^ 52 <= r < 2 ^ 53 -> 0 < k -> -1074 <= e ->
  shr_fexp 53 1024 (r * 2 ^ k) e loc_Exact = (Build_shr_record r false false, e + k).
Proof.
  intros Hr Hk He. unfold shr_fexp. rewrite (Zdigits2_range _ (53 + k)).
  - rewrite fexp_normal by lia. replace (53 + k + e - 53 - e) with k by lia.
    destruct k as [|k|k]; [lia| |lia]. cbn [shr shr_record_of_loc].
    by rewrite iter_shr_1_exact.
  - lia.
  - rewrite (Z.add_comm 53 k), Z.pow_add_r by lia.
    replace (k + 53 - 1) with (k + 52) by lia. rewrite Z.pow_add_r by lia.
    pose proof (Z.pow_pos_nonneg 2 k). nia.
Qed.

Lemma round_aux_exact r k e :
  2 ^ 52 <= r < 2 ^ 53 -> 0 < k -> -1074 <= e -> e + k <= 971 ->
  binary_round_aux 53 1024 false (r * 2 ^ k) e loc_Exact
    = S754_finite false (Z.to_pos r) (e + k).
Proof.
  intros Hr Hk He He'. unfold binary_round_aux. rewrite shr_fexp_exact by done.
  apply round_aux_finish; lia.
Qed.

Lemma f64_mul_3 n :
  0 <= n < 2 ^ 50 -> f64_to_u64 (f64_mul (f64_of_uint n) f64_3_0) = 3 * n.
Proof.
  intros Hn. destruct n as [|n|]; [done| |lia].
  destruct (f64_of_uint_small n) as (m & -> & Hm & R); [lia|].
  pose proof (Z.log2_nonneg (Zpos n)). set (d := Z.log2 (Zpos n)) in *.
  assert (d < 50) by (apply Z.log2_lt_pow2; lia).
  assert (exists m', Zpos m = 4 * m') as [m' Hm'].
  { exists (Zpos n * 2 ^ (50 - d)). rewrite Hm. replace (52 - d) with (2 + (50 - d)) by lia.
    rewrite Z.pow_add_r by lia. lia. }
  unfold f64_mul, SFmul, f64_3_0. cbn [xorb].
  assert (forall r k, 2 ^ 52 <= r < 2 ^ 53 -> 0 < k < 60 -> 3 * Zpos m * 2 ^ 51 = r * 2 ^ k ->
    f64_to_u64 (binary_round_aux 53 1024 false (Zpos (m * 6755399441055744)) (d - 52 + -51)
      loc_Exact) = 3 * Zpos n) as Hfin.
  { intros r k Hr Hk E. replace (Zpos (m * 6755399441055744)) with (r * 2 ^ k) by lia.
    rewrite round_aux_exact by lia. cbn [f64_to_u64]. rewrite Z2Pos.id by lia.
    assert (r * 2 ^ k = 3 * Zpos n * 2 ^ (103 - d)) as E2.
    { rewrite <-E, Hm, <-!Z.mul_assoc, <-Z.pow_add_r by lia. do 3 f_equal. lia. }
    rewrite <-(Z.shiftl_mul_pow2 _ k), <-(Z.shiftl_mul_pow2 _ (103 - d)) in E2 by lia.
    replace (Z.shiftl r (d - 52 + -51 + k)) with (3 * Zpos n); [unfold U64_MAX; lia|].
    replace (d - 52 + -51 + k) with (k - (103 - d)) by lia.
    rewrite <-Z.shiftr_shiftl_l, E2, Z.shiftr_shiftl_l by lia.
    by rewrite Z.sub_diag, Z.shiftl_0_r. }
  destruct (Z.lt_ge_cases (3 * Zpos m) (2 ^ 54)).
  - apply (Hfin (6 * m') 52); lia.
  - apply (Hfin (3 * m') 53); lia.
Qed.
