(* ===== verification/Contact.v ===== *)
(** * Contacts: remote nodes and their statistics (src/src/node.rs)

    [SystemTime::now()] is the argument [now], in whole seconds since the UNIX
    epoch, which is all the code reads from it. *)

From S2P Require Import Prelude Errors Bytes Ident F64.

(** ** Socket addresses ([std::net]) *)
Inductive IpAddr :=
  | V4 (octets : Z)
  | V6 (segments : Z).
Record SocketAddr := MkSocketAddr { ip : IpAddr; port : Z }.

#[export] Instance ip_addr_eq_dec : EqDecision IpAddr.
Proof. solve_decision. Defined.
#[export] Instance ip_addr_countable : Countable IpAddr.
Proof.
  refine (inj_countable' (fun a => match a with V4 z => inl z | V6 z => inr z end)
    (fun s => match s with inl z => V4 z | inr z => V6 z end) _). by intros [].
Defined.
#[export] Instance socket_addr_eq_dec : EqDecision SocketAddr.
Proof. solve_decision. Defined.
#[export] Instance socket_addr_countable : Countable SocketAddr.
Proof.
  refine (inj_countable' (fun a => (ip a, port a)) (fun p => MkSocketAddr p.1 p.2) _).
  by intros [].
Defined.

(** ** [LastSeen] *)
Inductive LastSeen :=
  | Never
  | At (secs : Z).

#[export] Instance last_seen_eq_dec : EqDecision LastSeen.
Proof. solve_decision. Defined.

(** ** [ResponseStats] *)
Module ResponseStats.
Record t := Mk {
  successes : Z;
  failures : Z;
  avg_response_time_ms : option Z
}.
Add Printing Constructor t.

#[export] Instance t_eq_dec : EqDecision t.
Proof. solve_decision. Defined.

Definition default : t := Mk 0 0 None.

Section ops.
Context `{Profile}.

Definition success_rate (self : t) : exec f64 :=
  total ← uadd U32_MAX (successes self) (failures self);
  if Z.eqb total 0 then mret f64_1_0
  else mret (f64_div (f64_of_uint (successes self)) (f64_of_uint total)).

Definition is_reliable (threshold : f64) (self : t) : exec bool :=
  rate ← success_rate self;
  mret (f64_ge rate threshold).

Definition adaptive_timeout (multiplier : f64) (base_timeout : Duration) (self : t)
    : exec Duration :=
  match avg_response_time_ms self with
  | None => mret base_timeout
  | Some avg_ms =>
      let adaptive_ms := f64_to_u64 (f64_mul (f64_of_uint avg_ms) multiplier) in
      total_ms ← uadd U64_MAX adaptive_ms (as_millis_u64 base_timeout);
      mret (from_millis (Z.min total_ms 30000))
  end.
End ops.

Definition record_success (self : t) : t :=
  Mk (usat_add U32_MAX (successes self) 1) (failures self) (avg_response_time_ms self).

Definition record_failure (self : t) : t :=
  Mk (successes self) (usat_add U32_MAX (failures self) 1) (avg_response_time_ms self).

Definition ALPHA : f64 := f64_0_2.
Definition record_response_time (response_time_ms : Z) (self : t) : t :=
  match avg_response_time_ms self with
  | None => Mk (successes self) (failures self) (Some response_time_ms)
  | Some avg =>
      let new_avg :=
        f64_add (f64_mul ALPHA (f64_of_uint response_time_ms))
                (f64_mul (f64_sub f64_1_0 ALPHA) (f64_of_uint avg)) in
      Mk (successes self) (failures self) (Some (f64_to_u64 new_avg))
  end.

(** The counters are [u32] and the average a [u64]. *)
Definition wf (s : t) : Prop :=
  (0 <= successes s <= U32_MAX)%Z /\ (0 <= failures s <= U32_MAX)%Z /\
  match avg_response_time_ms s with Some a => (0 <= a <= U64_MAX)%Z | None => True end.
#[export] Instance wf_dec s : Decision (wf s).
Proof. unfold wf. destruct (avg_response_time_ms s); apply _. Defined.
End ResponseStats.
Export (hints) ResponseStats.
Abbreviation ResponseStats := ResponseStats.t.

(** ** [Node] *)
Module Node.
Record t := Mk {
  id : NodeId;
  addr : SocketAddr;
  last_seen : LastSeen;
  response_stats : ResponseStats
}.
Add Printing Constructor t.

#[export] Instance t_eq_dec : EqDecision t.
Proof. solve_decision. Defined.

Definition new (id : NodeId) (addr : SocketAddr) : t :=
  Mk id addr Never ResponseStats.default.

(** [with_addr]: [addr_str] is [addr.to_string()] as bytes. *)
Section with_addr.
Variable sha256 : list u8 -> list u8.
Variable to_string : SocketAddr -> list u8.
Definition with_addr (addr : SocketAddr) : t :=
  new (NodeId.from_socket_addr sha256 (to_string addr)) addr.
End with_addr.

Definition set_stats (f : ResponseStats -> ResponseStats) (self : t) : t :=
  Mk (id self) (addr self) (last_seen self) (f (response_stats self)).

Definition update_last_seen (now : Z) (self : t) : t :=
  Mk (id self) (addr self) (At now) (response_stats self).

Definition is_active (now : Z) (timeout : Duration) (self : t) : bool :=
  match last_seen self with
  | Never => false
  | At last_seen_time =>
      if Z.ltb now last_seen_time then true
      else Z.leb (from_secs (now - last_seen_time)) timeout
  end.

(** [PartialEq for Node]: equality of identifiers. *)
Definition eqb (self other : t) : bool := bool_decide (id self = id other).
End Node.
Export (hints) Node.
Abbreviation Node := Node.t.

(** ** Theorems *)

(** The comparison made once the sum of the counters is known. *)
Lemma rate_at_least_half s total :
  (0 <= s <= U32_MAX -> 0 <= total <= U32_MAX ->
   f64_ge (if Z.eqb total 0 then f64_1_0 else f64_div (f64_of_uint s) (f64_of_uint total)) f64_0_5
     = Z.leb total (2 * s))%Z.
Proof.
  unfold U32_MAX. intros Hs Ht. destruct (Z.eqb_spec total 0) as [->|Hne].
  - by destruct (Z.leb_spec 0 (2 * s)); [|lia].
  - apply f64_ratio_half; lia.
Qed.

Lemma is_reliable_unfold `{Profile} (s : ResponseStats) :
  ResponseStats.wf s ->
  ResponseStats.is_reliable f64_0_5 s =
    (total ← uadd U32_MAX (ResponseStats.successes s) (ResponseStats.failures s);
     mret (Z.leb total (2 * ResponseStats.successes s))).
Proof.
  intros (Hs & Hf & _). unfold ResponseStats.is_reliable, ResponseStats.success_rate.
  destruct (uadd _ _ _) as [total| |] eqn:Hu; [|done..].
  apply uadd_bounds in Hu; [|done || lia..]. rewrite !exec_bind_Done.
  rewrite <-rate_at_least_half by done. by destruct (Z.eqb total 0).
Qed.

(** Counters whose sum does not overflow. *)
Definition stats_fit (s : ResponseStats) : Prop :=
  ResponseStats.wf s /\ (ResponseStats.successes s + ResponseStats.failures s <= U32_MAX)%Z.

#[export] Instance stats_fit_dec s : Decision (stats_fit s).
Proof. unfold stats_fit. apply _. Defined.

Lemma is_reliable_fit `{Profile} (s : ResponseStats) :
  stats_fit s ->
  ResponseStats.is_reliable f64_0_5 s
    = Done (Z.leb (ResponseStats.failures s) (ResponseStats.successes s)).
Proof.
  intros [Hwf Hfit]. rewrite is_reliable_unfold, uadd_exact by done. cbn. f_equal.
  apply eq_iff_eq_true. rewrite !Z.leb_le. lia.
Qed.

(** C36: [is_reliable(0.5)], the test that lets a full bucket evict a node,
    computed in binary64, is the exact integer test "at least as many
    successes as failures", which a node without history passes. It
    computes the sum of the two [u32] counters first: when the sum
    overflows, a build with overflow checks panics and a release build
    declares the node reliable whatever its failures. *)
Theorem is_reliable_half `{Profile} (s : ResponseStats) :
  ResponseStats.wf s ->
  ResponseStats.is_reliable f64_0_5 s =
    if Z.leb (ResponseStats.successes s + ResponseStats.failures s) U32_MAX
    then Done (Z.leb (ResponseStats.failures s) (ResponseStats.successes s))
    else if overflow_checks then Panic else Done true.
Proof.
  intros Hwf. destruct (Z.leb_spec (ResponseStats.successes s + ResponseStats.failures s) U32_MAX).
  - by apply is_reliable_fit.
  - rewrite is_reliable_unfold by done. destruct Hwf as (Hs & Hf & _). unfold uadd.
    destruct (Z.leb_spec (ResponseStats.successes s + ResponseStats.failures s) U32_MAX); [lia|].
    destruct overflow_checks; [done|]. cbn. f_equal. apply Z.leb_le.
    unfold U32_MAX in *.
    rewrite <-(Z.mod_unique (ResponseStats.successes s + ResponseStats.failures s) (2 ^ 32 - 1 + 1)
      1 (ResponseStats.successes s + ResponseStats.failures s - 2 ^ 32)); lia.
Qed.

Lemma is_reliable_half_witness :
  ResponseStats.wf (ResponseStats.Mk 3 4 None) /\
  @ResponseStats.is_reliable debug_build f64_0_5 (ResponseStats.Mk 3 4 None) = Done false.
Proof.
  split.
  - unfold ResponseStats.wf, U32_MAX. cbn. lia.
  - rewrite (@is_reliable_half debug_build (ResponseStats.Mk 3 4 None));
      [vm_compute; reflexivity | unfold ResponseStats.wf, U32_MAX; cbn; lia].
Defined.

(** C35: the adaptive timeout is the base timeout for a node without history
    and otherwise at most 30 seconds, whatever the recorded average. For an
    average below [2^50] ms and the arguments the protocol uses (factor 3,
    base 5 s) it is exactly [min (3 * avg + 5000) 30000] ms. For the largest
    average, which a peer can put in a message, the sum overflows: a panic
    with overflow checks, a timeout shorter than the base without. *)
Theorem adaptive_timeout_spec `{Profile} (s : ResponseStats) (multiplier : f64) (base : Duration) :
  match ResponseStats.avg_response_time_ms s with
  | None => ResponseStats.adaptive_timeout multiplier base s = Done base
  | Some avg =>
      (forall d, ResponseStats.adaptive_timeout multiplier base s = Done d ->
         (d <= from_secs 30)%Z) /\
      ((0 <= avg < 2 ^ 50)%Z ->
         ResponseStats.adaptive_timeout f64_3_0 (from_secs 5) s
           = Done (from_millis (Z.min (3 * avg + 5000) 30000))) /\
      (avg = U64_MAX ->
         ResponseStats.adaptive_timeout f64_3_0 (from_secs 5) s
           = if overflow_checks then Panic else Done (from_millis 4999))
  end.
Proof.
  unfold ResponseStats.adaptive_timeout.
  destruct (ResponseStats.avg_response_time_ms s) as [avg|]; [|done]. split_and!.
  - intros d Hd. exec_inv. subst d. unfold from_millis, from_secs. lia.
  - intros Havg. rewrite f64_mul_3 by done.
    change (as_millis_u64 (from_secs 5)) with 5000%Z.
    by rewrite uadd_exact by (unfold U64_MAX; lia).
  - intros ->. unfold uadd.
    by destruct overflow_checks eqn:E; vm_compute.
Qed.

(** A node never contacted is inactive; a node seen at time [t] is active
    at [now] exactly while [now - t] seconds do not exceed the timeout, and
    stays active when the clock has gone backwards. Refreshing a node makes it
    active for every non-negative timeout and changes nothing else. *)
Lemma is_active_spec (n : Node) (now : Z) (timeout : Duration) :
  (Node.is_active now timeout n = true <->
     exists t, Node.last_seen n = At t /\ (from_secs (now - t) <= timeout \/ now < t)%Z) /\
  ((0 <= timeout)%Z -> Node.is_active now timeout (Node.update_last_seen now n) = true) /\
  Node.id (Node.update_last_seen now n) = Node.id n /\
  Node.response_stats (Node.update_last_seen now n) = Node.response_stats n.
Proof.
  split_and!; [|..|done|done].
  - unfold Node.is_active. destruct (Node.last_seen n) as [|t].
    + split; [done | by intros (t & [=] & _)].
    + destruct (Z.ltb_spec now t).
      * split; [intros _; exists t; auto | done].
      * rewrite Z.leb_le. split; [intros; exists t; auto|].
        intros (t' & [= <-] & [|]); [done|lia].
  - intros Ht. cbn. destruct (Z.ltb_spec now now); [lia|].
    apply Z.leb_le. unfold from_secs. lia.
Qed.
