(* ===== verification/Fixtures.v ===== *)
(** * Concrete contacts for the witnesses

    Identifiers are given by their number; [contact n] is a contact with
    identifier [n] listening on 127.0.0.1 at port [8000 + n]. *)

From S2P Require Import Prelude Errors Bytes Ident F64 Contact.

Definition loopback : IpAddr := V4 2130706433.
Definition sample_id (n : Z) : NodeId := NodeId.of_val n.
Definition sample_addr (n : Z) : SocketAddr := MkSocketAddr loopback (8000 + n).
Definition contact (n : Z) : Node := Node.new (sample_id n) (sample_addr n).

(** A contact with the given counters. *)
Definition contact_with (n s f : Z) : Node :=
  Node.set_stats (fun _ => ResponseStats.Mk s f None) (contact n).
