(* ===== verification/Bucket.v ===== *)
(** * k-buckets (src/src/routing/k_bucket.rs)

    [nodes] and [replacement_cache] are the two [VecDeque]s, front first, so
    the least recently seen contact is the head.  The wall clock is read
    through the argument [now]; one operation sees one reading. *)

From S2P Require Import Prelude Errors Bytes Ident F64 Contact.

Definition K : nat := 20.
Definition NODE_TIMEOUT : Duration := from_secs (60 * 15).
Definition MIN_SUCCESS_RATE : f64 := f64_0_5.

Inductive KBucketUpdate :=
  | Unchanged
  | Updated
  | PendingPing (n : Node).

Module KBucket.
Record t := Mk {
  k : nat;
  local_node_id : NodeId;
  prefix_len : nat;
  nodes : list Node;
  replacement_cache : list Node
}.
Add Printing Constructor t.

Definition set_nodes (ns : list Node) (b : t) : t :=
  Mk (k b) (local_node_id b) (prefix_len b) ns (replacement_cache b).
Definition set_cache (ns : list Node) (b : t) : t :=
  Mk (k b) (local_node_id b) (prefix_len b) (nodes b) ns.

(** [new]. The two queues are made with room for [k] contacts at once: a capacity
    no memory could hold, which the allocator refuses with a panic, is left out. *)
Definition new (local : NodeId) (plen kk : nat) : t := Mk kk local plen [] [].

Definition len (self : t) : nat := length (nodes self).
Definition is_empty (self : t) : bool := len self =? 0.
Definition is_full (self : t) : bool := k self <=? len self.

Definition has_id (i : NodeId) (n : Node) : bool := bool_decide (Node.id n = i).

Definition contains (node_id : NodeId) (self : t) : bool :=
  existsb (has_id node_id) (nodes self).
Definition get (node_id : NodeId) (self : t) : option Node :=
  find_first (has_id node_id) (nodes self).

(** [nodes.remove(pos)] with [pos] found by [position] *)
Definition remove_at (pos : nat) (self : t) : t := set_nodes (delete pos (nodes self)) self.
Definition push_back (n : Node) (self : t) : t := set_nodes (nodes self ++ [n]) self.

(** The part of [update] that replaces the entry of [n] in the cache. *)
Definition cache_push (n : Node) (self : t) : t :=
  let cache := replacement_cache self in
  let cache :=
    match position (has_id (Node.id n)) cache with
    | Some pos => delete pos cache
    | None => cache
    end in
  set_cache (cache ++ [n]) self.

Section update.
Context `{Profile}.
Variable now : Z.

Definition update (node : Node) (self : t) : exec (t * Result KBucketUpdate) :=
  if decide (Node.id node = local_node_id self) then
    mret (self, Err (Other "Cannot add local node to k-bucket"))
  else
  match position (has_id (Node.id node)) (nodes self) with
  | Some pos =>
      match nodes self !! pos with
      | None => Panic
      | Some existing =>
          let existing := Node.update_last_seen now existing in
          mret (push_back existing (remove_at pos self), Ok Updated)
      end
  | None =>
  if length (nodes self) <? k self then
    mret (push_back (Node.update_last_seen now node) self, Ok Updated)
  else
    (* First, try to find an unreliable node *)
    unreliable ← positionM (fun n =>
      r ← ResponseStats.is_reliable MIN_SUCCESS_RATE (Node.response_stats n);
      mret (negb r)) (nodes self);
    match unreliable with
    | Some pos =>
        match nodes self !! pos with
        | None => Panic
        | Some _ =>
            mret (push_back (Node.update_last_seen now node) (remove_at pos self),
                  Ok Updated)
        end
    | None =>
        (* Second, check if the least-recently seen node is inactive *)
        match nodes self with
        | [] => Panic
        | front_node :: rest =>
            if negb (Node.is_active now NODE_TIMEOUT front_node) then
              mret (push_back (Node.update_last_seen now node) (set_nodes rest self),
                    Ok Updated)
            else
              (* Otherwise, add to the replacement cache *)
              mret (cache_push (Node.update_last_seen now node) self,
                    Ok (PendingPing front_node))
        end
    end
  end.

(** [remove]: promotes the oldest cached contact. *)
Definition remove (node_id : NodeId) (self : t) : t * option Node :=
  match position (has_id node_id) (nodes self) with
  | None => (self, None)
  | Some pos =>
      let removed := nodes self !! pos in
      let self := remove_at pos self in
      match replacement_cache self with
      | [] => (self, removed)
      | replacement :: cache =>
          (push_back (Node.update_last_seen now replacement) (set_cache cache self), removed)
      end
  end.

(** [split]: [update]'s error is dropped ([.ok()]). *)
Definition split_step (self : t) (acc : exec (t * t)) (node : Node) : exec (t * t) :=
  '(bucket0, bucket1) ← acc;
  if NodeId.bit_at (Node.id node) (prefix_len self) then
    '(bucket1', _) ← update node bucket1; mret (bucket0, bucket1')
  else
    '(bucket0', _) ← update node bucket0; mret (bucket0', bucket1).
Definition split (self : t) : exec (t * t) :=
  let new_prefix_len := S (prefix_len self) in
  let b := new (local_node_id self) new_prefix_len (k self) in
  fold_left (split_step self) (nodes self) (mret (b, b)).
End update.

(** [get_closest]: stable sort by XOR distance, then [truncate]. *)
Definition distance_cmp (target : NodeId) (a b : Node) : comparison :=
  NodeId.cmp (NodeId.distance (Node.id a) target) (NodeId.distance (Node.id b) target).
Definition get_closest (target : NodeId) (count : nat) (self : t) : list Node :=
  take count (sort_by (distance_cmp target) (nodes self)).

(** [should_split]: [self.nodes[0]] panics on an empty full bucket. *)
Definition should_split (self : t) : exec bool :=
  if negb (is_full self) then mret false
  else
    match nodes self with
    | [] => Panic
    | n0 :: _ =>
        let bit_at_pos := NodeId.bit_at (Node.id n0) (prefix_len self) in
        mret (negb (forallb (fun node =>
          Bool.eqb (NodeId.bit_at (Node.id node) (prefix_len self)) bit_at_pos) (nodes self)))
    end.


(** ** Declarative specification of [update]

    One constructor per outcome, stated by splitting the queue; [touch] is
    the refreshed contact that ends up at the back. *)
Definition ids (b : t) : list NodeId := Node.id <$> nodes b.
Definition cache_ids (b : t) : list NodeId := Node.id <$> replacement_cache b.

Lemma push_remove_middle b l1 x l2 n :
  nodes b = l1 ++ x :: l2 ->
  push_back n (remove_at (length l1) b) = set_nodes (l1 ++ l2 ++ [n]) b.
Proof.
  intros Hns. unfold push_back, remove_at. cbn.
  by rewrite Hns, delete_middle, <-app_assoc.
Qed.

Lemma push_back_set_nodes n l b : push_back n (set_nodes l b) = set_nodes (l ++ [n]) b.
Proof. done. Qed.

Section spec.
Context `{Profile}.
Variable now : Z.
Definition reliable (n : Node) : Prop :=
  ResponseStats.is_reliable MIN_SUCCESS_RATE (Node.response_stats n) = Done true.
Definition unreliable (n : Node) : Prop :=
  ResponseStats.is_reliable MIN_SUCCESS_RATE (Node.response_stats n) = Done false.
Local Abbreviation touch := (Node.update_last_seen now).

Inductive update_spec (node : Node) (b : t) : t -> Result KBucketUpdate -> Prop :=
  | us_local :
      Node.id node = local_node_id b ->
      update_spec node b b (Err (Other "Cannot add local node to k-bucket"))
  | us_refresh l1 x l2 :
      Node.id node <> local_node_id b ->
      nodes b = l1 ++ x :: l2 -> Node.id x = Node.id node ->
      Node.id node ∉ Node.id <$> l1 ->
      update_spec node b (set_nodes (l1 ++ l2 ++ [touch x]) b) (Ok Updated)
  | us_insert :
      Node.id node <> local_node_id b -> Node.id node ∉ ids b ->
      length (nodes b) < k b ->
      update_spec node b (set_nodes (nodes b ++ [touch node]) b) (Ok Updated)
  | us_evict_unreliable l1 x l2 :
      Node.id node <> local_node_id b -> Node.id node ∉ ids b ->
      k b <= length (nodes b) ->
      nodes b = l1 ++ x :: l2 -> unreliable x -> Forall reliable l1 ->
      update_spec node b (set_nodes (l1 ++ l2 ++ [touch node]) b) (Ok Updated)
  | us_evict_inactive x l :
      Node.id node <> local_node_id b -> Node.id node ∉ ids b ->
      k b <= length (nodes b) ->
      nodes b = x :: l -> Forall reliable (x :: l) ->
      Node.is_active now NODE_TIMEOUT x = false ->
      update_spec node b (set_nodes (l ++ [touch node]) b) (Ok Updated)
  | us_pending x l :
      Node.id node <> local_node_id b -> Node.id node ∉ ids b ->
      k b <= length (nodes b) ->
      nodes b = x :: l -> Forall reliable (x :: l) ->
      Node.is_active now NODE_TIMEOUT x = true ->
      update_spec node b (cache_push (touch node) b) (Ok (PendingPing x)).

Lemma position_has_id_None i ns :
  position (has_id i) ns = None <-> i ∉ Node.id <$> ns.
Proof.
  rewrite position_None, Forall_forall, list_elem_of_fmap. unfold has_id.
  setoid_rewrite bool_decide_eq_false. naive_solver.
Qed.

Lemma position_has_id_split i ns pos :
  position (has_id i) ns = Some pos ->
  exists l1 x l2, ns = l1 ++ x :: l2 /\ length l1 = pos /\ Node.id x = i /\
    i ∉ Node.id <$> l1.
Proof.
  intros (l1 & x & l2 & -> & <- & Hx & Hl1)%position_split.
  apply position_None in Hl1. apply position_has_id_None in Hl1.
  unfold has_id in Hx. apply bool_decide_eq_true in Hx. eauto 10.
Qed.

Lemma position_has_id_split_intro l1 x l2 :
  Node.id x ∉ Node.id <$> l1 ->
  position (has_id (Node.id x)) (l1 ++ x :: l2) = Some (length l1).
Proof.
  intros Hl1. apply position_split_intro.
  - by apply position_None, position_has_id_None.
  - by apply bool_decide_eq_true.
Qed.

Local Abbreviation unreliable_test := (fun n =>
  r ← ResponseStats.is_reliable MIN_SUCCESS_RATE (Node.response_stats n);
  mret (negb r)).

Lemma unreliable_test_true n : unreliable_test n = Done true <-> unreliable n.
Proof.
  unfold unreliable. destruct (ResponseStats.is_reliable _ _) as [[]| |]; cbn; naive_solver.
Qed.
Lemma unreliable_test_false n : unreliable_test n = Done false <-> reliable n.
Proof.
  unfold reliable. destruct (ResponseStats.is_reliable _ _) as [[]| |]; cbn; naive_solver.
Qed.
Lemma Forall_reliable ns :
  Forall (fun n => unreliable_test n = Done false) ns <-> Forall reliable ns.
Proof. rewrite !Forall_forall. by setoid_rewrite unreliable_test_false. Qed.
End spec.
End KBucket.
Abbreviation KBucket := KBucket.t.

(** [update] satisfies its specification. *)
Lemma update_sound `{Profile} now node b b' r :
  KBucket.update now node b = Done (b', r) -> KBucket.update_spec now node b b' r.
Proof.
  unfold KBucket.update. case_decide as Hloc; [intros [= <- <-]; by constructor|].
  destruct (position _ (KBucket.nodes b)) as [pos|] eqn:Hpos.
  - apply KBucket.position_has_id_split in Hpos as (l1 & x & l2 & Hns & <- & Hx & Hl1).
    rewrite Hns at 1. rewrite list_lookup_middle by done. intros [= <- <-].
    rewrite (KBucket.push_remove_middle _ _ _ _ _ Hns). by eapply KBucket.us_refresh.
  - apply KBucket.position_has_id_None in Hpos.
    destruct (Nat.ltb_spec (length (KBucket.nodes b)) (KBucket.k b));
      [intros [= <- <-]; by constructor|].
    destruct (positionM _ _) as [[pos|]| |] eqn:HM; cbn; try done.
    + apply positionM_split in HM as (l1 & x & l2 & Hns & <- & Hx & Hl1).
      apply KBucket.unreliable_test_true in Hx. apply KBucket.Forall_reliable in Hl1.
      rewrite Hns at 1. rewrite list_lookup_middle by done. intros [= <- <-].
      rewrite (KBucket.push_remove_middle _ _ _ _ _ Hns). by eapply KBucket.us_evict_unreliable.
    + apply positionM_None, KBucket.Forall_reliable in HM.
      destruct (KBucket.nodes b) as [|x l] eqn:Hns; [done|].
      destruct (Node.is_active now NODE_TIMEOUT x) eqn:Hact; intros [= <- <-];
        [eapply KBucket.us_pending
        |rewrite KBucket.push_back_set_nodes; eapply KBucket.us_evict_inactive];
        unfold KBucket.ids; rewrite ?Hns; eauto.
Qed.

(** The specification determines [update]. *)
Lemma update_complete `{Profile} now node b b' r :
  KBucket.update_spec now node b b' r -> KBucket.update now node b = Done (b', r).
Proof.
  unfold KBucket.update. intros Hspec; destruct Hspec as
    [Hloc|l1 x l2 Hloc Hns Hx Hl1|Hloc Hid Hlen|l1 x l2 Hloc Hid Hlen Hns Hx Hl1
    |x l Hloc Hid Hlen Hns Hrel Hact|x l Hloc Hid Hlen Hns Hrel Hact]; case_decide; try done.
  - rewrite <-Hx in *. rewrite Hns at 1. rewrite KBucket.position_has_id_split_intro by done.
    rewrite Hns at 1. rewrite list_lookup_middle by done.
    by rewrite (KBucket.push_remove_middle _ _ _ _ _ Hns).
  - apply KBucket.position_has_id_None in Hid. rewrite Hid.
    by destruct (Nat.ltb_spec (length (KBucket.nodes b)) (KBucket.k b)); [|lia].
  - apply KBucket.position_has_id_None in Hid. rewrite Hid.
    destruct (Nat.ltb_spec (length (KBucket.nodes b)) (KBucket.k b)); [lia|].
    rewrite Hns at 1. rewrite positionM_split_intro;
      [|by apply KBucket.Forall_reliable | by apply KBucket.unreliable_test_true].
    rewrite exec_bind_Done, Hns at 1. rewrite list_lookup_middle by done.
    by rewrite (KBucket.push_remove_middle _ _ _ _ _ Hns).
  - apply KBucket.position_has_id_None in Hid. rewrite Hid.
    destruct (Nat.ltb_spec (length (KBucket.nodes b)) (KBucket.k b)); [lia|].
    rewrite Hns. rewrite (proj2 (positionM_None _ _)) by (by apply KBucket.Forall_reliable).
    cbn. by rewrite Hact.
  - apply KBucket.position_has_id_None in Hid. rewrite Hid.
    destruct (Nat.ltb_spec (length (KBucket.nodes b)) (KBucket.k b)); [lia|].
    rewrite Hns. rewrite (proj2 (positionM_None _ _)) by (by apply KBucket.Forall_reliable).
    cbn. by rewrite Hact.
Qed.

(** ** Invariants *)

(** Structural invariant: the queue holds at most [k] contacts, the local
    node is in neither queue, and the cache has no identifier twice. *)
Record bucket_wf (b : KBucket) : Prop := {
  bw_len : length (KBucket.nodes b) <= KBucket.k b;
  bw_local : KBucket.local_node_id b ∉ KBucket.ids b;
  bw_local_cache : KBucket.local_node_id b ∉ KBucket.cache_ids b;
  bw_cache : NoDup (KBucket.cache_ids b)
}.

(** Two buckets with the same parameters. *)
Definition same_params (b b' : KBucket) : Prop :=
  KBucket.k b' = KBucket.k b /\ KBucket.local_node_id b' = KBucket.local_node_id b /\
  KBucket.prefix_len b' = KBucket.prefix_len b.

(** The time a contact was last seen, and queues in least-recently-seen order. *)
Definition seen_at (n : Node) : Z :=
  match Node.last_seen n with Never => -1 | At t => t end.
Definition lru_ordered (now : Z) (b : KBucket) : Prop :=
  StronglySorted (fun x y => seen_at x <= seen_at y)%Z (KBucket.nodes b) /\
  Forall (fun x => seen_at x <= now)%Z (KBucket.nodes b).

Lemma cache_push_ids n b :
  NoDup (KBucket.cache_ids b) ->
  NoDup (KBucket.cache_ids (KBucket.cache_push n b)) /\
  (forall i, i ∈ KBucket.cache_ids (KBucket.cache_push n b) <->
     i = Node.id n \/ i ∈ KBucket.cache_ids b).
Proof.
  unfold KBucket.cache_ids, KBucket.cache_push. cbn. intros Hnd.
  destruct (position _ _) as [pos|] eqn:Hpos.
  - apply KBucket.position_has_id_split in Hpos as (l1 & x & l2 & Hc & <- & Hx & _).
    rewrite Hc, delete_middle in *. rewrite !fmap_app, !fmap_cons, Hx in *. cbn.
    rewrite NoDup_middle in Hnd. rewrite NoDup_snoc. set_solver.
  - apply KBucket.position_has_id_None in Hpos. rewrite fmap_app. cbn.
    rewrite NoDup_snoc. set_solver.
Qed.

Lemma update_spec_params `{Profile} now node b b' r :
  KBucket.update_spec now node b b' r -> same_params b b'.
Proof. by intros []. Qed.

(** After [Updated] the contact, refreshed, is the most recently seen one. *)
Lemma update_spec_updated `{Profile} now node b b' :
  KBucket.update_spec now node b b' (Ok Updated) ->
  KBucket.replacement_cache b' = KBucket.replacement_cache b /\
  exists front x, KBucket.nodes b' = front ++ [x] /\ Node.id x = Node.id node /\
    Node.last_seen x = At now /\ front ⊆ KBucket.nodes b.
Proof.
  inversion 1 as [|l1 x l2 Hne Hns Hx|Hne Hid Hlt|l1 x l2 Hne Hid Hge Hns|x l Hne Hid Hge Hns|];
    subst; (split; [done|]); cbn; rewrite ?Hns, ?app_assoc.
  all: do 2 eexists; split_and!; [done..|]; set_solver.
Qed.

Lemma update_spec_wf `{Profile} now node b b' r :
  KBucket.update_spec now node b b' r -> bucket_wf b -> bucket_wf b'.
Proof.
  intros Hspec [Hlen Hloc Hlc Hc]. unfold KBucket.ids in *. destruct Hspec as
    [|l1 x l2 Hne Hns Hx|Hne Hid Hlt|l1 x l2 Hne Hid Hge Hns|x l Hne Hid Hge Hns
    |x l Hne Hid Hge Hns]; try (rewrite Hns in Hlen, Hloc).
  - by split.
  - split; cbn; unfold KBucket.ids; cbn; [|set_solver|done..].
    revert Hlen. rewrite !length_app. cbn. lia.
  - split; cbn; unfold KBucket.ids; cbn; [|set_solver|done..].
    rewrite length_app. cbn. lia.
  - split; cbn; unfold KBucket.ids; cbn; [|set_solver|done..].
    revert Hlen. rewrite !length_app. cbn. lia.
  - split; cbn; unfold KBucket.ids; cbn; [|set_solver|done..].
    revert Hlen. rewrite !length_app. cbn. lia.
  - destruct (cache_push_ids (Node.update_last_seen now node) b Hc) as [Hnd Hin].
    split; cbn; [by rewrite Hns | unfold KBucket.ids; cbn; by rewrite Hns| |done].
    intros [E|]%Hin; [by cbn in E|done].
Qed.

Lemma update_spec_NoDup `{Profile} now node b b' r :
  KBucket.update_spec now node b b' r -> NoDup (KBucket.ids b) -> NoDup (KBucket.ids b').
Proof.
  unfold KBucket.ids. intros Hspec Hnd. destruct Hspec as
    [|l1 x l2 Hne Hns Hx|Hne Hid Hlt|l1 x l2 Hne Hid Hge Hns|x l Hne Hid Hge Hns
    |x l Hne Hid Hge Hns]; [done|..|done]; cbn; unfold KBucket.ids in *;
    rewrite ?app_assoc, fmap_app; cbn; apply NoDup_snoc; [| done |..];
    rewrite Hns, ?fmap_app, fmap_cons in *; rewrite ?fmap_app;
    first [rewrite NoDup_middle in Hnd | rewrite NoDup_cons in Hnd]; set_solver.
Qed.

Lemma update_spec_lru `{Profile} now now' node b b' r :
  (now <= now')%Z ->
  KBucket.update_spec now' node b b' r -> lru_ordered now b -> lru_ordered now' b'.
Proof.
  intros Hle Hspec [Hs Hall].
  assert (Forall (fun x => seen_at x <= now')%Z (KBucket.nodes b)) as Hall'.
  { eapply Forall_impl; [exact Hall|]. cbn. lia. }
  assert (forall l n, StronglySorted (fun x y => seen_at x <= seen_at y)%Z l ->
    Forall (fun x => seen_at x <= now')%Z l ->
    lru_ordered now' (KBucket.set_nodes (l ++ [Node.update_last_seen now' n]) b)) as Hpush.
  { intros l n Hsl Hl. split; cbn.
    - by apply sorted_snoc.
    - apply Forall_app. split; [done|]. repeat constructor. cbn. lia. }
  destruct Hspec as [|l1 x l2 Hne Hns Hx|Hne Hid Hlt|l1 x l2 Hne Hid Hge Hns|x l Hne Hid Hge Hns
    |x l Hne Hid Hge Hns]; [done|..|done].
  2: by apply Hpush.
  all: rewrite Hns in Hs, Hall'; rewrite ?app_assoc; apply Hpush;
    [eauto using sorted_remove_middle | try (apply Forall_app in Hall' as [? ?%Forall_cons];
     apply Forall_app; tauto) ].
  all: first [by apply StronglySorted_cons in Hs as [_ ?] | by apply Forall_cons in Hall' as [_ ?]].
Qed.

(** No update brings in an identifier other than the contact's. *)
Lemma update_spec_ids `{Profile} now node b b' r i :
  KBucket.update_spec now node b b' r -> bucket_wf b ->
  i ∈ KBucket.ids b' ++ KBucket.cache_ids b' ->
  i = Node.id node \/ i ∈ KBucket.ids b ++ KBucket.cache_ids b.
Proof.
  intros Hspec [_ _ _ Hc]. unfold KBucket.ids in *. destruct Hspec as
    [|l1 x l2 Hne Hns Hx|Hne Hid Hlt|l1 x l2 Hne Hid Hge Hns|x l Hne Hid Hge Hns
    |x l Hne Hid Hge Hns]; [auto|..]; rewrite !elem_of_app; cbn.
  all: try (unfold KBucket.cache_ids; cbn; rewrite ?Hns, ?fmap_app, ?fmap_cons; set_solver).
  destruct (cache_push_ids (Node.update_last_seen now node) b Hc) as [_ Hin].
  rewrite Hin. cbn. tauto.
Qed.

(** [update] looks at nothing but the identifier of a contact the bucket
    already holds. *)
Lemma update_known_eq `{Profile} now node node' b :
  Node.id node = Node.id node' -> Node.id node ∈ KBucket.ids b ->
  KBucket.update now node b = KBucket.update now node' b.
Proof.
  intros E Hin. unfold KBucket.update. rewrite E. case_decide; [done|].
  destruct (position _ _) eqn:Hp; [done|].
  apply KBucket.position_has_id_None in Hp. by rewrite E in Hin.
Qed.

(** An update evicts only contacts that are unreliable or inactive. *)
Lemma update_spec_keeps `{Profile} now node b b' r n :
  KBucket.update_spec now node b b' r -> n ∈ KBucket.nodes b ->
  Node.id n <> Node.id node -> KBucket.reliable n ->
  Node.is_active now NODE_TIMEOUT n = true -> n ∈ KBucket.nodes b'.
Proof.
  intros Hspec Hn Hne Hr Ha. destruct Hspec as
    [|l1 x l2 _ Hns Hx|_ Hid Hlt|l1 x l2 _ Hid Hge Hns Hu _|x l _ Hid Hge Hns _ Hact
    |x l _ Hid Hge Hns]; cbn; [done| | | | |done]; rewrite ?Hns in Hn; try set_solver.
  all: unfold KBucket.reliable, KBucket.unreliable in *.
  all: assert (n <> x) by congruence; set_solver.
Qed.

(** ** [remove] *)
Lemma remove_cases now i b :
  match KBucket.remove now i b with
  | (b', None) => i ∉ KBucket.ids b /\ b' = b
  | (b', Some x) =>
      exists l1 l2, KBucket.nodes b = l1 ++ x :: l2 /\ Node.id x = i /\
        i ∉ Node.id <$> l1 /\
        b' = (match KBucket.replacement_cache b with
              | [] => KBucket.set_nodes (l1 ++ l2) b
              | c :: cs => KBucket.set_nodes (l1 ++ l2 ++ [Node.update_last_seen now c])
                             (KBucket.set_cache cs b)
              end)
  end.
Proof.
  unfold KBucket.remove. destruct (position _ _) as [pos|] eqn:Hpos.
  - apply KBucket.position_has_id_split in Hpos as (l1 & x & l2 & Hns & <- & Hx & Hl1).
    assert (KBucket.nodes b !! length l1 = Some x) as -> by (rewrite Hns; by apply list_lookup_middle).
    unfold KBucket.remove_at. rewrite Hns, delete_middle. cbn.
    destruct (KBucket.replacement_cache b) as [|c cs]; exists l1, l2; [done|].
    split_and!; [done..|]. unfold KBucket.push_back, KBucket.set_nodes. cbn.
    by rewrite <-app_assoc.
  - by apply KBucket.position_has_id_None in Hpos.
Qed.

Lemma remove_params now i b : same_params b (KBucket.remove now i b).1.
Proof.
  pose proof (remove_cases now i b) as Hc. destruct (KBucket.remove now i b) as [b' [x|]]; cbn.
  - destruct Hc as (l1 & l2 & _ & _ & _ & ->). by destruct (KBucket.replacement_cache b).
  - by destruct Hc as [_ ->].
Qed.

Lemma remove_wf now i b : bucket_wf b -> bucket_wf (KBucket.remove now i b).1.
Proof.
  intros [Hlen Hloc Hlc Hc]. pose proof (remove_cases now i b) as Hr.
  destruct (KBucket.remove now i b) as [b' [x|]]; cbn; [|by destruct Hr as [_ ->]].
  destruct Hr as (l1 & l2 & Hns & Hx & Hl1 & ->).
  unfold KBucket.ids, KBucket.cache_ids in *. rewrite Hns in Hlen, Hloc.
  rewrite length_app in Hlen. cbn in Hlen.
  destruct (KBucket.replacement_cache b) as [|c cs] eqn:Hcache.
  - split; unfold KBucket.ids, KBucket.cache_ids; cbn; rewrite ?Hcache, ?length_app;
      [lia|set_solver..|constructor].
  - cbn in Hc. apply NoDup_cons in Hc as [Hc Hcs].
    split; unfold KBucket.ids, KBucket.cache_ids; cbn; rewrite ?length_app; cbn;
      [lia|set_solver..|done].
Qed.

Lemma remove_lru now now' i b :
  (now <= now')%Z -> lru_ordered now b -> lru_ordered now' (KBucket.remove now' i b).1.
Proof.
  intros Hle [Hs Hall]. pose proof (remove_cases now' i b) as Hr.
  assert (Forall (fun x => seen_at x <= now')%Z (KBucket.nodes b)) as Hall'.
  { eapply Forall_impl; [exact Hall|]. cbn. lia. }
  destruct (KBucket.remove now' i b) as [b' [x|]]; cbn; [|by destruct Hr as [_ ->]].
  destruct Hr as (l1 & l2 & Hns & _ & _ & ->). rewrite Hns in Hs, Hall'.
  apply sorted_remove_middle in Hs.
  apply Forall_app in Hall' as [Hl1 [_ Hl2]%Forall_cons].
  destruct (KBucket.replacement_cache b) as [|c cs]; split; cbn.
  - done.
  - by apply Forall_app.
  - rewrite app_assoc. apply sorted_snoc; [done|]. by apply Forall_app.
  - rewrite !Forall_app. split_and!; [done..|]. repeat constructor. cbn. lia.
Qed.

Lemma remove_ids now j b i :
  let b' := (KBucket.remove now j b).1 in
  i ∈ KBucket.ids b' ++ KBucket.cache_ids b' -> i ∈ KBucket.ids b ++ KBucket.cache_ids b.
Proof.
  pose proof (remove_cases now j b) as Hr. destruct (KBucket.remove now j b) as [b' [x|]]; cbn;
    [|by destruct Hr as [_ ->]].
  destruct Hr as (l1 & l2 & Hns & _ & _ & ->). unfold KBucket.ids, KBucket.cache_ids.
  destruct (KBucket.replacement_cache b) as [|c cs] eqn:Hc; cbn;
    rewrite ?Hns, ?Hc, ?fmap_app, ?fmap_cons; set_solver.
Qed.

(** ** [contains] and [get] *)
Lemma contains_ids i b : KBucket.contains i b = true <-> i ∈ KBucket.ids b.
Proof.
  unfold KBucket.contains, KBucket.ids. rewrite existsb_exists, list_elem_of_fmap.
  unfold KBucket.has_id. split.
  - intros (n & Hn & E%bool_decide_eq_true). exists n. by rewrite list_elem_of_In.
  - intros (n & -> & Hn). exists n. rewrite <-list_elem_of_In. split; [done|].
    by apply bool_decide_eq_true.
Qed.

Lemma get_Some i b n :
  KBucket.get i b = Some n -> n ∈ KBucket.nodes b /\ Node.id n = i.
Proof.
  unfold KBucket.get. rewrite find_first_position. intros (pos & Hp & Hn)%bind_Some.
  apply KBucket.position_has_id_split in Hp as (l1 & x & l2 & Hns & <- & Hx & _).
  rewrite Hns, list_lookup_middle in Hn by done. injection Hn as ->.
  rewrite Hns. split; [set_solver|done].
Qed.

Lemma get_None i b : KBucket.get i b = None <-> i ∉ KBucket.ids b.
Proof.
  unfold KBucket.get, KBucket.ids. rewrite find_first_position.
  rewrite <-KBucket.position_has_id_None. split; [|by intros ->].
  destruct (position _ _) as [pos|] eqn:Hp; [|done]. cbn.
  apply KBucket.position_has_id_split in Hp as (l1 & x & l2 & -> & <- & _).
  by rewrite list_lookup_middle.
Qed.

(** In a bucket without duplicates [get] finds the one contact. *)
Lemma get_unique i b n :
  NoDup (KBucket.ids b) -> n ∈ KBucket.nodes b -> Node.id n = i -> KBucket.get i b = Some n.
Proof.
  unfold KBucket.ids. intros Hnd Hn <-.
  apply list_elem_of_split in Hn as (l1 & l2 & Hns). unfold KBucket.get.
  rewrite find_first_position, Hns in *. rewrite fmap_app, fmap_cons, NoDup_middle in Hnd.
  rewrite KBucket.position_has_id_split_intro by set_solver. cbn. by rewrite list_lookup_middle.
Qed.

(** ** [get_closest]: the specification shared with the routing table *)
Definition distance_to (target : NodeId) (n : Node) : Z :=
  NodeId.val (NodeId.distance (Node.id n) target).

(** [r] holds the [count] elements of [ns] closest to [target], closest first. *)
Definition closest_to (target : NodeId) (count : nat) (ns r : list Node) : Prop :=
  StronglySorted (fun x y => distance_to target x <= distance_to target y)%Z r /\
  length r = Nat.min count (length ns) /\
  exists rest, ns ≡ₚ r ++ rest /\
    forall x y, x ∈ r -> y ∈ rest -> (distance_to target x <= distance_to target y)%Z.

Lemma distance_cmp_key target x y :
  KBucket.distance_cmp target x y = Z.compare (distance_to target x) (distance_to target y).
Proof. apply cmp_val. Qed.

(** Distinct identifiers are at distinct distances. *)
Lemma distance_to_inj target x y :
  distance_to target x = distance_to target y -> Node.id x = Node.id y.
Proof.
  unfold distance_to. rewrite !NodeId.val_distance. intros E. apply (inj NodeId.val).
  rewrite <-(lxor_cancel (NodeId.val target) (NodeId.val (Node.id x))), Z.lxor_comm.
  rewrite (Z.lxor_comm (NodeId.val target) (NodeId.val (Node.id x))), E.
  by rewrite Z.lxor_assoc, Z.lxor_nilpotent, Z.lxor_0_r.
Qed.

Lemma NoDup_distances target ns :
  NoDup (Node.id <$> ns) -> NoDup (distance_to target <$> ns).
Proof.
  induction ns as [|n ns IH]; cbn; [constructor|]. rewrite !NoDup_cons.
  intros [Hn Hns]. split; [|auto]. intros (m & E & Hm)%list_elem_of_fmap.
  apply Hn. rewrite (distance_to_inj _ _ _ E). by apply list_elem_of_fmap_2.
Qed.

Lemma take_sort_closest target count ns :
  closest_to target count ns (take count (sort_by (KBucket.distance_cmp target) ns)).
Proof.
  pose proof (sort_by_sorted _ _ (distance_cmp_key target) ns) as Hs.
  split_and!.
  - by apply sorted_take.
  - by rewrite length_take, length_sort_by.
  - exists (drop count (sort_by (KBucket.distance_cmp target) ns)). split.
    + by rewrite take_drop, sort_by_Permutation.
    + intros x y. by apply sorted_take_closest.
Qed.

(** ** Totality of [update] *)
Definition stats_ok (b : KBucket) : Prop :=
  Forall (fun n => stats_fit (Node.response_stats n)) (KBucket.nodes b).

Lemma stats_fit_reliable `{Profile} n :
  stats_fit (Node.response_stats n) -> KBucket.reliable n \/ KBucket.unreliable n.
Proof.
  intros Hfit. unfold KBucket.reliable, KBucket.unreliable, MIN_SUCCESS_RATE.
  rewrite is_reliable_fit by done. destruct (Z.leb _ _); auto.
Qed.

Lemma reliable_split `{Profile} ns :
  Forall (fun n => stats_fit (Node.response_stats n)) ns ->
  Forall KBucket.reliable ns \/
  exists l1 x l2, ns = l1 ++ x :: l2 /\ Forall KBucket.reliable l1 /\ KBucket.unreliable x.
Proof.
  induction 1 as [|n ns Hn Hns IH]; [by left|].
  destruct (stats_fit_reliable n Hn) as [Hr|Hu].
  - destruct IH as [IH|(l1 & x & l2 & -> & Hl1 & Hx)].
    + left. by constructor.
    + right. exists (n :: l1), x, l2. split_and!; [done|by constructor|done].
  - right. by exists [], n, ns.
Qed.

Lemma update_returns `{Profile} now node b :
  0 < KBucket.k b -> stats_ok b -> returns (KBucket.update now node b).
Proof.
  intros Hk Hst.
  assert (exists b' r, KBucket.update_spec now node b b' r) as (b' & r & Hu).
  { destruct (decide (Node.id node = KBucket.local_node_id b)); [by do 2 eexists; constructor|].
    destruct (decide (Node.id node ∈ KBucket.ids b)) as [Hin|Hin].
    - destruct (position (KBucket.has_id (Node.id node)) (KBucket.nodes b)) as [pos|] eqn:Hp.
      + apply KBucket.position_has_id_split in Hp as (l1 & x & l2 & Hns & _ & Hx & Hl1).
        do 2 eexists. by eapply KBucket.us_refresh.
      + by apply KBucket.position_has_id_None in Hp.
    - destruct (Nat.lt_ge_cases (length (KBucket.nodes b)) (KBucket.k b));
        [by do 2 eexists; eapply KBucket.us_insert|].
      destruct (reliable_split (KBucket.nodes b) Hst) as [Hrel|(l1 & x & l2 & Hns & Hl1 & Hx)].
      + destruct (KBucket.nodes b) as [|x l] eqn:Hns; [cbn in *; lia|].
        destruct (Node.is_active now NODE_TIMEOUT x) eqn:Hact; do 2 eexists;
          [eapply KBucket.us_pending | eapply KBucket.us_evict_inactive]; rewrite ?Hns; eauto.
      + do 2 eexists. by eapply KBucket.us_evict_unreliable. }
  eexists. by apply update_complete.
Qed.

(** ** [split]: the two halves of a bucket, in order. *)
Definition bit_filter (b : KBucket) (bit : bool) (ns : list Node) : list Node :=
  filter (fun n => NodeId.bit_at (Node.id n) (KBucket.prefix_len b) = bit) ns.

Lemma bit_filter_cons b bit n ns :
  bit_filter b bit (n :: ns) =
    (if bool_decide (NodeId.bit_at (Node.id n) (KBucket.prefix_len b) = bit)
     then [n] else []) ++ bit_filter b bit ns.
Proof. unfold bit_filter. rewrite filter_cons. by case_decide; case_bool_decide. Qed.

(** A bucket that takes [n] at the back without any eviction. *)
Definition accepts (n : Node) (b : KBucket) : Prop :=
  Node.id n <> KBucket.local_node_id b /\ Node.id n ∉ KBucket.ids b /\
  length (KBucket.nodes b) < KBucket.k b.

Lemma split_step_insert `{Profile} now b n b0 b1 :
  accepts n b0 -> accepts n b1 ->
  KBucket.split_step now b (mret (b0, b1)) n =
    mret (if NodeId.bit_at (Node.id n) (KBucket.prefix_len b)
          then (b0, KBucket.push_back (Node.update_last_seen now n) b1)
          else (KBucket.push_back (Node.update_last_seen now n) b0, b1)).
Proof.
  intros (Hl0 & Hi0 & Hk0) (Hl1 & Hi1 & Hk1). unfold KBucket.split_step. cbn.
  destruct (NodeId.bit_at _ _).
  - by rewrite (update_complete _ _ _ _ _ (KBucket.us_insert now n b1 Hl1 Hi1 Hk1)).
  - by rewrite (update_complete _ _ _ _ _ (KBucket.us_insert now n b0 Hl0 Hi0 Hk0)).
Qed.

Lemma split_fold `{Profile} now (b : KBucket) ns b0 b1 :
  Forall (fun n => Node.id n <> KBucket.local_node_id b0 /\
                   Node.id n <> KBucket.local_node_id b1) ns ->
  NoDup (Node.id <$> KBucket.nodes b0 ++ KBucket.nodes b1 ++ ns) ->
  length (KBucket.nodes b0) + length ns <= KBucket.k b0 ->
  length (KBucket.nodes b1) + length ns <= KBucket.k b1 ->
  fold_left (KBucket.split_step now b) ns (mret (b0, b1)) =
    mret (KBucket.set_nodes (KBucket.nodes b0 ++
            (Node.update_last_seen now <$> bit_filter b false ns)) b0,
          KBucket.set_nodes (KBucket.nodes b1 ++
            (Node.update_last_seen now <$> bit_filter b true ns)) b1).
Proof.
  revert b0 b1. induction ns as [|n ns IH]; intros b0 b1 Hloc Hnd H0 H1.
  { cbn. rewrite !app_nil_r. by destruct b0, b1. }
  apply Forall_cons in Hloc as [[Hl0 Hl1] Hloc]. cbn [length] in H0, H1.
  pose proof Hnd as Hnd'. rewrite app_assoc, fmap_app, fmap_cons, NoDup_middle in Hnd'.
  destruct Hnd' as [Hnd' Hn]. rewrite fmap_app in Hn.
  cbn [fold_left]. rewrite split_step_insert.
  2,3: split_and!; [done| unfold KBucket.ids; set_solver | lia].
  rewrite !bit_filter_cons. destruct (NodeId.bit_at _ _); cbn; rewrite IH; cbn;
    rewrite ?length_app; cbn; rewrite <-?app_assoc; try done; try lia.
  all: eapply NoDup_perm; [|exact Hnd]; rewrite !fmap_app; cbn; solve_Permutation.
Qed.

Lemma split_eq `{Profile} now b :
  bucket_wf b -> NoDup (KBucket.ids b) ->
  let fresh := KBucket.new (KBucket.local_node_id b) (S (KBucket.prefix_len b)) (KBucket.k b) in
  KBucket.split now b =
    mret (KBucket.set_nodes (Node.update_last_seen now <$> bit_filter b false (KBucket.nodes b)) fresh,
          KBucket.set_nodes (Node.update_last_seen now <$> bit_filter b true (KBucket.nodes b)) fresh).
Proof.
  intros [Hlen Hloc _ _] Hnd fresh. unfold KBucket.split. cbn. rewrite split_fold; cbn; try done.
  apply Forall_forall. intros n Hn. assert (Node.id n <> KBucket.local_node_id b); [|done].
  intros E. apply Hloc. rewrite <-E. unfold KBucket.ids. by apply list_elem_of_fmap_2.
Qed.

(** ** No operation of a bucket loops *)
Lemma is_reliable_fuel `{Profile} thr s : enough_fuel (ResponseStats.is_reliable thr s).
Proof.
  unfold ResponseStats.is_reliable, ResponseStats.success_rate.
  repeat (apply enough_fuel_bind; [|intros]); auto with kad. case_match; auto with kad.
Qed.

Lemma update_enough_fuel `{Profile} now node b : enough_fuel (KBucket.update now node b).
Proof.
  unfold KBucket.update. case_decide; [auto with kad|].
  destruct (position _ _); [destruct (_ !! _); auto with kad|].
  destruct (_ <? _); [auto with kad|].
  apply enough_fuel_bind; [|intros; repeat case_match; auto with kad].
  apply positionM_fuel. intros n. apply enough_fuel_bind; [apply is_reliable_fuel|auto with kad].
Qed.

Lemma should_split_fuel b : enough_fuel (KBucket.should_split b).
Proof. unfold KBucket.should_split. repeat case_match; auto with kad. Qed.

Lemma split_fold_fuel `{Profile} now b ns acc :
  enough_fuel acc -> enough_fuel (fold_left (KBucket.split_step now b) ns acc).
Proof.
  revert acc. induction ns as [|n ns IH]; intros acc Hacc; cbn; [done|].
  apply IH. unfold KBucket.split_step. apply enough_fuel_bind; [done|]. intros [b0 b1] _.
  case_match; (apply enough_fuel_bind; [apply update_enough_fuel|]; intros [? ?] _; auto with kad).
Qed.

Lemma split_enough_fuel `{Profile} now b : enough_fuel (KBucket.split now b).
Proof. apply split_fold_fuel. auto with kad. Qed.

(** The halves [split] returns are one level deeper. *)
Definition halves_at (k plen : nat) (l : NodeId) (m : exec (KBucket * KBucket)) : Prop :=
  match m with
  | Done (b0, b1) => Forall (fun b => KBucket.k b = k /\ KBucket.local_node_id b = l /\
                                      KBucket.prefix_len b = plen) [b0; b1]
  | _ => True
  end.

Lemma split_step_halves `{Profile} now b n k plen l m :
  halves_at k plen l m -> halves_at k plen l (KBucket.split_step now b m n).
Proof.
  destruct m as [[b0 b1]| |]; cbn; [|done..]. rewrite !Forall_cons.
  intros (H0 & H1 & _). destruct (NodeId.bit_at _ _).
  all: destruct (KBucket.update now n _) as [[b' r]| |] eqn:Hu; cbn; [|done..].
  all: apply update_sound, update_spec_params in Hu as (E1 & E2 & E3).
  all: rewrite !Forall_cons, Forall_nil, E1, E2, E3; tauto.
Qed.

Lemma split_params `{Profile} now b b0 b1 :
  KBucket.split now b = Done (b0, b1) ->
  KBucket.prefix_len b0 = S (KBucket.prefix_len b).
Proof.
  intros Hs. unfold KBucket.split in Hs.
  assert (forall ns m, halves_at (KBucket.k b) (S (KBucket.prefix_len b)) (KBucket.local_node_id b) m ->
    halves_at (KBucket.k b) (S (KBucket.prefix_len b)) (KBucket.local_node_id b)
      (fold_left (KBucket.split_step now b) ns m)) as Hfold.
  { induction ns as [|n ns IH]; intros m Hm; [done|]. apply IH. by apply split_step_halves. }
  match type of Hs with fold_left _ ?ns ?m = _ => specialize (Hfold ns m) end.
  rewrite Hs in Hfold. apply Forall_cons in Hfold as [Hfold _]; [tauto|].
  by repeat constructor.
Qed.

(** Beyond the 160 bits of an identifier no bucket splits. *)
Lemma should_split_deep b : KEY_LENGTH_BITS <= KBucket.prefix_len b ->
  KBucket.should_split b <> Done true.
Proof.
  intros Hp. assert (forall n, NodeId.bit_at (Node.id n) (KBucket.prefix_len b) = false) as Hbit.
  { intros n. unfold NodeId.bit_at. by destruct (Nat.leb_spec KEY_LENGTH_BITS (KBucket.prefix_len b)); [|lia]. }
  unfold KBucket.should_split. destruct (negb _); [done|].
  destruct (KBucket.nodes b) as [|n0 ns]; [done|].
  rewrite (proj2 (forallb_forall _ _)); [done|]. intros n _. by rewrite !Hbit.
Qed.

(** A bucket whose contacts agree on the bit of its level does not split. *)
Lemma should_split_agree bit b :
  0 < KBucket.k b ->
  Forall (fun n => NodeId.bit_at (Node.id n) (KBucket.prefix_len b) = bit) (KBucket.nodes b) ->
  KBucket.should_split b = Done false.
Proof.
  intros Hk Hall. unfold KBucket.should_split, KBucket.is_full, KBucket.len.
  destruct (Nat.leb_spec (KBucket.k b) (length (KBucket.nodes b))); [|done]. cbn.
  destruct (KBucket.nodes b) as [|n0 ns]; [cbn in *; lia|]. f_equal. apply negb_false_iff.
  rewrite Forall_forall in Hall. apply forallb_forall. intros n Hn%list_elem_of_In.
  rewrite (Hall n Hn), (Hall n0) by (by left). apply eqb_reflx.
Qed.
