(* ===== verification/BucketSpec.v ===== *)
(** * Theorems on k-buckets

    The properties of [Bucket]: the refinement of [update] by its declarative
    specification, the invariants of the two queues, the effects of [remove],
    [split] and [get_closest], and the way the replacement cache can
    bring a contact into the bucket twice. *)

From S2P Require Import Prelude Errors Bytes Ident F64 Contact Fixtures Bucket.

(** C12: [KBucket::update] implements its declarative specification, branch by
    branch: rejection of the local node, refresh of a known contact, insertion,
    eviction of the first unreliable contact, eviction of an inactive front
    contact, or a pending ping of the front contact. It always ends, and it
    panics in no bucket with positive capacity whose contacts' counters do not
    overflow, as they do not in a table of honest contacts; with capacity zero,
    which [RoutingTable::with_k] accepts, every update with a remote contact
    panics on the missing front node. *)
Theorem update_refines_spec `{Profile} now node b :
  (forall b' r, KBucket.update now node b = Done (b', r) <-> KBucket.update_spec now node b b' r) /\
  enough_fuel (KBucket.update now node b) /\
  (stats_ok b -> length (KBucket.nodes b) <= KBucket.k b ->
   (0 < KBucket.k b -> returns (KBucket.update now node b)) /\
   (KBucket.k b = 0 -> Node.id node <> KBucket.local_node_id b ->
      KBucket.update now node b = Panic)).
Proof.
  split_and!; [|apply update_enough_fuel|].
  - split; [apply update_sound | apply update_complete].
  - intros Hst Hlen. split; [intros; by apply update_returns|].
    intros Hk Hne. unfold KBucket.update. rewrite decide_False by done.
    destruct (KBucket.nodes b) as [|]; [|cbn in Hlen; lia]. cbn. by rewrite Hk.
Qed.

(** A bucket without room panics. *)
Lemma update_refines_spec_witness :
  let b := KBucket.new (sample_id 0) 0 0 in
  stats_ok b /\ @KBucket.update debug_build 10 (contact 1) b = Panic.
Proof.
  split; [constructor|].
  apply (@update_refines_spec debug_build 10 (contact 1) (KBucket.new (sample_id 0) 0 0));
    [constructor | cbn; lia | reflexivity |].
  by_decide.
Defined.

(** C16: an update preserves the invariants of a bucket: at most [k] contacts,
    neither queue holds the local node, no identifier occurs twice in either
    queue, the queue is ordered by the time of last contact, and the bucket's
    parameters do not change. *)
Theorem update_preserves_invariants `{Profile} now now' node b b' r :
  (now <= now')%Z -> KBucket.update now' node b = Done (b', r) ->
  bucket_wf b -> NoDup (KBucket.ids b) -> lru_ordered now b ->
  bucket_wf b' /\ NoDup (KBucket.ids b') /\ lru_ordered now' b' /\ same_params b b'.
Proof.
  intros Hle Hu%update_sound Hwf Hnd Hlru.
  split_and!.
  - by eapply update_spec_wf.
  - by eapply update_spec_NoDup.
  - by eapply update_spec_lru.
  - by eapply update_spec_params.
Qed.

Lemma update_preserves_invariants_witness :
  let b0 := KBucket.new (sample_id 0) 0 2 in
  exists b1, @KBucket.update debug_build 10 (contact 1) b0 = Done (b1, Ok Updated) /\
    bucket_wf b1 /\ NoDup (KBucket.ids b1) /\ lru_ordered 10 b1 /\ same_params b0 b1.
Proof.
  eexists. split; [vm_compute; reflexivity|].
  apply (@update_preserves_invariants debug_build 0 10 (contact 1)
    (KBucket.new (sample_id 0) 0 2) _ (Ok Updated)); [lia|vm_compute; reflexivity|..].
  - split; cbn; [lia|by apply not_elem_of_nil..|constructor].
  - constructor.
  - split; constructor.
Defined.

(** [remove] takes out the contact with the given identifier and promotes
    the oldest entry of the replacement cache to the most recently seen
    position; it reports [None] and changes nothing exactly when no contact
    has the identifier. It preserves the structural and the ordering
    invariant of the bucket. *)
Lemma remove_promotes_cache now now' i b b' r :
  (now <= now')%Z -> bucket_wf b -> lru_ordered now b ->
  KBucket.remove now' i b = (b', r) ->
  bucket_wf b' /\ lru_ordered now' b' /\ same_params b b' /\
  match r with
  | None => i ∉ KBucket.ids b /\ b' = b
  | Some x =>
      exists l1 l2, KBucket.nodes b = l1 ++ x :: l2 /\ Node.id x = i /\
        KBucket.nodes b' = l1 ++ l2 ++
          (Node.update_last_seen now' <$> take 1 (KBucket.replacement_cache b)) /\
        KBucket.replacement_cache b' = drop 1 (KBucket.replacement_cache b)
  end.
Proof.
  intros Hle Hwf Hlru Hrem. pose proof (remove_wf now' i b Hwf) as Hwf'.
  pose proof (remove_lru now now' i b Hle Hlru) as Hlru'.
  pose proof (remove_params now' i b) as Hp. pose proof (remove_cases now' i b) as Hc.
  rewrite Hrem in *. cbn in Hwf', Hlru', Hp. split_and!; [done..|].
  destruct r as [x|]; [|done].
  destruct Hc as (l1 & l2 & Hns & Hx & _ & ->). exists l1, l2. split_and!; [done..| |];
    destruct (KBucket.replacement_cache b) eqn:Hcache; cbn; by rewrite ?app_nil_r.
Qed.

Lemma remove_promotes_cache_witness :
  let b := KBucket.Mk 1 (sample_id 0) 0 [contact 1] [contact 2] in
  let b' := KBucket.Mk 1 (sample_id 0) 0 [Node.update_last_seen 5 (contact 2)] [] in
  KBucket.remove 5 (sample_id 1) b = (b', Some (contact 1)) /\ bucket_wf b'.
Proof.
  assert (KBucket.remove 5 (sample_id 1) (KBucket.Mk 1 (sample_id 0) 0 [contact 1] [contact 2])
    = (KBucket.Mk 1 (sample_id 0) 0 [Node.update_last_seen 5 (contact 2)] [], Some (contact 1)))
    as E by (vm_compute; reflexivity).
  split; [exact E|].
  refine (proj1 (remove_promotes_cache 0 5 _ _ _ _ _ _ _ E)); [lia| |].
  - split; [cbn; lia|by_decide..].
  - split; [repeat constructor|]. repeat constructor; cbn; lia.
Defined.

(** C32: a contact that enters a bucket while it waits at the head of the
    replacement cache is not taken out of the cache, so a later [remove] brings
    it in a second time: removing another contact leaves the bucket with the
    identifier twice, and removing the contact itself leaves it in the bucket. *)
Theorem stale_cache_entry_duplicates `{Profile} now now' node b b' y :
  KBucket.update now node b = Done (b', Ok Updated) ->
  head (KBucket.cache_ids b) = Some (Node.id node) ->
  y ∈ KBucket.ids b' ->
  Node.id node ∈ KBucket.ids (KBucket.remove now' y b').1 /\
  (y <> Node.id node -> ~ NoDup (KBucket.ids (KBucket.remove now' y b').1)).
Proof.
  intros Hs%update_sound Hc Hy. unfold KBucket.ids, KBucket.cache_ids in *.
  destruct (KBucket.replacement_cache b) as [|c cs] eqn:Hcache; [done|]. injection Hc as Hc.
  apply update_spec_updated in Hs as (Hc' & front & n & Hns' & Hn & _). rewrite Hcache in Hc'.
  pose proof (remove_cases now' y b') as Hr.
  destruct (KBucket.remove now' y b') as [b1 [x|]]; [|by destruct Hr].
  destruct Hr as (l1 & l2 & Hns & Hx & _ & ->). rewrite Hc', Hns in *. cbn.
  rewrite app_assoc, fmap_app. cbn. rewrite Hc, NoDup_snoc. split; [set_solver|].
  intros Hne [_ Hnd]. apply Hnd.
  assert (n ∈ l1 ++ x :: l2) as Hin by (rewrite Hns'; set_solver).
  apply list_elem_of_fmap. exists n. split; [done|]. set_solver.
Qed.

(** Capacity 2, local node 0: contacts 1 and 3 fill the bucket, 2 waits in the
    cache while 1 is active, then replaces the inactive 1. *)
Lemma stale_cache_entry_duplicates_witness :
  let ok_or_empty (m : exec (KBucket * Result KBucketUpdate)) :=
    match m with Done (b, _) => b | _ => KBucket.new (sample_id 0) 0 2 end in
  let u now n b := ok_or_empty (@KBucket.update debug_build now (contact n) b) in
  let b := u 900%Z 2%Z (u 10%Z 3%Z (u 0%Z 1%Z (KBucket.new (sample_id 0) 0 2))) in
  ~ NoDup (KBucket.ids (KBucket.remove 2000 (sample_id 3) (u 1000%Z 2%Z b)).1).
Proof.
  intros ok_or_empty u b.
  apply (@stale_cache_entry_duplicates debug_build 1000 2000 (contact 2) b (u 1000%Z 2%Z b)
    (sample_id 3)); [vm_compute; reflexivity|by_decide..].
Defined.

(** [split] never loses or reorders a contact: for a well-formed bucket the two
    halves hold, in the order of the bucket and with refreshed timestamps,
    the contacts whose identifier has bit [prefix_len] clear and set; both
    are well-formed one level deeper. The replacement cache is dropped. *)
Lemma split_partitions `{Profile} now b :
  bucket_wf b -> NoDup (KBucket.ids b) ->
  exists b0 b1, KBucket.split now b = Done (b0, b1) /\
    KBucket.nodes b0 = Node.update_last_seen now <$>
      filter (fun n => NodeId.bit_at (Node.id n) (KBucket.prefix_len b) = false) (KBucket.nodes b) /\
    KBucket.nodes b1 = Node.update_last_seen now <$>
      filter (fun n => NodeId.bit_at (Node.id n) (KBucket.prefix_len b) = true) (KBucket.nodes b) /\
    Forall (fun b' => bucket_wf b' /\ NoDup (KBucket.ids b') /\ KBucket.k b' = KBucket.k b /\
      KBucket.prefix_len b' = S (KBucket.prefix_len b) /\ KBucket.replacement_cache b' = [])
      [b0; b1].
Proof.
  intros Hwf Hnd. do 2 eexists. split; [by apply split_eq|]. split_and!; [done..|].
  destruct Hwf as [Hlen Hloc _ _].
  assert (forall bit, let b' := KBucket.set_nodes (Node.update_last_seen now <$>
      bit_filter b bit (KBucket.nodes b))
      (KBucket.new (KBucket.local_node_id b) (S (KBucket.prefix_len b)) (KBucket.k b)) in
    bucket_wf b' /\ NoDup (KBucket.ids b') /\ KBucket.k b' = KBucket.k b /\
    KBucket.prefix_len b' = S (KBucket.prefix_len b) /\ KBucket.replacement_cache b' = []) as Hh.
  2: { apply Forall_cons. split; [apply (Hh false)|]. apply Forall_singleton, (Hh true). }
  intros bit b'. assert (Node.id <$> KBucket.nodes b' `sublist_of` KBucket.ids b) as Hsub.
  { cbn. rewrite <-list_fmap_compose. apply (fmap_sublist Node.id), sublist_filter. }
  split_and!; [|by eapply sublist_NoDup|done..]. split; cbn.
  - rewrite length_fmap. etrans; [|exact Hlen]. apply sublist_length, sublist_filter.
  - intros Hin. apply Hloc. by eapply elem_of_sublist.
  - apply not_elem_of_nil.
  - constructor.
Qed.

Lemma split_partitions_witness :
  let b := KBucket.Mk 2 (sample_id 0) 159 [contact 1; contact 2] [contact 3] in
  bucket_wf b /\ exists b0 b1, @KBucket.split debug_build 7 b = Done (b0, b1).
Proof.
  assert (bucket_wf (KBucket.Mk 2 (sample_id 0) 159 [contact 1; contact 2] [contact 3])) as Hwf.
  { split; [cbn; lia|by_decide..]. }
  split; [exact Hwf|].
  destruct (@split_partitions debug_build 7 _ Hwf) as (b0 & b1 & E & _); [by_decide|].
  by exists b0, b1.
Defined.

(** [KBucket::get_closest] returns the contacts closest to the target, in
    order of distance, as many as asked for or as there are. *)
Lemma bucket_get_closest_spec target count b :
  closest_to target count (KBucket.nodes b) (KBucket.get_closest target count b).
Proof. apply take_sort_closest. Qed.
