(* ===== verification/Table.v ===== *)
(** * The routing table (src/src/routing/routing_table.rs)

    [buckets] is the [HashMap<usize, KBucket>] as a finite map. The recursion
    of [update] after a split takes fuel; [Table] proves that
    [KEY_LENGTH_BITS + 1] calls are always enough. *)

From S2P Require Import Prelude Errors Bytes Ident F64 Contact Bucket.

Module UpdateStatus.
Inductive t :=
  | Unchanged
  | Updated
  | PendingPing (node_to_ping : Node).
End UpdateStatus.
Abbreviation UpdateStatus := UpdateStatus.t.

Module RoutingTable.
Record t := Mk {
  local_node_id : NodeId;
  buckets : gmap nat KBucket;
  k : nat
}.
Add Printing Constructor t.

Definition new (local : NodeId) : t := Mk local ∅ K.
Definition with_k (local : NodeId) (kk : nat) : t := Mk local ∅ kk.

Definition set_buckets (f : gmap nat KBucket -> gmap nat KBucket) (self : t) : t :=
  Mk (local_node_id self) (f (buckets self)) (k self).

Section queries.
Context `{!HashOrder nat KBucket}.

(** [keys().cloned().collect()] then [sort_unstable] *)
Definition bucket_indices (self : t) : list nat :=
  merge_sort le (hash_keys (buckets self)).

Definition node_count (self : t) : nat :=
  sum_list (KBucket.len <$> hash_values (buckets self)).

Definition get_all_nodes (self : t) : list Node :=
  hash_values (buckets self) ≫= KBucket.nodes.

Definition get_closest (target : NodeId) (count : nat) (self : t) : list Node :=
  take count (sort_by (KBucket.distance_cmp target) (get_all_nodes self)).
End queries.

Definition bucket_index (node_id : NodeId) (self : t) : option nat :=
  NodeId.bucket_index (local_node_id self) node_id.

Definition get_or_create_bucket (index : nat) (self : t) : t * KBucket :=
  match buckets self !! index with
  | Some b => (self, b)
  | None =>
      let b := KBucket.new (local_node_id self) index (k self) in
      (set_buckets <[index := b]> self, b)
  end.

Section ops.
Context `{Profile}.
Variable now : Z.

(** The three ways [update] ends once the bucket is updated. *)
Definition status_of (u : KBucketUpdate) : UpdateStatus :=
  match u with
  | Unchanged => UpdateStatus.Unchanged
  | Updated => UpdateStatus.Updated
  | PendingPing n => UpdateStatus.PendingPing n
  end.

Fixpoint update_fuel (fuel : nat) (node : Node) (self : t)
    : exec (t * Result UpdateStatus) :=
  match fuel with
  | 0 => OutOfFuel
  | S fuel' =>
      if decide (Node.id node = local_node_id self) then
        mret (self, Ok UpdateStatus.Unchanged)
      else
      match bucket_index (Node.id node) self with
      | None => mret (self, Ok UpdateStatus.Unchanged)
      | Some index =>
          let '(self, bucket) := get_or_create_bucket index self in
          '(bucket, r) ← KBucket.update now node bucket;
          let self := set_buckets <[index := bucket]> self in
          match r with
          | Err e => mret (self, Err e)
          | Ok u =>
              should ← KBucket.should_split bucket;
              if should && (index <? KEY_LENGTH_BITS - 1) then
                '(bucket0, bucket1) ← KBucket.split now bucket;
                let self := set_buckets (fun bs =>
                  <[S index := bucket1]> (<[index := bucket0]> (delete index bs))) self in
                update_fuel fuel' node self
              else mret (self, Ok (status_of u))
          end
      end
  end.
Definition update : Node -> t -> exec (t * Result UpdateStatus) :=
  update_fuel (S KEY_LENGTH_BITS).

(** The body shared by [node_seen], [record_success] and
    [record_failure]: look the contact up, clone it, change the clone with
    [f] and hand it to the bucket's [update]. *)
Definition update_clone (f : Node -> Node) (node_id : NodeId) (self : t)
    : exec (t * Result unit) :=
  match bucket_index node_id self with
  | None => mret (self, Ok tt)
  | Some index =>
      match buckets self !! index with
      | None => mret (self, Ok tt)
      | Some bucket =>
          match KBucket.get node_id bucket with
          | None => mret (self, Ok tt)
          | Some node =>
              let node_clone := f node in
              '(bucket, r) ← KBucket.update now node_clone bucket;
              let self := set_buckets <[index := bucket]> self in
              match r with
              | Err e => mret (self, Err e)
              | Ok _ => mret (self, Ok tt)
              end
          end
      end
  end.

Definition node_seen : NodeId -> t -> exec (t * Result unit) :=
  update_clone (Node.update_last_seen now).

Definition record_success (node_id : NodeId) (response_time_ms : Z)
    : t -> exec (t * Result unit) :=
  update_clone (fun node =>
    let node := Node.set_stats ResponseStats.record_success node in
    let node := Node.set_stats (ResponseStats.record_response_time response_time_ms) node in
    Node.update_last_seen now node) node_id.

Definition record_failure : NodeId -> t -> exec (t * Result unit) :=
  update_clone (Node.set_stats ResponseStats.record_failure).

Definition remove (node_id : NodeId) (self : t) : t * option Node :=
  match bucket_index node_id self with
  | None => (self, None)
  | Some index =>
      match buckets self !! index with
      | None => (self, None)
      | Some bucket =>
          let '(bucket, removed) := KBucket.remove now node_id bucket in
          (set_buckets <[index := bucket]> self, removed)
      end
  end.
End ops.

Definition contains (node_id : NodeId) (self : t) : bool :=
  match bucket_index node_id self with
  | None => false
  | Some index =>
      match buckets self !! index with
      | Some bucket => KBucket.contains node_id bucket
      | None => false
      end
  end.

Definition get (node_id : NodeId) (self : t) : option Node :=
  index ← bucket_index node_id self;
  bucket ← buckets self !! index;
  KBucket.get node_id bucket.
End RoutingTable.
Abbreviation RoutingTable := RoutingTable.t.

(** ** The invariant of a routing table

    Bucket [i] holds exactly contacts whose identifier first differs from the
    local one at bit [i]. *)
Definition bucket_at (t : RoutingTable) (i : nat) (b : KBucket) : Prop :=
  i < KEY_LENGTH_BITS /\ KBucket.k b = RoutingTable.k t /\
  KBucket.local_node_id b = RoutingTable.local_node_id t /\ KBucket.prefix_len b = i /\
  bucket_wf b /\
  forall j, j ∈ KBucket.ids b ++ KBucket.cache_ids b -> RoutingTable.bucket_index j t = Some i.

Definition table_wf (t : RoutingTable) : Prop := map_Forall (bucket_at t) (RoutingTable.buckets t).

(** No bucket holds an identifier twice (not preserved by [remove]). *)
Definition table_distinct (t : RoutingTable) : Prop :=
  map_Forall (fun _ b => NoDup (KBucket.ids b)) (RoutingTable.buckets t).

(** The counters of all contacts are in range and do not overflow when added. *)
Definition table_stats_ok (t : RoutingTable) : Prop :=
  map_Forall (fun _ b => stats_ok b) (RoutingTable.buckets t).

Definition in_table (n : Node) (t : RoutingTable) : Prop :=
  exists i b, RoutingTable.buckets t !! i = Some b /\ n ∈ KBucket.nodes b.

(** The same table but for the buckets. *)
Definition same_table (t t' : RoutingTable) : Prop :=
  RoutingTable.local_node_id t' = RoutingTable.local_node_id t /\
  RoutingTable.k t' = RoutingTable.k t.

Lemma bucket_at_same t t' i b : same_table t t' -> bucket_at t i b -> bucket_at t' i b.
Proof.
  intros [Hl Hk] (Hi & Hbk & Hbl & Hp & Hwf & Hids).
  unfold bucket_at, RoutingTable.bucket_index. rewrite Hl, Hk. auto 10.
Qed.

Lemma table_wf_insert t i b :
  table_wf t -> bucket_at t i b -> table_wf (RoutingTable.set_buckets <[i := b]> t).
Proof.
  intros Hwf Hb j b' Hj. apply (bucket_at_same t); [done|]. cbn in Hj.
  destruct (decide (i = j)) as [->|Hne].
  - rewrite lookup_insert_eq in Hj. by injection Hj as <-.
  - rewrite lookup_insert_ne in Hj by done. by apply Hwf.
Qed.

Lemma bucket_at_new t i :
  i < KEY_LENGTH_BITS ->
  bucket_at t i (KBucket.new (RoutingTable.local_node_id t) i (RoutingTable.k t)).
Proof.
  intros Hi. split_and!; [done..| |].
  - split; cbn; [lia|apply not_elem_of_nil..|constructor].
  - intros j Hj. by apply elem_of_nil in Hj.
Qed.

(** [get_or_create_bucket] returns the bucket now stored at the index. *)
Lemma get_or_create_spec i t t1 b :
  RoutingTable.get_or_create_bucket i t = (t1, b) ->
  RoutingTable.buckets t1 !! i = Some b /\ same_table t t1 /\
  (forall j, j <> i -> RoutingTable.buckets t1 !! j = RoutingTable.buckets t !! j) /\
  (RoutingTable.buckets t !! i = Some b \/
   RoutingTable.buckets t !! i = None /\
     b = KBucket.new (RoutingTable.local_node_id t) i (RoutingTable.k t)).
Proof.
  unfold RoutingTable.get_or_create_bucket.
  destruct (RoutingTable.buckets t !! i) as [b'|] eqn:Hb; intros [= <- <-].
  - split_and!; auto. done.
  - cbn. split_and!; [by rewrite lookup_insert_eq|done| |by right].
    intros j Hj. by rewrite lookup_insert_ne.
Qed.

Lemma get_or_create_wf i t t1 b :
  i < KEY_LENGTH_BITS -> table_wf t ->
  RoutingTable.get_or_create_bucket i t = (t1, b) -> table_wf t1 /\ bucket_at t1 i b.
Proof.
  intros Hi Hwf Hg. pose proof Hg as (Hb & Hs & _ & _)%get_or_create_spec.
  assert (table_wf t1) as Hwf1; [|split; [done|by apply Hwf1]].
  revert Hg. unfold RoutingTable.get_or_create_bucket.
  destruct (RoutingTable.buckets t !! i); intros [= <- <-]; [done|].
  apply table_wf_insert; [done|]. by apply bucket_at_new.
Qed.

Lemma bucket_at_update `{Profile} now t i node b b' r :
  RoutingTable.bucket_index (Node.id node) t = Some i ->
  KBucket.update_spec now node b b' r -> bucket_at t i b -> bucket_at t i b'.
Proof.
  intros Hidx Hu (Hi & Hk & Hl & Hp & Hwf & Hids).
  destruct (update_spec_params _ _ _ _ _ Hu) as (Ek & El & Ep).
  split_and!; [done|congruence..|by eapply update_spec_wf|].
  intros j Hj. destruct (update_spec_ids _ _ _ _ _ _ Hu Hwf Hj) as [->|]; auto.
Qed.

Lemma bucket_at_remove now t i j b :
  bucket_at t i b -> bucket_at t i (KBucket.remove now j b).1.
Proof.
  intros (Hi & Hk & Hl & Hp & Hwf & Hids). destruct (remove_params now j b) as (Ek & El & Ep).
  split_and!; [done|congruence..|by apply remove_wf|].
  intros x Hx. by eapply Hids, remove_ids.
Qed.

(** A bucket in its place never asks for a split. *)
Lemma bucket_at_no_split t i b :
  0 < RoutingTable.k t -> bucket_at t i b -> KBucket.should_split b = Done false.
Proof.
  intros Hk (Hi & Hbk & Hl & Hp & Hwf & Hids).
  apply (should_split_agree (negb (NodeId.bit_at (RoutingTable.local_node_id t) i))); [lia|].
  apply Forall_forall. intros n Hn. rewrite Hp.
  assert (RoutingTable.bucket_index (Node.id n) t = Some i) as Hidx.
  { apply Hids, elem_of_app. left. by apply list_elem_of_fmap_2. }
  apply NodeId.bucket_index_first_bit in Hidx as [Hne _].
  by destruct (NodeId.bit_at _ i), (NodeId.bit_at _ i).
Qed.

(** [update] on a well-formed table updates one bucket and never splits. *)
Lemma update_fuel_direct `{Profile} now fuel node t i t1 b b' u :
  0 < RoutingTable.k t -> table_wf t -> 0 < fuel ->
  RoutingTable.bucket_index (Node.id node) t = Some i ->
  RoutingTable.get_or_create_bucket i t = (t1, b) ->
  KBucket.update now node b = Done (b', Ok u) ->
  RoutingTable.update_fuel now fuel node t =
    Done (RoutingTable.set_buckets <[i := b']> t1, Ok (RoutingTable.status_of u)).
Proof.
  intros Hk Hwf Hf Hidx Hg Hu. destruct fuel as [|fuel]; [lia|]. cbn.
  rewrite decide_False.
  2: { intros E. unfold RoutingTable.bucket_index in Hidx.
       by rewrite (proj2 (NodeId.bucket_index_None _ _)) in Hidx. }
  rewrite Hidx, Hg, Hu. cbn.
  pose proof (get_or_create_wf _ _ _ _ (NodeId.bucket_index_lt _ _ _ Hidx) Hwf Hg) as [_ Hb].
  pose proof Hg as (_ & [Hl1 Hk1] & _ & _)%get_or_create_spec.
  rewrite (bucket_at_no_split t1 i); [done|lia|].
  eapply bucket_at_update; [|by apply update_sound|done].
  unfold RoutingTable.bucket_index. by rewrite Hl1.
Qed.

(** The fuel is enough for any table: every recursive call finds at the same
    index a bucket one level deeper, and beyond level 160 no bucket splits. *)
Lemma update_fuel_enough `{Profile} now fuel node t i t1 b :
  RoutingTable.bucket_index (Node.id node) t = Some i ->
  RoutingTable.get_or_create_bucket i t = (t1, b) ->
  KEY_LENGTH_BITS - KBucket.prefix_len b < fuel ->
  enough_fuel (RoutingTable.update_fuel now fuel node t).
Proof.
  revert t t1 b. induction fuel as [|fuel IH]; intros t t1 b Hidx Hg Hf; [lia|].
  cbn [RoutingTable.update_fuel]. case_decide; [auto with kad|]. rewrite Hidx, Hg.
  apply enough_fuel_bind; [apply update_enough_fuel|]. intros [b' [u|e]] Hu; [|auto with kad].
  apply update_sound, update_spec_params in Hu as (_ & _ & Hp).
  apply enough_fuel_bind; [apply should_split_fuel|]. intros should Hs.
  destruct (should && (i <? KEY_LENGTH_BITS - 1)) eqn:Hc; [|auto with kad].
  apply andb_true_iff in Hc as [-> _].
  apply enough_fuel_bind; [apply split_enough_fuel|]. intros [b0 b1] Hsp%split_params.
  pose proof (get_or_create_spec _ _ _ _ Hg) as (_ & [Hl _] & _ & _).
  assert (KBucket.prefix_len b' < KEY_LENGTH_BITS) as Hlt.
  { destruct (Nat.lt_ge_cases (KBucket.prefix_len b') KEY_LENGTH_BITS) as [|Hge]; [done|].
    by apply should_split_deep in Hge. }
  apply (IH _ (RoutingTable.set_buckets (fun bs =>
    <[S i := b1]> (<[i := b0]> (delete i bs))) (RoutingTable.set_buckets <[i := b']> t1)) b0).
  - unfold RoutingTable.bucket_index in *. cbn. by rewrite Hl.
  - unfold RoutingTable.get_or_create_bucket. cbn.
    by rewrite lookup_insert_ne, lookup_insert_eq by lia.
  - lia.
Qed.

(** ** Membership *)
Lemma in_table_place t n :
  table_wf t -> in_table n t ->
  exists i b, RoutingTable.bucket_index (Node.id n) t = Some i /\
    RoutingTable.buckets t !! i = Some b /\ n ∈ KBucket.nodes b.
Proof.
  intros Hwf (i & b & Hb & Hn). exists i, b. split_and!; [|done..].
  apply (Hwf i b Hb), elem_of_app. left. by apply list_elem_of_fmap_2.
Qed.

Lemma table_contains_spec t j :
  table_wf t -> RoutingTable.contains j t = true <-> exists n, in_table n t /\ Node.id n = j.
Proof.
  intros Hwf. unfold RoutingTable.contains. split.
  - destruct (RoutingTable.bucket_index j t) as [i|]; [|done].
    destruct (RoutingTable.buckets t !! i) as [b|] eqn:Hb; [|done].
    rewrite contains_ids. unfold KBucket.ids. rewrite list_elem_of_fmap.
    intros (n & -> & Hn). exists n. split; [by exists i, b|done].
  - intros (n & Hin & <-). destruct (in_table_place t n Hwf Hin) as (i & b & -> & -> & Hn).
    rewrite contains_ids. by apply list_elem_of_fmap_2.
Qed.

Lemma table_get_Some t j n :
  RoutingTable.get j t = Some n -> in_table n t /\ Node.id n = j.
Proof.
  unfold RoutingTable.get. intros (i & Hi & (b & Hb & Hn)%bind_Some)%bind_Some.
  apply get_Some in Hn as [Hn Hid]. split; [by exists i, b|done].
Qed.

Lemma table_get_intro t n :
  table_wf t -> table_distinct t -> in_table n t -> RoutingTable.get (Node.id n) t = Some n.
Proof.
  intros Hwf Hd Hin. destruct (in_table_place t n Hwf Hin) as (i & b & Hi & Hb & Hn).
  unfold RoutingTable.get. rewrite Hi. cbn. rewrite Hb. cbn.
  apply get_unique; [by apply (Hd i)|done..].
Qed.

(** ** The list of all contacts *)
Section all_nodes.
Context `{!HashOrder nat KBucket}.

Lemma elem_of_get_all_nodes t n : n ∈ RoutingTable.get_all_nodes t <-> in_table n t.
Proof.
  unfold RoutingTable.get_all_nodes, in_table. rewrite list_elem_of_bind.
  setoid_rewrite elem_of_hash_values. naive_solver.
Qed.

Lemma NoDup_all_ids t :
  table_wf t -> table_distinct t -> NoDup (Node.id <$> RoutingTable.get_all_nodes t).
Proof.
  intros Hwf Hd. unfold RoutingTable.get_all_nodes, hash_values.
  assert (((hash_iter (RoutingTable.buckets t)).*2 ≫= KBucket.nodes) =
    hash_iter (RoutingTable.buckets t) ≫= fun p => KBucket.nodes p.2) as ->.
  { generalize (hash_iter (RoutingTable.buckets t)). intros l.
    induction l as [|p l IH]; csimpl; [done|]. by rewrite IH. }
  assert (forall l, Node.id <$> (l ≫= fun p : nat * KBucket => KBucket.nodes p.2) =
    l ≫= fun p => KBucket.ids p.2) as ->.
  { intros l. induction l as [|p l IH]; csimpl; [done|]. by rewrite fmap_app, IH. }
  apply NoDup_bind_disjoint.
  - eapply NoDup_perm; [symmetry; apply hash_iter_perm|]. apply NoDup_map_to_list.
  - intros [i b] Hb%elem_of_hash_iter. by apply (Hd i).
  - intros [i b] [j c] z Hb%elem_of_hash_iter Hc%elem_of_hash_iter Hzb Hzc. cbn in *.
    assert (Some i = Some j) as [= <-]; [|congruence].
    destruct (Hwf i b Hb) as (_ & _ & _ & _ & _ & Hib).
    destruct (Hwf j c Hc) as (_ & _ & _ & _ & _ & Hjc).
    rewrite <-(Hib z), <-(Hjc z); [done|apply elem_of_app; by left..].
Qed.

Lemma node_count_all t :
  RoutingTable.node_count t = length (RoutingTable.get_all_nodes t).
Proof. symmetry. apply length_bind. Qed.
End all_nodes.

(** ** Case analysis of the operations on a well-formed table *)
Section cases.
Context `{Profile}.
Variable now : Z.

Lemma bucket_index_remote t node i :
  RoutingTable.bucket_index (Node.id node) t = Some i ->
  Node.id node <> RoutingTable.local_node_id t.
Proof.
  unfold RoutingTable.bucket_index. intros Hi E.
  by rewrite (proj2 (NodeId.bucket_index_None _ _)) in Hi.
Qed.

Lemma update_zero_capacity node b :
  KBucket.k b = 0 -> bucket_wf b -> Node.id node <> KBucket.local_node_id b ->
  KBucket.update now node b = Panic.
Proof.
  intros Hk [Hlen _ _ _] Hne. unfold KBucket.update. rewrite decide_False by done.
  destruct (KBucket.nodes b) as [|]; [|cbn in Hlen; lia]. cbn. by rewrite Hk.
Qed.

(** [update] leaves the table alone for the local node, and otherwise
    updates the bucket of the contact. It never returns an error. *)
Lemma table_update_cases node t t' r :
  table_wf t -> RoutingTable.update now node t = Done (t', r) ->
  (Node.id node = RoutingTable.local_node_id t /\ t' = t /\ r = Ok UpdateStatus.Unchanged) \/
  exists i t1 b b' u,
    0 < RoutingTable.k t /\ RoutingTable.bucket_index (Node.id node) t = Some i /\
    RoutingTable.get_or_create_bucket i t = (t1, b) /\
    KBucket.update_spec now node b b' (Ok u) /\
    t' = RoutingTable.set_buckets <[i := b']> t1 /\ r = Ok (RoutingTable.status_of u).
Proof.
  intros Hwf Hu. destruct (RoutingTable.bucket_index (Node.id node) t) as [i|] eqn:Hi.
  2: { left. apply NodeId.bucket_index_None in Hi. revert Hu.
       unfold RoutingTable.update. cbn [RoutingTable.update_fuel].
       rewrite decide_True by done. by intros [= <- <-]. }
  right. pose proof (bucket_index_remote _ _ _ Hi) as Hne.
  destruct (RoutingTable.get_or_create_bucket i t) as [t1 b] eqn:Hg.
  pose proof (get_or_create_wf _ _ _ _ (NodeId.bucket_index_lt _ _ _ Hi) Hwf Hg)
    as [_ (_ & Hbk & Hbl & _ & Hbwf & _)].
  pose proof Hg as (_ & [El Ek] & _ & _)%get_or_create_spec.
  destruct (KBucket.update now node b) as [[b' [u|e]]| |] eqn:Hub.
  - assert (0 < RoutingTable.k t) as Hk.
    { destruct (RoutingTable.k t) eqn:Hk; [|lia].
      rewrite update_zero_capacity in Hub by (congruence || done). done. }
    unfold RoutingTable.update in Hu. rewrite (update_fuel_direct _ _ _ _ _ _ _ _ _ Hk Hwf
      (Nat.lt_0_succ _) Hi Hg Hub) in Hu.
    injection Hu as <- <-. exists i, t1, b, b', u. split_and!; [done..| |done|done].
    by apply update_sound.
  - apply update_sound in Hub. inversion Hub. congruence.
  - unfold RoutingTable.update in Hu. cbn [RoutingTable.update_fuel] in Hu.
    by rewrite decide_False, Hi, Hg, Hub in Hu by done.
  - by apply update_enough_fuel in Hub.
Qed.

(** The three recording operations refresh a known contact, and nothing
    else: the changed clone is dropped by the bucket's [update]. *)
Lemma update_clone_eq f j t :
  (forall n, Node.id (f n) = Node.id n) ->
  RoutingTable.update_clone now f j t = RoutingTable.update_clone now id j t.
Proof.
  intros Hf. unfold RoutingTable.update_clone.
  destruct (RoutingTable.bucket_index j t) as [i|]; [|done].
  destruct (RoutingTable.buckets t !! i) as [b|]; [|done].
  destruct (KBucket.get j b) as [n|] eqn:Hg; [|done].
  apply get_Some in Hg as [Hn _].
  rewrite (update_known_eq now (f n) (id n)); [done|apply Hf|].
  rewrite Hf. by apply list_elem_of_fmap_2.
Qed.

Lemma update_clone_cases f j t t' r :
  (forall n, Node.id (f n) = Node.id n) -> table_wf t ->
  RoutingTable.update_clone now f j t = Done (t', r) ->
  r = Ok tt /\
  (t' = t \/
   exists i b l1 x l2, RoutingTable.bucket_index j t = Some i /\
     RoutingTable.buckets t !! i = Some b /\ KBucket.nodes b = l1 ++ x :: l2 /\
     Node.id x = j /\
     KBucket.update_spec now x b
       (KBucket.set_nodes (l1 ++ l2 ++ [Node.update_last_seen now x]) b) (Ok Updated) /\
     t' = RoutingTable.set_buckets
            <[i := KBucket.set_nodes (l1 ++ l2 ++ [Node.update_last_seen now x]) b]> t).
Proof.
  intros Hf Hwf. rewrite update_clone_eq by done. unfold RoutingTable.update_clone.
  destruct (RoutingTable.bucket_index j t) as [i|] eqn:Hi; [|intros [= <- <-]; auto].
  destruct (RoutingTable.buckets t !! i) as [b|] eqn:Hb; [|intros [= <- <-]; auto].
  destruct (KBucket.get j b) as [n|] eqn:Hg; [|intros [= <- <-]; auto].
  apply get_Some in Hg as [Hn <-]. unfold id.
  destruct (KBucket.update now n b) as [[b' r']| |] eqn:Hu; [|done..]. cbn.
  apply update_sound in Hu.
  assert (Node.id n ∈ KBucket.ids b) as Hin by (by apply list_elem_of_fmap_2).
  inversion Hu as [E|l1 x l2 Hne Hns Hx Hl1| | | |]; subst; try done.
  - exfalso. destruct (Hwf i _ Hb) as (_ & _ & _ & _ & [_ Hl _ _] & _). by rewrite E in Hin.
  - intros [= <- <-]. split; [done|]. right.
    exists i, b, l1, x, l2. rewrite <-Hx in *. split_and!; [done..| |done].
    by apply KBucket.us_refresh.
Qed.
End cases.

(** ** Runs of a table: any sequence of its operations, any clock readings *)
Section runs.
Context `{Profile}.

Inductive table_step (t : RoutingTable) : RoutingTable -> Prop :=
  | ts_update now node t' r :
      RoutingTable.update now node t = Done (t', r) -> table_step t t'
  | ts_node_seen now j t' r :
      RoutingTable.node_seen now j t = Done (t', r) -> table_step t t'
  | ts_record_success now j ms t' r :
      RoutingTable.record_success now j ms t = Done (t', r) -> table_step t t'
  | ts_record_failure now j t' r :
      RoutingTable.record_failure now j t = Done (t', r) -> table_step t t'
  | ts_remove now j t' r :
      RoutingTable.remove now j t = (t', r) -> table_step t t'.

(** The tables a program can hold: [new] or [with_k], then operations. *)
Definition table_reachable (local : NodeId) (k : nat) (t : RoutingTable) : Prop :=
  rtc table_step (RoutingTable.with_k local k) t.

Lemma table_update_wf now node t t' r :
  table_wf t -> RoutingTable.update now node t = Done (t', r) ->
  table_wf t' /\ same_table t t'.
Proof.
  intros Hwf Hu. destruct (table_update_cases _ _ _ _ _ Hwf Hu)
    as [(_ & -> & _)|(i & t1 & b & b' & u & _ & Hi & Hg & Hs & -> & _)]; [done|].
  pose proof (get_or_create_wf _ _ _ _ (NodeId.bucket_index_lt _ _ _ Hi) Hwf Hg) as [Hwf1 Hb].
  pose proof Hg as (_ & Hst & _ & _)%get_or_create_spec. split; [|done].
  apply table_wf_insert; [done|]. eapply bucket_at_update; [|done|done].
  unfold RoutingTable.bucket_index. destruct Hst as [-> _]. done.
Qed.

Lemma table_clone_wf now f j t t' r :
  (forall n, Node.id (f n) = Node.id n) -> table_wf t ->
  RoutingTable.update_clone now f j t = Done (t', r) -> table_wf t' /\ same_table t t'.
Proof.
  intros Hf Hwf Hu. destruct (update_clone_cases _ _ _ _ _ _ Hf Hwf Hu)
    as [_ [->|(i & b & l1 & x & l2 & Hi & Hb & _ & <- & Hs & ->)]]; [done|].
  split; [|done]. apply table_wf_insert; [done|].
  eapply bucket_at_update; [done|done|]. by apply Hwf.
Qed.

Lemma table_remove_wf now j t : table_wf t ->
  let t' := (RoutingTable.remove now j t).1 in table_wf t' /\ same_table t t'.
Proof.
  intros Hwf. unfold RoutingTable.remove.
  destruct (RoutingTable.bucket_index j t) as [i|]; [|done].
  destruct (RoutingTable.buckets t !! i) as [b|] eqn:Hb; [|done].
  pose proof (bucket_at_remove now t i j b (Hwf i b Hb)) as Hb'.
  destruct (KBucket.remove now j b) as [b' x]; cbn in *. split; [|done].
  by apply table_wf_insert.
Qed.

Lemma table_step_wf t t' : table_step t t' -> table_wf t -> table_wf t' /\ same_table t t'.
Proof.
  intros [now node t1 r Hu|now j t1 r Hu|now j ms t1 r Hu|now j t1 r Hu|now j t1 r Hu] Hwf.
  - by eapply table_update_wf.
  - eapply (table_clone_wf now _ j); [|done|exact Hu]. done.
  - eapply (table_clone_wf now _ j); [|done|exact Hu]. done.
  - eapply (table_clone_wf now _ j); [|done|exact Hu]. done.
  - pose proof (table_remove_wf now j t Hwf) as Hr. by rewrite Hu in Hr.
Qed.

Lemma table_wf_empty local k : table_wf (RoutingTable.with_k local k).
Proof. apply map_Forall_empty. Qed.

Lemma table_reachable_wf local k t :
  table_reachable local k t -> table_wf t /\ same_table (RoutingTable.with_k local k) t.
Proof.
  intros Hr.
  assert (forall t0, rtc table_step t0 t -> table_wf t0 -> table_wf t /\ same_table t0 t) as Hind.
  { clear. induction 1 as [t0|t0 t1 t2 Hs _ IH]; intros Hwf; [done|].
    destruct (table_step_wf _ _ Hs Hwf) as [Hwf1 [El Ek]]. destruct (IH Hwf1) as [Hwf2 [El2 Ek2]].
    split; [done|]. split; congruence. }
  apply Hind; [done|]. apply table_wf_empty.
Qed.
End runs.

(** ** Contacts after one bucket changed *)
Lemma in_table_insert t i b m :
  in_table m (RoutingTable.set_buckets <[i := b]> t) <->
  m ∈ KBucket.nodes b \/
  exists j c, j <> i /\ RoutingTable.buckets t !! j = Some c /\ m ∈ KBucket.nodes c.
Proof.
  unfold in_table. cbn. split.
  - intros (j & c & Hc & Hm). destruct (decide (j = i)) as [->|Hne].
    + rewrite lookup_insert_eq in Hc. injection Hc as <-. by left.
    + rewrite lookup_insert_ne in Hc by done. right. eauto.
  - intros [Hm|(j & c & Hne & Hc & Hm)].
    + exists i, b. by rewrite lookup_insert_eq.
    + exists j, c. by rewrite lookup_insert_ne.
Qed.

Lemma in_table_split t i m :
  in_table m t <->
  (exists b, RoutingTable.buckets t !! i = Some b /\ m ∈ KBucket.nodes b) \/
  exists j c, j <> i /\ RoutingTable.buckets t !! j = Some c /\ m ∈ KBucket.nodes c.
Proof.
  unfold in_table. split; [|naive_solver].
  intros (j & c & Hc & Hm). destruct (decide (j = i)) as [->|]; eauto 10.
Qed.

(** The contacts of the bucket that [get_or_create_bucket] returns. *)
Lemma get_or_create_nodes i t t1 b m :
  RoutingTable.get_or_create_bucket i t = (t1, b) ->
  (exists c, RoutingTable.buckets t !! i = Some c /\ m ∈ KBucket.nodes c) <-> m ∈ KBucket.nodes b.
Proof.
  intros (_ & _ & _ & [Hb|[Hb ->]])%get_or_create_spec; rewrite Hb; [naive_solver|].
  cbn. rewrite elem_of_nil. naive_solver.
Qed.

(** A table operation that replaces the bucket found at [i] by [b']. *)
Lemma in_table_replaced i t t1 b b' m :
  RoutingTable.get_or_create_bucket i t = (t1, b) ->
  (in_table m t <-> m ∈ KBucket.nodes b \/
     exists j c, j <> i /\ RoutingTable.buckets t !! j = Some c /\ m ∈ KBucket.nodes c) /\
  (in_table m (RoutingTable.set_buckets <[i := b']> t1) <-> m ∈ KBucket.nodes b' \/
     exists j c, j <> i /\ RoutingTable.buckets t !! j = Some c /\ m ∈ KBucket.nodes c).
Proof.
  intros Hg. split.
  - by rewrite (in_table_split t i), get_or_create_nodes by done.
  - rewrite in_table_insert. pose proof Hg as (_ & _ & Ho & _)%get_or_create_spec.
    split; (intros [?|(j & c & Hne & Hc & Hm)]; [by left|right; exists j, c]).
    + by rewrite <-Ho.
    + by rewrite Ho.
Qed.

Lemma table_distinct_replaced i t t1 b b' :
  RoutingTable.get_or_create_bucket i t = (t1, b) -> table_distinct t ->
  (NoDup (KBucket.ids b) -> NoDup (KBucket.ids b')) ->
  table_distinct (RoutingTable.set_buckets <[i := b']> t1).
Proof.
  intros Hg Hd Hb. pose proof Hg as (_ & _ & Ho & Hib)%get_or_create_spec.
  intros j c. cbn. destruct (decide (i = j)) as [->|Hne].
  - rewrite lookup_insert_eq. intros [= <-]. apply Hb.
    destruct Hib as [Hi|[_ ->]]; [by apply (Hd j)|constructor].
  - rewrite lookup_insert_ne, Ho by done. apply Hd.
Qed.

(** A table with several entries has at most [k] in each of 160 buckets. *)
Lemma sum_list_le (m : nat) l : Forall (fun x => x <= m) l -> sum_list l <= length l * m.
Proof. induction 1 as [|x l Hx _ IH]; cbn; lia. Qed.

Lemma node_count_bound `{!HashOrder nat KBucket} t :
  table_wf t -> RoutingTable.node_count t <= KEY_LENGTH_BITS * RoutingTable.k t.
Proof.
  intros Hwf. unfold RoutingTable.node_count. etrans; [apply (sum_list_le (RoutingTable.k t))|].
  - apply Forall_fmap, Forall_forall. intros b [i Hb]%elem_of_hash_values.
    destruct (Hwf i b Hb) as (_ & <- & _ & _ & [Hlen _ _ _] & _). done.
  - apply Nat.mul_le_mono_r. rewrite length_fmap. unfold hash_values. rewrite length_fmap.
    transitivity (length (hash_keys (RoutingTable.buckets t)));
      [unfold hash_keys; by rewrite length_fmap|].
    rewrite <-(length_seq KEY_LENGTH_BITS 0). apply NoDup_incl_length; [apply NoDup_ListNoDup, NoDup_hash_keys|].
    intros i [b Hb]%list_elem_of_In%elem_of_hash_keys. apply list_elem_of_In, elem_of_seq.
    destruct (Hwf i b Hb) as [Hi _]. lia.
Qed.

(** The operations of a table have enough fuel, well formed or not. *)
Lemma table_update_fuel `{Profile} now node t : enough_fuel (RoutingTable.update now node t).
Proof.
  destruct (RoutingTable.bucket_index (Node.id node) t) as [i|] eqn:Hi.
  - destruct (RoutingTable.get_or_create_bucket i t) as [t1 b] eqn:Hg.
    eapply update_fuel_enough; [done..|]. lia.
  - unfold RoutingTable.update. cbn [RoutingTable.update_fuel]. case_decide; [done|]. by rewrite Hi.
Qed.

Lemma table_clone_fuel `{Profile} now f j t : enough_fuel (RoutingTable.update_clone now f j t).
Proof.
  unfold RoutingTable.update_clone. repeat (case_match; try done).
  apply enough_fuel_bind; [apply update_enough_fuel|]. by intros [? [?|?]] _.
Qed.

(** Without panics the update of a well-formed table returns. *)
Lemma table_update_returns `{Profile} now node t :
  table_wf t -> table_stats_ok t -> 0 < RoutingTable.k t ->
  returns (RoutingTable.update now node t).
Proof.
  intros Hwf Hst Hk. unfold RoutingTable.update.
  destruct (RoutingTable.bucket_index (Node.id node) t) as [i|] eqn:Hi.
  2: { apply NodeId.bucket_index_None in Hi. cbn [RoutingTable.update_fuel].
       rewrite decide_True by done. auto with kad. }
  destruct (RoutingTable.get_or_create_bucket i t) as [t1 b] eqn:Hg.
  pose proof (get_or_create_wf _ _ _ _ (NodeId.bucket_index_lt _ _ _ Hi) Hwf Hg)
    as [_ (_ & Hbk & Hbl & _ & Hbwf & _)].
  pose proof Hg as (_ & [El Ek] & _ & Hb)%get_or_create_spec.
  destruct (update_returns now node b) as [[b' [u|e]] Hu].
  - lia.
  - destruct Hb as [Hb|[_ ->]]; [by apply (Hst i)|constructor].
  - rewrite (update_fuel_direct now (S KEY_LENGTH_BITS) node t i t1 b b' u)
      by (done || lia). auto with kad.
  - apply update_sound in Hu. inversion Hu. apply bucket_index_remote in Hi. congruence.
Qed.
