(* ===== verification/TableSpec.v ===== *)
(** * Theorems on the routing table

    The invariant of every reachable table, termination and totality of
    [update] and its effect on the contacts, queries, [remove], and what the
    recording operations lose. *)

From S2P Require Import Prelude Errors Bytes Ident F64 Contact Fixtures Bucket Table.

(** C2: every table a program can reach from [with_k] by any sequence of
    operations keeps each contact in the bucket of its XOR distance (bucket
    [i] holds identifiers that first differ from the local one at bit [i]),
    at most [k] per bucket and [160 * k] in all, and never the local node. *)
Theorem routing_table_invariant `{Profile} `{!HashOrder nat KBucket} local k t :
  table_reachable local k t ->
  (forall i b, RoutingTable.buckets t !! i = Some b ->
     i < 160 /\ KBucket.len b <= k /\ local ∉ KBucket.ids b /\
     Forall (fun n => NodeId.bucket_index local (Node.id n) = Some i) (KBucket.nodes b)) /\
  RoutingTable.node_count t <= 160 * k /\
  RoutingTable.contains local t = false.
Proof.
  intros [Hwf [El Ek]]%table_reachable_wf. cbn in El, Ek. split_and!.
  - intros i b Hb. destruct (Hwf i b Hb) as (Hi & Hk & Hl & _ & [Hlen Hloc _ _] & Hids).
    split_and!; [done|unfold KBucket.len; lia|congruence|].
    apply Forall_forall. intros n Hn. rewrite <-El. apply Hids, elem_of_app. left.
    by apply list_elem_of_fmap_2.
  - rewrite <-Ek. by apply node_count_bound.
  - unfold RoutingTable.contains, RoutingTable.bucket_index. rewrite El.
    by rewrite (proj2 (NodeId.bucket_index_None _ _)).
Qed.

(** The table after one update of an empty one. *)
Definition updated_table (now : Z) (node : Node) (t : RoutingTable) : RoutingTable :=
  match @RoutingTable.update debug_build now node t with Done (t', _) => t' | _ => t end.
Definition small_table : RoutingTable :=
  updated_table 10 (contact 3) (updated_table 5 (contact 2) (RoutingTable.with_k (sample_id 0) 2)).

Lemma small_table_run :
  @table_reachable debug_build (sample_id 0) 2 small_table.
Proof.
  eapply rtc_l; [|eapply rtc_l; [|apply rtc_refl]].
  - eapply (@ts_update debug_build _ 5 (contact 2)). vm_compute. reflexivity.
  - eapply (@ts_update debug_build _ 10 (contact 3)). vm_compute. reflexivity.
Qed.

Lemma routing_table_invariant_witness :
  @RoutingTable.node_count listed_order small_table <= 320.
Proof.
  apply (@routing_table_invariant debug_build listed_order (sample_id 0) 2), small_table_run.
Defined.

(** C26: [RoutingTable::update] terminates on every table, well formed or not,
    although it calls itself after each split: 161 calls are enough. On a
    well-formed table with positive capacity whose contacts have sane counters
    it neither panics nor fails, and keeps the table well formed. *)
Theorem table_update_total `{Profile} now node t :
  RoutingTable.update now node t <> OutOfFuel /\
  (table_wf t -> table_stats_ok t -> 0 < RoutingTable.k t ->
   exists t' s, RoutingTable.update now node t = Done (t', Ok s) /\ table_wf t' /\ same_table t t').
Proof.
  split; [apply table_update_fuel|].
  intros Hwf Hst Hk. destruct (table_update_returns now node t Hwf Hst Hk) as [[t' r] Hu].
  destruct (table_update_wf _ _ _ _ _ Hwf Hu) as [Hwf' Hsame]. exists t'.
  destruct (table_update_cases _ _ _ _ _ Hwf Hu)
    as [(_ & _ & ->)|(i & t1 & b & b' & u & _ & _ & _ & _ & _ & ->)]; eauto.
Qed.

Lemma table_update_total_witness :
  table_wf small_table /\
  exists t' s, @RoutingTable.update debug_build 20 (contact 1) small_table = Done (t', Ok s).
Proof.
  pose proof (proj1 (table_reachable_wf _ _ _ small_table_run)) as Hwf. split; [exact Hwf|].
  destruct (proj2 (@table_update_total debug_build 20 (contact 1) small_table) Hwf) as (t' & s & E & _).
  - unfold table_stats_ok, stats_ok. by_decide.
  - vm_compute. lia.
  - by exists t', s.
Defined.

(** C3: what [RoutingTable::update] does to the contacts of a well-formed
    table in which no identifier occurs twice, as stays the case. [Unchanged] means the local node was offered; after [Updated] the
    contact is found, just seen, nothing else was added, and no contact that is
    both reliable and active was evicted; after [PendingPing(x)] the contacts
    are as before, [x] is one of them and still active, and the offered
    contact is not in the table. *)
Theorem table_update_effect `{Profile} now node t t' r :
  table_wf t -> table_distinct t -> RoutingTable.update now node t = Done (t', r) ->
  table_distinct t' /\
  match r with
  | Err _ => False
  | Ok UpdateStatus.Unchanged => t' = t /\ Node.id node = RoutingTable.local_node_id t
  | Ok UpdateStatus.Updated =>
      exists n, RoutingTable.get (Node.id node) t' = Some n /\ Node.last_seen n = At now /\
        (forall m, in_table m t' -> m = n \/ in_table m t) /\
        (forall m, in_table m t -> Node.id m <> Node.id node ->
           KBucket.reliable m -> Node.is_active now NODE_TIMEOUT m = true -> in_table m t')
  | Ok (UpdateStatus.PendingPing x) =>
      (forall m, in_table m t' <-> in_table m t) /\ in_table x t /\
      Node.is_active now NODE_TIMEOUT x = true /\
      RoutingTable.contains (Node.id node) t' = false
  end.
Proof.
  intros Hwf Hd Hu. pose proof (table_update_wf _ _ _ _ _ Hwf Hu) as [Hwf' _].
  destruct (table_update_cases _ _ _ _ _ Hwf Hu)
    as [(Hl & -> & ->)|(i & t1 & b & b' & u & Hk & Hi & Hg & Hs & -> & ->)]; [done|].
  assert (table_distinct (RoutingTable.set_buckets <[i := b']> t1)) as Hd'.
  { eapply table_distinct_replaced; [done..|]. by eapply update_spec_NoDup. }
  split; [done|].
  pose proof (fun m => in_table_replaced i t t1 b b' m Hg) as Hin.
  destruct u as [| |x]; cbn.
  - inversion Hs.
  - pose proof (update_spec_updated _ _ _ _ Hs) as (_ & front & n & Hns & Hid & Hseen & Hfront).
    exists n. split_and!; [|done| |].
    + rewrite <-Hid. apply table_get_intro; [done..|]. apply Hin. left. rewrite Hns. set_solver.
    + intros m Hm%Hin. rewrite Hns in Hm. rewrite (proj1 (Hin m)). set_solver.
    + intros m [Hm|Hm]%Hin Hne Hr Ha; apply Hin; [left|by right].
      by eapply update_spec_keeps.
  - inversion Hs as [| | | | |x' l Hne Hid Hge Hns Hrel Hact]; subst. split_and!; [|..|done|].
    + intros m. destruct (Hin m) as [-> ->]. done.
    + apply Hin. left. rewrite Hns. by left.
    + apply not_true_is_false. intros (m & Hm & Em)%table_contains_spec; [|done].
      destruct (in_table_place _ _ Hwf' Hm) as (j & c & Hj & Hc & Hmc).
      rewrite Em in Hj. unfold RoutingTable.bucket_index in Hj. cbn in Hj.
      pose proof Hg as (_ & [El _] & _ & _)%get_or_create_spec. rewrite El in Hj.
      unfold RoutingTable.bucket_index in Hi. rewrite Hi in Hj. injection Hj as <-.
      cbn in Hc. rewrite lookup_insert_eq in Hc. injection Hc as <-. apply Hid.
      rewrite <-Em. by apply list_elem_of_fmap_2.
Qed.

Lemma table_update_effect_witness :
  exists t', @RoutingTable.update debug_build 20 (contact 1) small_table
      = Done (t', Ok UpdateStatus.Updated) /\ table_distinct t' /\
    exists n, RoutingTable.get (sample_id 1) t' = Some n /\ Node.last_seen n = At 20.
Proof.
  assert (exists t', @RoutingTable.update debug_build 20 (contact 1) small_table
    = Done (t', Ok UpdateStatus.Updated)) as [t' E] by (eexists; vm_compute; reflexivity).
  exists t'. split; [exact E|].
  destruct (@table_update_effect debug_build 20 (contact 1) small_table _ _
    (proj1 (table_reachable_wf _ _ _ small_table_run)) ltac:(unfold table_distinct; by_decide) E)
    as [Hd (n & Hn & Hs & _)].
  split; [exact Hd|]. exists n. split; [exact Hn|exact Hs].
Defined.

(** C28: the table never learns from responses. [record_success] and
    [record_failure] change the statistics of a clone and hand it to
    [KBucket::update], which puts the stored entry back instead: both end
    exactly as [node_seen] does, for every table. No operation that records a
    response changes the statistics of any contact, so the eviction of
    unreliable contacts never sees a recorded failure; and a failed response
    refreshes the contact's last-seen time. *)
Theorem recording_discards_stats `{Profile} now j ms t :
  RoutingTable.record_success now j ms t = RoutingTable.node_seen now j t /\
  RoutingTable.record_failure now j t = RoutingTable.node_seen now j t /\
  (forall t' r, table_wf t -> RoutingTable.node_seen now j t = Done (t', r) ->
     r = Ok tt /\
     forall n', in_table n' t' -> exists n, in_table n t /\ Node.id n' = Node.id n /\
       Node.addr n' = Node.addr n /\ Node.response_stats n' = Node.response_stats n).
Proof.
  unfold RoutingTable.record_success, RoutingTable.record_failure, RoutingTable.node_seen.
  split_and!; [by etrans; [|symmetry]; apply update_clone_eq..|].
  intros t' r Hwf Hu. apply update_clone_cases in Hu as [-> Hu]; [|done..]. split; [done|].
  destruct Hu as [->|(i & b & l1 & x & l2 & Hi & Hb & Hns & Hx & _ & ->)]; [eauto|].
  intros n' [Hn'|(i' & c & _ & Hc & Hn')]%in_table_insert; [|exists n'; split; [by exists i', c|done]].
  cbn in Hn'. rewrite !elem_of_app, list_elem_of_singleton in Hn'.
  destruct Hn' as [Hn'|[Hn'| ->]].
  - exists n'. split; [|done]. exists i, b. rewrite Hns. split; [done|set_solver].
  - exists n'. split; [|done]. exists i, b. rewrite Hns. split; [done|set_solver].
  - exists x. split; [|done]. exists i, b. rewrite Hns. split; [done|set_solver].
Qed.

(** In a well-formed table [contains] and [get] agree with the list of all
    contacts. *)
Lemma table_lookup `{!HashOrder nat KBucket} t j :
  table_wf t ->
  (RoutingTable.contains j t = true <-> j ∈ Node.id <$> RoutingTable.get_all_nodes t) /\
  (RoutingTable.contains j t = true <-> is_Some (RoutingTable.get j t)) /\
  (table_distinct t ->
     forall n, RoutingTable.get j t = Some n <->
       n ∈ RoutingTable.get_all_nodes t /\ Node.id n = j).
Proof.
  intros Hwf. assert (forall n, RoutingTable.get j t = Some n -> in_table n t /\ Node.id n = j)
    as Hget by (intros n; apply table_get_Some). split_and!.
  - rewrite table_contains_spec, list_elem_of_fmap by done.
    setoid_rewrite elem_of_get_all_nodes. naive_solver.
  - split; [|intros [n Hn]; apply table_contains_spec; [done|exists n; auto]].
    unfold RoutingTable.contains, RoutingTable.get.
    destruct (RoutingTable.bucket_index j t) as [i|]; [|done]. cbn.
    destruct (RoutingTable.buckets t !! i) as [b|]; [|done]. cbn.
    rewrite contains_ids, <-not_eq_None_Some, get_None. tauto.
  - intros Hd n. rewrite elem_of_get_all_nodes. split; [apply Hget|].
    intros [Hn <-]. by apply table_get_intro.
Qed.

(** C37: the queries of a routing table. [get_closest] returns the [count]
    contacts of the whole table closest to the target, in order of XOR
    distance, and in a table without duplicates the result does not depend on
    the iteration order of the hash map of buckets. In a well-formed table
    [contains] and [get] find exactly the stored contacts: every lookup agrees
    with the list of all contacts, and where no identifier occurs twice [get]
    is the inverse of [Node.id] on them. [node_count] counts them. *)
Theorem table_queries (h1 h2 : HashOrder nat KBucket) target count j t :
  closest_to target count (@RoutingTable.get_all_nodes h1 t)
    (@RoutingTable.get_closest h1 target count t) /\
  @RoutingTable.node_count h1 t = length (@RoutingTable.get_all_nodes h1 t) /\
  (table_wf t -> table_distinct t ->
     @RoutingTable.get_closest h1 target count t = @RoutingTable.get_closest h2 target count t) /\
  (table_wf t ->
   (RoutingTable.contains j t = true <-> j ∈ Node.id <$> @RoutingTable.get_all_nodes h1 t) /\
   (RoutingTable.contains j t = true <-> is_Some (RoutingTable.get j t)) /\
   (table_distinct t ->
      forall n, RoutingTable.get j t = Some n <->
        n ∈ @RoutingTable.get_all_nodes h1 t /\ Node.id n = j)).
Proof.
  split_and!; [apply take_sort_closest|apply node_count_all| |by apply table_lookup].
  intros Hwf Hd. unfold RoutingTable.get_closest. f_equal.
  apply (sorted_perm_unique (distance_to target)).
  - apply NoDup_distances. eapply NoDup_perm; [|by apply (@NoDup_all_ids h1 t)].
    by rewrite sort_by_Permutation.
  - apply sort_by_sorted. apply distance_cmp_key.
  - apply sort_by_sorted. apply distance_cmp_key.
  - rewrite !sort_by_Permutation. unfold RoutingTable.get_all_nodes.
    by rewrite (hash_values_perm h1 h2).
Qed.

Lemma table_queries_witness :
  RoutingTable.contains (sample_id 2) small_table = true /\
  exists n, RoutingTable.get (sample_id 2) small_table = Some n.
Proof.
  split; [vm_compute; reflexivity|].
  destruct (@table_queries listed_order listed_order (sample_id 0) 1 (sample_id 2) small_table)
    as (_ & _ & _ & Hq).
  destruct Hq as (_ & [H _] & _).
  - apply (table_reachable_wf _ _ _ small_table_run).
  - destruct H as [n Hn]; [vm_compute; reflexivity|]. exists n. exact Hn.
Defined.

(** C25: [RoutingTable::remove], on every well-formed table. It returns [None] and
    changes nothing exactly when the table has no contact with the identifier.
    Otherwise it takes the first contact with the identifier out of its bucket,
    where the oldest entry of the replacement cache, seen just now, becomes the
    most recently seen contact; no other bucket changes, and the table stays
    well formed. Afterwards the identifier is gone, unless the bucket holds it a
    second time or the promoted entry has it. *)
Theorem table_remove_spec now j t t' r :
  table_wf t -> RoutingTable.remove now j t = (t', r) ->
  table_wf t' /\
  match r with
  | None => RoutingTable.contains j t = false /\ t' = t
  | Some n =>
      Node.id n = j /\
      exists i b l1 l2, RoutingTable.bucket_index j t = Some i /\
        RoutingTable.buckets t !! i = Some b /\
        KBucket.nodes b = l1 ++ n :: l2 /\ j ∉ Node.id <$> l1 /\
        t' = RoutingTable.set_buckets <[i :=
               KBucket.set_nodes
                 (l1 ++ l2 ++ (Node.update_last_seen now <$> take 1 (KBucket.replacement_cache b)))
                 (KBucket.set_cache (drop 1 (KBucket.replacement_cache b)) b)]> t /\
        (RoutingTable.contains j t' = true <->
           j ∈ Node.id <$> l2 \/ head (KBucket.cache_ids b) = Some j)
  end.
Proof.
  intros Hwf Hr. pose proof (table_remove_wf now j t Hwf) as [Hwf' _].
  rewrite Hr in Hwf'. cbn in Hwf'. split; [done|].
  revert Hr Hwf'. unfold RoutingTable.remove, RoutingTable.contains, RoutingTable.bucket_index.
  destruct (NodeId.bucket_index _ j) as [i|] eqn:Hi.
  2: by intros [= <- <-] _.
  destruct (RoutingTable.buckets t !! i) as [b|] eqn:Hb.
  2: by intros [= <- <-] _.
  pose proof (remove_cases now j b) as Hc. destruct (KBucket.remove now j b) as [b' [x|]].
  - destruct Hc as (l1 & l2 & Hns & <- & Hl1 & Eb). intros [= <- <-] Hwf'. split; [done|].
    exists i, b, l1, l2. split_and!; [done..| |].
    + do 2 f_equal. rewrite Eb. destruct b as [bk bl bp bn [|c cs]]; cbn; [|done]. by rewrite app_nil_r.
    + cbn [RoutingTable.set_buckets RoutingTable.local_node_id RoutingTable.buckets].
      rewrite Hi, lookup_insert_eq, contains_ids, Eb. unfold KBucket.ids, KBucket.cache_ids in *.
      destruct (KBucket.replacement_cache b) as [|c cs]; cbn;
        rewrite ?fmap_app, ?elem_of_app; cbn; rewrite ?list_elem_of_singleton.
      * by split; [intros [|]; [|left]|intros [|]; [right|]].
      * split; [intros [|[|E]]; [|left|right; by f_equal]|intros [|[= E]]; right; [left|right]]; done.
  - destruct Hc as [Hj ->]. intros [= <- <-] Hwf'.
    split; [by apply not_true_is_false; rewrite contains_ids|].
    unfold RoutingTable.set_buckets. rewrite insert_id by done. by destruct t.
Qed.

Lemma table_remove_spec_witness :
  (RoutingTable.remove 30 (sample_id 2) small_table).2 = Some (Node.update_last_seen 5 (contact 2)) /\
  table_wf (RoutingTable.remove 30 (sample_id 2) small_table).1.
Proof.
  split; [vm_compute; reflexivity|].
  refine (proj1 (table_remove_spec 30 (sample_id 2) small_table _ _
    (proj1 (table_reachable_wf _ _ _ small_table_run)) (surjective_pairing _))).
Defined.

(** [bucket_indices] lists the indices in use in strictly increasing
    order, whatever the iteration order of the hash map. *)
Lemma bucket_indices_sorted `{!HashOrder nat KBucket} t :
  StronglySorted lt (RoutingTable.bucket_indices t) /\
  forall i, i ∈ RoutingTable.bucket_indices t <-> is_Some (RoutingTable.buckets t !! i).
Proof.
  unfold RoutingTable.bucket_indices. split.
  - assert (NoDup (merge_sort le (hash_keys (RoutingTable.buckets t)))) as Hnd.
    { rewrite merge_sort_Permutation. apply NoDup_hash_keys. }
    pose proof (StronglySorted_merge_sort le (hash_keys (RoutingTable.buckets t))) as Hs.
    induction Hs as [|i l Hs IH Hi]; [constructor|]. apply NoDup_cons in Hnd as [Hni Hnd].
    constructor; [auto|]. rewrite Forall_forall in *. intros j Hj.
    specialize (Hi j Hj). assert (i <> j) by congruence. lia.
  - intros i. by rewrite merge_sort_Permutation, elem_of_hash_keys.
Qed.
