(* ===== verification/TypesSpec.v ===== *)
(** * The machine types of the contacts a node holds

    The model keeps the program's integers in [Z]. A contact is [typed] when
    every number in it is in the range of its Rust type; the operations of the
    routing table and of the statistics keep the contacts typed. *)

From S2P Require Import Prelude Errors Bytes Ident F64 Contact Fixtures Bucket Table TableSpec.

(** ** The ranges *)
Definition addr_typed (a : SocketAddr) : Prop :=
  (0 <= port a < 2 ^ 16)%Z /\
  match ip a with V4 x => (0 <= x < 2 ^ 32)%Z | V6 x => (0 <= x < 2 ^ 128)%Z end.
Definition secs_typed (secs : Z) : Prop := (0 <= secs <= U64_MAX)%Z.
Definition typed (n : Node) : Prop :=
  addr_typed (Node.addr n) /\ ResponseStats.wf (Node.response_stats n) /\
  match Node.last_seen n with Never => True | At secs => secs_typed secs end.

#[export] Instance addr_typed_dec a : Decision (addr_typed a).
Proof. unfold addr_typed. destruct (ip a); apply _. Defined.
#[export] Instance typed_dec n : Decision (typed n).
Proof. unfold typed, secs_typed. destruct (Node.last_seen n); apply _. Defined.

Lemma typed_update_last_seen now n : secs_typed now -> typed n -> typed (Node.update_last_seen now n).
Proof. unfold typed. cbn. tauto. Qed.

Lemma usat_add_u32 a : (0 <= a <= U32_MAX)%Z -> (0 <= usat_add U32_MAX a 1 <= U32_MAX)%Z.
Proof. unfold usat_add, U32_MAX. lia. Qed.

(** ** A property of all contacts of a bucket or a table, cached ones included *)
Section all.
Context (P : Node -> Prop).

Definition bucket_all (b : KBucket) : Prop :=
  Forall P (KBucket.nodes b) /\ Forall P (KBucket.replacement_cache b).
Definition table_all (t : RoutingTable) : Prop :=
  map_Forall (fun _ b => bucket_all b) (RoutingTable.buckets t).

Context (now : Z) (Htouch : forall n, P n -> P (Node.update_last_seen now n)).

Lemma cache_push_all n b : bucket_all b -> P n -> bucket_all (KBucket.cache_push n b).
Proof using Type.
  intros [Hn Hc] HP. split; [exact Hn|]. apply Forall_app. split; [|by constructor].
  destruct (position _ _); [by apply Forall_delete|done].
Qed.

Lemma update_all `{Profile} n b b' r :
  P n -> bucket_all b -> KBucket.update_spec now n b b' r -> bucket_all b'.
Proof using Htouch.
  intros HP Hb Hu. destruct Hu as [|l1 x l2 _ Hns|_ _ _|l1 x l2 _ _ _ Hns|x l _ _ _ Hns|];
    [done| | | | |apply cache_push_all; auto]; destruct Hb as [Hn Hc]; (split; [|exact Hc]);
    rewrite ?Hns, ?Forall_app, ?Forall_cons in Hn; cbn; rewrite ?Forall_app, ?Forall_cons;
    naive_solver.
Qed.

Lemma remove_all j b : bucket_all b -> bucket_all (KBucket.remove now j b).1.
Proof using Htouch.
  intros [Hn Hc]. pose proof (remove_cases now j b) as Hr.
  destruct (KBucket.remove now j b) as [b' [x|]]; cbn; [|by destruct Hr as [_ ->]].
  destruct Hr as (l1 & l2 & Hns & _ & _ & ->). rewrite Hns, Forall_app, Forall_cons in Hn.
  destruct (KBucket.replacement_cache b) as [|c cs] eqn:E; (split; cbn; [|rewrite ?E]).
  all: rewrite ?Forall_app, ?Forall_cons in *; naive_solver.
Qed.

Lemma table_all_insert t i b :
  table_all t -> bucket_all b -> table_all (RoutingTable.set_buckets <[i := b]> t).
Proof using Type. intros Ht Hb. by apply map_Forall_insert_2. Qed.

Lemma table_update_all `{Profile} n t t' r :
  P n -> table_wf t -> table_all t -> RoutingTable.update now n t = Done (t', r) -> table_all t'.
Proof using Htouch.
  intros HP Hwf Ht Hu. destruct (table_update_cases _ _ _ _ _ Hwf Hu)
    as [(_ & -> & _)|(i & t1 & b & b' & u & _ & _ & Hg & Hs & -> & _)]; [done|].
  assert (table_all t1 /\ bucket_all b) as [Ht1 Hb].
  { revert Hg. unfold RoutingTable.get_or_create_bucket.
    destruct (RoutingTable.buckets t !! i) as [b0|] eqn:E; intros [= <- <-];
      [split; [done|by apply (Ht i)]|].
    assert (bucket_all (KBucket.new (RoutingTable.local_node_id t) i (RoutingTable.k t))) as Hnew
      by by split.
    split; [by apply table_all_insert|done]. }
  apply table_all_insert; [done|]. by eapply update_all.
Qed.

Lemma table_clone_all `{Profile} f j t t' r :
  (forall n, Node.id (f n) = Node.id n) -> table_wf t -> table_all t ->
  RoutingTable.update_clone now f j t = Done (t', r) -> table_all t'.
Proof using Htouch.
  intros Hf Hwf Ht Hu. destruct (update_clone_cases _ _ _ _ _ _ Hf Hwf Hu)
    as [_ [->|(i & b & l1 & x & l2 & _ & Hb & Hns & _ & Hs & ->)]]; [done|].
  apply table_all_insert; [done|]. pose proof (Ht i b Hb) as Hall.
  eapply update_all; [|exact Hall|exact Hs]. destruct Hall as [Hn _].
  rewrite Hns, Forall_app, Forall_cons in Hn. tauto.
Qed.

Lemma table_remove_all j t : table_all t -> table_all (RoutingTable.remove now j t).1.
Proof using Htouch.
  intros Ht. unfold RoutingTable.remove. destruct (RoutingTable.bucket_index j t) as [i|]; [|done].
  destruct (RoutingTable.buckets t !! i) as [b|] eqn:Hb; [|done].
  pose proof (remove_all j b (Ht i b Hb)) as Hb'.
  destruct (KBucket.remove now j b) as [b' x]. by apply table_all_insert.
Qed.

(** What the table gives away. *)
Lemma table_all_in n t : table_all t -> in_table n t -> P n.
Proof using Type.
  intros Ht (i & b & Hb & Hn). destruct (Ht i b Hb) as [Hns _]. rewrite Forall_forall in Hns. by apply Hns.
Qed.
End all.

Lemma table_remove_in now j t n : (RoutingTable.remove now j t).2 = Some n -> in_table n t.
Proof.
  unfold RoutingTable.remove. destruct (RoutingTable.bucket_index j t) as [i|]; [|done].
  destruct (RoutingTable.buckets t !! i) as [b|] eqn:Hb; [|done].
  pose proof (remove_cases now j b) as Hr. destruct (KBucket.remove now j b) as [b' [x|]]; [|done].
  destruct Hr as (l1 & l2 & Hns & _). cbn. intros [= <-]. exists i, b. rewrite Hns.
  split; [done|set_solver].
Qed.

Lemma in_get_closest `{!HashOrder nat KBucket} target count t n :
  n ∈ RoutingTable.get_closest target count t -> in_table n t.
Proof. intros Hn%elem_of_take_l. by rewrite elem_of_sort_by, elem_of_get_all_nodes in Hn. Qed.

Lemma f64_to_u64_range x : (0 <= f64_to_u64 x <= U64_MAX)%Z.
Proof.
  unfold f64_to_u64. assert (0 <= U64_MAX)%Z by done.
  destruct x as [s|s| |[] m e]; [lia|by destruct s|lia|lia|].
  pose proof (proj2 (Z.shiftl_nonneg (Zpos m) e)). lia.
Qed.

Lemma recording_typed ms s :
  ResponseStats.wf s -> (0 <= ms <= U64_MAX)%Z ->
  ResponseStats.wf (ResponseStats.record_success s) /\
  ResponseStats.wf (ResponseStats.record_failure s) /\
  ResponseStats.wf (ResponseStats.record_response_time ms s).
Proof.
  intros (Hs & Hf & Ha) Hms. split_and!; unfold ResponseStats.wf; cbn;
    auto using usat_add_u32.
  unfold ResponseStats.record_response_time.
  destruct (ResponseStats.avg_response_time_ms s) eqn:E; cbn; auto using f64_to_u64_range.
Qed.

(** ** Typed runs of a routing table

    The contacts given to the table and the clock are in range, as those the
    program decodes from a message or reads from the system are. *)
Section runs.
Context `{Profile}.

Inductive typed_step (t : RoutingTable) : RoutingTable -> Prop :=
  | typed_update now node t' r :
      secs_typed now -> typed node -> RoutingTable.update now node t = Done (t', r) -> typed_step t t'
  | typed_node_seen now j t' r :
      secs_typed now -> RoutingTable.node_seen now j t = Done (t', r) -> typed_step t t'
  | typed_record_success now j ms t' r :
      secs_typed now -> RoutingTable.record_success now j ms t = Done (t', r) -> typed_step t t'
  | typed_record_failure now j t' r :
      secs_typed now -> RoutingTable.record_failure now j t = Done (t', r) -> typed_step t t'
  | typed_remove now j t' r :
      secs_typed now -> RoutingTable.remove now j t = (t', r) -> typed_step t t'.

Lemma typed_step_table_step t t' : typed_step t t' -> table_step t t'.
Proof.
  destruct 1; [by eapply ts_update|by eapply ts_node_seen|by eapply ts_record_success
    |by eapply ts_record_failure|by eapply ts_remove].
Qed.

Lemma typed_step_all t t' : table_wf t -> table_all typed t -> typed_step t t' -> table_all typed t'.
Proof.
  intros Hwf Ht Hs. destruct Hs as [now n t' r Hnow Hn Hu|now j t' r Hnow Hu|now j ms t' r Hnow Hu
    |now j t' r Hnow Hu|now j t' r Hnow Hu];
    pose proof (fun n => typed_update_last_seen now n Hnow) as Htouch.
  - by eapply table_update_all.
  - by eapply (table_clone_all typed now Htouch); [|exact Hwf|exact Ht|exact Hu].
  - by eapply (table_clone_all typed now Htouch); [|exact Hwf|exact Ht|exact Hu].
  - by eapply (table_clone_all typed now Htouch); [|exact Hwf|exact Ht|exact Hu].
  - pose proof (table_remove_all typed now Htouch j t Ht) as Hr. by rewrite Hu in Hr.
Qed.

Lemma typed_run local k t : rtc typed_step (RoutingTable.with_k local k) t -> table_all typed t.
Proof.
  assert (forall t0, rtc typed_step t0 t -> table_wf t0 -> table_all typed t0 -> table_all typed t) as Hind.
  { induction 1 as [|t0 t1 t2 Hs _ IH]; intros Hwf Ht; [done|]. apply IH.
    - by destruct (table_step_wf _ _ (typed_step_table_step _ _ Hs) Hwf).
    - by eapply typed_step_all. }
  intros Hrun. apply (Hind _ Hrun); [apply table_wf_empty|apply map_Forall_empty].
Qed.
End runs.

(** C13: types are preserved. Along every sequence of table operations on
    contacts in the ranges of their Rust types ([u16] port, [u32] counters,
    [u64] averages and times) all contacts of the table, the cached ones
    included, stay in these ranges, and so are those that [get],
    [get_closest] and [get_all_nodes] return and [remove] gives back; and the three recording
    operations on the statistics of such a contact stay in range: the
    counters saturate, and the new average is converted back to [u64]. *)
Theorem contacts_stay_typed `{Profile} `{!HashOrder nat KBucket} local k t n now j ms target count :
  rtc typed_step (RoutingTable.with_k local k) t ->
  table_all typed t /\
  (n ∈ RoutingTable.get_all_nodes t \/ n ∈ RoutingTable.get_closest target count t \/
   RoutingTable.get j t = Some n \/ (RoutingTable.remove now j t).2 = Some n -> typed n) /\
  (ResponseStats.wf (Node.response_stats n) -> (0 <= ms <= U64_MAX)%Z ->
   ResponseStats.wf (ResponseStats.record_success (Node.response_stats n)) /\
   ResponseStats.wf (ResponseStats.record_failure (Node.response_stats n)) /\
   ResponseStats.wf (ResponseStats.record_response_time ms (Node.response_stats n))).
Proof.
  intros Hrun. split; [|split; [|apply recording_typed]].
  - by eapply typed_run.
  - apply typed_run in Hrun. intros Hn. eapply table_all_in; [exact Hrun|].
    destruct Hn as [Hn|[Hn|[Hn|Hn]]].
    + by apply elem_of_get_all_nodes.
    + by eapply in_get_closest.
    + by apply table_get_Some in Hn as [Hn _].
    + by eapply table_remove_in.
Qed.

(** Two contacts inserted in an empty table. *)
Lemma contacts_stay_typed_witness :
  rtc (@typed_step debug_build) (RoutingTable.with_k (sample_id 0) 2) small_table /\
  table_all typed small_table.
Proof.
  assert (rtc (@typed_step debug_build) (RoutingTable.with_k (sample_id 0) 2) small_table) as Hrun.
  { eapply rtc_l; [|eapply rtc_l; [|apply rtc_refl]].
    - eapply (@typed_update debug_build _ 5 (contact 2)); vm_compute; by repeat split.
    - eapply (@typed_update debug_build _ 10 (contact 3)); vm_compute; by repeat split. }
  split; [exact Hrun|].
  by apply (@contacts_stay_typed debug_build listed_order (sample_id 0) 2 small_table
    (contact 2) 10 (sample_id 2) 7 (sample_id 3) 20).
Defined.
