(* ===== verification/Store.v ===== *)
(** * Key-value storage (src/src/storage.rs)

    [Storage] is the trait, as a type class of operations; [Storage.Laws] is
    what a client may rely on, whatever the implementation.  [MemoryStorage]
    keeps entries with a time to live, [DualStorage] doubles it with a map
    shared with the network.  [Instant::now()] is the argument [now], in
    nanoseconds of the monotonic clock.  The calls to [tracing] are left out. *)

From S2P Require Import Prelude Errors Bytes Ident.

Definition Value := list u8.

(** ** [std::time::Instant]: adding a duration panics when the result cannot be
    represented (a 64-bit count of seconds). *)
Definition Instant := Z.
Bind Scope Z_scope with Instant.
Definition INSTANT_MAX : Z := 2 ^ 63 * 1000000000 - 1.
Definition instant_add (t : Instant) (d : Duration) : exec Instant :=
  if Z.leb (t + d) INSTANT_MAX then Done (t + d)%Z else Panic.

(** ** The trait *)
Module Storage.
Class t (S : Type) := {
  store : Instant -> NodeId -> Value -> S -> exec (S * Result unit);
  get : Instant -> NodeId -> S -> exec (S * Result Value);
  remove : NodeId -> S -> S * Result unit;
  keys : S -> list NodeId;
  cleanup : Instant -> S -> exec S
}.

(** The bodies the trait gives [keys] and [cleanup]. *)
Definition default_keys {S} (self : S) : list NodeId := [].
Definition default_cleanup {S} (now : Instant) (self : S) : exec S := mret self.

(** What clients rely on: [view now s k] is the value a lookup of [k] at
    time [now] finds, a stored value is found for at least [lifetime s],
    lookups do not change what is found, [remove] makes a key absent, and
    no operation touches other keys. [sane now s] excludes the clock
    arithmetic that panics. *)
Class Laws (S : Type) `{!t S} := {
  sane : Instant -> S -> Prop;
  view : Instant -> S -> NodeId -> option Value;
  lifetime : S -> Duration;
  store_law now k v s : sane now s ->
    exists s', store now k v s = Done (s', Ok tt) /\ sane now s' /\ lifetime s' = lifetime s /\
      k ∈ keys s' /\
      (forall now', (now' < now + lifetime s)%Z -> view now' s' k = Some v) /\
      (forall now' j, j <> k -> view now' s' j = view now' s j);
  get_law now k s : sane now s ->
    exists s', get now k s = Done (s', match view now s k with
                                       | Some v => Ok v
                                       | None => Err ValueNotFound
                                       end) /\
      sane now s' /\ lifetime s' = lifetime s /\ forall j, view now s' j = view now s j;
  remove_law now k s s' r : sane now s -> remove k s = (s', r) ->
    sane now s' /\ lifetime s' = lifetime s /\ view now s' k = None /\
    forall j, j <> k -> view now s' j = view now s j;
  cleanup_law now s : sane now s ->
    exists s', cleanup now s = Done s' /\ sane now s' /\ lifetime s' = lifetime s /\
      forall j v, view now s' j = Some v -> view now s j = Some v
}.

(** The operations of a storage run without fuel. *)
Class Fuelless (S : Type) `{!t S} : Prop := {
  store_fuel now k v s : enough_fuel (store now k v s);
  get_fuel now k s : enough_fuel (get now k s);
  cleanup_fuel now s : enough_fuel (cleanup now s)
}.
End Storage.

Definition DEFAULT_TTL : Duration := from_secs 86400.

(** ** [MemoryStorage] *)
Module MemoryStorage.
Record StorageEntry := MkEntry {
  value : Value;
  timestamp : Instant;
  ttl : Duration
}.
Add Printing Constructor StorageEntry.

Definition default_entry (now : Instant) : StorageEntry := MkEntry [] now DEFAULT_TTL.

Record t := Mk {
  storage : gmap NodeId StorageEntry;
  default_ttl : Duration;
  debug_name : string
}.
Add Printing Constructor t.

(** [#[derive(Default)]]: every field's own default, so a zero [Duration]. *)
Definition default : t := Mk ∅ 0%Z EmptyString.

Definition new : t := Mk ∅ DEFAULT_TTL "default".
Definition with_ttl (ttl : Duration) : t := Mk ∅ ttl "default".
Definition with_name (name : string) : t := Mk ∅ DEFAULT_TTL name.
Definition with_name_and_ttl (name : string) (ttl : Duration) : t := Mk ∅ ttl name.

Definition set_storage (m : gmap NodeId StorageEntry) (self : t) : t :=
  Mk m (default_ttl self) (debug_name self).

(** [entry.timestamp + entry.ttl > now] *)
Definition live (now : Instant) (e : StorageEntry) : exec bool :=
  deadline ← instant_add (timestamp e) (ttl e);
  mret (Z.ltb now deadline).

Definition store_with_ttl (now : Instant) (key : NodeId) (v : Value) (ttl : Duration) (self : t)
    : t * Result unit :=
  let entry := MkEntry v now ttl in
  (set_storage (<[key := entry]> (storage self)) self, Ok tt).

Definition store (now : Instant) (key : NodeId) (v : Value) (self : t) : t * Result unit :=
  store_with_ttl now key v (default_ttl self) self.

Definition get (now : Instant) (key : NodeId) (self : t) : exec (Result Value) :=
  match storage self !! key with
  | Some entry =>
      is_live ← live now entry;
      if is_live : bool then mret (Ok (value entry)) else mret (Err ValueNotFound)
  | None => mret (Err ValueNotFound)
  end.

Definition remove (key : NodeId) (self : t) : t * Result unit :=
  match storage self !! key with
  | Some _ => (set_storage (delete key (storage self)) self, Ok tt)
  | None => (self, Err ValueNotFound)
  end.

(** [HashMap::retain] with a test that can panic: it visits every entry. *)
Definition cleanup (now : Instant) (self : t) : exec t :=
  if decide (map_Forall (fun _ e => live now e <> Panic) (storage self)) then
    mret (set_storage (filter (fun p => live now p.2 = Done true) (storage self)) self)
  else Panic.

Section iteration.
Context `{!HashOrder NodeId StorageEntry}.
Definition get_all_keys (self : t) : list NodeId := hash_keys (storage self).
Definition iter (self : t) : list (NodeId * Value) :=
  (fun p => (p.1, value p.2)) <$> hash_iter (storage self).

(** The initial content of the shared map, and the name. *)
Definition create_shared (self : t) : gmap NodeId Value * string :=
  (fold_left (fun m p => <[p.1 := value p.2]> m) (hash_iter (storage self)) ∅,
   debug_name self).

#[export] Instance storage_ops : Storage.t t := {
  store now k v s := mret (store now k v s);
  get now k s := r ← get now k s; mret (s, r);
  remove := remove;
  keys := get_all_keys;
  cleanup := cleanup
}.
End iteration.
End MemoryStorage.
Export (hints) MemoryStorage.
Abbreviation MemoryStorage := MemoryStorage.t.

(** ** [DualStorage]

    [shared_storage] is the content of the map behind the [Arc<Mutex<_>>]: the
    operations lock it, the network can change it between two of them. *)
Module DualStorage.
Record t := Mk {
  memory_storage : MemoryStorage;
  shared_storage : gmap NodeId Value
}.
Add Printing Constructor t.

Section ops.
Context `{!HashOrder NodeId MemoryStorage.StorageEntry}.

Definition new (name : string) : t :=
  let memory_storage := MemoryStorage.with_name name in
  Mk memory_storage (MemoryStorage.create_shared memory_storage).1.

Definition store (now : Instant) (key : NodeId) (v : Value) (self : t) : t * Result unit :=
  let '(mem, result) := MemoryStorage.store now key v (memory_storage self) in
  (Mk mem (<[key := v]> (shared_storage self)), result).

Definition get (now : Instant) (key : NodeId) (self : t) : exec (t * Result Value) :=
  r ← MemoryStorage.get now key (memory_storage self);
  match r with
  | Ok v => mret (self, Ok v)
  | Err _ =>
      match shared_storage self !! key with
      | Some v =>
          let '(mem, _) := MemoryStorage.store now key v (memory_storage self) in
          mret (Mk mem (shared_storage self), Ok v)
      | None => mret (self, Err ValueNotFound)
      end
  end.

Definition remove (key : NodeId) (self : t) : t * Result unit :=
  let '(mem, result) := MemoryStorage.remove key (memory_storage self) in
  (Mk mem (delete key (shared_storage self)), result).

Definition keys (self : t) : list NodeId := MemoryStorage.get_all_keys (memory_storage self).

Definition cleanup (now : Instant) (self : t) : exec t :=
  mem ← MemoryStorage.cleanup now (memory_storage self);
  let valid_keys : gset NodeId := list_to_set (MemoryStorage.get_all_keys mem) in
  mret (Mk mem (filter (fun p => p.1 ∈ valid_keys) (shared_storage self))).

#[export] Instance storage_ops : Storage.t t := {
  store now k v s := mret (store now k v s);
  get := get;
  remove := remove;
  keys := keys;
  cleanup := cleanup
}.
End ops.
End DualStorage.
Export (hints) DualStorage.
Abbreviation DualStorage := DualStorage.t.

(** ** The implementations satisfy the interface *)
Definition entry_fits (e : MemoryStorage.StorageEntry) : Prop :=
  (MemoryStorage.timestamp e + MemoryStorage.ttl e <= INSTANT_MAX)%Z.

Definition entry_live (now : Instant) (e : MemoryStorage.StorageEntry) : bool :=
  Z.ltb now (MemoryStorage.timestamp e + MemoryStorage.ttl e).

Definition memory_sane (now : Instant) (s : MemoryStorage) : Prop :=
  (now + MemoryStorage.default_ttl s <= INSTANT_MAX)%Z /\
  map_Forall (fun _ e => entry_fits e) (MemoryStorage.storage s).

Definition memory_view (now : Instant) (s : MemoryStorage) (k : NodeId) : option Value :=
  e ← MemoryStorage.storage s !! k;
  if entry_live now e then Some (MemoryStorage.value e) else None.

Lemma live_fits now e : entry_fits e -> MemoryStorage.live now e = Done (entry_live now e).
Proof.
  unfold entry_fits, MemoryStorage.live, instant_add. intros He.
  by destruct (Z.leb_spec (MemoryStorage.timestamp e + MemoryStorage.ttl e) INSTANT_MAX); [|lia].
Qed.

Lemma memory_get_eq now k s :
  map_Forall (fun _ e => entry_fits e) (MemoryStorage.storage s) ->
  MemoryStorage.get now k s =
    Done (match memory_view now s k with Some v => Ok v | None => Err ValueNotFound end).
Proof.
  intros Hfit. unfold MemoryStorage.get, memory_view.
  destruct (MemoryStorage.storage s !! k) as [e|] eqn:He; cbn; [|done].
  rewrite live_fits by (by apply (Hfit k)). cbn. by destruct (entry_live now e).
Qed.

Lemma memory_view_store now now' k v s j :
  memory_view now' (MemoryStorage.store now k v s).1 j =
    if decide (j = k) then if Z.ltb now' (now + MemoryStorage.default_ttl s) then Some v else None
    else memory_view now' s j.
Proof.
  unfold memory_view. cbn. case_decide as E.
  - by rewrite E, lookup_insert_eq.
  - by rewrite lookup_insert_ne.
Qed.

Lemma memory_sane_store now now' k v s :
  memory_sane now s -> (now' <= now)%Z -> memory_sane now' (MemoryStorage.store now k v s).1.
Proof.
  intros [Ht Hs] Hle. split; [cbn; lia|]. cbn. by apply map_Forall_insert_2.
Qed.

Lemma memory_view_remove now k s j :
  memory_view now (MemoryStorage.remove k s).1 j = if decide (j = k) then None else memory_view now s j.
Proof.
  unfold memory_view, MemoryStorage.remove. destruct (MemoryStorage.storage s !! k) as [e|] eqn:He; cbn.
  - case_decide as E; [by rewrite E, lookup_delete_eq|by rewrite lookup_delete_ne].
  - case_decide as E; [by rewrite E, He|done].
Qed.

Lemma memory_remove_subseteq k s :
  MemoryStorage.storage (MemoryStorage.remove k s).1 ⊆ MemoryStorage.storage s.
Proof. unfold MemoryStorage.remove. destruct (_ !! _); [apply delete_subseteq|done]. Qed.

Lemma memory_cleanup_eq now s :
  map_Forall (fun _ e => entry_fits e) (MemoryStorage.storage s) ->
  MemoryStorage.cleanup now s =
    Done (MemoryStorage.set_storage
            (filter (fun p => entry_live now p.2 = true) (MemoryStorage.storage s)) s).
Proof.
  intros Hfit. unfold MemoryStorage.cleanup. rewrite decide_True.
  - do 2 f_equal. apply map_filter_ext. intros i e He. cbn. rewrite live_fits by (by apply (Hfit i)).
    split; congruence.
  - intros i e He. rewrite live_fits by (by apply (Hfit i)). done.
Qed.

Lemma memory_view_filter now s j :
  memory_view now (MemoryStorage.set_storage
    (filter (fun p => entry_live now p.2 = true) (MemoryStorage.storage s)) s) j = memory_view now s j.
Proof.
  unfold memory_view. cbn. rewrite map_lookup_filter.
  destruct (MemoryStorage.storage s !! j) as [e|]; cbn; [|done].
  destruct (entry_live now e) eqn:He; case_guard; cbn; rewrite ?He; done.
Qed.

(** ** Neither storage uses fuel *)
Lemma live_fuel now e : enough_fuel (MemoryStorage.live now e).
Proof. unfold MemoryStorage.live, instant_add. by destruct (Z.leb _ _). Qed.

Lemma memory_get_fuel now k s : enough_fuel (MemoryStorage.get now k s).
Proof.
  unfold MemoryStorage.get. destruct (_ !! _); [|done].
  apply enough_fuel_bind; [apply live_fuel|]. by intros [].
Qed.

Lemma memory_cleanup_fuel now s : enough_fuel (MemoryStorage.cleanup now s).
Proof. unfold MemoryStorage.cleanup. by case_decide. Qed.

#[export] Instance memory_fuelless `{!HashOrder NodeId MemoryStorage.StorageEntry} :
  Storage.Fuelless MemoryStorage.
Proof.
  split; [done|intros now k s|apply memory_cleanup_fuel].
  apply enough_fuel_bind; [apply memory_get_fuel|done].
Qed.

#[export] Instance dual_fuelless `{!HashOrder NodeId MemoryStorage.StorageEntry} :
  Storage.Fuelless DualStorage.
Proof.
  split; [done|intros now k s|intros now s]; cbn.
  - apply enough_fuel_bind; [apply memory_get_fuel|]. intros [v|e]; [done|]. by destruct (_ !! _).
  - apply enough_fuel_bind; [apply memory_cleanup_fuel|done].
Qed.

Section laws.
Context `{!HashOrder NodeId MemoryStorage.StorageEntry}.

#[export] Program Instance memory_laws : Storage.Laws MemoryStorage := {
  Storage.sane := memory_sane;
  Storage.view := memory_view;
  Storage.lifetime := MemoryStorage.default_ttl
}.
Next Obligation.
  intros now k v s Hs. exists (MemoryStorage.store now k v s).1. split_and!.
  - done.
  - by apply memory_sane_store.
  - done.
  - apply elem_of_hash_keys. cbn. by rewrite lookup_insert_eq.
  - intros now' Hlt. rewrite memory_view_store, decide_True by done.
    by destruct (Z.ltb_spec now' (now + MemoryStorage.default_ttl s)); [|lia].
  - intros now' j Hj. by rewrite memory_view_store, decide_False.
Qed.
Next Obligation.
  intros now k s [Ht Hs]. exists s. split_and!; [|done..].
  cbn. by rewrite memory_get_eq.
Qed.
Next Obligation.
  intros now k s s' r [Ht Hs] Hr. cbn in Hr. assert (s' = (MemoryStorage.remove k s).1) as -> by by rewrite Hr.
  assert (MemoryStorage.default_ttl (MemoryStorage.remove k s).1 = MemoryStorage.default_ttl s) as El
    by (unfold MemoryStorage.remove; by destruct (_ !! _)).
  split_and!; [split; [by rewrite El|]|done|by rewrite memory_view_remove, decide_True|].
  - intros i e He. eapply Hs, lookup_weaken; [exact He|apply memory_remove_subseteq].
  - intros j Hj. by rewrite memory_view_remove, decide_False.
Qed.
Next Obligation.
  intros now s [Ht Hs]. eexists. split; [by apply memory_cleanup_eq|]. split_and!.
  - split; [done|]. cbn. intros i e [He _]%map_lookup_filter_Some. by apply (Hs i).
  - done.
  - intros j v. by rewrite memory_view_filter.
Qed.

Definition dual_view (now : Instant) (s : DualStorage) (k : NodeId) : option Value :=
  match memory_view now (DualStorage.memory_storage s) k with
  | Some v => Some v
  | None => DualStorage.shared_storage s !! k
  end.

Lemma dual_store_memory now k v s :
  DualStorage.memory_storage (DualStorage.store now k v s).1 =
    (MemoryStorage.store now k v (DualStorage.memory_storage s)).1.
Proof. done. Qed.

#[export] Program Instance dual_laws : Storage.Laws DualStorage := {
  Storage.sane now s := memory_sane now (DualStorage.memory_storage s);
  Storage.view := dual_view;
  Storage.lifetime s := MemoryStorage.default_ttl (DualStorage.memory_storage s)
}.
Next Obligation.
  intros now k v s Hs. exists (DualStorage.store now k v s).1. split_and!.
  - done.
  - by apply memory_sane_store.
  - done.
  - apply elem_of_hash_keys. cbn. by rewrite lookup_insert_eq.
  - intros now' Hlt. unfold dual_view. rewrite dual_store_memory, memory_view_store, decide_True by done.
    by destruct (Z.ltb_spec now' (now + MemoryStorage.default_ttl (DualStorage.memory_storage s))); [|lia].
  - intros now' j Hj. unfold dual_view.
    rewrite dual_store_memory, memory_view_store, decide_False by done.
    cbn. by rewrite lookup_insert_ne.
Qed.
Next Obligation.
  intros now k s Hs. unfold Storage.get, DualStorage.storage_ops, DualStorage.get, dual_view.
  rewrite memory_get_eq by apply Hs. rewrite exec_bind_Done.
  destruct (memory_view now (DualStorage.memory_storage s) k) as [v|] eqn:Hv; [by exists s|].
  destruct (DualStorage.shared_storage s !! k) as [v|] eqn:Hsh; [|by exists s].
  exists (DualStorage.Mk (MemoryStorage.store now k v (DualStorage.memory_storage s)).1
    (DualStorage.shared_storage s)).
  split; [done|]. split_and!; [by apply memory_sane_store|done|].
  intros j. cbn [DualStorage.memory_storage DualStorage.shared_storage].
  rewrite memory_view_store. case_decide as E; [|done].
  rewrite E, Hv, Hsh. by destruct (Z.ltb _ _).
Qed.
Next Obligation.
  intros now k s s' r Hs. cbn. unfold DualStorage.remove, MemoryStorage.remove, dual_view, memory_view.
  destruct (MemoryStorage.storage (DualStorage.memory_storage s) !! k) as [e|] eqn:He;
    intros [= <- <-]; cbn.
  - split_and!; [split; [apply Hs|]|done| |].
    + apply map_Forall_delete. apply Hs.
    + by rewrite !lookup_delete_eq.
    + intros j Hj. by rewrite !lookup_delete_ne.
  - rewrite He. cbn. split_and!; [done..|by rewrite lookup_delete_eq|].
    intros j Hj. by rewrite lookup_delete_ne.
Qed.
Next Obligation.
  intros now s Hs. cbn. unfold DualStorage.cleanup. rewrite memory_cleanup_eq by apply Hs. cbn.
  eexists. split; [done|]. split_and!; [|done|].
  - split; [apply Hs|]. cbn. intros i e [He _]%map_lookup_filter_Some. by apply (proj2 Hs i).
  - intros j v. unfold dual_view. cbn. rewrite memory_view_filter.
    destruct (memory_view _ _ _); [done|]. by intros [? _]%map_lookup_filter_Some.
Qed.
End laws.
