(* ===== verification/StoreSpec.v ===== *)
(** * Theorems on storage

    [MemoryStorage] under any sequence of operations and at expiry, and how
    [DualStorage] differs from it. *)

From S2P Require Import Prelude Errors Bytes Ident Fixtures Store.

(** ** Sequences of operations *)
Inductive call :=
  | DoStore (key : NodeId) (v : Value)
  | DoGet (key : NodeId)
  | DoRemove (key : NodeId)
  | DoCleanup.

(** One operation, and several, each at a time of its own. *)
Definition perform {S} `{!Storage.t S} (now : Instant) (op : call) (s : S) : exec S :=
  match op with
  | DoStore key v => '(s, _) ← Storage.store now key v s; mret s
  | DoGet key => '(s, _) ← Storage.get now key s; mret s
  | DoRemove key => mret (Storage.remove key s).1
  | DoCleanup => Storage.cleanup now s
  end.
Fixpoint perform_all {S} `{!Storage.t S} (ops : list (Instant * call)) (s : S) : exec S :=
  match ops with
  | [] => mret s
  | (now, op) :: ops => s ← perform now op s; perform_all ops s
  end.

(** What the last of the operations that write a key left in it: a value and
    the time it was stored, or nothing; [None] when none writes it. *)
Definition write_to (key : NodeId) (x : Instant * call) : option (option (Instant * Value)) :=
  match x.2 with
  | DoStore key' v => if decide (key' = key) then Some (Some (x.1, v)) else None
  | DoRemove key' => if decide (key' = key) then Some None else None
  | _ => None
  end.
Definition last_write (key : NodeId) (ops : list (Instant * call))
    : option (option (Instant * Value)) := last (omap (write_to key) ops).

(** What a lookup at [now] finds then, of a value with this time to live. *)
Definition read_write (now : Instant) (ttl : Duration) (w : option (Instant * Value)) : Result Value :=
  match w with
  | Some (t, v) => if Z.ltb now (t + ttl) then Ok v else Err ValueNotFound
  | None => Err ValueNotFound
  end.

Section memory.
Context `{!HashOrder NodeId MemoryStorage.StorageEntry}.

Definition fits (s : MemoryStorage) : Prop :=
  map_Forall (fun _ e => entry_fits e) (MemoryStorage.storage s).

(** What a later lookup finds in [s'], made from [s] by operations that leave
    [w j] of key [j], if anything. *)
Definition written (now : Instant) (w : NodeId -> option (option (Instant * Value)))
    (s s' : MemoryStorage) : Prop :=
  fits s' /\ MemoryStorage.default_ttl s' = MemoryStorage.default_ttl s /\
  forall j, MemoryStorage.get now j s' =
    match w j with
    | Some x => Done (read_write now (MemoryStorage.default_ttl s) x)
    | None => MemoryStorage.get now j s
    end.

Lemma perform_memory now now' op (s : MemoryStorage) :
  fits s -> (now <= now')%Z -> (now + MemoryStorage.default_ttl s <= INSTANT_MAX)%Z ->
  exists s', perform now op s = Done s' /\ written now' (fun j => write_to j (now, op)) s s'.
Proof.
  intros Hfit Hle Hmax. destruct op as [k v|k|k|].
  - exists (MemoryStorage.store now k v s).1. split; [done|].
    assert (fits (MemoryStorage.store now k v s).1) as Hfit' by (by apply map_Forall_insert_2).
    split_and!; [done..|]. intros j. rewrite !memory_get_eq, memory_view_store by done.
    unfold write_to. cbn. destruct (decide (j = k)) as [->|Hne].
    + rewrite decide_True by done. cbn. by destruct (Z.ltb _ _).
    + by rewrite decide_False by congruence.
  - exists s. split; [|done]. cbn. by rewrite memory_get_eq.
  - exists (MemoryStorage.remove k s).1. split; [done|].
    assert (fits (MemoryStorage.remove k s).1) as Hfit'
      by (intros i e He; eapply Hfit, lookup_weaken; [exact He|apply memory_remove_subseteq]).
    split_and!; [done|unfold MemoryStorage.remove; by destruct (_ !! _)|].
    intros j. rewrite !memory_get_eq, memory_view_remove by done. unfold write_to. cbn.
    destruct (decide (j = k)) as [->|Hne]; [by rewrite decide_True|by rewrite decide_False by congruence].
  - cbn. rewrite memory_cleanup_eq by done. eexists. split; [done|].
    assert (fits (MemoryStorage.set_storage
      (filter (fun p => entry_live now p.2 = true) (MemoryStorage.storage s)) s)) as Hfit'.
    { intros i e [He _]%map_lookup_filter_Some. by apply (Hfit i). }
    split_and!; [done..|]. intros j. rewrite !memory_get_eq by done.
    unfold write_to, memory_view. cbn. rewrite map_lookup_filter.
    destruct (MemoryStorage.storage s !! j) as [e|]; cbn; [|done]. unfold entry_live.
    case_guard as Hl; cbn; [done|]. by destruct (Z.ltb_spec now' (MemoryStorage.timestamp e + MemoryStorage.ttl e));
      [destruct Hl; apply Z.ltb_lt; lia|].
Qed.

Lemma written_trans now w1 w2 s s1 s2 :
  written now w1 s s1 -> written now w2 s1 s2 ->
  written now (fun j => match w2 j with Some x => Some x | None => w1 j end) s s2.
Proof.
  intros (_ & E1 & H1) (Hfit & E2 & H2). split_and!; [done|congruence|]. intros j.
  rewrite H2, E1. by destruct (w2 j).
Qed.

Lemma last_write_cons j x ops :
  last_write j (x :: ops) =
    match last_write j ops with Some w => Some w | None => write_to j x end.
Proof.
  unfold last_write. csimpl. destruct (write_to j x) as [w|]; [|by destruct (last _)].
  rewrite last_cons. by destruct (last _).
Qed.

Lemma perform_all_memory now' ops (s : MemoryStorage) :
  fits s ->
  Forall (fun x => x.1 <= now' /\ x.1 + MemoryStorage.default_ttl s <= INSTANT_MAX)%Z ops ->
  exists s', perform_all ops s = Done s' /\ written now' (fun j => last_write j ops) s s'.
Proof.
  revert s. induction ops as [|[now op] ops IH]; intros s Hfit Hops; [by exists s|].
  apply Forall_cons in Hops as [[Hle Hmax] Hops].
  destruct (perform_memory now now' op s Hfit Hle Hmax) as (s1 & E1 & H1).
  pose proof H1 as (Hfit1 & El & _). rewrite <-El in Hops.
  destruct (IH s1 Hfit1 Hops) as (s2 & E2 & H2). exists s2.
  cbn [perform_all]. rewrite E1, exec_bind_Done. split; [done|].
  destruct (written_trans _ _ _ _ _ _ H1 H2) as (Hfit2 & El2 & H). split_and!; [done..|].
  intros j. rewrite H, last_write_cons. by destruct (last_write j ops).
Qed.
End memory.

(** C17: [MemoryStorage] is a key-value store. Start it with any entries, and let
    any operations of the trait run on it, [store], [get], [remove] and
    [cleanup] in any order, none later than [now], with deadlines that an
    [Instant] can represent. None panics, and a [get] at [now] then finds, of
    every key, what the last [store] or [remove] of this very key has left: the
    value stored last, until its time to live is over, [ValueNotFound] after
    that or after a [remove], and what was there at the start if neither came.
    So reads, cleanups and writes of other keys never show. What is found is
    listed among the keys. *)
Theorem storage_roundtrip `{!HashOrder NodeId MemoryStorage.StorageEntry}
    (s : MemoryStorage) (ops : list (Instant * call)) (now : Instant) :
  let ttl := MemoryStorage.default_ttl s in
  map_Forall (fun _ e => entry_fits e) (MemoryStorage.storage s) ->
  Forall (fun x => x.1 <= now /\ x.1 + ttl <= INSTANT_MAX)%Z ops ->
  exists s', perform_all ops s = Done s' /\
    forall j, MemoryStorage.get now j s' =
      match last_write j ops with
      | Some (Some (t, v)) => Done (if Z.ltb now (t + ttl) then Ok v else Err ValueNotFound)
      | Some None => Done (Err ValueNotFound)
      | None => MemoryStorage.get now j s
      end /\
      forall v, MemoryStorage.get now j s' = Done (Ok v) -> j ∈ MemoryStorage.get_all_keys s'.
Proof.
  intros ttl Hfit Hops. destruct (perform_all_memory now ops s Hfit Hops) as (s' & E & Hfit' & _ & H).
  exists s'. split; [done|]. intros j. split.
  - rewrite H. by destruct (last_write j ops) as [[[t v]|]|].
  - intros v Hv. apply elem_of_hash_keys. revert Hv. unfold MemoryStorage.get.
    by destruct (MemoryStorage.storage s' !! j).
Qed.

Definition one_byte (n : Z) : Value := [u8_of n].

(** A value is overwritten, another is removed, a third expires. *)
Lemma storage_roundtrip_witness :
  let ops := [(1%Z, DoStore (sample_id 1) (one_byte 1)); (2%Z, DoStore (sample_id 2) (one_byte 2));
              (3%Z, DoStore (sample_id 1) (one_byte 3)); (4%Z, DoRemove (sample_id 2));
              (5%Z, DoStore (sample_id 3) (one_byte 5)); (6%Z, DoCleanup); (7%Z, DoGet (sample_id 1))] in
  exists s', @perform_all _ (@MemoryStorage.storage_ops listed_order) ops (MemoryStorage.with_ttl 5)
      = Done s' /\
    MemoryStorage.get 7 (sample_id 1) s' = Done (Ok (one_byte 3)) /\
    MemoryStorage.get 7 (sample_id 2) s' = Done (Err ValueNotFound).
Proof.
  intros ops. destruct (@storage_roundtrip listed_order (MemoryStorage.with_ttl 5) ops 7)
    as (s' & E & H).
  - apply map_Forall_empty.
  - unfold ops. repeat constructor; vm_compute; discriminate.
  - exists s'. split; [exact E|]. split; [exact (proj1 (H (sample_id 1)))|exact (proj1 (H (sample_id 2)))].
Defined.

(** C33: expiry in [MemoryStorage]. A value stored at time [now] with a time to
    live is read back at [now'] exactly while [now' < now + ttl], and after
    that is [ValueNotFound]; [cleanup] then drops exactly the expired entries
    and no lookup can tell. A deadline past the range of [Instant] panics at
    the next lookup of the key and at the next cleanup. A storage built by
    the derived [Default] has a zero time to live: no stored value is ever
    read back. *)
Theorem memory_storage_expiry (s : MemoryStorage) now now' k v ttl :
  let s' := (MemoryStorage.store_with_ttl now k v ttl s).1 in
  MemoryStorage.get now' k s' =
    (if Z.leb (now + ttl) INSTANT_MAX
     then Done (if Z.ltb now' (now + ttl) then Ok v else Err ValueNotFound) else Panic) /\
  (~ (now + ttl <= INSTANT_MAX)%Z -> MemoryStorage.cleanup now' s' = Panic) /\
  (memory_sane now s -> exists s2, MemoryStorage.cleanup now' s = Done s2 /\
     (forall j e, MemoryStorage.storage s2 !! j = Some e <->
        MemoryStorage.storage s !! j = Some e /\
        (now' < MemoryStorage.timestamp e + MemoryStorage.ttl e)%Z) /\
     forall j, MemoryStorage.get now' j s2 = MemoryStorage.get now' j s) /\
  ((now <= now')%Z -> (now <= INSTANT_MAX)%Z ->
     MemoryStorage.get now' k (MemoryStorage.store now k v MemoryStorage.default).1
       = Done (Err ValueNotFound)).
Proof.
  intros s'. split_and!.
  - unfold MemoryStorage.get, s'. cbn. rewrite lookup_insert_eq.
    unfold MemoryStorage.live, instant_add. cbn.
    destruct (Z.leb_spec (now + ttl) INSTANT_MAX); cbn; [|done]. by destruct (Z.ltb _ _).
  - intros Hov. unfold MemoryStorage.cleanup. rewrite decide_False; [done|].
    intros Hall. apply (Hall k (MemoryStorage.MkEntry v now ttl));
      [cbn; by rewrite lookup_insert_eq|].
    unfold MemoryStorage.live, instant_add. cbn.
    by destruct (Z.leb_spec (now + ttl) INSTANT_MAX); [lia|].
  - intros [_ Hfit]. eexists. split; [by apply memory_cleanup_eq|]. split.
    + intros j e. cbn. rewrite map_lookup_filter_Some. cbn. unfold entry_live.
      by rewrite Z.ltb_lt.
    + intros j. rewrite !memory_get_eq; [by rewrite memory_view_filter|done|].
      intros i e [He _]%map_lookup_filter_Some. by apply (Hfit i).
  - intros Hle Hmax. unfold MemoryStorage.get. cbn.
    unfold MemoryStorage.live, instant_add. cbn. rewrite lookup_insert_eq. cbn.
    destruct (Z.leb_spec (now + 0) INSTANT_MAX); [|lia]. cbn.
    by destruct (Z.ltb_spec now' (now + 0)); [lia|].
Qed.

(** C34: [DualStorage] never forgets what it stored: a value stays readable
    after its time to live, and reading it then renews it for a further time
    to live, as long as no [cleanup] or [remove] comes first; a [cleanup] after
    expiry makes it unreadable. [remove] of a key that only the shared map
    holds removes it and still reports [ValueNotFound]. *)
Theorem dual_storage_resurrects `{!HashOrder NodeId MemoryStorage.StorageEntry}
    (s : DualStorage) now now' k v :
  let ttl := MemoryStorage.default_ttl (DualStorage.memory_storage s) in
  let s' := (DualStorage.store now k v s).1 in
  memory_sane now (DualStorage.memory_storage s) ->
  (now + ttl <= now')%Z ->
  MemoryStorage.get now' k (DualStorage.memory_storage s') = Done (Err ValueNotFound) /\
  (exists s2, DualStorage.get now' k s' = Done (s2, Ok v) /\
     memory_view now' (DualStorage.memory_storage s2) k =
       (if Z.ltb now' (now' + ttl) then Some v else None)) /\
  (exists s2, DualStorage.cleanup now' s' = Done s2 /\
     DualStorage.get now' k s2 = Done (s2, Err ValueNotFound)) /\
  (MemoryStorage.storage (DualStorage.memory_storage s) !! k = None ->
     (DualStorage.remove k s).2 = Err ValueNotFound /\
     DualStorage.shared_storage (DualStorage.remove k s).1 !! k = None).
Proof.
  intros ttl s' Hs Hexp.
  pose proof (memory_sane_store now now k v _ Hs (Z.le_refl now)) as [_ Hfit].
  fold (MemoryStorage.store now k v (DualStorage.memory_storage s)) in Hfit.
  assert (memory_view now' (DualStorage.memory_storage s') k = None) as Hnone.
  { unfold s'. rewrite dual_store_memory, memory_view_store, decide_True by done. fold ttl.
    by destruct (Z.ltb_spec now' (now + ttl)); [lia|]. }
  assert (DualStorage.shared_storage s' !! k = Some v) as Hsh by (cbn; by rewrite lookup_insert_eq).
  assert (MemoryStorage.get now' k (DualStorage.memory_storage s') = Done (Err ValueNotFound)) as Hg.
  { rewrite memory_get_eq by done. by rewrite Hnone. }
  split_and!; [done| | |].
  - exists (DualStorage.Mk (MemoryStorage.store now' k v (DualStorage.memory_storage s')).1
      (DualStorage.shared_storage s')). split.
    + unfold DualStorage.get. rewrite Hg, exec_bind_Done, Hsh. done.
    + cbn [DualStorage.memory_storage]. rewrite memory_view_store, decide_True by done. done.
  - unfold DualStorage.cleanup. rewrite memory_cleanup_eq by done. rewrite exec_bind_Done.
    eexists. split; [done|]. unfold DualStorage.get. cbn [DualStorage.memory_storage].
    rewrite memory_get_eq.
    2: { intros i e [He _]%map_lookup_filter_Some. by apply (Hfit i). }
    rewrite memory_view_filter, Hnone, exec_bind_Done. cbn [DualStorage.shared_storage].
    rewrite map_lookup_filter_None_2; [done|]. right. intros w _ Hin. cbn in Hin.
    apply elem_of_list_to_set, elem_of_hash_keys in Hin as [e [He Hl]%map_lookup_filter_Some].
    unfold memory_view in Hnone. cbn in He, Hl, Hnone. rewrite He in Hnone. cbn in Hnone.
    by rewrite Hl in Hnone.
  - intros Hk. unfold DualStorage.remove, MemoryStorage.remove. rewrite Hk. cbn.
    by rewrite lookup_delete_eq.
Qed.

Lemma dual_storage_resurrects_witness :
  let s := @DualStorage.new listed_order "node" in
  MemoryStorage.get (from_secs 86401) (sample_id 1)
      (DualStorage.memory_storage (DualStorage.store 0 (sample_id 1) (one_byte 42) s).1)
    = Done (Err ValueNotFound).
Proof.
  apply (@dual_storage_resurrects listed_order (@DualStorage.new listed_order "node")
    0 (from_secs 86401) (sample_id 1) (one_byte 42)).
  - split; [vm_compute; discriminate|]. apply map_Forall_empty.
  - vm_compute. discriminate.
Defined.
