(* ===== verification/Messages.v ===== *)
(** * Protocol messages (src/src/protocol/message.rs)

    A [MessageId] is a [u64]. The serialization is serde's and bincode's. *)

From S2P Require Import Prelude Errors Bytes Ident F64 Contact Store.

Definition MessageId := Z.
Bind Scope Z_scope with MessageId.

Inductive RequestMessage :=
  | Ping (id : MessageId) (sender : Node)
  | Store (id : MessageId) (sender : Node) (key : NodeId) (value : Value)
  | FindNode (id : MessageId) (sender : Node) (target : NodeId)
  | FindValue (id : MessageId) (sender : Node) (key : NodeId).

Inductive ResponseMessage :=
  | Pong (request_id : MessageId) (sender : Node)
  | StoreResult (request_id : MessageId) (sender : Node) (success : bool)
  | NodesFound (request_id : MessageId) (sender : Node) (nodes : list Node)
  | ValueFound (request_id : MessageId) (sender : Node) (value : option Value) (nodes : list Node).

Inductive KademliaMessage :=
  | Request (r : RequestMessage)
  | Response (r : ResponseMessage).

Module RequestMessage.
Definition id (self : RequestMessage) : MessageId :=
  match self with
  | Ping id _ | Store id _ _ _ | FindNode id _ _ | FindValue id _ _ => id
  end.
Definition sender (self : RequestMessage) : Node :=
  match self with
  | Ping _ s | Store _ s _ _ | FindNode _ s _ | FindValue _ s _ => s
  end.
End RequestMessage.

Module ResponseMessage.
Definition request_id (self : ResponseMessage) : MessageId :=
  match self with
  | Pong id _ | StoreResult id _ _ | NodesFound id _ _ | ValueFound id _ _ _ => id
  end.
Definition sender (self : ResponseMessage) : Node :=
  match self with
  | Pong _ s | StoreResult _ s _ | NodesFound _ s _ | ValueFound _ s _ _ => s
  end.
End ResponseMessage.
