(* ===== verification/Effects.v ===== *)
(** * Asynchronous programs

    The protocol's [async] functions as programs over the state a node's tasks
    share.  A lock section ([RwLock]/[Mutex] guard taken and dropped without an
    [await] in between) is one [Atomic] action of its lock; every [await] is a
    point where other tasks can run.  A guard that lives across an [await] is a
    [Guard]: it takes the lock and runs a section, and holds the lock ([Held])
    while a program runs. No task enters a section of a lock that is held.  The network is a generic parameter of the protocol,
    so a [Send] or a [Wait] gets an arbitrary answer.

    - [Draw] is a use of the random number generator;
    - [Send] is the await of [network.send]: it returns whenever the transport
      lets it, which may be never;
    - [Wait limit id inner] is [timeout(limit, network.wait_response(id, inner))]:
      no answer when the outer timeout fires, otherwise the inner result, with
      the milliseconds elapsed;
    - [Join] is [futures::future::join_all];
    - [Within] is [tokio::time::timeout] around a program, which is dropped at
      whatever [await] it has reached;
    - [Spawn] and [Await] are [tokio::spawn] and the await of its handle, which
      yields nothing when the task panicked; [R] is the result type of tasks;
    - [Loop body p k] is a [while]/[loop] whose current iteration is at [p]: it
      ends an iteration with the state for the next one or with the result;
    - [Tick] is the await of an [interval], or a [sleep]. *)

From S2P Require Import Prelude Errors Bytes Ident F64 Contact Store Messages.

(** The two clocks, as one lock section reads them. *)
Record Clock := MkClock { wall : Z; mono : Instant }.

(** The locks of a node, each around a part of its state. *)
Inductive Lock := routing_table_lock | storage_lock | pending_requests_lock.
#[export] Instance Lock_eq_dec : EqDecision Lock.
Proof. solve_decision. Defined.

Inductive prog (St R A : Type) : Type :=
  | Ret (a : A)
  | Abort
  | Draw {X : Type} (k : X -> prog St R A)
  | Atomic {X : Type} (l : Lock) (f : Clock -> St -> exec (St * X)) (k : X -> prog St R A)
  | Guard {X Y : Type} (l : Lock) (f : Clock -> St -> exec (St * X)) (body : X -> prog St R Y)
      (k : Y -> prog St R A)
  | Held {Y : Type} (l : Lock) (p : prog St R Y) (k : Y -> prog St R A)
  | Send (to : SocketAddr) (m : KademliaMessage) (k : Result unit -> prog St R A)
  | Wait (limit : Duration) (id : MessageId) (inner : Duration)
      (k : option (Result ResponseMessage) -> Z -> prog St R A)
  | Join {X : Type} (ps : list (prog St R X)) (k : list X -> prog St R A)
  | Within {X : Type} (limit : Duration) (p : prog St R X) (k : option X -> prog St R A)
  | Spawn (p : prog St R R) (k : nat -> prog St R A)
  | Await (h : nat) (k : option R -> prog St R A)
  | Loop {X Y : Type} (body : X -> prog St R (X + Y)) (p : prog St R (X + Y)) (k : Y -> prog St R A)
  | Tick (period : Duration) (k : prog St R A).
Arguments Ret {St R A} a.
Arguments Abort {St R A}.
Arguments Draw {St R A X} k.
Arguments Atomic {St R A X} l f k.
Arguments Guard {St R A X Y} l f body k.
Arguments Held {St R A Y} l p k.
Arguments Send {St R A} to m k.
Arguments Wait {St R A} limit id inner k.
Arguments Join {St R A X} ps k.
Arguments Within {St R A X} limit p k.
Arguments Spawn {St R A} p k.
Arguments Await {St R A} h k.
Arguments Loop {St R A X Y} body p k.
Arguments Tick {St R A} period k.

Section monad.
Context {St R : Type}.

Fixpoint prog_bind {A B} (f : A -> prog St R B) (p : prog St R A) : prog St R B :=
  match p with
  | Ret a => f a
  | Abort => Abort
  | Draw k => Draw (fun x => prog_bind f (k x))
  | Atomic l g k => Atomic l g (fun x => prog_bind f (k x))
  | Guard l g body k => Guard l g body (fun y => prog_bind f (k y))
  | Held l q k => Held l q (fun y => prog_bind f (k y))
  | Send to m k => Send to m (fun r => prog_bind f (k r))
  | Wait limit id inner k => Wait limit id inner (fun r ms => prog_bind f (k r ms))
  | Join ps k => Join ps (fun xs => prog_bind f (k xs))
  | Within limit q k => Within limit q (fun x => prog_bind f (k x))
  | Spawn q k => Spawn q (fun h => prog_bind f (k h))
  | Await h k => Await h (fun r => prog_bind f (k r))
  | Loop body q k => Loop body q (fun y => prog_bind f (k y))
  | Tick d k => Tick d (prog_bind f k)
  end.
End monad.

#[export] Instance prog_mret St R : MRet (prog St R) := fun A a => Ret a.
#[export] Instance prog_mbind St R : MBind (prog St R) := fun A B f p => prog_bind f p.

(** The single actions. *)
Section actions.
Context {St R : Type}.
Definition draw (X : Type) : prog St R X := Draw Ret.
Definition atomic {X} (l : Lock) (f : Clock -> St -> exec (St * X)) : prog St R X := Atomic l f Ret.
(** A read lock: the section looks at the state. *)
Definition reading {X} (l : Lock) (f : St -> exec X) : prog St R X :=
  atomic l (fun _ st => x ← f st; mret (st, x)).
(** [let guard = lock.await; f; body], the guard dropped at the end. *)
Definition guarded {X Y} (l : Lock) (f : Clock -> St -> exec (St * X)) (body : X -> prog St R Y)
    : prog St R Y := Guard l f body Ret.
Definition send (to : SocketAddr) (m : KademliaMessage) : prog St R (Result unit) := Send to m Ret.
Definition wait (limit : Duration) (id : MessageId) (inner : Duration)
    : prog St R (option (Result ResponseMessage) * Z) :=
  Wait limit id inner (fun r ms => Ret (r, ms)).
Definition join {X} (ps : list (prog St R X)) : prog St R (list X) := Join ps Ret.
Definition within {X} (limit : Duration) (p : prog St R X) : prog St R (option X) :=
  Within limit p Ret.
Definition spawn (p : prog St R R) : prog St R nat := Spawn p Ret.
Definition await (h : nat) : prog St R (option R) := Await h Ret.
Definition loop {X Y} (body : X -> prog St R (X + Y)) (x : X) : prog St R Y :=
  Loop body (body x) Ret.
Definition tick (period : Duration) : prog St R unit := Tick period (Ret tt).

(** [for x in l { body }] *)
Fixpoint for_each {X} (l : list X) (body : X -> prog St R unit) : prog St R unit :=
  match l with
  | [] => mret tt
  | x :: l' => _ ← body x; for_each l' body
  end.
End actions.

(** The [?] operator on the result of a program. *)
Definition bind_ok {St R A B} (f : A -> prog St R (Result B)) (p : prog St R (Result A))
    : prog St R (Result B) :=
  r ← p;
  match r with
  | Ok a => f a
  | Err e => mret (Err e)
  end.
Notation "x ←? p ; q" := (bind_ok (fun x => q) p)
  (at level 20, p at level 100, q at level 200, only parsing) : kad_scope.

(** The program holds the lock. A guard is dropped with the program that has it. *)
Fixpoint holds {St R A} (l : Lock) (p : prog St R A) : bool :=
  match p with
  | Held l' q _ => bool_decide (l = l') || holds l q
  | Join ps _ => existsb (holds l) ps
  | Within _ q _ => holds l q
  | Loop _ q _ => holds l q
  | _ => false
  end.

(** ** Steps

    What a task sees of its node: the results of the tasks that have ended,
    and the locks nobody holds. *)
Record Others (R : Type) := MkOthers { ended_with : nat -> option (option R); free : Lock -> Prop }.
Arguments MkOthers {R} ended_with free.
Arguments ended_with {R} o h.
Arguments free {R} o l.

(** What a step shows of the network. *)
Inductive event :=
  | Sent (to : SocketAddr) (m : KademliaMessage) (r : Result unit)
  | Waited (limit : Duration) (id : MessageId) (r : option (Result ResponseMessage)).

Section step.
Context {St R : Type}.
Variables (n : nat) (fin : Others R).

(** [step n fin st p evs st' new p'] : a task whose program is [p] makes one
    step in state [st], with [n] tasks in the pool and [fin] what it sees of
    them; [new] are the tasks it spawns. *)
Inductive step (st : St) (A : Type)
    : prog St R A -> list event -> St -> list (prog St R R) -> prog St R A -> Prop :=
  | step_draw X (k : X -> prog St R A) x :
      step st A (Draw k) [] st [] (k x)
  | step_atomic X c l (f : Clock -> St -> exec (St * X)) k st' x :
      free fin l -> f c st = Done (st', x) -> step st A (Atomic l f k) [] st' [] (k x)
  | step_panic X c l (f : Clock -> St -> exec (St * X)) k :
      free fin l -> f c st = Panic -> step st A (Atomic l f k) [] st [] Abort
  | step_guard X Y c l (f : Clock -> St -> exec (St * X)) (body : X -> prog St R Y) k st' x :
      free fin l -> f c st = Done (st', x) ->
      step st A (Guard l f body k) [] st' [] (Held l (body x) k)
  | step_guard_panic X Y c l (f : Clock -> St -> exec (St * X)) (body : X -> prog St R Y) k :
      free fin l -> f c st = Panic -> step st A (Guard l f body k) [] st [] Abort
  | step_held Y l (k : Y -> prog St R A) p evs st' new p' :
      step st Y p evs st' new p' -> step st A (Held l p k) evs st' new (Held l p' k)
  | step_held_done Y l (k : Y -> prog St R A) y :
      step st A (Held l (Ret y) k) [] st [] (k y)
  | step_held_abort Y l (k : Y -> prog St R A) :
      step st A (Held l Abort k) [] st [] Abort
  | step_send to m k r :
      step st A (Send to m k) [Sent to m r] st [] (k r)
  | step_wait limit id inner k r ms :
      step st A (Wait limit id inner k) [Waited limit id r] st [] (k r ms)
  | step_join X l1 l2 (k : list X -> prog St R A) p evs st' new p' :
      step st X p evs st' new p' ->
      step st A (Join (l1 ++ p :: l2) k) evs st' new (Join (l1 ++ p' :: l2) k)
  | step_join_done X (k : list X -> prog St R A) xs :
      step st A (Join (map Ret xs) k) [] st [] (k xs)
  | step_join_abort X l1 l2 (k : list X -> prog St R A) :
      step st A (Join (l1 ++ Abort :: l2) k) [] st [] Abort
  | step_within X limit (k : option X -> prog St R A) p evs st' new p' :
      step st X p evs st' new p' ->
      step st A (Within limit p k) evs st' new (Within limit p' k)
  | step_within_done X limit (k : option X -> prog St R A) x :
      step st A (Within limit (Ret x) k) [] st [] (k (Some x))
  | step_within_abort X limit (k : option X -> prog St R A) :
      step st A (Within limit Abort k) [] st [] Abort
  | step_within_elapsed X limit (k : option X -> prog St R A) p :
      (forall x, p <> Ret x) ->
      step st A (Within limit p k) [] st [] (k None)
  | step_spawn p k :
      step st A (Spawn p k) [] st [p] (k n)
  | step_await h k r :
      ended_with fin h = Some r -> step st A (Await h k) [] st [] (k r)
  | step_loop X Y (body : X -> prog St R (X + Y)) k p evs st' new p' :
      step st (X + Y) p evs st' new p' ->
      step st A (Loop body p k) evs st' new (Loop body p' k)
  | step_loop_next X Y (body : X -> prog St R (X + Y)) k x :
      step st A (Loop body (Ret (inl x)) k) [] st [] (Loop body (body x) k)
  | step_loop_done X Y (body : X -> prog St R (X + Y)) k y :
      step st A (Loop body (Ret (inr y)) k) [] st [] (k y)
  | step_loop_abort X Y (body : X -> prog St R (X + Y)) k :
      step st A (Loop body Abort k) [] st [] Abort
  | step_tick d k :
      step st A (Tick d k) [] st [] k.

(** The steps of each program, by its head. *)
Lemma step_inv st A p evs st' new p' :
  step st A p evs st' new p' ->
  match p with
  | Ret _ | Abort => False
  | Draw k => evs = [] /\ st' = st /\ new = [] /\ exists x, p' = k x
  | Atomic l f k => evs = [] /\ new = [] /\ free fin l /\ exists c,
      (exists x, f c st = Done (st', x) /\ p' = k x) \/ (f c st = Panic /\ st' = st /\ p' = Abort)
  | Guard l f body k => evs = [] /\ new = [] /\ free fin l /\ exists c,
      (exists x, f c st = Done (st', x) /\ p' = Held l (body x) k) \/
      (f c st = Panic /\ st' = st /\ p' = Abort)
  | Held l q k =>
      (exists q', step st _ q evs st' new q' /\ p' = Held l q' k) \/
      (evs = [] /\ st' = st /\ new = [] /\
         ((exists y, q = Ret y /\ p' = k y) \/ (q = Abort /\ p' = Abort)))
  | Send to m k => st' = st /\ new = [] /\ exists r, evs = [Sent to m r] /\ p' = k r
  | Wait limit id inner k =>
      st' = st /\ new = [] /\ exists r ms, evs = [Waited limit id r] /\ p' = k r ms
  | Join ps k =>
      (exists l1 q l2 q', ps = l1 ++ q :: l2 /\ step st _ q evs st' new q' /\
         p' = Join (l1 ++ q' :: l2) k) \/
      (evs = [] /\ st' = st /\ new = [] /\
         ((exists xs, ps = map Ret xs /\ p' = k xs) \/
          (exists l1 l2, ps = l1 ++ Abort :: l2 /\ p' = Abort)))
  | Within limit q k =>
      (exists q', step st _ q evs st' new q' /\ p' = Within limit q' k) \/
      (evs = [] /\ st' = st /\ new = [] /\
         ((exists x, q = Ret x /\ p' = k (Some x)) \/ (q = Abort /\ p' = Abort) \/
          ((forall x, q <> Ret x) /\ p' = k None)))
  | Spawn q k => evs = [] /\ st' = st /\ new = [q] /\ p' = k n
  | Await h k => evs = [] /\ st' = st /\ new = [] /\ exists r, ended_with fin h = Some r /\ p' = k r
  | Loop body q k =>
      (exists q', step st _ q evs st' new q' /\ p' = Loop body q' k) \/
      (evs = [] /\ st' = st /\ new = [] /\
         ((exists x, q = Ret (inl x) /\ p' = Loop body (body x) k) \/
          (exists y, q = Ret (inr y) /\ p' = k y) \/ (q = Abort /\ p' = Abort)))
  | Tick d k => evs = [] /\ st' = st /\ new = [] /\ p' = k
  end.
Proof. destruct 1; naive_solver. Qed.

(** A step of [p ≫= f] is a step of [p], or of [f a] once [p] has returned [a]. *)
Lemma step_bind_inv {A B} (f : A -> prog St R B) st p evs st' new q :
  step st B (prog_bind f p) evs st' new q ->
  (exists a, p = Ret a /\ step st B (f a) evs st' new q) \/
  (exists p', step st A p evs st' new p' /\ q = prog_bind f p').
Proof.
  destruct p; cbn [prog_bind]; intros Hs; [left; by eexists| |..]; right;
    apply step_inv in Hs; try done.
  - destruct Hs as (-> & -> & -> & x & ->). eexists. split; [apply step_draw|done].
  - destruct Hs as (-> & -> & Hl & c & [(x & Hf & ->)|(Hf & -> & ->)]).
    + eexists. split; [by eapply step_atomic|done].
    + eexists. split; [by eapply step_panic|done].
  - destruct Hs as (-> & -> & Hl & c & [(x & Hf & ->)|(Hf & -> & ->)]).
    + eexists. split; [by eapply step_guard|done].
    + eexists. split; [by eapply step_guard_panic|done].
  - destruct Hs as [(r & Hr & ->)|(-> & -> & -> & [(x & -> & ->)|[-> ->]])].
    + eexists. split; [by apply step_held|done].
    + eexists. split; [apply step_held_done|done].
    + eexists. split; [apply step_held_abort|done].
  - destruct Hs as (-> & -> & r & -> & ->). eexists. split; [apply step_send|done].
  - destruct Hs as (-> & -> & r & ms & -> & ->). eexists. split; [apply step_wait|done].
  - destruct Hs as [(l1 & r & l2 & r' & -> & Hr & ->)
      |(-> & -> & -> & [(xs & -> & ->)|(l1 & l2 & -> & ->)])].
    + eexists. split; [by apply step_join|done].
    + eexists. split; [apply step_join_done|done].
    + eexists. split; [apply step_join_abort|done].
  - destruct Hs as [(r & Hr & ->)|(-> & -> & -> & [(x & -> & ->)|[[-> ->]|[Hne ->]]])].
    + eexists. split; [by apply step_within|done].
    + eexists. split; [apply step_within_done|done].
    + eexists. split; [apply step_within_abort|done].
    + eexists. split; [by apply step_within_elapsed|done].
  - destruct Hs as (-> & -> & -> & ->). eexists. split; [apply step_spawn|done].
  - destruct Hs as (-> & -> & -> & r & Hr & ->). eexists. split; [by apply step_await|done].
  - destruct Hs as [(r & Hr & ->)|(-> & -> & -> & [(x & -> & ->)|[(y & -> & ->)|[-> ->]]])].
    + eexists. split; [by apply step_loop|done].
    + eexists. split; [apply step_loop_next|done].
    + eexists. split; [apply step_loop_done|done].
    + eexists. split; [apply step_loop_abort|done].
  - destruct Hs as (-> & -> & -> & ->). eexists. split; [apply step_tick|done].
Qed.
End step.

(** More free locks allow more steps. *)
Lemma step_free {St R} n (fin fin' : Others R) st A (p : prog St R A) evs st' new p' :
  (forall h, ended_with fin h = ended_with fin' h) -> (forall l, free fin l -> free fin' l) ->
  step n fin st A p evs st' new p' -> step n fin' st A p evs st' new p'.
Proof.
  intros He Hf. induction 1; try by econstructor; eauto.
  apply step_await. congruence.
Qed.

Lemma holds_bind {St R A B} l (f : A -> prog St R B) p :
  (forall a, p <> Ret a) -> holds l (prog_bind f p) = holds l p.
Proof. destruct p; try done. intros Hp. by destruct (Hp a). Qed.

(** ** Runs of one task

    [solo st p tr st' q]: with no other task interfering, the task goes from
    [p] in state [st] to [q] in state [st'], performing the events [tr]. *)
Section solo.
Context {St R : Type}.

Definition alone {A} (p : prog St R A) : Others R :=
  MkOthers (fun _ => None) (fun l => holds l p = false).

Inductive solo {A} : St -> prog St R A -> list event -> St -> prog St R A -> Prop :=
  | solo_refl st p : solo st p [] st p
  | solo_step st p evs st1 p1 tr st2 p2 :
      step 0 (alone p) st A p evs st1 [] p1 -> solo st1 p1 tr st2 p2 ->
      solo st p (evs ++ tr) st2 p2.

(** The task returns [a]. *)
Definition returns_with {A} (st : St) (p : prog St R A) (tr : list event) (st' : St) (a : A) : Prop :=
  solo st p tr st' (Ret a).

Lemma solo_trans {A} st (p : prog St R A) tr st1 p1 tr' st2 p2 :
  solo st p tr st1 p1 -> solo st1 p1 tr' st2 p2 -> solo st p (tr ++ tr') st2 p2.
Proof.
  induction 1 as [|st p evs st0 p0 tr st1 p1 Hs _ IH]; intros H2; [done|].
  rewrite <-app_assoc. eapply solo_step; [done|auto].
Qed.

Lemma ret_inv {A} st (a b : A) tr st' :
  returns_with st (Ret a) tr st' b -> tr = [] /\ st' = st /\ b = a.
Proof.
  unfold returns_with. inversion 1 as [|? ? ? ? ? ? ? ? Hs]; subst; [done|].
  by apply step_inv in Hs.
Qed.

Lemma abort_inv {A} st tr st' (b : A) : returns_with st Abort tr st' b -> False.
Proof.
  unfold returns_with. inversion 1 as [|? ? ? ? ? ? ? ? Hs]; subst. by apply step_inv in Hs.
Qed.

(** The run of a sequence is a run of each part. *)
Lemma bind_inv {A B} (f : A -> prog St R B) st p tr st' b :
  returns_with st (p ≫= f) tr st' b ->
  exists tr1 tr2 st1 a, returns_with st p tr1 st1 a /\ returns_with st1 (f a) tr2 st' b /\
    tr = tr1 ++ tr2.
Proof.
  unfold returns_with, mbind, prog_mbind.
  remember (prog_bind f p) as q eqn:Hq. remember (Ret b) as e eqn:He.
  intros Hs. revert p Hq He.
  induction Hs as [st q|st q evs st1 q1 tr st2 q2 Hs Hrun IH]; intros p -> He.
  - destruct p; try done. cbn in He. exists [], [], st, a. cbn. rewrite He.
    split_and!; [apply solo_refl..|done].
  - subst q2. apply step_bind_inv in Hs as [(a & -> & Hs)|(p' & Hs & ->)].
    + exists [], (evs ++ tr), st, a. split_and!; [apply solo_refl| |done].
      by eapply solo_step.
    + destruct (IH p' eq_refl eq_refl) as (tr1 & tr2 & st3 & a & H1 & H2 & ->).
      exists (evs ++ tr1), tr2, st3, a. split_and!; [|done|by rewrite app_assoc].
      eapply solo_step; [|done]. eapply step_free; [| |exact Hs]; [done|]. cbn. intros l.
      rewrite holds_bind; [done|]. intros a' ->. by apply step_inv in Hs.
Qed.

(** One action followed by the rest. *)
Lemma action_inv {A} st (p : prog St R A) tr st' b :
  returns_with st p tr st' b ->
  (p = Ret b /\ tr = [] /\ st' = st) \/
  exists evs st1 p1 tr', step 0 (alone p) st A p evs st1 [] p1 /\
    returns_with st1 p1 tr' st' b /\ tr = evs ++ tr'.
Proof. unfold returns_with. inversion 1; subst; eauto 10. Qed.

Lemma draw_inv {X} st tr st' (x : X) :
  returns_with st (draw X) tr st' x -> tr = [] /\ st' = st.
Proof.
  intros [[? _]|(evs & st1 & p1 & tr' & Hs & Hr & ->)]%action_inv; [done|].
  apply step_inv in Hs as (-> & -> & _ & y & ->). by apply ret_inv in Hr as (-> & -> & _).
Qed.

Lemma atomic_inv {X} l (f : Clock -> St -> exec (St * X)) st tr st' x :
  returns_with st (atomic l f) tr st' x -> tr = [] /\ exists c, f c st = Done (st', x).
Proof.
  intros [[? _]|(evs & st1 & p1 & tr' & Hs & Hr & ->)]%action_inv; [done|].
  apply step_inv in Hs as (-> & _ & _ & c & [(y & Hf & ->)|(Hf & -> & ->)]).
  - apply ret_inv in Hr as (-> & -> & ->). eauto.
  - by apply abort_inv in Hr.
Qed.

Lemma reading_inv {X} l (f : St -> exec X) st tr st' x :
  returns_with st (reading l f) tr st' x -> tr = [] /\ st' = st /\ f st = Done x.
Proof.
  intros [-> [c Hf]]%atomic_inv. apply exec_bind_inv in Hf as (y & Hy & Hf).
  by injection Hf as <- <-.
Qed.

(** A guard's program runs with the lock held. *)
Lemma held_inv {Y} l (q : prog St R Y) st tr st' y :
  returns_with st (Held l q Ret) tr st' y -> returns_with st q tr st' y.
Proof.
  unfold returns_with. remember (Held l q Ret) as p eqn:Hp. remember (Ret y) as e eqn:He.
  intros Hs. revert q Hp He. induction Hs as [st p|st p evs st1 p1 tr st2 p2 Hs Hrun IH]; intros q -> He;
    [done|]. subst p2.
  apply step_inv in Hs as [(q' & Hq & ->)|(-> & -> & _ & [(z & -> & ->)|[-> ->]])].
  - eapply solo_step; [|by apply IH]. eapply step_free; [| |exact Hq]; [done|].
    cbn. intros l'. by intros [_ ?]%orb_false_iff.
  - by inversion Hrun as [|? ? ? ? ? ? ? ? Hs]; subst; [apply solo_refl|apply step_inv in Hs].
  - inversion Hrun as [|? ? ? ? ? ? ? ? Hs]; subst. by apply step_inv in Hs.
Qed.

Lemma guarded_inv {X Y} l (f : Clock -> St -> exec (St * X)) (body : X -> prog St R Y) st tr st' y :
  returns_with st (guarded l f body) tr st' y ->
  exists c st1 x, f c st = Done (st1, x) /\ returns_with st1 (body x) tr st' y.
Proof.
  intros [[? _]|(evs & st1 & p1 & tr' & Hs & Hr & ->)]%action_inv; [done|].
  apply step_inv in Hs as (-> & _ & _ & c & [(x & Hf & ->)|(Hf & -> & ->)]).
  - apply held_inv in Hr. by exists c, st1, x.
  - by apply abort_inv in Hr.
Qed.

Lemma send_inv to m st tr st' r :
  returns_with st (send to m) tr st' r -> tr = [Sent to m r] /\ st' = st.
Proof.
  intros [[? _]|(evs & st1 & p1 & tr' & Hs & Hr & ->)]%action_inv; [done|].
  apply step_inv in Hs as (-> & _ & y & -> & ->). by apply ret_inv in Hr as (-> & -> & ->).
Qed.

Lemma wait_inv limit id inner st tr st' r :
  returns_with st (wait limit id inner) tr st' r -> tr = [Waited limit id r.1] /\ st' = st.
Proof.
  intros [[? _]|(evs & st1 & p1 & tr' & Hs & Hr & ->)]%action_inv; [done|].
  apply step_inv in Hs as (-> & _ & y & ms & -> & ->). by apply ret_inv in Hr as (-> & -> & ->).
Qed.

Lemma bind_ok_inv {A B} (f : A -> prog St R (Result B)) st p tr st' b :
  returns_with st (bind_ok f p) tr st' b ->
  exists tr1 tr2 st1 r, returns_with st p tr1 st1 r /\ tr = tr1 ++ tr2 /\
    match r with
    | Ok a => returns_with st1 (f a) tr2 st' b
    | Err e => tr2 = [] /\ st' = st1 /\ b = Err e
    end.
Proof.
  intros (tr1 & tr2 & st1 & r & H1 & H2 & ->)%bind_inv.
  exists tr1, tr2, st1, r. split_and!; [done..|].
  destruct r; [done|]. by apply ret_inv in H2.
Qed.

(** A [for] loop runs its body on each element in order, from state to state. *)
Inductive runs {X} (body : X -> prog St R unit) : list X -> list (list event) -> St -> St -> Prop :=
  | runs_nil st : runs body [] [] st st
  | runs_cons x l st tr st1 trs st2 :
      returns_with st (body x) tr st1 tt -> runs body l trs st1 st2 ->
      runs body (x :: l) (tr :: trs) st st2.

Lemma for_each_inv {X} (l : list X) (body : X -> prog St R unit) st tr st' u :
  returns_with st (for_each l body) tr st' u ->
  exists trs, tr = concat trs /\ runs body l trs st st'.
Proof.
  revert st tr. induction l as [|x l IH]; intros st tr; cbn [for_each].
  - intros (-> & -> & _)%ret_inv. exists []. split; [done|constructor].
  - intros (tr1 & tr2 & st1 & [] & H1 & (trs & -> & H2)%IH & ->)%bind_inv.
    exists (tr1 :: trs). split; [done|]. by econstructor.
Qed.
End solo.

(** ** A task among others

    [amid p l q]: a task goes from [p] to [q] by the steps [l]. Each is recorded
    with what it saw and did; between them the other tasks change the state and
    the pool as they like. *)
Section amid.
Context {St R : Type}.

Record OwnStep := MkOwnStep {
  pool_size : nat;
  seen_others : Others R;
  before : St;
  events : list event;
  after : St;
  spawned : list (prog St R R)
}.

Inductive amid {A} : prog St R A -> list OwnStep -> prog St R A -> Prop :=
  | amid_refl p : amid p [] p
  | amid_step p n fin st evs st' new p1 l p2 :
      step n fin st A p evs st' new p1 -> amid p1 l p2 ->
      amid p (MkOwnStep n fin st evs st' new :: l) p2.

(** The task returns [a]. *)
Definition amid_returns {A} (p : prog St R A) (l : list OwnStep) (a : A) : Prop := amid p l (Ret a).

Lemma amid_ret {A} (a b : A) l : amid_returns (Ret a) l b -> l = [] /\ b = a.
Proof.
  unfold amid_returns. inversion 1 as [|? ? ? ? ? ? ? ? ? ? Hs]; subst; [done|]. by apply step_inv in Hs.
Qed.

Lemma amid_bind {A B} (f : A -> prog St R B) p l b :
  amid_returns (p ≫= f) l b ->
  exists l1 l2 a, amid_returns p l1 a /\ amid_returns (f a) l2 b /\ l = l1 ++ l2.
Proof.
  unfold amid_returns, mbind, prog_mbind.
  remember (prog_bind f p) as q eqn:Hq. remember (Ret b) as e eqn:He. intros Hs. revert p Hq He.
  induction Hs as [q|q n fin st evs st' new q1 l q2 Hs Hrun IH]; intros p -> He.
  - destruct p; try done. exists [], [], a. cbn. split_and!; [apply amid_refl..|done].
  - subst q2. apply step_bind_inv in Hs as [(a & -> & Hs)|(p' & Hs & ->)].
    + exists [], (MkOwnStep n fin st evs st' new :: l), a. split_and!; [apply amid_refl| |done].
      by eapply amid_step.
    + destruct (IH p' eq_refl eq_refl) as (l1 & l2 & a & H1 & H2 & ->).
      exists (MkOwnStep n fin st evs st' new :: l1), l2, a. split_and!; [by eapply amid_step|done..].
Qed.

Lemma amid_bind_ok {A B} (f : A -> prog St R (Result B)) p l b :
  amid_returns (bind_ok f p) l b ->
  (exists e, amid_returns p l (Err e) /\ b = Err e) \/
  exists l1 l2 a, amid_returns p l1 (Ok a) /\ amid_returns (f a) l2 b /\ l = l1 ++ l2.
Proof.
  intros (l1 & l2 & [a|e] & H1 & H2 & ->)%amid_bind; [right; by exists l1, l2, a|left].
  apply amid_ret in H2 as [-> ->]. rewrite app_nil_r. by exists e.
Qed.

(** Under a timeout: the program returns, or its deadline passes before. *)
Lemma amid_within {X} limit (p : prog St R X) l x :
  amid_returns (within limit p) l x ->
  exists l1 last q, l = l1 ++ [last] /\ amid p l1 q /\
    match x with Some a => q = Ret a | None => forall a, q <> Ret a end.
Proof.
  unfold amid_returns, within. remember (Within limit p Ret) as q eqn:Hq. remember (Ret x) as e eqn:He.
  intros Hs. revert p Hq He. induction Hs as [q|q n fin st evs st' new q1 l q2 Hs Hrun IH];
    intros p -> He; [done|]. subst q2.
  apply step_inv in Hs as [(p' & Hp & ->)|(-> & -> & -> & [(y & -> & ->)|[[-> ->]|[Hne ->]]])].
  - destruct (IH p' eq_refl eq_refl) as (l1 & last & q & -> & Hq & Hx).
    exists (MkOwnStep n fin st evs st' new :: l1), last, q. split_and!; [done|by eapply amid_step|done].
  - apply amid_ret in Hrun as [-> ->]. exists [], (MkOwnStep n fin st [] st []), (Ret y).
    split_and!; [done|apply amid_refl|done].
  - inversion Hrun as [|? ? ? ? ? ? ? ? ? ? Hs]; subst. by apply step_inv in Hs.
  - apply amid_ret in Hrun as [-> ->]. exists [], (MkOwnStep n fin st [] st []), p.
    split_and!; [done|apply amid_refl|done].
Qed.

End amid.

(** ** What every action of a program does

    [guards I G E p]: in states satisfying the invariant [I], every lock
    section [p] can reach, with whatever answers, keeps [I] and changes the
    state within [G], every event satisfies [E], and so do the tasks it
    spawns. *)
Section guards.
Context {St R : Type} (I : St -> Prop) (G : St -> St -> Prop) (E : event -> Prop).

Fixpoint guards {A} (p : prog St R A) : Prop :=
  match p with
  | Ret _ | Abort => True
  | Draw k => forall x, guards (k x)
  | Atomic _ f k =>
      forall c st st' x, I st -> f c st = Done (st', x) -> I st' /\ G st st' /\ guards (k x)
  | Guard _ f body k =>
      (forall c st st' x, I st -> f c st = Done (st', x) -> I st' /\ G st st' /\ guards (body x)) /\
      forall y, guards (k y)
  | Held _ q k => guards q /\ forall y, guards (k y)
  | Send to m k => forall r, E (Sent to m r) /\ guards (k r)
  | Wait limit id inner k => forall r ms, E (Waited limit id r) /\ guards (k r ms)
  | Join ps k =>
      (fix all (ps : list (prog St R _)) : Prop :=
         match ps with [] => True | q :: ps' => guards q /\ all ps' end) ps /\
      forall xs, guards (k xs)
  | Within _ q k => guards q /\ forall x, guards (k x)
  | Spawn q k => guards q /\ forall h, guards (k h)
  | Await h k => forall r, guards (k r)
  | Loop body q k => (forall x, guards (body x)) /\ guards q /\ forall y, guards (k y)
  | Tick _ k => guards k
  end.

Lemma guards_join {X A} (ps : list (prog St R X)) (k : list X -> prog St R A) :
  guards (Join ps k) <-> Forall guards ps /\ forall xs, guards (k xs).
Proof.
  cbn. apply and_iff_compat_r. induction ps as [|q ps IH]; [done|].
  by rewrite Forall_cons, IH.
Qed.

Lemma guards_bind {A B} (f : A -> prog St R B) p :
  guards p -> (forall a, guards (f a)) -> guards (p ≫= f).
Proof.
  intros Hp Hf. induction p; cbn in *; naive_solver.
Qed.

Lemma guards_bind_ok {A B} (f : A -> prog St R (Result B)) p :
  guards p -> (forall a, guards (f a)) -> guards (bind_ok f p).
Proof. intros Hp Hf. apply guards_bind; [done|]. intros [a|e]; [apply Hf|done]. Qed.

(** A lock section whose result matters for the rest. *)
Lemma guards_atomic {X} l (f : Clock -> St -> exec (St * X)) :
  (forall c st st' x, I st -> f c st = Done (st', x) -> I st' /\ G st st') -> guards (atomic l f).
Proof. intros Hf c st st' x HI Hc. destruct (Hf c st st' x HI Hc). by split_and!. Qed.

Lemma guards_guarded {X Y} l (f : Clock -> St -> exec (St * X)) (body : X -> prog St R Y) :
  guards (atomic l f) -> (forall x, guards (body x)) -> guards (guarded l f body).
Proof. intros Hf Hb. split; [|done]. intros c st st' x HI Hc. destruct (Hf c st st' x HI Hc). naive_solver. Qed.

Lemma guards_bind_atomic {X B} l (f : Clock -> St -> exec (St * X)) (k : X -> prog St R B) :
  (forall c st st' x, I st -> f c st = Done (st', x) -> I st' /\ G st st' /\ guards (k x)) ->
  guards (atomic l f ≫= k).
Proof. done. Qed.

Lemma guards_bind_reading {X B} l (f : St -> exec X) (k : X -> prog St R B) :
  (forall s, G s s) -> (forall st x, I st -> f st = Done x -> guards (k x)) ->
  guards (reading l f ≫= k).
Proof.
  intros HG Hk c st st' x HI (y & Hy & [= <- <-])%exec_bind_inv. split_and!; eauto.
Qed.

Lemma guards_reading {X} l (f : St -> exec X) :
  (forall s, G s s) -> guards (reading l f).
Proof.
  intros HG c st st' x HI (y & Hy & [= <- <-])%exec_bind_inv. split_and!; eauto. done.
Qed.

Lemma guards_for_each {X} (l : list X) body :
  (forall x, x ∈ l -> guards (body x)) -> guards (for_each l body).
Proof.
  induction l as [|x l IH]; cbn; [done|]. intros Hb.
  apply guards_bind; [apply Hb; by left|]. intros _. apply IH. intros y Hy. apply Hb. by right.
Qed.

Lemma step_guards n fin st A (p : prog St R A) evs st' new p' :
  (forall s, G s s) -> I st ->
  step n fin st A p evs st' new p' -> guards p ->
  I st' /\ G st st' /\ Forall E evs /\ Forall guards new /\ guards p'.
Proof.
  intros HG HI. induction 1; try rewrite !guards_join; cbn; intros Hp.
  all: try (rewrite ?Forall_app, ?Forall_cons in *; naive_solver).
Qed.
End guards.

(** A run of one task keeps what its actions guarantee. *)
Lemma solo_guards {St R A} (I : St -> Prop) (G : St -> St -> Prop) (E : event -> Prop)
    st (p : prog St R A) tr st' q :
  (forall s, G s s) -> (forall s1 s2 s3, G s1 s2 -> G s2 s3 -> G s1 s3) ->
  solo st p tr st' q -> I st -> guards I G E p -> I st' /\ G st st' /\ Forall E tr.
Proof.
  intros Hrefl Htrans. induction 1 as [|st p evs st1 p1 tr st2 p2 Hs _ IH]; intros HI Hp; [auto|].
  destruct (step_guards I G E _ _ _ _ _ _ _ _ _ Hrefl HI Hs Hp) as (HI1 & HG & HE & _ & Hp1).
  destruct (IH HI1 Hp1) as (HI2 & HG2 & HE2). split_and!; [done|eauto|by apply Forall_app].
Qed.

(** ** The tasks of one node

    A node is the shared state and the pool of its tasks; at any time a task
    makes a step or a new operation among those allowed starts. *)
Section node.
Context {St R : Type} (op : prog St R R -> Prop).

Record node := MkNode { shared : St; tasks : list (prog St R R) }.

Definition finished (ts : list (prog St R R)) (h : nat) : option (option R) :=
  match ts !! h with
  | Some (Ret r) => Some (Some r)
  | Some Abort => Some None
  | _ => None
  end.

(** What the tasks of a pool see of each other. *)
Definition others (ts : list (prog St R R)) : Others R :=
  MkOthers (finished ts) (fun l => Forall (fun p => holds l p = false) ts).

Inductive node_step (n : node) : list event -> node -> Prop :=
  | node_task i p evs st' new p' :
      tasks n !! i = Some p ->
      step (length (tasks n)) (others (tasks n)) (shared n) R p evs st' new p' ->
      node_step n evs (MkNode st' (<[i := p']> (tasks n) ++ new))
  | node_start p :
      op p -> node_step n [] (MkNode (shared n) (tasks n ++ [p])).

Inductive node_run (n : node) : list event -> node -> Prop :=
  | node_run_refl : node_run n [] n
  | node_run_step evs n1 tr n2 :
      node_step n evs n1 -> node_run n1 tr n2 -> node_run n (evs ++ tr) n2.

Context (I : St -> Prop) (G : St -> St -> Prop) (E : event -> Prop).
Hypothesis (G_refl : forall s, G s s).
Hypothesis (G_trans : forall s1 s2 s3, G s1 s2 -> G s2 s3 -> G s1 s3).
Hypothesis (op_guards : forall p, op p -> guards I G E p).

(** What every allowed operation guarantees holds of every interleaving. *)
Lemma node_run_guards n tr n' :
  node_run n tr n' -> I (shared n) -> Forall (guards I G E) (tasks n) ->
  I (shared n') /\ G (shared n) (shared n') /\ Forall E tr /\ Forall (guards I G E) (tasks n').
Proof using G_refl G_trans op_guards.
  induction 1 as [n|n evs n1 tr n2 Hs _ IH]; intros HI Hn; [auto|].
  assert (I (shared n1) /\ G (shared n) (shared n1) /\ Forall E evs /\
          Forall (guards I G E) (tasks n1)) as (H0 & H1 & H2 & H3).
  { destruct Hs as [i p evs st' new p' Hi Hs|p Hp]; cbn.
    - pose proof Hn as Hn'. rewrite Forall_forall in Hn'.
      assert (guards I G E p) as Hgp by (eapply Hn', list_elem_of_lookup_2, Hi).
      destruct (step_guards I G E _ _ _ _ _ _ _ _ _ G_refl HI Hs Hgp) as (? & ? & ? & ? & ?).
      split_and!; [done..|]. apply Forall_app. split; [|done]. by apply Forall_insert.
    - split_and!; [done..|]. apply Forall_app. split; [done|]. repeat constructor. auto. }
  destruct (IH H0 H3) as (? & ? & ? & ?). split_and!; [done|eauto|by apply Forall_app|done].
Qed.
End node.
Arguments MkNode {St R} shared tasks.
Arguments shared {St R} n.
Arguments tasks {St R} n.

(** ** Termination

    [terminates p]: no infinite sequence of steps of [p], whatever the states
    it runs in, the answers it gets and the order its parts run in. *)
Section termination.
Context {St R : Type}.

Definition can_step {A} (q p : prog St R A) : Prop :=
  exists n fin st evs st' new, step n fin st A p evs st' new q.
Definition terminates {A} (p : prog St R A) : Prop := Acc can_step p.

Lemma terminates_Ret {A} (a : A) : terminates (Ret a).
Proof. constructor. intros q (? & ? & ? & ? & ? & ? & []%step_inv). Qed.
Lemma terminates_Abort {A} : terminates (@Abort St R A).
Proof. constructor. intros q (? & ? & ? & ? & ? & ? & []%step_inv). Qed.

(** A program whose parts terminate. *)
Lemma terminates_join {X A} (k : list X -> prog St R A) ps :
  (forall xs, terminates (k xs)) -> Forall terminates ps -> terminates (Join ps k).
Proof.
  intros Hk. (* well-founded induction on the list, one component at a time *)
  assert (forall m (qs : list (prog St R X)), length qs = m -> Forall terminates qs ->
    Acc (fun qs' qs => exists l1 q l2 q', qs = l1 ++ q :: l2 /\ qs' = l1 ++ q' :: l2 /\
           can_step q' q) qs) as Hlist.
  { clear ps. intros m qs _. induction 1 as [|q qs Hq Hqs IH].
    - constructor. intros qs' (l1 & q & l2 & q' & E & _). by destruct l1.
    - induction Hq as [q Hq IHq] in qs, Hqs, IH |- *. clear Hq.
      induction IH as [qs Hqs' IHqs]. constructor.
      intros qs' (l1 & r & l2 & r' & E & -> & Hr).
      destruct l1 as [|s l1]; cbn in E; injection E as <- E.
      + subst l2. cbn. apply IHq; [done|done|]. by constructor.
      + cbn. apply IHqs.
        * exists l1, r, l2, r'. done.
        * subst qs. rewrite Forall_app, Forall_cons in *. destruct Hqs as (H1 & H2 & H3).
          split_and!; [done| |done]. by inversion H2 as [Hacc]; apply Hacc. }
  intros Hps. specialize (Hlist _ ps eq_refl Hps). induction Hlist as [ps _ IH].
  constructor. intros p' (n & fin & st & evs & st' & new & Hs).
  apply step_inv in Hs as [(l1 & q & l2 & q' & -> & Hq & ->)
    |(_ & _ & _ & [(xs & _ & ->)|(l1 & l2 & _ & ->)])].
  - assert (can_step q' q) as Hstep by (repeat eexists; done).
    apply IH; [by exists l1, q, l2, q'|].
    rewrite Forall_app, Forall_cons in *. destruct Hps as (H1 & H2 & H3).
    split_and!; [done| |done]. by inversion H2 as [Hacc]; apply Hacc.
  - apply Hk.
  - apply terminates_Abort.
Qed.

Lemma terminates_within {X A} limit (k : option X -> prog St R A) p :
  (forall x, terminates (k x)) -> terminates p -> terminates (Within limit p k).
Proof.
  intros Hk. induction 1 as [p _ IH]. constructor.
  intros q (n & fin & st & evs & st' & new & Hs).
  apply step_inv in Hs as [(q' & Hq & ->)|(_ & _ & _ & [(x & _ & ->)|[[_ ->]|[_ ->]]])];
    [|apply Hk|apply terminates_Abort|apply Hk].
  apply IH. repeat eexists; done.
Qed.

(** What a program can return, in any states and with any answers. *)
Definition steps_to {A} : prog St R A -> prog St R A -> Prop := rtc (fun p q => can_step q p).
Definition may_return {A} (p : prog St R A) (a : A) : Prop := steps_to p (Ret a).

Lemma may_return_Ret {A} (a b : A) : may_return (Ret a) b -> b = a.
Proof.
  unfold may_return, steps_to. inversion 1 as [|? ? ? Hs]; subst; [done|].
  by destruct Hs as (? & ? & ? & ? & ? & ? & []%step_inv).
Qed.

Lemma may_return_bind {A B} (f : A -> prog St R B) p b :
  may_return (p ≫= f) b -> exists a, may_return p a /\ may_return (f a) b.
Proof.
  unfold may_return, mbind, prog_mbind.
  remember (prog_bind f p) as q eqn:Hq. remember (Ret b) as e eqn:He.
  intros Hs. revert p Hq He. induction Hs as [q|q q1 q2 Hs Hrun IH]; intros p -> He.
  - destruct p; try done. exists a. split; [apply rtc_refl|]. apply rtc_refl.
  - subst q2. pose proof Hs as (n & fin & st & evs & st' & new & Hs').
    apply step_bind_inv in Hs' as [(a & -> & _)|(p' & Hs' & ->)].
    + exists a. split; [apply rtc_refl|]. by eapply rtc_l.
    + destruct (IH p' eq_refl eq_refl) as (a & Ha & Hb). exists a. split; [|done].
      eapply rtc_l; [|done]. repeat eexists; done.
Qed.

Lemma may_return_action {A} (p : prog St R A) b :
  may_return p b -> p = Ret b \/ exists q, can_step q p /\ may_return q b.
Proof. unfold may_return, steps_to. inversion 1; subst; eauto. Qed.

Lemma terminates_bind {A B} (f : A -> prog St R B) p :
  terminates p -> (forall a, may_return p a -> terminates (f a)) -> terminates (p ≫= f).
Proof.
  intros Hp Hf. unfold mbind, prog_mbind. induction Hp as [p Hp IH]. constructor.
  intros q (n & fin & st & evs & st' & new & Hs).
  apply step_bind_inv in Hs as [(a & -> & Hs)|(p' & Hs & ->)].
  - assert (terminates (f a)) as [Hacc] by (apply Hf, rtc_refl). apply Hacc.
    repeat eexists; done.
  - assert (can_step p' p) as Hstep by (repeat eexists; done).
    apply IH; [done|]. intros a Ha. apply Hf. eapply rtc_l; done.
Qed.

(** A loop whose iterations terminate, keep an invariant and decrease a measure. *)
Lemma terminates_loop {X Y A} (body : X -> prog St R (X + Y)) (k : Y -> prog St R A)
    (P : X -> Prop) (lt : X -> X -> Prop) x :
  (forall y, terminates (k y)) ->
  (forall x, terminates (body x)) ->
  (forall x x', P x -> may_return (body x) (inl x') -> P x' /\ lt x' x) ->
  P x -> Acc lt x -> terminates (Loop body (body x) k).
Proof.
  intros Hk Hbody Hlt HP Hacc. revert HP. induction Hacc as [x _ IH]. intros HP.
  assert (forall p, terminates p -> steps_to (body x) p -> terminates (Loop body p k)) as Hgen;
    [|apply Hgen; [apply Hbody|apply rtc_refl]].
  induction 1 as [p _ IHp]. intros Hp. constructor.
  intros q (n & fin & st & evs & st' & new & Hs).
  apply step_inv in Hs as [(q' & Hq & ->)
    |(_ & _ & _ & [(x' & -> & ->)|[(y & _ & ->)|[_ ->]]])].
  - assert (can_step q' p) as Hstep by (repeat eexists; done).
    apply IHp; [done|]. by eapply rtc_r.
  - destruct (Hlt x x' HP Hp). by apply IH.
  - apply Hk.
  - apply terminates_Abort.
Qed.

(** What a loop can return, by an invariant of its iterations. *)
Lemma may_return_loop {X Y} (body : X -> prog St R (X + Y)) (P : X -> Prop) (Q : Y -> Prop) x y :
  (forall x x', P x -> may_return (body x) (inl x') -> P x') ->
  (forall x y, P x -> may_return (body x) (inr y) -> Q y) ->
  P x -> may_return (loop body x) y -> Q y.
Proof.
  intros Hnext Hdone HP. unfold loop, may_return.
  assert (steps_to (body x) (body x)) as Hreach by apply rtc_refl.
  revert HP Hreach. generalize (body x) at 2 3 as p. intros p HP Hreach Hs.
  remember (Loop body p Ret) as q eqn:Hq. remember (Ret y) as e eqn:He.
  revert x p HP Hreach Hq He. induction Hs as [q|q q1 q2 Hs Hrun IH]; intros x p HP Hreach -> He;
    [done|].
  destruct Hs as (n & fin & st & evs & st' & new & Hs).
  apply step_inv in Hs as [(p' & Hp & ->)
    |(_ & _ & _ & [(x' & -> & ->)|[(z & -> & ->)|[_ ->]]])].
  - eapply (IH x p'); [done| |done..]. eapply rtc_r; [exact Hreach|]. repeat eexists; done.
  - eapply (IH x' (body x')); [by eapply Hnext|apply rtc_refl|done..].
  - subst q2. apply may_return_Ret in Hrun as ->. by eapply Hdone.
  - subst q2. inversion Hrun as [|? ? ? Hs]; subst.
    by destruct Hs as (? & ? & ? & ? & ? & ? & []%step_inv).
Qed.

Lemma amid_may_return {A} (p : prog St R A) l a : amid_returns p l a -> may_return p a.
Proof.
  unfold amid_returns, may_return. induction 1 as [|p n fin st evs st' new p1 l p2 Hs _ IH];
    [apply rtc_refl|]. eapply rtc_l; [|exact IH]. repeat eexists; done.
Qed.

Lemma returns_may_return {A} st (p : prog St R A) tr st' a :
  returns_with st p tr st' a -> may_return p a.
Proof.
  unfold returns_with, may_return. induction 1 as [|st p evs st1 p1 tr st2 p2 Hs _ IH];
    [apply rtc_refl|]. eapply rtc_l; [|exact IH]. repeat eexists; done.
Qed.

Lemma may_return_atomic {X} l (f : Clock -> St -> exec (St * X)) x :
  may_return (atomic l f) x -> exists c st st', f c st = Done (st', x).
Proof.
  intros [?|(q & (n & fin & st & evs & st' & new & Hs) & Hr)]%may_return_action; [done|].
  apply step_inv in Hs as (_ & _ & _ & c & [(y & Hf & ->)|(Hf & _ & ->)]).
  - apply may_return_Ret in Hr as ->. eauto.
  - inversion Hr as [|? ? ? Hs]; subst.
    by destruct Hs as (? & ? & ? & ? & ? & ? & []%step_inv).
Qed.

Lemma may_return_reading {X} l (f : St -> exec X) x :
  may_return (reading l f) x -> exists st, f st = Done x.
Proof.
  intros (c & st & st' & Hf)%may_return_atomic.
  apply exec_bind_inv in Hf as (y & Hy & [= <- <-]). eauto.
Qed.

(** The single actions terminate. *)
Ltac one_step :=
  constructor; intros ? (? & ? & ? & ? & ? & ? & Hs); apply step_inv in Hs; naive_solver.

Lemma terminates_draw {X A} (k : X -> prog St R A) :
  (forall x, terminates (k x)) -> terminates (Draw k).
Proof. intros Hk. one_step. Qed.
Lemma terminates_atomic {X A} l f (k : X -> prog St R A) :
  (forall x, terminates (k x)) -> terminates (Atomic l f k).
Proof. intros Hk. pose proof (@terminates_Abort A). one_step. Qed.
Lemma terminates_held {Y A} l (k : Y -> prog St R A) p :
  (forall y, terminates (k y)) -> terminates p -> terminates (Held l p k).
Proof.
  intros Hk. induction 1 as [p _ IH]. constructor.
  intros q (n & fin & st & evs & st' & new & Hs).
  apply step_inv in Hs as [(q' & Hq & ->)|(_ & _ & _ & [(y & _ & ->)|[_ ->]])];
    [|apply Hk|apply terminates_Abort].
  apply IH. repeat eexists; done.
Qed.
Lemma terminates_guard {X Y A} l f (body : X -> prog St R Y) (k : Y -> prog St R A) :
  (forall x, terminates (body x)) -> (forall y, terminates (k y)) -> terminates (Guard l f body k).
Proof.
  intros Hb Hk. pose proof (@terminates_Abort A).
  assert (forall x, terminates (Held l (body x) k)) by (intros x; by apply terminates_held). one_step.
Qed.
Lemma terminates_send {A} to m (k : Result unit -> prog St R A) :
  (forall x, terminates (k x)) -> terminates (Send to m k).
Proof. intros Hk. one_step. Qed.
Lemma terminates_wait {A} limit id inner (k : _ -> _ -> prog St R A) :
  (forall x ms, terminates (k x ms)) -> terminates (Wait limit id inner k).
Proof. intros Hk. one_step. Qed.
Lemma terminates_spawn {A} p (k : nat -> prog St R A) :
  (forall x, terminates (k x)) -> terminates (Spawn p k).
Proof. intros Hk. one_step. Qed.
Lemma terminates_await {A} h (k : _ -> prog St R A) :
  (forall x, terminates (k x)) -> terminates (Await h k).
Proof. intros Hk. one_step. Qed.
End termination.
#[export] Hint Resolve terminates_Ret terminates_Abort terminates_draw terminates_atomic
  terminates_guard terminates_held terminates_send terminates_wait terminates_within terminates_spawn terminates_await : kad.

(** [loop_free p]: [p] has no [Loop]; such a program terminates. *)
Section loop_free.
Context {St R : Type}.
Fixpoint loop_free {A} (p : prog St R A) : Prop :=
  match p with
  | Ret _ | Abort => True
  | Draw k => forall x, loop_free (k x)
  | Atomic _ f k => forall x, loop_free (k x)
  | Guard _ _ body k => (forall x, loop_free (body x)) /\ forall y, loop_free (k y)
  | Held _ q k => loop_free q /\ forall y, loop_free (k y)
  | Send _ _ k => forall r, loop_free (k r)
  | Wait _ _ _ k => forall r ms, loop_free (k r ms)
  | Join ps k =>
      (fix all (ps : list (prog St R _)) : Prop :=
         match ps with [] => True | q :: ps' => loop_free q /\ all ps' end) ps /\
      forall xs, loop_free (k xs)
  | Within _ q k => loop_free q /\ forall x, loop_free (k x)
  | Spawn _ k => forall h, loop_free (k h)
  | Await h k => forall r, loop_free (k r)
  | Loop _ _ _ => False
  | Tick _ k => loop_free k
  end.

Fixpoint loop_free_terminates {A} (p : prog St R A) : loop_free p -> terminates p.
Proof.
  destruct p; cbn; intros Hp.
  - apply terminates_Ret.
  - apply terminates_Abort.
  - apply terminates_draw. intros x. apply loop_free_terminates, Hp.
  - apply terminates_atomic. intros x. apply loop_free_terminates, Hp.
  - apply terminates_guard; intros x; apply loop_free_terminates, Hp.
  - apply terminates_held; [intros x|]; apply loop_free_terminates, Hp.
  - apply terminates_send. intros x. apply loop_free_terminates, Hp.
  - apply terminates_wait. intros x ms. apply loop_free_terminates, Hp.
  - apply terminates_join.
    + intros xs. apply loop_free_terminates, Hp.
    + destruct Hp as [Hps _]. induction ps as [|q ps IH]; constructor.
      * apply loop_free_terminates, Hps.
      * apply IH, Hps.
  - apply terminates_within; [intros x|]; apply loop_free_terminates, Hp.
  - apply terminates_spawn. intros x. apply loop_free_terminates, Hp.
  - apply terminates_await. intros x. apply loop_free_terminates, Hp.
  - done.
  - constructor. intros q (n & fin & st & evs & st' & new & (_ & _ & _ & ->)%step_inv).
    by apply loop_free_terminates.
Qed.

Lemma loop_free_bind {A B} (f : A -> prog St R B) p :
  loop_free p -> (forall a, loop_free (f a)) -> loop_free (p ≫= f).
Proof. intros Hp Hf. induction p; cbn in *; naive_solver. Qed.
End loop_free.

(** Proves that a lock is free when no program of a concrete pool holds it. *)
Ltac lock_free :=
  first [ reflexivity
        | unfold free, others; cbn [tasks]; repeat (apply Forall_cons; split; [reflexivity|]);
          apply Forall_nil; exact I ].
