(* ===== verification/Protocol.v ===== *)
(** * The protocol (src/src/protocol/operation.rs)

    [Shared] is what the [Arc]s of a [Protocol] point to; each function is a
    program of [Effects] over it, each lock section one [atomic] action of its lock.  The
    storage is any implementation of the trait, the network answers as it
    likes.  The calls to [tracing] are left out. *)

From S2P Require Import Prelude Errors Bytes Ident F64 Contact Bucket Table Store.
From S2P Require Import Messages Effects.

Definition ALPHA : nat := 5.
Definition RPC_TIMEOUT : Duration := from_secs 30.

Record Shared (S : Type) := MkShared {
  routing_table : RoutingTable;
  storage : S;
  pending_requests : gmap MessageId RequestMessage
}.
Arguments MkShared {S} routing_table storage pending_requests.
Arguments routing_table {S} s.
Arguments storage {S} s.
Arguments pending_requests {S} s.

Section setters.
Context {S : Type}.
Definition set_table (t : RoutingTable) (st : Shared S) : Shared S :=
  MkShared t (storage st) (pending_requests st).
Definition set_storage (s : S) (st : Shared S) : Shared S :=
  MkShared (routing_table st) s (pending_requests st).
Definition set_pending (f : gmap MessageId RequestMessage -> gmap MessageId RequestMessage)
    (st : Shared S) : Shared S :=
  MkShared (routing_table st) (storage st) (f (pending_requests st)).
End setters.

(** The result of the tasks [find_value] spawns. *)
Definition QueryResult : Type := option (Node * (option Value * list Node)).

Module Protocol.
Section protocol.
Context {S : Type} `{!Storage.t S, !Profile, !HashOrder nat KBucket}.
Context (node_id : NodeId) (addr : SocketAddr).

Abbreviation prog := (prog (Shared S) QueryResult).

(** [new]: what the shared parts of a protocol hold at first. *)
Definition new (routing_table : RoutingTable) (storage : S) : Shared S :=
  MkShared routing_table storage ∅.

Definition local_node : Node := Node.new node_id addr.

(** ** Lock sections *)
Definition register_pending (id : MessageId) (request : RequestMessage) : prog unit :=
  atomic pending_requests_lock (fun _ st => mret (set_pending <[id := request]> st, tt)).
Definition remove_pending (id : MessageId) : prog unit :=
  atomic pending_requests_lock (fun _ st => mret (set_pending (delete id) st, tt)).

Definition table_section {X} (f : Clock -> RoutingTable -> exec (RoutingTable * X)) : prog X :=
  atomic routing_table_lock (fun c st => '(t, x) ← f c (routing_table st); mret (set_table t st, x)).
Definition storage_section {X} (f : Clock -> S -> exec (S * X)) : prog X :=
  atomic storage_lock (fun c st => '(s, x) ← f c (storage st); mret (set_storage s st, x)).
Definition read_table {X} (f : RoutingTable -> X) : prog X :=
  reading routing_table_lock (fun st => mret (f (routing_table st))).

Definition record_success (id : NodeId) (elapsed : Duration) : prog (Result unit) :=
  table_section (fun c => RoutingTable.record_success (wall c) id (as_millis_u64 elapsed)).
Definition record_failure (id : NodeId) : prog (Result unit) :=
  table_section (fun c => RoutingTable.record_failure (wall c) id).
Definition storage_store (key : NodeId) (value : Value) : prog (Result unit) :=
  storage_section (fun c => Storage.store (mono c) key value).
Definition storage_get (key : NodeId) : prog (Result Value) :=
  storage_section (fun c => Storage.get (mono c) key).

Definition adaptive_timeout (id : NodeId) : prog Duration :=
  reading routing_table_lock (fun st =>
    match RoutingTable.get id (routing_table st) with
    | Some existing_node =>
        ResponseStats.adaptive_timeout f64_3_0 (from_secs 5) (Node.response_stats existing_node)
    | None => mret RPC_TIMEOUT
    end).

(** ** Contacts

    After a timeout [health_check_ping] keeps its guard of the pending requests
    while it waits for the routing table. *)
Definition health_check_ping (node : Node) : prog (Result unit) :=
  id ← draw MessageId;
  let request := Ping id local_node in
  _ ← register_pending id request;
  limit ← adaptive_timeout (Node.id node);
  _ ←? send (Node.addr node) (Request request);
  '(answer, elapsed) ← wait limit id limit;
  match answer with
  | Some (Err e) => mret (Err e)
  | Some (Ok _) =>
      _ ← remove_pending id;
      _ ← record_success (Node.id node) elapsed;
      mret (Ok tt)
  | None =>
      _ ← guarded pending_requests_lock (fun _ st => mret (set_pending (delete id) st, tt))
            (fun _ => record_failure (Node.id node));
      mret (Err Timeout)
  end.

Definition is_updated (s : UpdateStatus) : bool :=
  match s with UpdateStatus.Updated => true | _ => false end.

Definition record_contact (node : Node) : prog (Result bool) :=
  if decide (Node.id node = node_id) then mret (Ok false) else
  '(r, was_known) ← table_section (fun c table =>
    let known := RoutingTable.contains (Node.id node) table in
    '(table, r) ← RoutingTable.update (wall c) node table;
    mret (table, (r, known)));
  match r with
  | Err e => mret (Err e)
  | Ok status =>
      let inserted := negb was_known && is_updated status in
      match status with
      | UpdateStatus.PendingPing node_to_ping =>
          h ← health_check_ping node_to_ping;
          match h with
          | Ok _ =>
              _ ←? table_section (fun c => RoutingTable.node_seen (wall c) (Node.id node_to_ping));
              mret (Ok inserted)
          | Err _ =>
              _ ← table_section (fun c t =>
                mret (RoutingTable.remove (wall c) (Node.id node_to_ping) t));
              status ←? table_section (fun c => RoutingTable.update (wall c) node);
              mret (Ok (if is_updated status && negb was_known then true else inserted))
          end
      | _ => mret (Ok inserted)
      end
  end.

(** ** Remote procedure calls

    The part [ping], [store] and [find_node_rpc] share, from the
    registration of the request to the recording of the contact. *)
Definition request_response (node : Node) (id : MessageId) (request : RequestMessage)
    : prog (Result ResponseMessage) :=
  _ ← register_pending id request;
  limit ← adaptive_timeout (Node.id node);
  _ ←? send (Node.addr node) (Request request);
  '(answer, elapsed) ← wait limit id limit;
  match answer with
  | Some (Err e) => mret (Err e)
  | Some (Ok response) =>
      _ ← remove_pending id;
      _ ← record_success (Node.id node) elapsed;
      _ ←? record_contact (ResponseMessage.sender response);
      mret (Ok response)
  | None =>
      _ ← remove_pending id;
      _ ← record_failure (Node.id node);
      mret (Err Timeout)
  end.

Definition ping (node : Node) : prog (Result ResponseMessage) :=
  id ← draw MessageId;
  request_response node id (Ping id local_node).

Definition store (node : Node) (key : NodeId) (value : Value) : prog (Result ResponseMessage) :=
  id ← draw MessageId;
  request_response node id (Store id local_node key value).

Definition find_node_rpc (node : Node) (target : NodeId) : prog (Result (list Node)) :=
  id ← draw MessageId;
  response ←? request_response node id (FindNode id local_node target);
  match response with
  | NodesFound _ _ nodes => mret (Ok nodes)
  | _ => mret (Err (Other "Unexpected response type"))
  end.

Definition find_value_rpc (node : Node) (key : NodeId)
    : prog (Result (option Value * list Node)) :=
  id ← draw MessageId;
  let request := FindValue id local_node key in
  _ ← register_pending id request;
  _ ←? send (Node.addr node) (Request request);
  let extended_timeout := from_secs 10 in
  '(answer, _) ← wait extended_timeout id RPC_TIMEOUT;
  match answer with
  | Some (Err e) => mret (Err e)
  | Some (Ok response) =>
      _ ← remove_pending id;
      _ ←? record_contact (ResponseMessage.sender response);
      match response with
      | ValueFound _ _ value nodes => mret (Ok (value, nodes))
      | NodesFound _ _ nodes => mret (Ok (None, nodes))
      | _ => mret (Ok (None, []))
      end
  | None =>
      _ ← remove_pending id;
      mret (Ok (None, []))
  end.

(** ** Inbound requests *)
Definition handle_ping (id : MessageId) (from : SocketAddr) : prog (Result unit) :=
  send from (Response (Pong id local_node)).

Definition handle_store (id : MessageId) (key : NodeId) (value : Value) (from : SocketAddr)
    : prog (Result unit) :=
  r ← storage_store key value;
  let success := is_ok r in
  send from (Response (StoreResult id local_node success)).

Definition handle_find_node (id : MessageId) (target : NodeId) (from : SocketAddr)
    : prog (Result unit) :=
  nodes ← read_table (RoutingTable.get_closest target K);
  send from (Response (NodesFound id local_node nodes)).

Definition handle_find_value (id : MessageId) (key : NodeId) (from : SocketAddr)
    : prog (Result unit) :=
  r ← storage_get key;
  response ← match ok r with
             | Some value => mret (ValueFound id local_node (Some value) [])
             | None =>
                 nodes ← read_table (RoutingTable.get_closest key K);
                 mret (ValueFound id local_node None nodes)
             end;
  send from (Response response).

Definition replicate_to_new_node (node : Node) : prog (Result unit) :=
  keys ← reading storage_lock (fun st => mret (Storage.keys (storage st)));
  _ ← for_each keys (fun key =>
    should_store ← read_table (fun table =>
      existsb (fun closest => bool_decide (Node.id closest = Node.id node))
        (RoutingTable.get_closest key K table));
    if should_store : bool then
      r ← storage_get key;
      match ok r with
      | Some value => _ ← store node key value; mret tt
      | None => mret tt
      end
    else mret tt);
  mret (Ok tt).

Definition handle_request (req : RequestMessage) (from : SocketAddr) : prog (Result unit) :=
  let sender := RequestMessage.sender req in
  is_new_contact ←? record_contact sender;
  _ ←? match req with
       | Ping id _ => handle_ping id from
       | Store id _ key value => handle_store id key value from
       | FindNode id _ target => handle_find_node id target from
       | FindValue id _ key => handle_find_value id key from
       end;
  _ ← (if is_new_contact : bool then replicate_to_new_node sender else mret (Ok tt));
  mret (Ok tt).
End protocol.
End Protocol.
