(* ===== verification/Lookup.v ===== *)
(** * Lookups and network stores (src/src/protocol/operation.rs)

    [find_node], [find_value] and [store_value]. What a lookup does with the
    answers of one round is a pure function of its candidates
    ([FindNode.process_result], [FindValue.merge]). *)

From S2P Require Import Prelude Errors Bytes Ident F64 Contact Bucket Table Store.
From S2P Require Import Messages Effects Protocol.

(** ** [find_node]: the candidates *)
Module FindNode.
Record t := Mk {
  seen : gset NodeId;
  closest_nodes : list Node;
  looking_for_closest : bool
}.
Add Printing Constructor t.

(** Adding one node of an answer, unless it was seen before. *)
Definition add_new (acc : gset NodeId * list Node) (node : Node) : gset NodeId * list Node :=
  let '(seen, closest) := acc in
  if decide (Node.id node ∈ seen) then (seen, closest)
  else ({[Node.id node]} ∪ seen, closest ++ [node]).

(** The distance of the head is less than [old]. *)
Definition head_closer (target old : NodeId) (ns : list Node) : bool :=
  match ns with
  | [] => false
  | n :: _ =>
      match NodeId.cmp (NodeId.distance (Node.id n) target) old with Lt => true | _ => false end
  end.

(** The body of the loop over [results.into_iter().enumerate()]. The guard
    on [idx] makes the list non-empty, so the random placeholder the code
    has for an empty list is never drawn. *)
Definition process_result (target : NodeId) (self : t) (idx : nat) (result : Result (list Node)) : t :=
  if length (closest_nodes self) <=? idx then self else
  match result with
  | Ok nodes =>
      match closest_nodes self with
      | [] => self
      | first :: _ =>
          let old_closest := NodeId.distance (Node.id first) target in
          let '(seen, closest) := fold_left add_new nodes (seen self, closest_nodes self) in
          let closest := sort_by (KBucket.distance_cmp target) closest in
          let closest := if K <? length closest then take K closest else closest in
          Mk seen closest (looking_for_closest self || head_closer target old_closest closest)
      end
  | Err _ => Mk (seen self) (delete idx (closest_nodes self)) (looking_for_closest self)
  end.

Fixpoint process_results (target : NodeId) (self : t) (idx : nat)
    (results : list (Result (list Node))) : t :=
  match results with
  | [] => self
  | r :: rest => process_results target (process_result target self idx r) (S idx) rest
  end.

Definition start (node_id : NodeId) (closest : list Node) : t :=
  Mk (list_to_set (Node.id <$> closest) ∪ {[node_id]}) closest true.
End FindNode.

(** ** [find_value]: the candidates *)
Module FindValue.
Definition MAX_ITERATIONS : nat := 10.

(** The sort uses [key.distance(&a.id)]. *)
Definition distance_cmp (key : NodeId) (a b : Node) : comparison :=
  NodeId.cmp (NodeId.distance key (Node.id a)) (NodeId.distance key (Node.id b)).

Definition nodes_to_query (node_id : NodeId) (visited : gset NodeId) (closest : list Node)
    : list Node :=
  take ALPHA (filter (fun node => Node.id node ∉ visited /\ Node.id node <> node_id) closest).

Definition merge (key : NodeId) (closest all_closest_nodes : list Node) : list Node :=
  let closest := sort_by (distance_cmp key) (closest ++ all_closest_nodes) in
  if K <? length closest then take K closest else closest.
End FindValue.

Module Lookup.
Section lookup.
Context {S : Type} `{!Storage.t S, !Profile, !HashOrder nat KBucket}.
Context (node_id : NodeId) (addr : SocketAddr).

Abbreviation prog := (prog (Shared S) QueryResult).

(** One round of [find_node]: queries to the first [ALPHA] candidates. *)
Definition find_node_round (target : NodeId) (s : FindNode.t) : prog (FindNode.t + list Node) :=
  if FindNode.looking_for_closest s && negb (length (FindNode.closest_nodes s) =? 0) then
    let active := Nat.min ALPHA (length (FindNode.closest_nodes s)) in
    let requests := map (fun node => Protocol.find_node_rpc node_id addr node target)
                        (take active (FindNode.closest_nodes s)) in
    results ← join requests;
    let s := FindNode.Mk (FindNode.seen s) (FindNode.closest_nodes s) false in
    mret (inl (FindNode.process_results target s 0 results))
  else mret (inr (FindNode.closest_nodes s)).

Definition find_node (target : NodeId) : prog (Result (list Node)) :=
  closest ← Protocol.read_table (RoutingTable.get_closest target K);
  nodes ← loop (find_node_round target) (FindNode.start node_id closest);
  mret (Ok nodes).

(** The task spawned for one node of a [find_value] round. *)
Definition query_task (key : NodeId) (node : Node) : prog QueryResult :=
  r ← Protocol.find_value_rpc node_id addr node key;
  match r with
  | Ok result => mret (Some (node, result))
  | Err _ => mret None
  end.

Fixpoint spawn_all (key : NodeId) (nodes : list Node) : prog (list nat) :=
  match nodes with
  | [] => mret []
  | node :: rest =>
      h ← spawn (query_task key node);
      hs ← spawn_all key rest;
      mret (h :: hs)
  end.

(** The tasks are awaited in order; the first value ends the search. *)
Fixpoint await_all (key : NodeId) (visited : gset NodeId) (tasks : list nat)
    (all_closest_nodes : list Node) : prog (Value + list Node) :=
  match tasks with
  | [] => mret (inr all_closest_nodes)
  | h :: rest =>
      r ← await h;
      match r with
      | Some (Some (node, (Some value, _))) =>
          _ ← Protocol.storage_store key value;
          mret (inl value)
      | Some (Some (node, (None, more_nodes))) =>
          await_all key visited rest
            (all_closest_nodes ++ filter (fun n => Node.id n ∉ visited) more_nodes)
      | _ => await_all key visited rest all_closest_nodes
      end
  end.

(** [for iteration in 0..MAX_ITERATIONS]; [n] iterations are left. *)
Fixpoint find_value_rounds (n : nat) (key : NodeId) (visited : gset NodeId)
    (closest_nodes : list Node) : prog (option Value) :=
  match n with
  | 0 => mret None
  | Datatypes.S n' =>
      let nodes := FindValue.nodes_to_query node_id visited closest_nodes in
      match nodes with
      | [] => mret None
      | _ :: _ =>
          let visited := list_to_set (Node.id <$> nodes) ∪ visited in
          tasks ← spawn_all key nodes;
          r ← await_all key visited tasks [];
          match r with
          | inl value => mret (Some value)
          | inr [] => mret None
          | inr all_closest_nodes =>
              find_value_rounds n' key visited (FindValue.merge key closest_nodes all_closest_nodes)
          end
      end
  end.

(** The candidates of [find_value] and of [store_value]. *)
Definition closest_or_all (key : NodeId) (table : RoutingTable) : list Node :=
  match RoutingTable.get_closest key K table with
  | [] => RoutingTable.get_all_nodes table
  | nodes => nodes
  end.

Definition find_value (key : NodeId) : prog (Result (option Value)) :=
  local ← Protocol.storage_get key;
  match local with
  | Ok value => mret (Ok (Some value))
  | Err _ =>
      closest_nodes ← Protocol.read_table (closest_or_all key);
      match closest_nodes with
      | [] => mret (Ok None)
      | _ :: _ =>
          v ← find_value_rounds FindValue.MAX_ITERATIONS key {[node_id]} closest_nodes;
          mret (Ok v)
      end
  end.

Definition store_value (key : NodeId) (value : Value) : prog (Result unit) :=
  _ ←? Protocol.storage_store key value;
  nodes ← Protocol.read_table (closest_or_all key);
  _ ← for_each nodes (fun node =>
    if decide (Node.id node = node_id) then mret tt else
    _ ← within (from_secs 20) (Protocol.store node_id addr node key value);
    mret tt);
  mret (Ok tt).
End lookup.
End Lookup.

(** ** The candidates of [find_node] *)
Section candidates.
Variables (target node_id : NodeId).

Local Abbreviation by_distance := (fun x y => distance_to target x <= distance_to target y)%Z.

(** How often an identifier occurs among contacts. *)
Definition occurrences (i : NodeId) (ns : list Node) : nat :=
  length (filter (fun n => Node.id n = i) ns).

(** Sorted, at most [K], all of them seen, never the node itself, and no
    identifier more often than once or than among the [initial] ones. *)
Record candidates_ok (initial : list Node) (s : FindNode.t) : Prop := {
  co_sorted : StronglySorted by_distance (FindNode.closest_nodes s);
  co_len : length (FindNode.closest_nodes s) <= K;
  co_times i : occurrences i (FindNode.closest_nodes s) <= Nat.max 1 (occurrences i initial);
  co_seen i : i ∈ Node.id <$> FindNode.closest_nodes s -> i ∈ FindNode.seen s;
  co_self : node_id ∈ FindNode.seen s;
  co_not_self : node_id ∉ Node.id <$> FindNode.closest_nodes s
}.

Lemma add_new_spec nodes seen closest :
  exists new, fold_left FindNode.add_new nodes (seen, closest) =
      (seen ∪ list_to_set (Node.id <$> new), closest ++ new) /\
    new ⊆ nodes /\ NoDup (Node.id <$> new) /\ forall i, i ∈ Node.id <$> new -> i ∉ seen.
Proof.
  revert seen closest. induction nodes as [|n nodes IH]; intros seen closest; cbn [fold_left].
  - exists []. cbn. rewrite union_empty_r_L, app_nil_r. split_and!; [done..|constructor|].
    intros i Hi. by apply elem_of_nil in Hi.
  - cbn [FindNode.add_new]. case_decide as Hn.
    + destruct (IH seen closest) as (new & E & Hsub & Hnd & Hout). exists new.
      split_and!; [done|set_solver|done..].
    + destruct (IH ({[Node.id n]} ∪ seen) (closest ++ [n])) as (new & E & Hsub & Hnd & Hout).
      exists (n :: new). rewrite E. split_and!.
      * cbn. f_equal; [set_solver|]. by rewrite <-app_assoc.
      * set_solver.
      * cbn. apply NoDup_cons. split; [|done]. intros Hin%Hout. set_solver.
      * cbn. intros i [->|Hi]%elem_of_cons; [done|]. apply Hout in Hi. set_solver.
Qed.

Lemma distance_cmp_lt x y :
  NodeId.cmp (NodeId.distance (Node.id x) target) (NodeId.distance (Node.id y) target) = Lt <->
  (distance_to target x < distance_to target y)%Z.
Proof.
  change (NodeId.cmp (NodeId.distance (Node.id x) target) (NodeId.distance (Node.id y) target))
    with (KBucket.distance_cmp target x y).
  by rewrite distance_cmp_key, Z.compare_lt_iff.
Qed.

Lemma sorted_head_min first rest n :
  StronglySorted by_distance (first :: rest) -> n ∈ first :: rest ->
  (distance_to target first <= distance_to target n)%Z.
Proof.
  intros [Hf _]%StronglySorted_cons [->|Hn]%elem_of_cons; [lia|].
  rewrite Forall_forall in Hf. by apply Hf.
Qed.

(** The list after an answer: sorted, cut to [K]. *)
Lemma truncate_take {A} (l : list A) : (if K <? length l then take K l else l) = take K l.
Proof. destruct (Nat.ltb_spec K (length l)); [done|]. symmetry. by apply take_ge. Qed.

(** An answer that makes the lookup go on has brought a new identifier. *)
Lemma process_result_progress s idx r :
  StronglySorted by_distance (FindNode.closest_nodes s) ->
  let s' := FindNode.process_result target s idx r in
  StronglySorted by_distance (FindNode.closest_nodes s') /\
  FindNode.seen s ⊆ FindNode.seen s' /\
  (FindNode.looking_for_closest s' = true ->
     FindNode.looking_for_closest s = true \/ FindNode.seen s ⊂ FindNode.seen s').
Proof.
  intros Hsort. cbv zeta. unfold FindNode.process_result.
  destruct (Nat.leb_spec (length (FindNode.closest_nodes s)) idx); [by split_and!; auto|].
  destruct r as [nodes|e].
  - destruct (FindNode.closest_nodes s) as [|first rest] eqn:Hc;
      [rewrite Hc; by split_and!; auto|].
    destruct (add_new_spec nodes (FindNode.seen s) (first :: rest)) as (new & -> & _ & _ & Hout).
    rewrite truncate_take.
    split_and!; cbn [FindNode.seen FindNode.looking_for_closest FindNode.closest_nodes].
    + apply sorted_take, sort_by_sorted, distance_cmp_key.
    + set_solver.
    + intros [Hl|Hh]%orb_true_iff; [by left|right]. destruct new as [|m new].
      * exfalso. unfold FindNode.head_closer in Hh.
        destruct (take K _) as [|h t] eqn:Ht; [done|].
        assert (h ∈ first :: rest) as Hin.
        { rewrite <-(app_nil_r (first :: rest)), <-(elem_of_sort_by (KBucket.distance_cmp target)).
          apply (elem_of_take_l K). rewrite Ht. by left. }
        apply (sorted_head_min _ _ _ Hsort) in Hin.
        destruct (NodeId.cmp _ _) eqn:Hcmp; try done. apply distance_cmp_lt in Hcmp. lia.
      * split; [set_solver|]. intros Hsub. apply (Hout (Node.id m)); [by left|].
        apply Hsub. cbn. set_solver.
  - split_and!; cbn [FindNode.seen FindNode.looking_for_closest FindNode.closest_nodes]; auto.
    destruct (lookup_lt_is_Some_2 (FindNode.closest_nodes s) idx) as [x Hx]; [done|].
    apply list_elem_of_split_length in Hx as (l1 & l2 & Hns & ->). rewrite Hns in *.
    rewrite delete_middle. by eapply sorted_remove_middle.
Qed.

Lemma process_results_progress s idx rs :
  StronglySorted by_distance (FindNode.closest_nodes s) ->
  let s' := FindNode.process_results target s idx rs in
  StronglySorted by_distance (FindNode.closest_nodes s') /\
  FindNode.seen s ⊆ FindNode.seen s' /\
  (FindNode.looking_for_closest s' = true ->
     FindNode.looking_for_closest s = true \/ FindNode.seen s ⊂ FindNode.seen s').
Proof.
  revert s idx. induction rs as [|r rs IH]; intros s idx Hs; cbn [FindNode.process_results];
    [by split_and!; auto|].
  destruct (process_result_progress s idx r Hs) as (H1 & Hsub1 & Hlook1).
  destruct (IH _ (Datatypes.S idx) H1) as (H2 & Hsub2 & Hlook2).
  split_and!; [done|set_solver|]. intros [Hl|Hl]%Hlook2; [|right; set_solver].
  apply Hlook1 in Hl as [|]; [by left|right; set_solver].
Qed.

Lemma occurrences_app i l1 l2 : occurrences i (l1 ++ l2) = occurrences i l1 + occurrences i l2.
Proof. unfold occurrences. by rewrite filter_app, length_app. Qed.

Lemma occurrences_cons i n l :
  occurrences i (n :: l) = (if decide (Node.id n = i) then 1 else 0) + occurrences i l.
Proof. unfold occurrences. rewrite filter_cons. by case_decide. Qed.

Lemma occurrences_sublist i l1 l2 : l1 `sublist_of` l2 -> occurrences i l1 <= occurrences i l2.
Proof. induction 1; rewrite ?occurrences_cons; lia. Qed.

Lemma occurrences_perm i l1 l2 : l1 ≡ₚ l2 -> occurrences i l1 = occurrences i l2.
Proof. unfold occurrences. by intros ->. Qed.

Lemma occurrences_0 i l : i ∉ Node.id <$> l -> occurrences i l = 0.
Proof.
  induction l as [|n l IH]; [done|]. rewrite fmap_cons, not_elem_of_cons, occurrences_cons.
  intros [Hn ?]. rewrite decide_False by done. auto.
Qed.

Lemma NoDup_occurrences l : NoDup (Node.id <$> l) <-> forall i, occurrences i l <= 1.
Proof.
  induction l as [|n l IH]; [split; [intros _ i; apply Nat.le_0_l|constructor]|].
  rewrite fmap_cons, NoDup_cons, IH. setoid_rewrite occurrences_cons. split.
  - intros [Hn Hl] i. case_decide; [subst i; by rewrite occurrences_0|apply Hl].
  - intros Hl. split; [|intros i; specialize (Hl i); lia].
    intros (m & Em & Hm)%list_elem_of_fmap. specialize (Hl (Node.id n)).
    rewrite decide_True in Hl by done. apply list_elem_of_split in Hm as (l1 & l2 & ->).
    rewrite occurrences_app, occurrences_cons, decide_True in Hl by done. lia.
Qed.

(** What an answer adds has not been among the candidates. *)
Lemma occurrences_new i l new (seen : gset NodeId) :
  NoDup (Node.id <$> new) -> (forall j, j ∈ Node.id <$> new -> j ∉ seen) ->
  (forall j, j ∈ Node.id <$> l -> j ∈ seen) ->
  occurrences i (l ++ new) <= Nat.max 1 (occurrences i l).
Proof.
  rewrite NoDup_occurrences. intros Hnd Hout Hseen. specialize (Hnd i). rewrite occurrences_app.
  destruct (decide (i ∈ Node.id <$> new)) as [Hi|Hi]; [|rewrite (occurrences_0 i new Hi); lia].
  rewrite (occurrences_0 i l); [lia|]. intros Hl%Hseen. by eapply Hout.
Qed.

Section kept.
Variable initial : list Node.

Lemma candidates_NoDup s :
  candidates_ok initial s -> NoDup (Node.id <$> initial) -> NoDup (Node.id <$> FindNode.closest_nodes s).
Proof.
  intros Hs Hi. rewrite NoDup_occurrences in *. intros i. specialize (Hi i).
  pose proof (co_times _ _ Hs i). lia.
Qed.

Lemma process_result_ok s idx r :
  candidates_ok initial s -> candidates_ok initial (FindNode.process_result target s idx r).
Proof.
  intros Hs. pose proof (process_result_progress s idx r (co_sorted _ _ Hs)) as (Hsort' & _ & _).
  destruct Hs as [Hsort Hlen Htimes Hseen Hself Hnot]. revert Hsort'. unfold FindNode.process_result.
  destruct (Nat.leb_spec (length (FindNode.closest_nodes s)) idx); [by split|].
  destruct r as [nodes|e].
  - destruct (FindNode.closest_nodes s) as [|first rest] eqn:Hc; [rewrite <-Hc in *; by split|].
    destruct (add_new_spec nodes (FindNode.seen s) (first :: rest)) as (new & -> & _ & Hndn & Hout).
    rewrite truncate_take. set (closest := take K (sort_by _ _)). intros Hsort'.
    assert (Node.id <$> closest ⊆ Node.id <$> (first :: rest) ++ new) as Hids.
    { intros i (n & -> & Hn)%list_elem_of_fmap. apply list_elem_of_fmap_2.
      apply elem_of_take_l in Hn. by apply elem_of_sort_by in Hn. }
    split; cbn [FindNode.seen FindNode.closest_nodes].
    + done.
    + unfold closest. rewrite length_take. lia.
    + intros i. unfold closest. etrans; [apply occurrences_sublist, sublist_take|].
      rewrite (occurrences_perm i _ _ (sort_by_Permutation _ _)).
      pose proof (occurrences_new i (first :: rest) new _ Hndn Hout Hseen). specialize (Htimes i). lia.
    + intros i Hi%Hids. rewrite fmap_app in Hi. set_solver.
    + set_solver.
    + intros Hi%Hids. rewrite fmap_app in Hi. apply elem_of_app in Hi as [Hi|Hi]; [done|].
      by apply (Hout _ Hi).
  - intros Hsort'. destruct (lookup_lt_is_Some_2 (FindNode.closest_nodes s) idx) as [x Hx]; [done|].
    apply list_elem_of_split_length in Hx as (l1 & l2 & Hns & ->).
    split; cbn [FindNode.seen FindNode.looking_for_closest FindNode.closest_nodes];
      [exact Hsort'|..]; clear Hsort'; rewrite Hns in *;
      rewrite ?delete_middle; rewrite ?fmap_app, ?fmap_cons in *.
    + rewrite length_app in *. cbn in Hlen. lia.
    + intros i. specialize (Htimes i). rewrite occurrences_app in *.
      rewrite occurrences_cons in Htimes. lia.
    + intros i Hi. apply Hseen. set_solver.
    + done.
    + set_solver.
Qed.

Lemma process_results_ok s idx rs :
  candidates_ok initial s -> candidates_ok initial (FindNode.process_results target s idx rs).
Proof.
  revert s idx. induction rs as [|r rs IH]; intros s idx Hs; cbn [FindNode.process_results];
    [done|]. by apply IH, process_result_ok.
Qed.

End kept.

(** The candidates [find_node] starts with. *)
Lemma start_distinct `{!HashOrder nat KBucket} t :
  table_wf t -> table_distinct t -> NoDup (Node.id <$> RoutingTable.get_closest target K t).
Proof.
  intros Hwf Hd. unfold RoutingTable.get_closest.
  rewrite fmap_take. eapply sublist_NoDup; [|apply sublist_take].
  eapply NoDup_perm; [|by apply NoDup_all_ids]. by rewrite sort_by_Permutation.
Qed.

Lemma start_ok `{!HashOrder nat KBucket} t :
  table_wf t -> RoutingTable.local_node_id t = node_id ->
  let initial := RoutingTable.get_closest target K t in
  candidates_ok initial (FindNode.start node_id initial).
Proof.
  intros Hwf Hl. unfold RoutingTable.get_closest.
  split; cbn [FindNode.closest_nodes FindNode.seen FindNode.start].
  - apply sorted_take, sort_by_sorted, distance_cmp_key.
  - rewrite length_take. lia.
  - lia.
  - intros i Hi. set_solver.
  - set_solver.
  - intros (n & E & Hn)%list_elem_of_fmap. apply elem_of_take_l, elem_of_sort_by in Hn.
    apply elem_of_get_all_nodes in Hn. destruct (in_table_place t n Hwf Hn) as (i & b & Hi & _).
    apply bucket_index_remote in Hi. congruence.
Qed.
End candidates.
