(* ===== verification/DhtNode.v ===== *)
(** * The complete node (src/src/network/node.rs)

    The API calls of a node, its three background tasks and its request
    handler, as programs, and the transition system of everything a node can
    do at once. Timers are [Tick]s that may end at any time. *)

From S2P Require Import Prelude Errors Bytes Ident F64 Contact Bucket Table Store.
From S2P Require Import Messages Effects Protocol Lookup.

Definition REFRESH_INTERVAL : Duration := from_secs 3600.
Definition REPUBLISH_INTERVAL : Duration := from_secs 86400.
Definition EXPIRATION_CHECK_INTERVAL : Duration := from_secs 3600.

Module DhtNode.
Section node.
Context {S : Type} `{!Storage.t S, !Profile, !HashOrder nat KBucket}.
(** [sha2]'s digest and the textual form of a socket address. *)
Context (sha256 : list u8 -> list u8) (to_string : SocketAddr -> list u8).
Context (node_id : NodeId) (addr : SocketAddr).

Abbreviation prog := (prog (Shared S) QueryResult).

(** [new]: what the node's [Arc]s hold at first. *)
Definition new (storage : S) : Shared S := Protocol.new (RoutingTable.new node_id) storage.

Definition store (key : list u8) (value : Value) : prog (Result unit) :=
  let key_id := NodeId.from_bytes key in
  r ← within (from_secs 30) (Lookup.store_value node_id addr key_id value);
  let result := match r with Some r => r | None => Ok tt end in
  nodes ← Protocol.read_table RoutingTable.get_all_nodes;
  _ ← for_each nodes (fun node =>
    if decide (Node.id node = node_id) then mret tt else
    _ ← within (from_secs 30) (Protocol.store node_id addr node key_id value);
    mret tt);
  mret result.

Definition get (key : list u8) : prog (Result Value) :=
  let key_id := NodeId.from_bytes key in
  find_result ← Lookup.find_value node_id addr key_id;
  match find_result with
  | Ok (Some value) => mret (Ok value)
  | _ => mret (Err ValueNotFound)
  end.

Definition join (bootstrap_addr : SocketAddr) : prog (Result unit) :=
  let bootstrap_node := Node.with_addr sha256 to_string bootstrap_addr in
  _ ←? Protocol.record_contact node_id addr bootstrap_node;
  r ← Protocol.ping node_id addr bootstrap_node;
  match r with
  | Ok response =>
      _ ←? Protocol.record_contact node_id addr (ResponseMessage.sender response);
      _ ←? Lookup.find_node node_id addr node_id;
      mret (Ok tt)
  | Err e => mret (Err e)
  end.

(** [NodeId::random()] *)
Definition random_id : prog NodeId :=
  fill ← draw (list u8);
  mret (NodeId.random fill).

(** The body of the refresh loop, after the tick. *)
Definition refresh : prog unit :=
  bucket_indices ← Protocol.read_table RoutingTable.bucket_indices;
  match bucket_indices with
  | [] =>
      target ← random_id;
      _ ← Lookup.find_node node_id addr target;
      mret tt
  | _ :: _ =>
      for_each bucket_indices (fun index =>
        coin ← draw (nat -> bool);
        target ← match NodeId.random_in_bucket coin node_id index with
                 | Some target => mret target
                 | None => random_id
                 end;
        _ ← Lookup.find_node node_id addr target;
        mret tt)
  end.

(** The live pairs of the storage, collected under one write lock. *)
Fixpoint collect_pairs (now : Instant) (keys : list NodeId) (s : S) (pairs : list (NodeId * Value))
    : exec (S * list (NodeId * Value)) :=
  match keys with
  | [] => mret (s, pairs)
  | key :: rest =>
      '(s, r) ← Storage.get now key s;
      collect_pairs now rest s (match r with Ok value => pairs ++ [(key, value)] | Err _ => pairs end)
  end.

Definition republish : prog unit :=
  items ← Protocol.storage_section (fun c s => collect_pairs (mono c) (Storage.keys s) s []);
  for_each items (fun p =>
    _ ← Lookup.store_value node_id addr p.1 p.2;
    mret tt).

Definition expire : prog unit :=
  Protocol.storage_section (fun c s => s' ← Storage.cleanup (mono c) s; mret (s', tt)).

(** [loop { interval.tick().await; body }] *)
Definition forever (period : Duration) (body : prog unit) : prog QueryResult :=
  loop (fun _ : unit => _ ← tick period; _ ← body; mret (inl tt)) tt.

Definition start : prog (Result unit) :=
  _ ← spawn (forever REFRESH_INTERVAL refresh);
  _ ← spawn (forever REPUBLISH_INTERVAL republish);
  _ ← spawn (forever EXPIRATION_CHECK_INTERVAL expire);
  mret (Ok tt).

(** [ProtocolRequestForwarder::handle_request]: an error is only logged. *)
Definition forward_request (request : RequestMessage) (from : SocketAddr) : prog unit :=
  _ ← Protocol.handle_request node_id addr request from;
  mret tt.

(** A call as a task of the node: its result goes to the caller. *)
Definition task {A} (p : prog A) : prog QueryResult := _ ← p; mret None.

(** Everything that can be started on a node: inbound requests from
    anywhere, and the calls of the public interface. *)
Inductive operation : prog QueryResult -> Prop :=
  | op_request request from : operation (task (forward_request request from))
  | op_start : operation (task start)
  | op_store key value : operation (task (store key value))
  | op_get key : operation (task (get key))
  | op_join bootstrap : operation (task (join bootstrap))
  | op_ping n : operation (task (Protocol.ping node_id addr n))
  | op_store_on n key value : operation (task (Protocol.store node_id addr n key value))
  | op_find_node target : operation (task (Lookup.find_node node_id addr target))
  | op_find_value key : operation (task (Lookup.find_value node_id addr key))
  | op_find_value_rpc n key : operation (task (Protocol.find_value_rpc node_id addr n key))
  | op_store_value key value : operation (task (Lookup.store_value node_id addr key value)).
End node.
End DhtNode.
