(* ===== verification/SampleNode.v ===== *)
(** * A concrete node for the witnesses: identifier 0, in-memory storage *)

From S2P Require Import Prelude Errors Bytes Ident F64 Contact Fixtures Bucket Table.
From S2P Require Import Store Messages Effects Protocol Lookup DhtNode.

Definition sample_storage : Storage.t MemoryStorage := @MemoryStorage.storage_ops listed_order.
Definition no_hash (l : list u8) : list u8 := l.
Definition no_name (a : SocketAddr) : list u8 := [].

(** The node with no contact and nothing stored. *)
Definition sample_state : Shared MemoryStorage := DhtNode.new (sample_id 0) MemoryStorage.new.

(** Runs of its programs. *)
Definition sample_run {A} (st : Shared MemoryStorage) (p : prog (Shared MemoryStorage) QueryResult A)
    tr st' a : Prop := returns_with st p tr st' a.
