(* ===== verification/NodeSafety.v ===== *)
(** * Safety of a running node

    Every operation of a node, interleaved in any way with any others and with
    any answers from the network, keeps the invariant of the shared state and
    sends only well-formed messages. *)

From S2P Require Import Prelude Errors Bytes Ident F64 Contact Fixtures Bucket Table.
From S2P Require Import Store Messages Effects Protocol Lookup DhtNode.

Section safety.
Context {S : Type} `{!Storage.t S, !Profile, !HashOrder nat KBucket}.
Context (sha256 : list u8 -> list u8) (to_string : SocketAddr -> list u8).
Context (node_id : NodeId) (addr : SocketAddr).

Abbreviation prog := (prog (Shared S) QueryResult).
Abbreviation local_node := (Protocol.local_node node_id addr).

(** The routing table is well formed, of capacity [K] and around the node's
    identifier; every pending request is the node's own, under its own id. *)
Definition node_inv (st : Shared S) : Prop :=
  table_wf (routing_table st) /\
  RoutingTable.local_node_id (routing_table st) = node_id /\
  RoutingTable.k (routing_table st) = K /\
  map_Forall (fun id req => RequestMessage.id req = id /\ RequestMessage.sender req = local_node)
    (pending_requests st).

(** A node speaks in its own name, and offers at most [K] contacts, never
    itself; an answer that carries a value carries no contacts. *)
Definition contacts_ok (ns : list Node) : Prop :=
  length ns <= K /\ node_id ∉ Node.id <$> ns.
Definition event_ok (ev : event) : Prop :=
  match ev with
  | Sent _ (Request r) _ => RequestMessage.sender r = local_node
  | Sent _ (Response r) _ =>
      ResponseMessage.sender r = local_node /\
      match r with
      | NodesFound _ _ ns => contacts_ok ns
      | ValueFound _ _ (Some _) ns => ns = []
      | ValueFound _ _ None ns => contacts_ok ns
      | _ => True
      end
  | Waited _ _ _ => True
  end.

Definition any_change (st st' : Shared S) : Prop := True.
Local Abbreviation safe := (guards (R := QueryResult) node_inv any_change event_ok).

Lemma any_change_refl st : any_change st st.
Proof. done. Qed.

(** ** Lock sections *)
Lemma safe_register id request :
  RequestMessage.id request = id -> RequestMessage.sender request = local_node ->
  safe (Protocol.register_pending id request).
Proof.
  intros Hid Hs. apply guards_atomic. intros c st st' x (Hwf & Hl & Hk & Hp) [= <- <-].
  split; [|done]. split_and!; [done..|]. cbn. by apply map_Forall_insert_2.
Qed.

Lemma safe_remove_pending id : safe (Protocol.remove_pending id).
Proof.
  apply guards_atomic. intros c st st' x (Hwf & Hl & Hk & Hp) [= <- <-].
  split; [|done]. split_and!; [done..|]. cbn. by apply map_Forall_delete.
Qed.

Definition keeps_table {X} (f : Clock -> RoutingTable -> exec (RoutingTable * X)) : Prop :=
  forall c t t' x, table_wf t -> f c t = Done (t', x) -> table_wf t' /\ same_table t t'.

Lemma safe_table_section {X} (f : Clock -> RoutingTable -> exec (RoutingTable * X)) :
  keeps_table f -> safe (Protocol.table_section f).
Proof.
  intros Hf. apply guards_atomic. intros c st st' x (Hwf & Hl & Hk & Hp) Hc.
  apply exec_bind_inv in Hc as ([t y] & Ht & [= <- <-]).
  destruct (Hf _ _ _ _ Hwf Ht) as [Hwf' [El Ek]]. split; [|done].
  split_and!; cbn; [done|congruence..|done].
Qed.

Lemma safe_storage_section {X} (f : Clock -> S -> exec (S * X)) :
  safe (Protocol.storage_section f).
Proof.
  apply guards_atomic. intros c st st' x Hst Hc.
  by apply exec_bind_inv in Hc as ([s y] & _ & [= <- <-]).
Qed.

Lemma keeps_update node : keeps_table (fun c => RoutingTable.update (wall c) node).
Proof. intros c t t' x. apply table_update_wf. Qed.
Lemma keeps_node_seen id : keeps_table (fun c => RoutingTable.node_seen (wall c) id).
Proof. intros c t t' x Hwf. by apply table_clone_wf. Qed.
Lemma keeps_record_success id ms :
  keeps_table (fun c => RoutingTable.record_success (wall c) id ms).
Proof. intros c t t' x Hwf. by apply table_clone_wf. Qed.
Lemma keeps_record_failure id : keeps_table (fun c => RoutingTable.record_failure (wall c) id).
Proof. intros c t t' x Hwf. by apply table_clone_wf. Qed.
Lemma keeps_remove id : keeps_table (fun c t => mret (RoutingTable.remove (wall c) id t)).
Proof.
  intros c t t' x Hwf [= Hr]. pose proof (table_remove_wf (wall c) id t Hwf) as Hw.
  by rewrite Hr in Hw.
Qed.
Lemma keeps_contact node : keeps_table (fun c t =>
  let known := RoutingTable.contains (Node.id node) t in
  '(t, r) ← RoutingTable.update (wall c) node t; mret (t, (r, known))).
Proof.
  intros c t t' x Hwf Hc. apply exec_bind_inv in Hc as ([t1 r] & Hu & [= <- <-]).
  by eapply table_update_wf.
Qed.

Lemma safe_reading {X} l (f : Shared S -> exec X) : safe (reading l f).
Proof. by apply guards_reading. Qed.
Lemma safe_record_success id elapsed : safe (Protocol.record_success id elapsed).
Proof. apply safe_table_section, keeps_record_success. Qed.
Lemma safe_record_failure id : safe (Protocol.record_failure id).
Proof. apply safe_table_section, keeps_record_failure. Qed.
Lemma safe_storage_store key value : safe (Protocol.storage_store key value).
Proof. apply safe_storage_section. Qed.
Lemma safe_storage_get key : safe (Protocol.storage_get key).
Proof. apply safe_storage_section. Qed.
Lemma safe_adaptive_timeout id : safe (Protocol.adaptive_timeout id).
Proof. apply safe_reading. Qed.
Lemma safe_read_table {X} (f : RoutingTable -> X) : safe (Protocol.read_table f).
Proof. apply safe_reading. Qed.
Lemma safe_send to m : (forall r, event_ok (Sent to m r)) -> safe (send to m).
Proof. intros Hm r. split; [apply Hm|done]. Qed.
Lemma safe_wait limit id inner : safe (wait limit id inner).
Proof. done. Qed.
Lemma safe_draw X : safe (draw X).
Proof. done. Qed.
End safety.

#[export] Hint Resolve safe_register safe_remove_pending safe_storage_section safe_reading
  safe_record_success safe_record_failure safe_storage_store safe_storage_get
  safe_adaptive_timeout safe_read_table
  safe_wait safe_draw keeps_update keeps_node_seen keeps_record_success keeps_record_failure
  keeps_remove keeps_contact : kad.
#[export] Hint Extern 2 (guards _ _ _ (Protocol.table_section _)) =>
  apply safe_table_section : kad.

(** Goes through the binds of a program. *)
Ltac safe_step :=
  match goal with
  | |- guards _ _ _ (mret _) => exact I
  | |- guards _ _ _ (bind_ok _ _) => apply guards_bind_ok; [|intros ?]
  | |- guards _ _ _ (guarded _ _ _) => apply guards_guarded; [apply safe_remove_pending|intros ?]
  | |- guards _ _ _ (_ ≫= _) => apply guards_bind; [|intros ?]
  | |- guards _ _ _ (match ?x with _ => _ end) => destruct x
  | |- guards _ _ _ (if ?x then _ else _) => destruct x
  | |- guards _ _ _ (send _ _) => apply safe_send; try done
  | _ => solve [eauto with kad]
  end.
Ltac safe := repeat safe_step.

Section operations.
Context {S : Type} `{!Storage.t S, !Profile, !HashOrder nat KBucket}.
Context (sha256 : list u8 -> list u8) (to_string : SocketAddr -> list u8).
Context (node_id : NodeId) (addr : SocketAddr).

Abbreviation local_node := (Protocol.local_node node_id addr).
Local Abbreviation safe_prog :=
  (guards (St := Shared S) (R := QueryResult) (node_inv node_id addr) any_change
     (event_ok node_id addr)).

(** ** Remote procedure calls and contacts *)
Lemma safe_health_check n : safe_prog (Protocol.health_check_ping node_id addr n).
Proof. unfold Protocol.health_check_ping. safe. Qed.
Hint Resolve safe_health_check : kad.

Lemma safe_record_contact n : safe_prog (Protocol.record_contact node_id addr n).
Proof. unfold Protocol.record_contact. safe. Qed.
Hint Resolve safe_record_contact : kad.

Lemma safe_request_response n id request :
  RequestMessage.id request = id -> RequestMessage.sender request = local_node ->
  safe_prog (Protocol.request_response node_id addr n id request).
Proof. intros Hid Hs. unfold Protocol.request_response. safe. Qed.
Hint Resolve safe_request_response : kad.

Lemma safe_ping n : safe_prog (Protocol.ping node_id addr n).
Proof. unfold Protocol.ping. safe. Qed.
Lemma safe_store n key value : safe_prog (Protocol.store node_id addr n key value).
Proof. unfold Protocol.store. safe. Qed.
Lemma safe_find_node_rpc n target : safe_prog (Protocol.find_node_rpc node_id addr n target).
Proof. unfold Protocol.find_node_rpc. safe. Qed.
Lemma safe_find_value_rpc n key : safe_prog (Protocol.find_value_rpc node_id addr n key).
Proof. unfold Protocol.find_value_rpc. safe. Qed.
Hint Resolve safe_ping safe_store safe_find_node_rpc safe_find_value_rpc : kad.

(** ** Inbound requests *)
Lemma get_closest_contacts t target :
  table_wf t -> RoutingTable.local_node_id t = node_id ->
  contacts_ok node_id (RoutingTable.get_closest target K t).
Proof.
  intros Hwf Hl. unfold RoutingTable.get_closest. split; [rewrite length_take; lia|].
  intros (n & E & Hn%elem_of_take_l)%list_elem_of_fmap.
  apply elem_of_sort_by, elem_of_get_all_nodes in Hn.
  destruct (in_table_place t n Hwf Hn) as (i & b & Hi & _).
  apply bucket_index_remote in Hi. congruence.
Qed.

(** What a lookup of the table finds, for the program that goes on with it. *)
Lemma safe_bind_closest {A} target (k : list Node -> prog (Shared S) QueryResult A) :
  (forall ns, contacts_ok node_id ns -> safe_prog (k ns)) ->
  safe_prog (Protocol.read_table (RoutingTable.get_closest target K) ≫= k).
Proof.
  intros Hk. apply guards_bind_reading; [done|].
  intros st x (Hwf & Hl & _) [= <-]. apply Hk. by apply get_closest_contacts.
Qed.

Lemma safe_handle_ping id from : safe_prog (Protocol.handle_ping node_id addr id from).
Proof. unfold Protocol.handle_ping. safe. Qed.
Lemma safe_handle_store id key value from :
  safe_prog (Protocol.handle_store node_id addr id key value from).
Proof. unfold Protocol.handle_store. safe. Qed.
Lemma safe_handle_find_node id target from :
  safe_prog (Protocol.handle_find_node node_id addr id target from).
Proof.
  unfold Protocol.handle_find_node. apply safe_bind_closest. intros ns Hns.
  by apply safe_send.
Qed.
Lemma safe_handle_find_value id key from :
  safe_prog (Protocol.handle_find_value node_id addr id key from).
Proof.
  unfold Protocol.handle_find_value. apply guards_bind; [safe|]. intros r.
  destruct (ok r) as [v|]; [by apply safe_send|].
  apply (safe_bind_closest key (fun ns => send from
    (Response (ValueFound id local_node None ns)))).
  intros ns Hns. by apply safe_send.
Qed.
Lemma safe_replicate n : safe_prog (Protocol.replicate_to_new_node node_id addr n).
Proof.
  unfold Protocol.replicate_to_new_node. apply guards_bind; [safe|]. intros keys.
  apply guards_bind; [|done]. apply guards_for_each. intros key _. safe.
Qed.
Hint Resolve safe_handle_ping safe_handle_store safe_handle_find_node safe_handle_find_value
  safe_replicate : kad.
Lemma safe_handle_request req from :
  safe_prog (Protocol.handle_request node_id addr req from).
Proof. unfold Protocol.handle_request. safe. Qed.
Hint Resolve safe_handle_request : kad.

(** ** Lookups *)
Lemma safe_find_node_round target s :
  safe_prog (Lookup.find_node_round node_id addr target s).
Proof.
  unfold Lookup.find_node_round. case_match; [|done]. apply guards_bind; [|done].
  unfold join. rewrite guards_join. split; [|done].
  apply Forall_forall. intros p (n & <- & _)%list_elem_of_In%in_map_iff. auto with kad.
Qed.
Lemma safe_find_node target : safe_prog (Lookup.find_node node_id addr target).
Proof.
  unfold Lookup.find_node. apply guards_bind; [safe|]. intros ns.
  apply guards_bind; [|done]. split_and!; [|apply safe_find_node_round|done].
  intros x. apply safe_find_node_round.
Qed.
Lemma safe_query_task key n : safe_prog (Lookup.query_task node_id addr key n).
Proof. unfold Lookup.query_task. safe. Qed.
Lemma safe_spawn_all key ns : safe_prog (Lookup.spawn_all node_id addr key ns).
Proof.
  induction ns as [|n ns IH]; cbn [Lookup.spawn_all]; [done|].
  apply guards_bind; [split; [apply safe_query_task|done]|]. intros h.
  by apply guards_bind.
Qed.
Lemma safe_await_all key visited hs acc : safe_prog (Lookup.await_all key visited hs acc).
Proof.
  revert acc. induction hs as [|h hs IH]; intros acc; cbn [Lookup.await_all]; [done|].
  apply guards_bind; [done|]. intros [[[n [[v|] ns]]|]|]; auto. safe.
Qed.
Lemma safe_find_value_rounds n key visited ns :
  safe_prog (Lookup.find_value_rounds node_id addr n key visited ns).
Proof.
  revert visited ns. induction n as [|n IH]; intros visited ns; [done|].
  cbn [Lookup.find_value_rounds]. destruct (FindValue.nodes_to_query _ _ _) as [|m ms]; [done|].
  apply guards_bind; [apply safe_spawn_all|]. intros hs.
  apply guards_bind; [apply safe_await_all|]. intros [v|[|a l]]; [done..|apply IH].
Qed.
Lemma safe_find_value key : safe_prog (Lookup.find_value node_id addr key).
Proof.
  unfold Lookup.find_value. apply guards_bind; [safe|]. intros [v|e]; [done|].
  apply guards_bind; [safe|]. intros [|n ns]; [done|].
  apply guards_bind; [apply safe_find_value_rounds|done].
Qed.
Lemma safe_store_value key value : safe_prog (Lookup.store_value node_id addr key value).
Proof.
  unfold Lookup.store_value. apply guards_bind_ok; [safe|]. intros _.
  apply guards_bind; [safe|]. intros ns. apply guards_bind; [|done].
  apply guards_for_each. intros n _. case_decide; [done|].
  split; [|done]. auto with kad.
Qed.
Hint Resolve safe_find_node safe_find_value safe_store_value : kad.

(** ** The node *)
Lemma safe_node_store key value : safe_prog (DhtNode.store node_id addr key value).
Proof.
  unfold DhtNode.store. apply guards_bind; [split; [auto with kad|done]|]. intros r.
  apply guards_bind; [safe|]. intros ns. apply guards_bind; [|done].
  apply guards_for_each. intros n _. case_decide; [done|].
  split; [|done]. auto with kad.
Qed.
Lemma safe_get key : safe_prog (DhtNode.get node_id addr key).
Proof. unfold DhtNode.get. safe. Qed.
Lemma safe_join bootstrap :
  safe_prog (DhtNode.join sha256 to_string node_id addr bootstrap).
Proof. unfold DhtNode.join. safe. Qed.
Lemma safe_refresh : safe_prog (DhtNode.refresh node_id addr).
Proof.
  unfold DhtNode.refresh, DhtNode.random_id. apply guards_bind; [safe|].
  intros [|i idxs]; [safe|]. apply guards_for_each. intros j _. safe.
Qed.
Lemma safe_republish : safe_prog (DhtNode.republish node_id addr).
Proof.
  unfold DhtNode.republish. apply guards_bind; [safe|]. intros items.
  apply guards_for_each. intros p _. safe.
Qed.
Lemma safe_expire : safe_prog DhtNode.expire.
Proof. apply safe_storage_section. Qed.
Lemma safe_forever period body : safe_prog body -> safe_prog (DhtNode.forever period body).
Proof.
  intros Hb. unfold DhtNode.forever, loop. cbn [guards].
  assert (safe_prog (_ ← tick period; _ ← body; mret (inl tt) : prog _ _ (unit + QueryResult)))
    as Hbody; [|by split_and!].
  apply guards_bind; [done|]. intros _. by apply guards_bind.
Qed.
Lemma safe_start : safe_prog (DhtNode.start node_id addr).
Proof.
  unfold DhtNode.start. repeat (apply guards_bind; [split; [apply safe_forever|done]|intros _]).
  - apply safe_refresh.
  - apply safe_republish.
  - apply safe_expire.
  - done.
Qed.
Lemma safe_forward req from : safe_prog (DhtNode.forward_request node_id addr req from).
Proof. unfold DhtNode.forward_request. safe. Qed.

Lemma safe_operation p :
  DhtNode.operation sha256 to_string node_id addr p -> safe_prog p.
Proof.
  intros []; (apply guards_bind; [|done]);
    auto using safe_forward, safe_start, safe_node_store, safe_get, safe_join with kad.
Qed.
End operations.
