(* ===== verification/NodeSpec.v ===== *)
(** * Theorems on nodes and protocol operations *)

From S2P Require Import Prelude Errors Bytes Ident F64 Contact Fixtures Bucket Table.
From S2P Require Import Store Messages Effects Protocol Lookup DhtNode NodeSafety SampleNode.

(** C1: whatever requests arrive, whatever calls are made and tasks run, in any
    interleaving and with any answers of the network, a node's routing table
    keeps its invariant (every contact in the bucket of its distance, at most
    [K] per bucket, the node itself in none), the pending requests are its
    own, and every message it sends is in its own name, offers at most [K]
    contacts and never the node itself. *)
Theorem node_safety {S : Type} `{!Storage.t S, !Profile, !HashOrder nat KBucket}
    sha256 to_string node_id addr (storage0 : S) tr n :
  node_run (DhtNode.operation sha256 to_string node_id addr)
    (MkNode (DhtNode.new node_id storage0) []) tr n ->
  node_inv node_id addr (shared n) /\
  RoutingTable.contains node_id (routing_table (shared n)) = false /\
  Forall (event_ok node_id addr) tr.
Proof.
  intros Hrun.
  destruct (node_run_guards _ (node_inv node_id addr) any_change (event_ok node_id addr)
    any_change_refl (fun _ _ _ _ _ => I) (safe_operation sha256 to_string node_id addr) _ _ _ Hrun)
    as (Hinv & _ & Htr & _); [|constructor|].
  { split_and!; [apply table_wf_empty|done|done|apply map_Forall_empty]. }
  split_and!; [done| |done]. destruct Hinv as (_ & Hl & _).
  unfold RoutingTable.contains, RoutingTable.bucket_index.
  by rewrite Hl, (proj2 (NodeId.bucket_index_None _ _)).
Qed.

Lemma node_safety_witness :
  exists tr n,
    @node_run (Shared MemoryStorage) QueryResult
      (@DhtNode.operation _ sample_storage debug_build listed_order no_hash no_name
         (sample_id 0) (sample_addr 0))
      (MkNode (DhtNode.new (sample_id 0) MemoryStorage.new) []) tr n /\
    length tr = 1 /\ Forall (event_ok (sample_id 0) (sample_addr 0)) tr.
Proof.
  assert (exists tr n, @node_run (Shared MemoryStorage) QueryResult
      (@DhtNode.operation _ sample_storage debug_build listed_order no_hash no_name
         (sample_id 0) (sample_addr 0))
      (MkNode (DhtNode.new (sample_id 0) MemoryStorage.new) []) tr n /\ length tr = 1)
    as (tr & n & Hrun & Hlen).
  { do 2 eexists. split.
    - eapply node_run_step; [apply node_start, (DhtNode.op_request _ _ _ _ (Ping 7 (contact 1)) (sample_addr 1))|].
      eapply node_run_step; [eapply (node_task _ _ 0); [reflexivity|]|].
      + eapply (step_atomic _ _ _ _ _ (MkClock 100 0)); [lock_free|vm_compute; reflexivity].
      + cbn. eapply node_run_step; [eapply (node_task _ _ 0); [reflexivity|]|].
        * eapply (step_send _ _ _ _ _ _ _ (Ok tt)).
        * apply node_run_refl.
    - reflexivity. }
  exists tr, n. split; [exact Hrun|]. split; [exact Hlen|].
  apply (@node_safety _ sample_storage debug_build listed_order no_hash no_name _ _ _ _ _ Hrun).
Defined.
