(* ===== verification/Channel.v ===== *)
(** * The queue of outgoing messages (src/src/network/udp.rs and tcp.rs)

    Both socket transports put serialized messages in a bounded channel that
    one task empties. The channel is tokio's [mpsc]: an interface with laws.
    [bincode] is a parameter. *)

From S2P Require Import Prelude Errors Bytes Ident F64 Contact Store Messages.

(** An element of the channel: the destination and the serialized message. *)
Definition Packet : Type := SocketAddr * list u8.

(** ** [tokio::sync::mpsc] *)
Module Mpsc.
(** [send] gives nothing while the channel is full: the sender waits; its flag
    is false when the receiver is gone. [recv] gives nothing while the
    channel is empty. *)
Class t (C : Type) := {
  channel : nat -> C;
  send : Packet -> C -> option (C * bool);
  recv : C -> option (C * Packet)
}.

(** The documented behaviour: a queue of bounded length. *)
Class Laws (C : Type) `{!t C} := {
  queued : C -> list Packet;
  capacity : C -> nat;
  closed : C -> bool;
  channel_law n : queued (channel n) = [] /\ capacity (channel n) = n /\ closed (channel n) = false;
  send_closed_law p c : closed c = true -> send p c = Some (c, false);
  send_full_law p c : closed c = false -> capacity c <= length (queued c) -> send p c = None;
  send_law p c : closed c = false -> length (queued c) < capacity c ->
    exists c', send p c = Some (c', true) /\
      queued c' = queued c ++ [p] /\ capacity c' = capacity c /\ closed c' = false;
  recv_empty_law c : queued c = [] -> recv c = None;
  recv_law p l c : queued c = p :: l ->
    exists c', recv c = Some (c', p) /\
      queued c' = l /\ capacity c' = capacity c /\ closed c' = closed c
}.

(** What senders and the receiver do with a channel, in order. *)
Inductive event :=
  | Accepted (p : Packet)
  | Taken (p : Packet).
Definition accepted (tr : list event) : list Packet :=
  omap (fun e => match e with Accepted p => Some p | _ => None end) tr.
Definition taken (tr : list event) : list Packet :=
  omap (fun e => match e with Taken p => Some p | _ => None end) tr.

Section runs.
Context {C : Type} `{!t C, !Laws C}.

Inductive step (c : C) : list event -> C -> Prop :=
  | step_send p c' : send p c = Some (c', true) -> step c [Accepted p] c'
  | step_refused p c' : send p c = Some (c', false) -> step c [] c'
  | step_recv p c' : recv c = Some (c', p) -> step c [Taken p] c'.

(** Nothing is lost, duplicated or reordered. *)
Definition fifo (n : nat) (tr : list event) (c : C) : Prop :=
  accepted tr = taken tr ++ queued c /\ length (queued c) <= n /\ capacity c = n.

Lemma fifo_channel n : fifo n [] (channel n).
Proof. destruct (channel_law n) as (Hq & Hc & _). unfold fifo. rewrite Hq. cbn. split_and!; [done|lia|done]. Qed.

Lemma fifo_step n tr c evs c' : fifo n tr c -> step c evs c' -> fifo n (tr ++ evs) c'.
Proof.
  intros (Hf & Hlen & Hcap) Hs. unfold fifo, accepted, taken in *. rewrite !omap_app, Hf.
  destruct Hs as [p c' Hp|p c' Hp|p c' Hp]; cbn; rewrite ?app_nil_r.
  - destruct (closed c) eqn:Hcl; [by rewrite send_closed_law in Hp|].
    destruct (decide (length (queued c) < capacity c)) as [Hlt|Hge];
      [|rewrite send_full_law in Hp; [done|done|lia]].
    destruct (send_law p c Hcl Hlt) as (c1 & E & Hq & Hc1 & _). rewrite Hp in E. injection E as <-.
    rewrite Hq, app_assoc, length_app. cbn. split_and!; [done|lia|congruence].
  - destruct (closed c) eqn:Hcl.
    + rewrite send_closed_law in Hp by done. by injection Hp as <-.
    + destruct (decide (length (queued c) < capacity c)) as [Hlt|Hge];
        [|rewrite send_full_law in Hp; [done|done|lia]].
      destruct (send_law p c Hcl Hlt) as (c1 & E & _). congruence.
  - destruct (queued c) as [|x l] eqn:Hq; [by rewrite recv_empty_law in Hp|].
    destruct (recv_law x l c Hq) as (c1 & E & Hq1 & Hc1 & _). rewrite Hp in E. injection E as <- <-.
    rewrite Hq1. cbn in Hlen. split_and!; [by rewrite <-app_assoc|lia|congruence].
Qed.

Lemma fifo_skip n tr c : fifo n tr c -> fifo n (tr ++ []) c.
Proof. by rewrite app_nil_r. Qed.
End runs.
End Mpsc.

(** ** [send], the same in both transports but for the text of an error *)
Section send.
Context {C : Type} `{!Mpsc.t C} (serialize : KademliaMessage -> option (list u8)) (failure : string).

(** (The message of a serialization error also quotes its cause.) *)
Definition enqueue (to : SocketAddr) (message : KademliaMessage) (sender : C)
    : option (C * Result unit) :=
  match serialize message with
  | None => Some (sender, Err (Other "Serialization error"))
  | Some data =>
      match Mpsc.send (to, data) sender with
      | None => None
      | Some (sender, true) => Some (sender, Ok tt)
      | Some (sender, false) => Some (sender, Err (Network failure))
      end
  end.

Lemma enqueue_ok to m c c' :
  enqueue to m c = Some (c', Ok tt) ->
  exists data, serialize m = Some data /\ Mpsc.step c [Mpsc.Accepted (to, data)] c'.
Proof.
  unfold enqueue. destruct (serialize m) as [data|]; [|done].
  destruct (Mpsc.send (to, data) c) as [[c1 []]|] eqn:Hs; intros [= <-].
  exists data. split; [done|by apply Mpsc.step_send].
Qed.

Lemma enqueue_err to m c c' e :
  enqueue to m c = Some (c', Err e) -> c' = c \/ Mpsc.step c [] c'.
Proof.
  unfold enqueue. destruct (serialize m) as [data|]; [|intros [= <- <-]; by left].
  destruct (Mpsc.send (to, data) c) as [[c1 []]|] eqn:Hs; intros [= <- <-].
  right. by eapply Mpsc.step_refused.
Qed.
End send.

(** ** A channel as a list, for the witnesses *)
Module ListChannel.
Record t := Mk { items : list Packet; limit : nat; receiver_gone : bool }.
#[export] Instance mpsc : Mpsc.t t := {
  Mpsc.channel n := Mk [] n false;
  Mpsc.send p c :=
    if receiver_gone c then Some (c, false)
    else if length (items c) <? limit c then Some (Mk (items c ++ [p]) (limit c) false, true)
    else None;
  Mpsc.recv c :=
    match items c with
    | [] => None
    | p :: l => Some (Mk l (limit c) (receiver_gone c), p)
    end
}.
#[export] Instance mpsc_laws : Mpsc.Laws t.
Proof.
  refine {| Mpsc.queued := items; Mpsc.capacity := limit; Mpsc.closed := receiver_gone |};
    unfold Mpsc.send, Mpsc.recv, mpsc.
  - done.
  - by intros p c ->.
  - intros p c -> Hle. destruct (Nat.ltb_spec (length (items c)) (limit c)); [lia|done].
  - intros p c -> Hlt. destruct (Nat.ltb_spec (length (items c)) (limit c)); [|lia]. by eexists.
  - by intros c ->.
  - intros p l c ->. by eexists.
Defined.
End ListChannel.
Export (hints) ListChannel.
