(* ===== verification/Transport.v ===== *)
(** * Pending responses (shared by src/src/network/udp.rs, tcp.rs and mock.rs)

    The three transports keep the same table: the sending half of a oneshot
    channel for every request somebody waits on.  A channel is its index in
    [channels]. The calls of [wait_response] that use the table are in
    [Waiters]. *)

From S2P Require Import Prelude Errors Bytes Ident F64 Contact Store Messages.

(** A oneshot channel: open, holding a response, or closed by the drop of its
    sender. A receiver that was dropped leaves its channel as it is: nobody
    looks at it any more, and [sender.send] then fails, which the code ignores. *)
Inductive Channel :=
  | Open
  | Delivered (r : ResponseMessage)
  | Closed.

Module Pending.
Record t := Mk {
  pending_responses : gmap MessageId nat;
  channels : list Channel
}.
Add Printing Constructor t.

Definition new : t := Mk ∅ [].

(** Dropping the sender of an open channel closes it. *)
Definition close (c : nat) (chs : list Channel) : list Channel :=
  match chs !! c with
  | Some Open => <[c := Closed]> chs
  | _ => chs
  end.
Definition close_opt (c : option nat) (chs : list Channel) : list Channel :=
  match c with Some c => close c chs | None => chs end.

(** [wait_response], first part: a new channel is registered; a sender
    registered under the same id before is dropped. *)
Definition register (request_id : MessageId) (self : t) : t * nat :=
  let c := length (channels self) in
  (Mk (<[request_id := c]> (pending_responses self))
      (close_opt (pending_responses self !! request_id) (channels self) ++ [Open]), c).

(** An inbound response: the waiter registered under its request id is
    taken out of the table and gets it. *)
Definition deliver_response (response : ResponseMessage) (self : t) : t :=
  let request_id := ResponseMessage.request_id response in
  match pending_responses self !! request_id with
  | Some c => Mk (delete request_id (pending_responses self))
                 (<[c := Delivered response]> (channels self))
  | None => self
  end.

(** [wait_response], after the timeout: the entry of the id is removed. *)
Definition expire (request_id : MessageId) (self : t) : t * Result ResponseMessage :=
  (Mk (delete request_id (pending_responses self))
      (close_opt (pending_responses self !! request_id) (channels self)), Err Timeout).

(** [wait_response], when its receiver is ready: [None] while it is not. *)
Definition poll (c : nat) (self : t) : option (Result ResponseMessage) :=
  match channels self !! c with
  | Some (Delivered r) => Some (Ok r)
  | Some Closed => Some (Err (Network "Response channel closed"))
  | _ => None
  end.

(** [wait_response], its [timeout]: it looks at the receiver first and at its
    deadline then, and changes nothing. [Some None] is the elapsed deadline,
    after which [expire] still has to take the lock; [None] while it waits. *)
Definition timeout (c : nat) (elapsed : bool) (self : t) : option (option (Result ResponseMessage)) :=
  match poll c self with
  | Some r => Some (Some r)
  | None => if elapsed then Some None else None
  end.

(** ** The table points to distinct open channels *)
Definition wf (self : t) : Prop :=
  (forall id c, pending_responses self !! id = Some c -> channels self !! c = Some Open) /\
  (forall id1 id2 c, pending_responses self !! id1 = Some c ->
     pending_responses self !! id2 = Some c -> id1 = id2).

Lemma lookup_close_ne c c' chs : c' <> c -> close c chs !! c' = chs !! c'.
Proof.
  intros Hne. unfold close. repeat case_match; try done. by rewrite list_lookup_insert_ne.
Qed.
Lemma close_settled c ch chs : chs !! c = Some ch -> ch <> Open -> close c chs = chs.
Proof. intros Hc Hch. unfold close. rewrite Hc. by destruct ch. Qed.
Lemma lookup_close_open c chs : chs !! c = Some Open -> close c chs !! c = Some Closed.
Proof.
  intros Hc. unfold close. rewrite Hc. apply list_lookup_insert_eq. by eapply lookup_lt_Some.
Qed.

Lemma length_close c chs : length (close c chs) = length chs.
Proof. unfold close. repeat case_match; rewrite ?length_insert; done. Qed.

Lemma length_close_opt c chs : length (close_opt c chs) = length chs.
Proof. destruct c; [apply length_close|done]. Qed.

Lemma register_wf id self : wf self -> wf (register id self).1.
Proof.
  intros [Hop Hinj].
  assert (forall i c, pending_responses self !! i = Some c -> c < length (channels self)) as Hlt.
  { intros i c Hc. eapply lookup_lt_Some, Hop, Hc. }
  split; cbn.
  - intros i c Hc. destruct (decide (i = id)) as [->|Hne].
    + rewrite lookup_insert_eq in Hc. injection Hc as <-.
      assert (length (close_opt (pending_responses self !! id) (channels self))
        = length (channels self)) as Hl.
      { unfold close_opt. case_match; [apply length_close|done]. }
      rewrite lookup_app_r, Hl, Nat.sub_diag by lia. done.
    + rewrite lookup_insert_ne in Hc by done. pose proof (Hlt _ _ Hc) as Hl.
      unfold close_opt. destruct (pending_responses self !! id) as [c'|] eqn:Hid.
      * rewrite lookup_app_l by (by rewrite length_close). rewrite lookup_close_ne;
          [by eapply Hop|]. intros ->. by apply Hne, (Hinj i id c').
      * rewrite lookup_app_l by done. by eapply Hop.
  - intros i1 i2 c H1 H2. rewrite lookup_insert_Some in H1, H2.
    destruct H1 as [[<- <-]|[Hn1 H1]], H2 as [[<- E]|[Hn2 H2]]; try done.
    + apply Hlt in H2. lia.
    + subst c. apply Hlt in H1. lia.
    + by eapply Hinj.
Qed.

Lemma forget_wf id f self :
  wf self ->
  (forall c, pending_responses self !! id <> Some c -> c < length (channels self) ->
     f !! c = channels self !! c) ->
  wf (Mk (delete id (pending_responses self)) f).
Proof.
  intros [Hop Hinj] Hf. split; cbn.
  - intros i c [Hne Hc]%lookup_delete_Some. rewrite Hf; [by eapply Hop| |].
    + intros Hid. by apply Hne, (Hinj id i c).
    + eapply lookup_lt_Some, Hop, Hc.
  - intros i1 i2 c [_ H1]%lookup_delete_Some [_ H2]%lookup_delete_Some. by eapply Hinj.
Qed.

Lemma deliver_wf r self : wf self -> wf (deliver_response r self).
Proof.
  intros Hwf. unfold deliver_response.
  destruct (pending_responses self !! ResponseMessage.request_id r) as [c|] eqn:Hc; [|done].
  apply forget_wf; [done|]. intros c' Hne _. rewrite list_lookup_insert_ne; congruence.
Qed.

Lemma expire_wf id self : wf self -> wf (expire id self).1.
Proof.
  intros Hwf. apply forget_wf; [done|]. intros c' Hne _. unfold close_opt.
  destruct (pending_responses self !! id) as [c|]; [|done].
  apply lookup_close_ne. congruence.
Qed.

(** A run of the table: the events of waiters and of the receiving task. *)
Inductive step (s : t) : t -> Prop :=
  | step_register id : step s (register id s).1
  | step_deliver r : step s (deliver_response r s)
  | step_expire id : step s (expire id s).1.
Definition steps : t -> t -> Prop := rtc step.

Lemma new_wf : wf new.
Proof.
  split.
  - intros id c Hc. cbn in Hc. by rewrite lookup_empty in Hc.
  - intros id1 id2 c Hc. cbn in Hc. by rewrite lookup_empty in Hc.
Qed.

Lemma step_wf s s' : step s s' -> wf s -> wf s'.
Proof. intros [] Hwf; [by apply register_wf|by apply deliver_wf|by apply expire_wf]. Qed.

Lemma steps_wf_from s s' : steps s s' -> wf s -> wf s'.
Proof. induction 1; eauto using step_wf. Qed.

(** A channel that is not open keeps its content. *)
Lemma step_settled s s' c ch :
  wf s -> step s s' -> ch <> Open -> channels s !! c = Some ch -> channels s' !! c = Some ch.
Proof.
  intros [Hop Hinj] Hs Hch Hc. pose proof (lookup_lt_Some _ _ _ Hc) as Hlt.
  assert (forall id, pending_responses s !! id = Some c -> False) as Hnot.
  { intros id Hid%Hop. congruence. }
  assert (forall id, close_opt (pending_responses s !! id) (channels s) !! c = Some ch) as Hcl.
  { intros id. unfold close_opt. destruct (pending_responses s !! id) as [c'|] eqn:Hid; [|done].
    rewrite lookup_close_ne; [done|]. intros ->. by eapply Hnot. }
  destruct Hs as [id|r|id]; cbn.
  - rewrite lookup_app_l; [apply Hcl|]. unfold close_opt.
    case_match; [by rewrite length_close|done].
  - unfold deliver_response. destruct (pending_responses s !! _) as [c'|] eqn:Hid; [|done]. cbn.
    rewrite list_lookup_insert_ne; [done|]. intros ->. by eapply Hnot.
  - apply Hcl.
Qed.

Lemma steps_settled s s' c ch :
  steps s s' -> wf s -> ch <> Open -> channels s !! c = Some ch -> channels s' !! c = Some ch.
Proof.
  induction 1; [done|]. intros Hwf Hch Hc. eauto using step_wf, step_settled.
Qed.

(** A waiter that still waits is still registered, under its own id. *)
Lemma step_registered s s' id c :
  wf s -> c < length (channels s) -> step s s' ->
  (channels s !! c = Some Open -> pending_responses s !! id = Some c) ->
  c < length (channels s') /\
  (channels s' !! c = Some Open -> pending_responses s' !! id = Some c).
Proof.
  intros Hwf Hlt Hs Hreg. pose proof Hwf as [Hop Hinj].
  assert (channels s !! c = Some Open \/ exists ch, channels s !! c = Some ch /\ ch <> Open)
    as [Ho|(ch & Hc & Hch)].
  { destruct (lookup_lt_is_Some_2 _ _ Hlt) as [[] Hc]; [by left|right; eauto..]. }
  2: { pose proof (step_settled s s' c ch Hwf Hs Hch Hc) as Hc'.
       split; [by eapply lookup_lt_Some|]. rewrite Hc'. by intros [= ->]. }
  specialize (Hreg Ho). destruct Hs as [i|r|i]; cbn.
  - split.
    { unfold close_opt. case_match; rewrite length_app, ?length_close; lia. }
    intros Ho'. destruct (decide (i = id)) as [->|Hne]; [|by rewrite lookup_insert_ne].
    rewrite Hreg in Ho'. cbn in Ho'. rewrite lookup_app_l in Ho' by (by rewrite length_close).
    by rewrite lookup_close_open in Ho'.
  - unfold deliver_response.
    destruct (pending_responses s !! ResponseMessage.request_id r) as [c'|] eqn:Hc'; [|done]. cbn.
    rewrite length_insert. split; [done|]. destruct (decide (c = c')) as [<-|Hne].
    + by rewrite list_lookup_insert_eq.
    + intros _. rewrite lookup_delete_ne; [done|]. congruence.
  - unfold close_opt. destruct (decide (i = id)) as [->|Hne].
    + rewrite Hreg, length_close. split; [done|]. by rewrite lookup_close_open.
    + rewrite lookup_delete_ne by done. split; [|done]. case_match; by rewrite ?length_close.
Qed.

Lemma steps_registered s s' id c :
  steps s s' -> wf s -> c < length (channels s) ->
  (channels s !! c = Some Open -> pending_responses s !! id = Some c) ->
  channels s' !! c = Some Open -> pending_responses s' !! id = Some c.
Proof.
  induction 1 as [s|s s1 s2 Hs _ IH]; intros Hwf Hlt Hreg; [done|].
  destruct (step_registered s s1 id c Hwf Hlt Hs Hreg) as [Hlt1 Hreg1].
  apply IH; [by eapply step_wf|done|done].
Qed.

(** ** What the operations do to the calls that wait *)
Lemma poll_None c self : c < length (channels self) -> poll c self = None -> channels self !! c = Some Open.
Proof. intros [ch Hc]%lookup_lt_is_Some_2. unfold poll. rewrite Hc. by destruct ch. Qed.

Lemma steps_answered s s' c r :
  wf s -> steps s s' -> poll c s = Some (Ok r) -> poll c s' = Some (Ok r).
Proof.
  intros Hwf Hs Hp. unfold poll in *.
  destruct (channels s !! c) as [[|y|]|] eqn:Hc; try done. injection Hp as ->.
  by rewrite (steps_settled s s' c (Delivered r)).
Qed.

Lemma deliver_registered r self c :
  wf self -> pending_responses self !! ResponseMessage.request_id r = Some c ->
  let self' := deliver_response r self in
  poll c self' = Some (Ok r) /\
  pending_responses self' = delete (ResponseMessage.request_id r) (pending_responses self) /\
  forall c', c' <> c -> poll c' self' = poll c' self.
Proof.
  intros [Hop _] Hc. unfold deliver_response, poll. cbv zeta. rewrite Hc. cbn.
  pose proof (lookup_lt_Some _ _ _ (Hop _ _ Hc)). split_and!; [|done|].
  - by rewrite list_lookup_insert_eq.
  - intros c' Hne. by rewrite list_lookup_insert_ne.
Qed.

Lemma register_waits id self : let '(self', c) := register id self in poll c self' = None.
Proof.
  unfold poll. cbn. by rewrite lookup_app_r, length_close_opt, Nat.sub_diag by (by rewrite length_close_opt).
Qed.

Lemma register_replaces id self c :
  wf self -> pending_responses self !! id = Some c ->
  poll c (register id self).1 = Some (Err (Network "Response channel closed")).
Proof.
  intros [Hop _] Hc. pose proof (Hop _ _ Hc) as Ho. pose proof (lookup_lt_Some _ _ _ Ho).
  unfold poll. cbn. rewrite Hc. cbn. rewrite lookup_app_l by (by rewrite length_close).
  by rewrite lookup_close_open.
Qed.

Lemma expire_fails id self c :
  wf self -> pending_responses self !! id = Some c ->
  poll c (expire id self).1 = Some (Err (Network "Response channel closed")).
Proof.
  intros [Hop _] Hc. unfold poll. cbn. rewrite Hc. cbn. by rewrite lookup_close_open by eauto.
Qed.

Lemma expire_others id self c :
  pending_responses self !! id <> Some c -> poll c (expire id self).1 = poll c self.
Proof.
  intros Hc. unfold poll. cbn. destruct (pending_responses self !! id) as [c'|]; [|done]. cbn.
  rewrite lookup_close_ne; congruence.
Qed.
End Pending.
Abbreviation Pending := Pending.t.

(** ** The calls of [wait_response]

    Call [i] waits on channel [i], since each call makes one. *)
Module Waiters.
Inductive state :=
  | Waiting
  | TimedOut  (** past its deadline, before it has the lock to remove the entry *)
  | Returned (r : Result ResponseMessage)
  | Dropped.  (** by its caller, whose own deadline came first *)

Record t := Mk {
  table : Pending;
  calls : list (MessageId * state)
}.
Add Printing Constructor t.

Definition init : t := Mk Pending.new [].
Definition set_call (i : nat) (id : MessageId) (st : state) (p : Pending) (s : t) : t :=
  Mk p (<[i := (id, st)]> (calls s)).

(** A call starts; a response arrives; [timeout] is done with a call; a call
    past its deadline removes the entry of its id; a call is dropped. *)
Inductive step (s : t) : t -> Prop :=
  | step_start id :
      step s (Mk (Pending.register id (table s)).1 (calls s ++ [(id, Waiting)]))
  | step_deliver r : step s (Mk (Pending.deliver_response r (table s)) (calls s))
  | step_timeout i id elapsed o :
      calls s !! i = Some (id, Waiting) -> Pending.timeout i elapsed (table s) = Some o ->
      step s (set_call i id (match o with Some r => Returned r | None => TimedOut end) (table s) s)
  | step_expire i id p r :
      calls s !! i = Some (id, TimedOut) -> Pending.expire id (table s) = (p, r) ->
      step s (set_call i id (Returned r) p s)
  | step_drop i id st :
      calls s !! i = Some (id, st) -> st = Waiting \/ st = TimedOut ->
      step s (set_call i id Dropped (table s) s).
Definition reachable : t -> Prop := rtc step init.

(** The ids waited on, and the last call on one of them. *)
Definition ids (s : t) : list MessageId := (calls s).*1.
Definition latest (s : t) (id : MessageId) (i : nat) : Prop :=
  ids s !! i = Some id /\ forall j, i < j -> ids s !! j <> Some id.

Definition inv (s : t) : Prop :=
  Pending.wf (table s) /\
  length (Pending.channels (table s)) = length (ids s) /\
  (forall id c, Pending.pending_responses (table s) !! id = Some c -> latest s id c) /\
  (forall i id, ids s !! i = Some id -> Pending.channels (table s) !! i = Some Open ->
     Pending.pending_responses (table s) !! id = Some i).

(** Only the start of a call adds an id. *)
Lemma set_call_ids i id st st' p s : calls s !! i = Some (id, st) -> ids (set_call i id st' p s) = ids s.
Proof.
  intros Hi. unfold ids. cbn. rewrite list_fmap_insert. apply list_insert_id.
  by rewrite list_lookup_fmap, Hi.
Qed.

(** A step starts a call, or does not let the table grow. *)
Inductive kind (s s' : t) : Prop :=
  | kind_start id :
      s' = Mk (Pending.register id (table s)).1 (calls s ++ [(id, Waiting)]) -> kind s s'
  | kind_shrink :
      ids s' = ids s -> rtc Pending.step (table s) (table s') ->
      length (Pending.channels (table s')) = length (Pending.channels (table s)) ->
      Pending.pending_responses (table s') ⊆ Pending.pending_responses (table s) -> kind s s'.

Lemma step_kind s s' : step s s' -> kind s s'.
Proof.
  destruct 1 as [id|r|i id elapsed o Hi Ho|i id p r Hi [= <- <-]|i id st Hi Hst].
  - by eapply kind_start.
  - apply kind_shrink; [done|apply rtc_once, Pending.step_deliver|..];
      cbn; unfold Pending.deliver_response; case_match; cbn; rewrite ?length_insert;
      done || apply delete_subseteq.
  - apply kind_shrink; [by eapply set_call_ids|done..].
  - apply kind_shrink; [by eapply set_call_ids|apply rtc_once, (Pending.step_expire _ id)|..]; cbn.
    + apply Pending.length_close_opt.
    + apply delete_subseteq.
  - apply kind_shrink; [by eapply set_call_ids|done..].
Qed.

Lemma kind_steps s s' : kind s s' -> Pending.steps (table s) (table s').
Proof. destruct 1 as [id ->|]; [apply rtc_once, (Pending.step_register _ id)|done]. Qed.

Lemma inv_init : inv init.
Proof.
  split_and!; [apply Pending.new_wf|done|..].
  - intros id c Hc. cbn in Hc. by rewrite lookup_empty in Hc.
  - done.
Qed.

Lemma inv_start id s :
  inv s -> inv (Mk (Pending.register id (table s)).1 (calls s ++ [(id, Waiting)])).
Proof.
  intros (Hwf & Hlen & Hlast & Hopen).
  assert (ids (Mk (Pending.register id (table s)).1 (calls s ++ [(id, Waiting)])) = ids s ++ [id])
    as Hids by (unfold ids; cbn; by rewrite fmap_app).
  unfold inv, latest. rewrite Hids, length_app. split_and!.
  - by apply Pending.register_wf.
  - cbn. rewrite length_app, Pending.length_close_opt, Hlen. done.
  - intros id' c Hc. cbn in Hc. rewrite lookup_insert_Some in Hc. destruct Hc as [[<- <-]|[Hne Hc]].
    + rewrite Hlen, lookup_app_r, Nat.sub_diag by done. split; [done|].
      intros j Hj. rewrite lookup_ge_None_2; [done|]. rewrite length_app. cbn. lia.
    + apply Hlast in Hc as [Hc Hlater]. pose proof (lookup_lt_Some _ _ _ Hc).
      rewrite lookup_app_l by done. split; [done|]. intros j Hj [Hj'|[_ Hj']]%lookup_app_Some.
      * by eapply Hlater.
      * by apply list_lookup_singleton_Some in Hj' as [_ ->].
  - intros i id' [Hi|[Hge Hi]]%lookup_app_Some Ho.
    + eapply (Pending.step_registered (table s)); [done| |apply Pending.step_register|by apply Hopen|done].
      rewrite Hlen. by eapply lookup_lt_Some.
    + apply list_lookup_singleton_Some in Hi as [Hi <-]. cbn.
      rewrite lookup_insert_eq, Hlen. f_equal. lia.
Qed.

Lemma kind_inv s s' : inv s -> kind s s' -> inv s'.
Proof.
  intros Hinv [id ->|Hids Hst Hlen' Hsub]; [by apply inv_start|].
  destruct Hinv as (Hwf & Hlen & Hlast & Hopen).
  unfold inv, latest in *. rewrite Hids. split_and!.
  - by eapply Pending.steps_wf_from.
  - congruence.
  - intros id c Hc. by eapply Hlast, lookup_weaken.
  - intros i id Hi. eapply Pending.steps_registered; [done..| |by apply Hopen].
    rewrite Hlen. by eapply lookup_lt_Some.
Qed.

Lemma reachable_inv s : reachable s -> inv s.
Proof.
  intros Hs. assert (forall s0, rtc step s0 s -> inv s0 -> inv s) as Hind.
  { clear. induction 1; eauto using kind_inv, step_kind. }
  apply (Hind init Hs), inv_init.
Qed.

Lemma steps_table s s' : rtc step s s' -> Pending.steps (table s) (table s').
Proof.
  induction 1 as [s|s s1 s2 Hs _ IH]; [done|].
  etrans; [by apply kind_steps, step_kind|done].
Qed.

(** An entry is replaced by a new call on its id, and goes away with a response
    for its id or with a call on its id that has passed its deadline. *)
Lemma entry_lost s s' id c :
  step s s' -> Pending.pending_responses (table s) !! id = Some c ->
  Pending.pending_responses (table s') !! id <> Some c ->
  (exists r, ResponseMessage.request_id r = id /\ s' = Mk (Pending.deliver_response r (table s)) (calls s)) \/
  calls s' = calls s ++ [(id, Waiting)] \/
  exists i, calls s !! i = Some (id, TimedOut) /\
    calls s' !! i = Some (id, Returned (Err Timeout)).
Proof.
  intros Hs Hc Hlost. destruct Hs as [id'|r|i id' elapsed o Hi Ho|i id' p r Hi [= <- <-]|i id' st Hi Hst];
    try done; cbn in Hlost.
  - destruct (decide (id' = id)) as [->|Hne]; [eauto|by rewrite lookup_insert_ne in Hlost].
  - left. exists r. split; [|done]. revert Hlost. unfold Pending.deliver_response.
    destruct (decide (ResponseMessage.request_id r = id)) as [|Hne]; [done|].
    destruct (_ !! ResponseMessage.request_id r); [|done]. cbn.
    by rewrite lookup_delete_ne.
  - destruct (decide (id' = id)) as [->|Hne]; [|by rewrite lookup_delete_ne in Hlost].
    right; right. exists i. split; [done|]. cbn. apply list_lookup_insert_eq. by eapply lookup_lt_Some.
Qed.
End Waiters.
