(* ===== verification/Udp.v ===== *)
(** * The UDP transport (src/src/network/udp.rs)

    The rate limiter, the receiving task, one datagram at a time, and the
    retries of the sending task, then the whole transport: its creation, the
    outgoing channel, the waiters, and the steps its tasks and callers make.
    The socket and [bincode] are parameters. *)

From S2P Require Import Prelude Errors Bytes Ident F64 Contact Store Messages Transport.
From S2P Require Import Channel.

Definition MAX_DATAGRAM_SIZE : nat := Z.to_nat 65507.
Definition RATE_LIMIT_WINDOW : Duration := from_secs 60.
Definition MAX_REQUESTS_PER_WINDOW : nat := 100.

(** [now.duration_since(t)]: zero when [t] is later. *)
Definition duration_since (now t : Instant) : Duration := Z.max 0 (now - t).

Module UdpNetwork.
Record RateLimitEntry := MkEntry {
  window_start : Instant;
  request_count : nat
}.
Add Printing Constructor RateLimitEntry.

Abbreviation rate_limit_table := (gmap IpAddr RateLimitEntry).

Definition check_rate_limit (now : Instant) (ip : IpAddr) (table : rate_limit_table)
    : rate_limit_table * bool :=
  let entry := default (MkEntry now 0) (table !! ip) in
  let entry :=
    if Z.ltb RATE_LIMIT_WINDOW (duration_since now (window_start entry)) then MkEntry now 0
    else entry in
  if MAX_REQUESTS_PER_WINDOW <=? request_count entry then (<[ip := entry]> table, false)
  else (<[ip := MkEntry (window_start entry) (S (request_count entry))]> table, true).

(** The state of the transport that the receiving task works on. *)
Record t := Mk {
  pending_responses : Pending;
  request_handler : bool;  (** a handler is registered *)
  rate_limits : rate_limit_table
}.
Add Printing Constructor t.

Definition set_request_handler (self : t) : t := Mk (pending_responses self) true (rate_limits self).

(** A request the handler is spawned on, with the address it is answered to. *)
Definition Spawned : Type := RequestMessage * SocketAddr.

Section incoming.
Variable deserialize : list u8 -> option KademliaMessage.

(** One [recv_from] of [data] from [src] at time [now]. *)
Definition handle_datagram (now : Instant) (src : SocketAddr) (data : list u8) (self : t)
    : t * option Spawned :=
  match data with
  | [] => (self, None)
  | _ :: _ =>
      match deserialize data with
      | Some (Response response) =>
          (Mk (Pending.deliver_response response (pending_responses self))
              (request_handler self) (rate_limits self), None)
      | Some (Request request) =>
          let '(limits, is_allowed) := check_rate_limit now (ip src) (rate_limits self) in
          let self := Mk (pending_responses self) (request_handler self) limits in
          if negb is_allowed then (self, None)
          else if request_handler self then (self, Some (request, src))
          else (self, None)
      | None => (self, None)
      end
  end.

Fixpoint handle_incoming (datagrams : list (Instant * SocketAddr * list u8)) (self : t)
    : t * list Spawned :=
  match datagrams with
  | [] => (self, [])
  | (now, src, data) :: rest =>
      let '(self, s) := handle_datagram now src data self in
      let '(self, ss) := handle_incoming rest self in
      (self, match s with Some s => s :: ss | None => ss end)
  end.
End incoming.

Definition MAX_RETRIES : nat := 3.
Definition RETRY_DELAY_MS : Z := 500.

(** [handle_outgoing], for one message: [send_to attempt] is what the
    socket answers; the result is whether it was sent, the attempts made and
    the milliseconds slept. *)
Section outgoing.
Variable send_to : nat -> bool.
Fixpoint send_attempts (attempt n : nat) (slept : Z) : bool * nat * Z :=
  match n with
  | 0 => (false, attempt - 1, slept)
  | S n' =>
      if send_to attempt then (true, attempt, slept)
      else send_attempts (S attempt) n'
             (if attempt <? MAX_RETRIES then (slept + RETRY_DELAY_MS)%Z else slept)
  end.
Definition send_with_retries : bool * nat * Z := send_attempts 1 MAX_RETRIES 0.
End outgoing.

(** ** The transport and its tasks *)
Section endpoint.
Context {C : Type} `{!Mpsc.t C}.

(** A [UdpNetwork]: what it shares with its tasks. The sending task has the
    other end of the channel. *)
Record Endpoint := MkEndpoint { shared : t; sender : C }.
Definition set_shared (f : t -> t) (self : Endpoint) : Endpoint :=
  MkEndpoint (f (shared self)) (sender self).
Definition set_pending (f : Pending -> Pending) (self : t) : t :=
  Mk (f (pending_responses self)) (request_handler self) (rate_limits self).

(** [new]; [bind] is the result of binding the socket. The two tasks it
    spawns are [step_receive] and [step_outgoing] below. *)
Definition new (bind : Result unit) : Result Endpoint :=
  _ ← bind; mret (MkEndpoint (Mk Pending.new false ∅) (Mpsc.channel 100)).

(** [send]: nothing while it waits for room in the channel. *)
Definition send (serialize : KademliaMessage -> option (list u8)) (to : SocketAddr)
    (message : KademliaMessage) (self : Endpoint) : option (Endpoint * Result unit) :=
  '(c, r) ← enqueue serialize "Failed to send message" to message (sender self);
  mret (MkEndpoint (shared self) c, r).

(** [wait_response]: its first part, its [timeout], and what it does when that
    has run out. *)
Definition wait_response (request_id : MessageId) (self : Endpoint) : Endpoint * nat :=
  let '(pending, c) := Pending.register request_id (pending_responses (shared self)) in
  (set_shared (set_pending (fun _ => pending)) self, c).
Definition wait_timeout (c : nat) (elapsed : bool) (self : Endpoint)
    : option (option (Result ResponseMessage)) :=
  Pending.timeout c elapsed (pending_responses (shared self)).
Definition wait_expired (request_id : MessageId) (self : Endpoint) : Endpoint * Result ResponseMessage :=
  let '(pending, r) := Pending.expire request_id (pending_responses (shared self)) in
  (set_shared (set_pending (fun _ => pending)) self, r).

(** One iteration of [handle_outgoing]: nothing while the channel is empty. *)
Definition handle_outgoing (send_to : Packet -> nat -> bool) (self : Endpoint)
    : option (Endpoint * (Packet * (bool * nat * Z))) :=
  '(c, p) ← Mpsc.recv (sender self);
  mret (MkEndpoint (shared self) c, (p, send_with_retries (send_to p))).

(** What the outside sees. *)
Inductive event :=
  | Queued (p : Packet)
  | Transmitted (p : Packet) (sent : bool) (attempts : nat)
  | Handling (s : Spawned).

(** Everything that happens to the transport: a datagram arrives (an error of
    the socket changes nothing), a caller sends, waits for a response, is
    done waiting, removes the entry it waited on, the sending task handles one packet, a handler is set. *)
Inductive step (serialize : KademliaMessage -> option (list u8))
    (deserialize : list u8 -> option KademliaMessage) (self : Endpoint)
    : list event -> Endpoint -> Prop :=
  | step_receive now src data inner s :
      handle_datagram deserialize now src data (shared self) = (inner, s) ->
      step serialize deserialize self (match s with Some s => [Handling s] | None => [] end)
        (MkEndpoint inner (sender self))
  | step_send to m data self' :
      serialize m = Some data -> send serialize to m self = Some (self', Ok tt) ->
      step serialize deserialize self [Queued (to, data)] self'
  | step_send_failed to m e self' :
      send serialize to m self = Some (self', Err e) -> step serialize deserialize self [] self'
  | step_outgoing send_to p sent attempts slept self' :
      handle_outgoing send_to self = Some (self', (p, (sent, attempts, slept))) ->
      step serialize deserialize self [Transmitted p sent attempts] self'
  | step_wait id c self' :
      wait_response id self = (self', c) -> step serialize deserialize self [] self'
  | step_wait_timeout c elapsed o :
      wait_timeout c elapsed self = Some o -> step serialize deserialize self [] self
  | step_wait_expired id r self' :
      wait_expired id self = (self', r) -> step serialize deserialize self [] self'
  | step_set_request_handler :
      step serialize deserialize self [] (set_shared set_request_handler self).

Inductive run (serialize : KademliaMessage -> option (list u8))
    (deserialize : list u8 -> option KademliaMessage) (self : Endpoint)
    : list event -> Endpoint -> Prop :=
  | run_refl : run serialize deserialize self [] self
  | run_snoc tr self1 evs self2 :
      run serialize deserialize self tr self1 -> step serialize deserialize self1 evs self2 ->
      run serialize deserialize self (tr ++ evs) self2.
End endpoint.
Arguments MkEndpoint {C} shared sender.
End UdpNetwork.

(** ** The rate limiter over time *)

(** The calls of [check_rate_limit] for one address, in order; the times of
    those that were allowed, oldest first. *)
Fixpoint allowed_times (addr : IpAddr) (times : list Z) (table : UdpNetwork.rate_limit_table)
    : list Z :=
  match times with
  | [] => []
  | now :: rest =>
      let '(table, ok) := UdpNetwork.check_rate_limit now addr table in
      if ok : bool then now :: allowed_times addr rest table else allowed_times addr rest table
  end.

(** A check looks at and changes the entry of its address only. *)
Lemma check_rate_limit_other now a a' table :
  a' <> a -> (UdpNetwork.check_rate_limit now a table).1 !! a' = table !! a'.
Proof.
  intros Hne. unfold UdpNetwork.check_rate_limit.
  repeat case_match; simplify_eq/=; by rewrite lookup_insert_ne.
Qed.

Lemma check_rate_limit_local now a t1 t2 :
  t1 !! a = t2 !! a ->
  (UdpNetwork.check_rate_limit now a t1).2 = (UdpNetwork.check_rate_limit now a t2).2 /\
  (UdpNetwork.check_rate_limit now a t1).1 !! a = (UdpNetwork.check_rate_limit now a t2).1 !! a.
Proof.
  intros E. unfold UdpNetwork.check_rate_limit. rewrite E.
  generalize (if Z.ltb RATE_LIMIT_WINDOW (duration_since now
      (UdpNetwork.window_start (default (UdpNetwork.MkEntry now 0) (t2 !! a))))
    then UdpNetwork.MkEntry now 0 else default (UdpNetwork.MkEntry now 0) (t2 !! a)).
  intros entry. destruct (_ <=? _); cbn; by rewrite !lookup_insert_eq.
Qed.

Lemma allowed_times_local a times t1 t2 :
  t1 !! a = t2 !! a -> allowed_times a times t1 = allowed_times a times t2.
Proof.
  revert t1 t2. induction times as [|now times IH]; intros t1 t2 E; cbn [allowed_times]; [done|].
  destruct (check_rate_limit_local now a t1 t2 E) as [Eok Et].
  destruct (UdpNetwork.check_rate_limit now a t1) as [t1' ok1].
  destruct (UdpNetwork.check_rate_limit now a t2) as [t2' ok2]. cbn in Eok, Et. subst ok2.
  destruct ok1; [f_equal|]; by apply IH.
Qed.

(** The number of times in the interval from [a] to [a + 60 s]. *)
Definition in_window (a : Z) (ts : list Z) : nat :=
  length (filter (fun t => (a <= t <= a + RATE_LIMIT_WINDOW)%Z) ts).

Lemma in_window_split ws a l :
  in_window a l = in_window a (filter (fun t => (ws <= t)%Z) l) +
                  in_window a (filter (fun t => ~ (ws <= t)%Z) l).
Proof. apply length_filter_split. Qed.

Lemma rate_window_pos : (0 <= RATE_LIMIT_WINDOW)%Z.
Proof. done. Qed.

Lemma in_window_le a l : in_window a l <= length l.
Proof. apply length_filter. Qed.

Lemma in_window_none a l :
  Forall (fun t => ~ (a <= t <= a + RATE_LIMIT_WINDOW)%Z) l -> in_window a l = 0.
Proof.
  unfold in_window. induction 1 as [|x l Hx _ IH]; [done|]. by rewrite filter_cons, decide_False.
Qed.

(** What holds of the allowed requests [past] when the address's entry has
    window start [ws] and count [n], at time [now]. *)
Record limiter_inv (now ws : Z) (n : nat) (past : list Z) : Prop := {
  li_start : (ws <= now)%Z;
  li_count : n <= MAX_REQUESTS_PER_WINDOW;
  li_past : Forall (fun t => (t <= now)%Z) past;
  li_window : Forall (fun t => (t <= ws + RATE_LIMIT_WINDOW)%Z) past;
  li_current : length (filter (fun t => (ws <= t)%Z) past) <= n;
  li_old a : in_window a (filter (fun t => ~ (ws <= t)%Z) past) <=
    (if Z.leb ws (a + RATE_LIMIT_WINDOW) then MAX_REQUESTS_PER_WINDOW
     else 2 * MAX_REQUESTS_PER_WINDOW)
}.

Lemma limiter_new now : limiter_inv now now 0 [].
Proof. split; try constructor; cbn; lia. Qed.

Lemma limiter_total now ws n past a :
  limiter_inv now ws n past -> in_window a past <= 2 * MAX_REQUESTS_PER_WINDOW.
Proof.
  intros [_ Hn _ _ Hcur Hold]. rewrite (in_window_split ws). specialize (Hold a).
  destruct (Z.leb_spec ws (a + RATE_LIMIT_WINDOW)).
  - pose proof (in_window_le a (filter (fun t => (ws <= t)%Z) past)). lia.
  - rewrite (in_window_none a (filter (fun t => (ws <= t)%Z) past)); [lia|].
    apply Forall_forall. intros t [Ht _]%list_elem_of_filter. lia.
Qed.

Lemma limiter_advance now now' ws n past :
  (now <= now')%Z -> limiter_inv now ws n past -> limiter_inv now' ws n past.
Proof.
  intros Hle [Hs Hn Hp Hw Hc Ho]. split; [lia|done| |done..].
  eapply Forall_impl; [exact Hp|]. cbn. lia.
Qed.

(** A new window starts more than 60 s after the old one. *)
Lemma limiter_reset now ws n past :
  (ws + RATE_LIMIT_WINDOW < now)%Z -> limiter_inv now ws n past -> limiter_inv now now 0 past.
Proof.
  intros Hlt Hinv. pose proof Hinv as [Hs Hn Hp Hw Hc Ho].
  assert (Forall (fun t => ~ (now <= t)%Z) past) as Hold.
  { eapply Forall_impl; [exact Hw|]. cbn. lia. }
  assert (filter (fun t => (now <= t)%Z) past = []) as Enew.
  { clear -Hold. induction Hold as [|t past Ht _ IH]; [done|]. by rewrite filter_cons, decide_False. }
  assert (filter (fun t => ~ (now <= t)%Z) past = past) as Eold.
  { clear -Hold. induction Hold as [|t past Ht _ IH]; [done|].
    rewrite filter_cons_True by done. by f_equal. }
  split; [lia|lia|done| |by rewrite Enew|].
  { eapply Forall_impl; [exact Hp|]. pose proof rate_window_pos. cbn -[RATE_LIMIT_WINDOW]. lia. }
  intros a. rewrite Eold. destruct (Z.leb_spec now (a + RATE_LIMIT_WINDOW)); [|by eapply limiter_total].
  rewrite (in_window_split ws). rewrite (in_window_none a (filter (fun t => ~ (ws <= t)%Z) past)).
  - pose proof (in_window_le a (filter (fun t => (ws <= t)%Z) past)). lia.
  - apply Forall_forall. intros t [Ht _]%list_elem_of_filter. lia.
Qed.

Lemma limiter_allow now ws n past :
  (now <= ws + RATE_LIMIT_WINDOW)%Z -> n < MAX_REQUESTS_PER_WINDOW ->
  limiter_inv now ws n past -> limiter_inv now ws (S n) (past ++ [now]).
Proof.
  intros Hle Hlt [Hs Hn Hp Hw Hc Ho]. split; [done|lia|..].
  - apply Forall_app. split; [done|]. repeat constructor. lia.
  - apply Forall_app. split; [done|]. by repeat constructor.
  - rewrite filter_app, length_app, (filter_cons_True _ now []) by done.
    rewrite filter_nil. cbn [length]. lia.
  - intros a. rewrite filter_app, (filter_cons_False _ now []) by tauto.
    rewrite filter_nil, app_nil_r. apply Ho.
Qed.

(** One check, in an entry that satisfies the invariant. *)
Lemma limiter_step now now' addr table ws n past :
  (now <= now')%Z -> limiter_inv now ws n past ->
  table !! addr = Some (UdpNetwork.MkEntry ws n) ->
  exists ws' n' (ok : bool),
    UdpNetwork.check_rate_limit now' addr table =
      (<[addr := UdpNetwork.MkEntry ws' n']> table, ok) /\
    limiter_inv now' ws' n' (if ok then past ++ [now'] else past).
Proof.
  intros Hle Hinv%(limiter_advance now now'); [|done]. intros Hent.
  pose proof (li_start _ _ _ _ Hinv) as Hs.
  unfold UdpNetwork.check_rate_limit, duration_since. rewrite Hent.
  cbn [default from_option id UdpNetwork.window_start]. unfold id. cbn [UdpNetwork.window_start].
  rewrite Z.max_r by lia.
  destruct (Z.ltb_spec RATE_LIMIT_WINDOW (now' - ws)); cbn [UdpNetwork.request_count].
  - exists now', 1, true. split; [done|].
    apply limiter_allow; [pose proof rate_window_pos; lia| |].
    + unfold MAX_REQUESTS_PER_WINDOW. lia.
    + eapply limiter_reset; [|done]. lia.
  - destruct (Nat.leb_spec MAX_REQUESTS_PER_WINDOW n).
    + by exists ws, n, false.
    + exists ws, (S n), true. split; [done|]. apply limiter_allow; [lia|done..].
Qed.

Lemma allowed_times_bound addr times now table ws n past a :
  limiter_inv now ws n past -> table !! addr = Some (UdpNetwork.MkEntry ws n) ->
  StronglySorted Z.le (now :: times) ->
  in_window a (past ++ allowed_times addr times table) <= 2 * MAX_REQUESTS_PER_WINDOW.
Proof.
  revert now table ws n past. induction times as [|now' times IH];
    intros now table ws n past Hinv Hent Hsort; cbn [allowed_times].
  - rewrite app_nil_r. by eapply limiter_total.
  - apply StronglySorted_cons in Hsort as [Hnow Hsort]. apply Forall_cons in Hnow as [Hle _].
    destruct (limiter_step now now' addr table ws n past Hle Hinv Hent)
      as (ws' & n' & ok & -> & Hinv').
    destruct ok.
    + rewrite cons_middle, app_assoc.
      apply (IH now' _ ws' n'); [done|by rewrite lookup_insert_eq|done].
    + apply (IH now' _ ws' n'); [done|by rewrite lookup_insert_eq|done].
Qed.
