(* ===== verification/Tcp.v ===== *)
(** * The TCP transport (src/src/network/tcp.rs)

    Framing and the handler of one connection, then the whole transport: its
    creation, the accept loop, the outgoing channel, the waiters. A connection
    is the bytes the peer sends before it closes its side. Sockets and
    [bincode] are parameters. *)

From S2P Require Import Prelude Errors Bytes Ident F64 Contact Store Messages Transport.
From S2P Require Import Channel.

Definition MAX_FRAME_SIZE : Z := 16 * 1024 * 1024.

Module TcpNetwork.
(** [write_frame]: a big-endian 32-bit length, then the data. *)
Definition write_frame (data : list u8) : Result (list u8) :=
  let len := Z.of_nat (length data) in
  if Z.ltb MAX_FRAME_SIZE len then Err (Network "Frame too large")
  else Ok (NodeId.be_bytes 4 len ++ data).

(** [read_frame] on the bytes left: what it returns and the bytes left
    after it. [read_u32] and [read_exact] fail with [UnexpectedEof] on a
    stream that ends too early. (The message of the size error also quotes
    the size.) *)
Definition read_frame (stream : list u8) : Result (option (list u8)) * list u8 :=
  if length stream <? 4 then (Ok None, [])
  else
    let len := be_val (take 4 stream) in
    let stream := drop 4 stream in
    if Z.eqb len 0 || Z.ltb MAX_FRAME_SIZE len then
      (Err (Network "Invalid TCP frame size"), stream)
    else if Z.ltb (Z.of_nat (length stream)) len then (Err (Io UnexpectedEof), [])
    else (Ok (Some (take (Z.to_nat len) stream)), drop (Z.to_nat len) stream).

(** What a frame makes the connection's task do. *)
Inductive Effect :=
  | Deliver (response : ResponseMessage)
  | Handle (request : RequestMessage) (reply_addr : SocketAddr)
  | Ignored.

Section connection.
Variable deserialize : list u8 -> option KademliaMessage.
Variable request_handler : bool.  (** a handler is registered *)

Definition handle_frame (frame : list u8) : Effect :=
  match deserialize frame with
  | Some (Response response) => Deliver response
  | Some (Request request) =>
      if request_handler then Handle request (Node.addr (RequestMessage.sender request))
      else Ignored
  | None => Ignored
  end.

(** [handle_connection]; each frame takes at least five bytes, so the
    length of the stream is enough fuel. *)
Fixpoint handle_connection_fuel (fuel : nat) (stream : list u8) : exec (list Effect * Result unit) :=
  match fuel with
  | 0 => OutOfFuel
  | S fuel' =>
      match read_frame stream with
      | (Ok (Some frame), rest) =>
          '(effects, r) ← handle_connection_fuel fuel' rest;
          mret (handle_frame frame :: effects, r)
      | (Ok None, _) => mret ([], Ok tt)
      | (Err e, _) => mret ([], Err e)
      end
  end.
Definition handle_connection (stream : list u8) : exec (list Effect * Result unit) :=
  handle_connection_fuel (S (length stream)) stream.
End connection.

(** ** The transport and its tasks *)
Section endpoint.
Context {C : Type} `{!Mpsc.t C}.

(** A [TcpNetwork], with the connections its accept loop has accepted: the
    bytes each still has to read, or nothing once its handler has ended. *)
Record Endpoint := MkEndpoint {
  pending_responses : Pending;
  request_handler : bool;  (** a handler is registered *)
  sender : C;
  connections : list (option (list u8))
}.
Definition set_pending (f : Pending -> Pending) (self : Endpoint) : Endpoint :=
  MkEndpoint (f (pending_responses self)) (request_handler self) (sender self) (connections self).
Definition set_sender (c : C) (self : Endpoint) : Endpoint :=
  MkEndpoint (pending_responses self) (request_handler self) c (connections self).
Definition set_connection (i : nat) (x : option (list u8)) (self : Endpoint) : Endpoint :=
  MkEndpoint (pending_responses self) (request_handler self) (sender self)
    (<[i := x]> (connections self)).
Definition set_request_handler (self : Endpoint) : Endpoint :=
  MkEndpoint (pending_responses self) true (sender self) (connections self).

(** [new]; [bind] is the result of binding the listener. The two tasks it
    spawns are [step_accept] and [step_outgoing] below. *)
Definition new (bind : Result unit) : Result Endpoint :=
  _ ← bind; mret (MkEndpoint Pending.new false (Mpsc.channel 100) []).

(** One iteration of the accept loop: a task is spawned for the connection. *)
Definition accept (incoming : option (list u8)) (self : Endpoint) : Endpoint :=
  match incoming with
  | Some stream => MkEndpoint (pending_responses self) (request_handler self) (sender self)
                     (connections self ++ [Some stream])
  | None => self
  end.

(** [send]: nothing while it waits for room in the channel. *)
Definition send (serialize : KademliaMessage -> option (list u8)) (to : SocketAddr)
    (message : KademliaMessage) (self : Endpoint) : option (Endpoint * Result unit) :=
  '(c, r) ← enqueue serialize "Failed to enqueue TCP message" to message (sender self);
  mret (set_sender c self, r).

(** [wait_response]: its first part, its [timeout], and what it does when that
    has run out. *)
Definition wait_response (request_id : MessageId) (self : Endpoint) : Endpoint * nat :=
  let '(pending, c) := Pending.register request_id (pending_responses self) in
  (set_pending (fun _ => pending) self, c).
Definition wait_timeout (c : nat) (elapsed : bool) (self : Endpoint)
    : option (option (Result ResponseMessage)) :=
  Pending.timeout c elapsed (pending_responses self).
Definition wait_expired (request_id : MessageId) (self : Endpoint) : Endpoint * Result ResponseMessage :=
  let '(pending, r) := Pending.expire request_id (pending_responses self) in
  (set_pending (fun _ => pending) self, r).

(** One iteration of [handle_outgoing]: a connection is made for the packet
    and the frame written to it; the result is what the peer can read from it.
    Nothing while the channel is empty. [written] is the result of the
    writes. *)
Definition handle_outgoing (connect written : SocketAddr -> Result unit) (self : Endpoint)
    : option (Endpoint * (Packet * Result (list u8))) :=
  '(c, p) ← Mpsc.recv (sender self);
  mret (set_sender c self,
        (p, _ ← connect p.1; bytes ← write_frame p.2; _ ← written p.1; mret bytes)).

(** What one frame of connection [i] does. *)
Definition apply_effect (e : Effect) (self : Endpoint) : Endpoint * option (RequestMessage * SocketAddr) :=
  match e with
  | Deliver response => (set_pending (Pending.deliver_response response) self, None)
  | Handle request reply_addr => (self, Some (request, reply_addr))
  | Ignored => (self, None)
  end.

(** One iteration of the handler of connection [i], whose unread bytes are
    [stream]. *)
Definition connection_step (deserialize : list u8 -> option KademliaMessage) (i : nat)
    (stream : list u8) (self : Endpoint) : Endpoint * option (RequestMessage * SocketAddr) :=
  match read_frame stream with
  | (Ok (Some frame), rest) =>
      apply_effect (handle_frame deserialize (request_handler self) frame)
        (set_connection i (Some rest) self)
  | (_, _) => (set_connection i None self, None)
  end.

(** What the outside sees. *)
Inductive event :=
  | Queued (p : Packet)
  | Written (p : Packet) (r : Result (list u8))
  | Handling (request : RequestMessage) (reply_addr : SocketAddr).

(** Everything that happens to the transport. *)
Inductive step (serialize : KademliaMessage -> option (list u8))
    (deserialize : list u8 -> option KademliaMessage) (self : Endpoint)
    : list event -> Endpoint -> Prop :=
  | step_accept incoming : step serialize deserialize self [] (accept incoming self)
  | step_connection i stream self' s :
      connections self !! i = Some (Some stream) ->
      connection_step deserialize i stream self = (self', s) ->
      step serialize deserialize self
        (match s with Some (r, a) => [Handling r a] | None => [] end) self'
  | step_send to m data self' :
      serialize m = Some data -> send serialize to m self = Some (self', Ok tt) ->
      step serialize deserialize self [Queued (to, data)] self'
  | step_send_failed to m e self' :
      send serialize to m self = Some (self', Err e) -> step serialize deserialize self [] self'
  | step_outgoing connect written p r self' :
      handle_outgoing connect written self = Some (self', (p, r)) ->
      step serialize deserialize self [Written p r] self'
  | step_wait id c self' :
      wait_response id self = (self', c) -> step serialize deserialize self [] self'
  | step_wait_timeout c elapsed o :
      wait_timeout c elapsed self = Some o -> step serialize deserialize self [] self
  | step_wait_expired id r self' :
      wait_expired id self = (self', r) -> step serialize deserialize self [] self'
  | step_set_request_handler :
      step serialize deserialize self [] (set_request_handler self).

Inductive run (serialize : KademliaMessage -> option (list u8))
    (deserialize : list u8 -> option KademliaMessage) (self : Endpoint)
    : list event -> Endpoint -> Prop :=
  | run_refl : run serialize deserialize self [] self
  | run_snoc tr self1 evs self2 :
      run serialize deserialize self tr self1 -> step serialize deserialize self1 evs self2 ->
      run serialize deserialize self (tr ++ evs) self2.
End endpoint.
Arguments MkEndpoint {C} pending_responses request_handler sender connections.

(** ** Frames *)
Lemma be_val_be_bytes n v :
  (0 <= v < 2 ^ (8 * Z.of_nat n))%Z -> be_val (NodeId.be_bytes n v) = v.
Proof.
  assert (forall w, (0 <= w)%Z ->
    be_val (NodeId.be_bytes n w) = (w mod 2 ^ (8 * Z.of_nat n))%Z) as Hmod.
  { intros w Hw. induction n as [|n IH]; cbn [NodeId.be_bytes be_val]; [by rewrite Z.mod_1_r|].
    rewrite NodeId.length_be_bytes, IH, u8_val_of, Z.shiftr_div_pow2 by lia.
    replace (8 * Z.of_nat (S n))%Z with (8 * Z.of_nat n + 8)%Z by lia.
    rewrite Z.pow_add_r by lia. change (2 ^ 8)%Z with 256%Z.
    rewrite Z.rem_mul_r by (try apply Z.pow_nonzero; lia). lia. }
  intros Hv. rewrite Hmod by lia. by apply Z.mod_small.
Qed.

Lemma write_frame_Ok data bytes :
  write_frame data = Ok bytes ->
  bytes = NodeId.be_bytes 4 (Z.of_nat (length data)) ++ data /\
  (Z.of_nat (length data) <= MAX_FRAME_SIZE)%Z.
Proof.
  unfold write_frame. destruct (Z.ltb_spec MAX_FRAME_SIZE (Z.of_nat (length data))); [done|].
  intros [= <-]. done.
Qed.

Lemma read_write_frame data bytes rest :
  write_frame data = Ok bytes ->
  read_frame (bytes ++ rest) =
    match data with
    | [] => (Err (Network "Invalid TCP frame size"), rest)
    | _ :: _ => (Ok (Some data), rest)
    end.
Proof.
  intros [-> Hlen]%write_frame_Ok. unfold MAX_FRAME_SIZE in Hlen.
  unfold read_frame. rewrite <-app_assoc.
  assert (length (NodeId.be_bytes 4 (Z.of_nat (length data))) = 4) as H4
    by apply NodeId.length_be_bytes.
  destruct (Nat.ltb_spec (length (NodeId.be_bytes 4 (Z.of_nat (length data)) ++ data ++ rest)) 4)
    as [Hlt|_]; [rewrite length_app in Hlt; lia|].
  rewrite take_app_length' by done. rewrite drop_app_length' by done.
  rewrite be_val_be_bytes by (change (8 * Z.of_nat 4)%Z with 32%Z; lia).
  destruct data as [|d data]; [done|].
  destruct (Z.eqb_spec (Z.of_nat (length (d :: data))) 0); [cbn in *; lia|].
  destruct (Z.ltb_spec MAX_FRAME_SIZE (Z.of_nat (length (d :: data))));
    [unfold MAX_FRAME_SIZE in *; lia|]. cbn [orb].
  destruct (Z.ltb_spec (Z.of_nat (length ((d :: data) ++ rest))) (Z.of_nat (length (d :: data))));
    [rewrite length_app in *; lia|].
  rewrite Nat2Z.id. by rewrite take_app_length, drop_app_length.
Qed.

Lemma read_frame_shorter stream frame rest :
  read_frame stream = (Ok (Some frame), rest) -> length rest < length stream.
Proof.
  unfold read_frame. destruct (Nat.ltb_spec (length stream) 4); [done|].
  destruct (_ || _); [done|]. destruct (Z.ltb _ _); [done|].
  intros [= _ <-]. rewrite !length_drop. lia.
Qed.

Lemma handle_connection_returns des h fuel stream :
  length stream < fuel -> returns (handle_connection_fuel des h fuel stream).
Proof.
  revert stream. induction fuel as [|fuel IH]; intros stream Hf; [lia|]. cbn.
  destruct (read_frame stream) as [[[frame|]|e] rest] eqn:Hr; eauto with kad.
  apply read_frame_shorter in Hr.
  apply returns_bind; [apply IH; lia|]. intros [effects r] _. apply returns_Done.
Qed.
End TcpNetwork.
