(* ===== verification/Mock.v ===== *)
(** * The in-memory transport (src/src/network/mock.rs)

    All transports of a process share the registry of addresses. A transport
    is its index in [inners]; it is alive while a strong reference to it is
    left, and the registry holds weak references. *)

From S2P Require Import Prelude Errors Bytes Ident F64 Contact Store Messages Transport.
From S2P Require Import Udp.

Module InMemoryNetwork.
Record Inner := MkInner {
  addr : SocketAddr;
  pending_responses : Pending;
  request_handler : bool;  (** a handler is registered *)
  alive : bool
}.
Add Printing Constructor Inner.

Record t := Mk {
  registry : gmap SocketAddr nat;
  inners : list Inner
}.
Add Printing Constructor t.

Definition set_registry (f : gmap SocketAddr nat -> gmap SocketAddr nat) (w : t) : t :=
  Mk (f (registry w)) (inners w).
Definition update_inner (i : nat) (f : Inner -> Inner) (w : t) : t :=
  Mk (registry w) (alter f i (inners w)).

(** [Weak::upgrade] *)
Definition upgrade (i : nat) (w : t) : option Inner :=
  x ← inners w !! i;
  if alive x then Some x else None.

(** The destructor of a transport bound to [a]: it unregisters the address,
    unless the registry is locked at that moment ([try_lock] fails). *)
Definition unregister (a : SocketAddr) (locked : bool) (w : t) : t :=
  if locked then w else set_registry (delete a) w.

(** [new]. The code makes the new transport before it takes the lock; when
    the address is taken, the lock is released and then the new transport is
    dropped, so its destructor runs. (The messages of the errors also quote
    the address.) *)
Definition new (a : SocketAddr) (locked : bool) (w : t) : t * Result nat :=
  match registry w !! a ≫= fun i => upgrade i w with
  | Some _ => (unregister a locked w, Err (Network "Address already registered"))
  | None =>
      let i := length (inners w) in
      (Mk (<[a := i]> (registry w)) (inners w ++ [MkInner a Pending.new false true]), Ok i)
  end.

Definition lookup (a : SocketAddr) (w : t) : t * option nat :=
  match registry w !! a with
  | Some i =>
      match upgrade i w with
      | Some _ => (w, Some i)
      | None => (set_registry (delete a) w, None)
      end
  | None => (w, None)
  end.

Definition deliver_response (response : ResponseMessage) (self : Inner) : Inner :=
  MkInner (addr self) (Pending.deliver_response response (pending_responses self))
    (request_handler self) (alive self).

Definition forward_request (request : RequestMessage) (from : SocketAddr) (self : Inner)
    : option UdpNetwork.Spawned :=
  if request_handler self then Some (request, from) else None.

(** [send] from a transport bound to [from]: the result, and the request
    handler it spawns on the remote side. *)
Definition send (from to : SocketAddr) (message : KademliaMessage) (w : t)
    : t * Result unit * option (nat * UdpNetwork.Spawned) :=
  let '(w, remote) := lookup to w in
  match remote with
  | None => (w, Err (Network "No in-memory transport registered"), None)
  | Some i =>
      match message with
      | Response response => (update_inner i (deliver_response response) w, Ok tt, None)
      | Request request =>
          (w, Ok tt, x ← inners w !! i; s ← forward_request request from x; Some (i, s))
      end
  end.

(** [wait_response] on transport [i]: its first part, its [timeout], and what
    it does when that has run out. *)
Definition set_pending (pending : Pending) (self : Inner) : Inner :=
  MkInner (addr self) pending (request_handler self) (alive self).
Definition wait_response (i : nat) (request_id : MessageId) (w : t) : option (t * nat) :=
  x ← inners w !! i;
  let '(pending, c) := Pending.register request_id (pending_responses x) in
  Some (update_inner i (set_pending pending) w, c).
Definition wait_timeout (i c : nat) (elapsed : bool) (w : t)
    : option (option (Result ResponseMessage)) :=
  x ← inners w !! i;
  Pending.timeout c elapsed (pending_responses x).
Definition wait_expired (i : nat) (request_id : MessageId) (w : t)
    : option (t * Result ResponseMessage) :=
  x ← inners w !! i;
  let '(pending, r) := Pending.expire request_id (pending_responses x) in
  Some (update_inner i (set_pending pending) w, r).

Definition set_request_handler (i : nat) (w : t) : t :=
  update_inner i (fun x => MkInner (addr x) (pending_responses x) true (alive x)) w.

(** The last strong reference goes away, then the destructor runs. *)
Definition release (i : nat) (w : t) : t :=
  update_inner i (fun x => MkInner (addr x) (pending_responses x) (request_handler x) false) w.
Definition drop (i : nat) (locked : bool) (w : t) : t :=
  match inners w !! i with
  | Some x => unregister (addr x) locked w
  | None => w
  end.

Definition empty : t := Mk ∅ [].
End InMemoryNetwork.
