(* ===== verification/NetworkSpec.v ===== *)
(** * Theorems on the transports

    Delivery of responses, rate limiting, the receiving task of the UDP
    transport and its retries, framing, and the registry of the in-memory
    transport. *)

From S2P Require Import Prelude Errors Bytes Ident F64 Contact Fixtures Store Messages.
From S2P Require Import Transport Udp Tcp Mock.

(** A deadline passes, the id is waited on again, and the removal of the first
    call takes the second one's entry. *)
Lemma late_removal id :
  exists s p x, Waiters.reachable s /\
    Waiters.calls s = [(id, Waiters.TimedOut); (id, Waiters.Waiting)] /\
    Pending.poll 1 (Waiters.table s) = None /\ Pending.expire id (Waiters.table s) = (p, x) /\
    Pending.poll 1 p = Some (Err (Network "Response channel closed")).
Proof.
  eexists (Waiters.Mk (Pending.register id (Pending.register id Pending.new).1).1 _), _, _.
  split; [|split; [reflexivity|]].
  - eapply rtc_l; [apply (Waiters.step_start _ id)|].
    eapply rtc_l; [by apply (Waiters.step_timeout _ 0 id true None)|].
    eapply rtc_l; [apply (Waiters.step_start _ id)|]. done.
  - unfold Pending.poll, Pending.register, Pending.expire. cbn.
    rewrite !lookup_insert_eq. by rewrite lookup_empty.
Qed.

(** C18: delivery of responses, in all three transports. From an empty table and
    through any sequence of calls of [wait_response], of responses, of
    deadlines, of the removals after them and of calls that are dropped by
    their callers:
    - a response wakes exactly the call registered under its request id, which
      is the last one made with it, and leaves every other call alone;
    - a response nobody is registered for is dropped without a trace, so one
      that arrives before [wait_response] has registered is lost and the call
      that registers next still waits;
    - a call that has been answered keeps that answer, also past its deadline;
    - a second call with the same id takes the first one's place, which fails;
    - the removal after a deadline is a later, separate step: it removes the
      call's own entry when nothing has happened to it in between, and takes
      no other id's; but when the id has been waited on again in between, it
      removes the entry of the newer call, which fails, and this does occur;
    - nothing else removes an entry, in particular not the drop of a call. *)
Theorem response_delivery (s : Waiters.t) r :
  Waiters.reachable s ->
  let id := ResponseMessage.request_id r in
  let p := Waiters.table s in
  let p' := Pending.deliver_response r p in
  let failed := Some (Err (Network "Response channel closed")) in
  (forall c, Pending.pending_responses p !! id = Some c ->
     Waiters.latest s id c /\ Pending.poll c p' = Some (Ok r) /\
     Pending.pending_responses p' = delete id (Pending.pending_responses p) /\
     forall c', c' <> c -> Pending.poll c' p' = Pending.poll c' p) /\
  (Pending.pending_responses p !! id = None ->
     p' = p /\ let '(p1, c) := Pending.register id p' in Pending.poll c p1 = None) /\
  (forall i x s' elapsed, Pending.poll i p = Some (Ok x) -> rtc Waiters.step s s' ->
     Pending.timeout i elapsed (Waiters.table s') = Some (Some (Ok x))) /\
  (forall c, Pending.pending_responses p !! id = Some c ->
     Pending.poll c (Pending.register id p).1 = failed) /\
  (forall i j p1 x, Waiters.calls s !! i = Some (j, Waiters.TimedOut) -> Pending.expire j p = (p1, x) ->
     x = Err Timeout /\ Pending.pending_responses p1 = delete j (Pending.pending_responses p) /\
     (Pending.poll i p = None -> Pending.pending_responses p !! j = Some i) /\
     (forall c, Pending.pending_responses p !! j = Some c -> c <> i ->
        i < c /\ Waiters.latest s j c /\ Pending.poll c p1 = failed) /\
     (forall c, Pending.pending_responses p !! j <> Some c -> Pending.poll c p1 = Pending.poll c p)) /\
  (exists s1 p1 x, Waiters.reachable s1 /\
     Waiters.calls s1 = [(id, Waiters.TimedOut); (id, Waiters.Waiting)] /\
     Pending.poll 1 (Waiters.table s1) = None /\
     Pending.expire id (Waiters.table s1) = (p1, x) /\ Pending.poll 1 p1 = failed) /\
  (forall s' j c, Waiters.step s s' -> Pending.pending_responses p !! j = Some c ->
     Pending.pending_responses (Waiters.table s') !! j <> Some c ->
     (exists r', ResponseMessage.request_id r' = j /\
        s' = Waiters.Mk (Pending.deliver_response r' p) (Waiters.calls s)) \/
     Waiters.calls s' = Waiters.calls s ++ [(j, Waiters.Waiting)] \/
     exists i, Waiters.calls s !! i = Some (j, Waiters.TimedOut) /\
       Waiters.calls s' !! i = Some (j, Waiters.Returned (Err Timeout))).
Proof.
  intros Hs%Waiters.reachable_inv id p p' failed.
  pose proof Hs as (Hwf & Hlen & Hlast & Hopen). fold p in Hwf, Hlen, Hlast, Hopen.
  split_and!; [| | | | |apply late_removal|exact (fun s' j c => Waiters.entry_lost s s' j c)].
  - intros c Hc. split; [by apply Hlast|]. by apply Pending.deliver_registered.
  - intros Hn. assert (p' = p) as E by (unfold p', Pending.deliver_response; fold id; by rewrite Hn).
    split; [done|]. rewrite E. apply Pending.register_waits.
  - intros i x s' elapsed Hp Hst. unfold Pending.timeout.
    by rewrite (Pending.steps_answered p _ i x Hwf (Waiters.steps_table _ _ Hst) Hp).
  - intros c Hc. by apply Pending.register_replaces.
  - intros i j p1 x Hi [= <- <-].
    assert (Waiters.ids s !! i = Some j) as Hij by (unfold Waiters.ids; by rewrite list_lookup_fmap, Hi).
    assert (i < length (Pending.channels p)) as Hlt by (rewrite Hlen; by eapply lookup_lt_Some).
    split_and!; [done|done|intros Hp; apply Hopen; [done|by apply Pending.poll_None]|..].
    + intros c Hc Hne. split_and!; [|by apply Hlast|by apply Pending.expire_fails].
      destruct (Nat.lt_total i c) as [?|[->|Hci]]; [done..|].
      by destruct (proj2 (Hlast _ _ Hc) i Hci).
    + intros c Hc. by apply Pending.expire_others.
Qed.

Lemma response_delivery_witness :
  let r := Pong 7 (contact 1) in
  Pending.poll 0 (Pending.deliver_response r (Pending.register 7 Pending.new).1) = Some (Ok r).
Proof.
  intros r. refine (proj1 (proj2 (proj1 (response_delivery
    (Waiters.Mk (Pending.register 7 Pending.new).1 [(7%Z, Waiters.Waiting)]) r _) 0 _))).
  - eapply rtc_once. apply (Waiters.step_start Waiters.init 7).
  - vm_compute. reflexivity.
Defined.

(** The rate limiter. For requests from one address at non-decreasing
    times, starting without an entry, at most 200 are allowed in any interval
    of 60 seconds, although the limit per window is 100: two windows can meet
    in the interval. A request is refused exactly when its window already has
    100 and has not expired, and the entries of other addresses never change. *)
Lemma rate_limit_bound addr times table a :
  (table !! addr = None -> StronglySorted Z.le times ->
     in_window a (allowed_times addr times table) <= 200) /\
  (forall now table' ok, UdpNetwork.check_rate_limit now addr table = (table', ok) ->
     (ok = false <->
        exists e, table !! addr = Some e /\ 100 <= UdpNetwork.request_count e /\
          (now - UdpNetwork.window_start e <= RATE_LIMIT_WINDOW)%Z) /\
     (forall addr', addr' <> addr -> table' !! addr' = table !! addr')).
Proof.
  split.
  - intros Hnone Hsort. destruct times as [|now times]; [apply Nat.le_0_l|].
    pose proof (limiter_new now) as Hinv.
    destruct (limiter_step now now addr (<[addr := UdpNetwork.MkEntry now 0]> table) now 0 []
      (Z.le_refl now) Hinv ltac:(by rewrite lookup_insert_eq)) as (ws & n & ok & E & Hinv').
    assert (UdpNetwork.check_rate_limit now addr table =
      (<[addr := UdpNetwork.MkEntry ws n]> table, ok)) as E'.
    { revert E. unfold UdpNetwork.check_rate_limit. rewrite Hnone, lookup_insert_eq.
      cbn [default from_option]. rewrite !insert_insert_eq. done. }
    cbn [allowed_times]. rewrite E'. destruct ok.
    + apply (allowed_times_bound addr times now _ ws n [now]); [done|by rewrite lookup_insert_eq|done].
    + apply (allowed_times_bound addr times now _ ws n []); [done|by rewrite lookup_insert_eq|done].
  - pose proof rate_window_pos. intros now table' ok.
    unfold UdpNetwork.check_rate_limit, duration_since.
    destruct (table !! addr) as [e|] eqn:He; cbn [default from_option]; unfold id.
    + destruct (Z.ltb_spec RATE_LIMIT_WINDOW (Z.max 0 (now - UdpNetwork.window_start e))) as [Hlt|Hge].
      * intros [= <- <-]. split; [|intros; by rewrite lookup_insert_ne].
        split; [done|]. intros (e' & [= <-] & _ & Hle). lia.
      * destruct (Nat.leb_spec MAX_REQUESTS_PER_WINDOW (UdpNetwork.request_count e)) as [Hc|Hc];
          intros [= <- <-]; (split; [|intros; by rewrite lookup_insert_ne]);
          unfold MAX_REQUESTS_PER_WINDOW in Hc.
        -- split; [|done]. intros _. exists e. split_and!; [done|done|lia].
        -- split; [done|]. intros (e' & [= <-] & Hc' & _). lia.
    + cbn [UdpNetwork.window_start]. rewrite Z.sub_diag. cbn. intros [= <- <-]. split; [|intros; by rewrite lookup_insert_ne].
      split; [done|]. naive_solver.
Qed.

(** What the receiving task gets out of datagrams. *)
Definition received_responses (des : list u8 -> option KademliaMessage)
    (l : list (Instant * SocketAddr * list u8)) : list ResponseMessage :=
  omap (fun d => match d.2, des d.2 with
                 | _ :: _, Some (Response r) => Some r
                 | _, _ => None
                 end) l.
Definition received_requests (des : list u8 -> option KademliaMessage)
    (l : list (Instant * SocketAddr * list u8)) : list (Instant * UdpNetwork.Spawned) :=
  omap (fun d => match d.2, des d.2 with
                 | _ :: _, Some (Request r) => Some (d.1.1, (r, d.1.2))
                 | _, _ => None
                 end) l.

(** What is asked of the receiving task, started in [self]. *)
Definition incoming_ok (des : list u8 -> option KademliaMessage)
    (l : list (Instant * SocketAddr * list u8)) (self : UdpNetwork.t)
    (out : UdpNetwork.t * list UdpNetwork.Spawned) : Prop :=
  UdpNetwork.pending_responses out.1 =
    fold_left (fun p r => Pending.deliver_response r p) (received_responses des l)
      (UdpNetwork.pending_responses self) /\
  sublist out.2 (received_requests des l).*2 /\
  forall a, length (filter (fun s => ip s.2 = a) out.2) =
    if UdpNetwork.request_handler self
    then length (allowed_times a (filter (fun x => ip x.2.2 = a) (received_requests des l)).*1
                   (UdpNetwork.rate_limits self))
    else 0.

(** A request that arrives, for any address [a]. *)
Lemma allowed_times_arrival a now src times table :
  let '(limits, ok) := UdpNetwork.check_rate_limit now (ip src) table in
  allowed_times a (if decide (ip src = a) then now :: times else times) table =
    (if decide (ip src = a) then if ok : bool then [now] else [] else []) ++
    allowed_times a times limits.
Proof.
  pose proof (fun a' => check_rate_limit_other now (ip src) a' table) as Hother.
  destruct (UdpNetwork.check_rate_limit now (ip src) table) as [limits ok] eqn:Hok.
  case_decide as E.
  - subst a. cbn [allowed_times]. rewrite Hok. by destruct ok.
  - cbn. apply allowed_times_local. symmetry. by apply Hother.
Qed.

Lemma started_arrival a now src request ss reqs table :
  let '(limits, ok) := UdpNetwork.check_rate_limit now (ip src) table in
  length (filter (fun s : UdpNetwork.Spawned => ip s.2 = a) ss) =
    length (allowed_times a
      (filter (fun x : Instant * UdpNetwork.Spawned => ip x.2.2 = a) reqs).*1 limits) ->
  length (filter (fun s : UdpNetwork.Spawned => ip s.2 = a)
            (if ok : bool then (request, src) :: ss else ss)) =
    length (allowed_times a (filter (fun x : Instant * UdpNetwork.Spawned => ip x.2.2 = a)
      ((now, (request, src)) :: reqs)).*1 table).
Proof.
  pose proof (allowed_times_arrival a now src (filter (fun x : Instant * UdpNetwork.Spawned =>
    ip x.2.2 = a) reqs).*1 table) as Hlim.
  destruct (UdpNetwork.check_rate_limit now (ip src) table) as [limits ok]. intros Hcount.
  apply (f_equal length) in Hlim. rewrite length_app in Hlim.
  symmetry. rewrite filter_cons. cbn [fst snd].
  destruct (decide (ip src = a)) as [E|E]; refine (eq_trans Hlim _);
    refine (eq_trans (f_equal (Nat.add _) (eq_sym Hcount)) _); destruct ok; try done.
  - by rewrite filter_cons_True.
  - by rewrite filter_cons_False.
Qed.

Lemma incoming_other des d l self :
  received_responses des (d :: l) = received_responses des l ->
  received_requests des (d :: l) = received_requests des l ->
  incoming_ok des l self (UdpNetwork.handle_incoming des l self) ->
  incoming_ok des (d :: l) self (UdpNetwork.handle_incoming des l self).
Proof. unfold incoming_ok. by intros -> ->. Qed.

Lemma handle_incoming_ok des l self :
  incoming_ok des l self (UdpNetwork.handle_incoming des l self).
Proof.
  revert self. induction l as [|[[now src] data] l IH]; intros self.
  { split_and!; [done|done|]. intros a. by destruct (UdpNetwork.request_handler self). }
  cbn [UdpNetwork.handle_incoming]. unfold UdpNetwork.handle_datagram.
  destruct data as [|b data]; [|destruct (des (b :: data)) as [[request|response]|] eqn:Hdes].
  - pose proof (IH self) as H. destruct (UdpNetwork.handle_incoming des l self). exact H.
  - pose proof (fun a ss => started_arrival a now src request ss (received_requests des l)
      (UdpNetwork.rate_limits self)) as Hlim.
    destruct (UdpNetwork.check_rate_limit now (ip src) (UdpNetwork.rate_limits self))
      as [limits ok].
    set (self1 := UdpNetwork.Mk _ _ limits). destruct (IH self1) as (Hp & Hsub & Hcount).
    destruct (UdpNetwork.handle_incoming des l self1) as [self' ss] eqn:Hin. cbn in Hp, Hsub, Hcount.
    assert (received_requests des ((now, src, b :: data) :: l) =
      (now, (request, src)) :: received_requests des l) as Hreq
      by (unfold received_requests; csimpl; by rewrite Hdes).
    assert (received_responses des ((now, src, b :: data) :: l) = received_responses des l) as Hres
      by (unfold received_responses; csimpl; by rewrite Hdes).
    unfold incoming_ok. rewrite Hreq, Hres.
    destruct ok, (UdpNetwork.request_handler self) eqn:Hh; cbn; rewrite Hin; cbn.
    all: split_and!; [done|by constructor|].
    all: intros a; specialize (Hcount a); try done.
    all: by apply (Hlim a ss).
  - set (self1 := UdpNetwork.Mk _ _ _). pose proof (IH self1) as H.
    destruct (UdpNetwork.handle_incoming des l self1).
    unfold incoming_ok, received_responses, received_requests in *. csimpl. rewrite Hdes. exact H.
  - pose proof (IH self) as H. destruct (UdpNetwork.handle_incoming des l self).
    unfold incoming_ok, received_responses, received_requests in *. csimpl. rewrite Hdes. exact H.
Qed.

(** C40: the UDP transport. Whatever datagrams arrive, every response in them is
    delivered, in order, also those of senders over their limit; the handler
    is started on requests that did arrive, in order, with the address they
    came from, and for each address on as many as the limiter allows, or on
    none while no handler is registered. Of the requests of one address, at
    non-decreasing times and starting without an entry, the limiter allows at
    most 200 in any interval of 60 seconds, although the limit per window is
    100: two windows can meet in the interval. It refuses a request exactly
    when the window of its address already has 100 and has not expired, and
    leaves the entries of other addresses alone. A message to send is tried at
    most three times, 500 ms apart, until the first success. *)
Theorem udp_transport des datagrams send_to (self : UdpNetwork.t) :
  (let '(self', spawned) := UdpNetwork.handle_incoming des datagrams self in
   UdpNetwork.pending_responses self' =
     fold_left (fun p r => Pending.deliver_response r p) (received_responses des datagrams)
       (UdpNetwork.pending_responses self) /\
   sublist spawned (received_requests des datagrams).*2 /\
   forall a, length (filter (fun s => ip s.2 = a) spawned) =
     if UdpNetwork.request_handler self
     then length (allowed_times a
       (filter (fun x => ip x.2.2 = a) (received_requests des datagrams)).*1
       (UdpNetwork.rate_limits self))
     else 0) /\
  (forall addr times table a,
     (table !! addr = None -> StronglySorted Z.le times ->
        in_window a (allowed_times addr times table) <= 200) /\
     (forall now table' ok, UdpNetwork.check_rate_limit now addr table = (table', ok) ->
        (ok = false <->
           exists e, table !! addr = Some e /\ 100 <= UdpNetwork.request_count e /\
             (now - UdpNetwork.window_start e <= RATE_LIMIT_WINDOW)%Z) /\
        (forall addr', addr' <> addr -> table' !! addr' = table !! addr'))) /\
  (let '(sent, attempts, slept) := UdpNetwork.send_with_retries send_to in
   1 <= attempts <= 3 /\ slept = (500 * (Z.of_nat attempts - 1))%Z /\
   (forall i, 1 <= i < attempts -> send_to i = false) /\
   send_to attempts = sent /\ (sent = false -> attempts = 3)).
Proof.
  split; [|split].
  - pose proof (handle_incoming_ok des datagrams self) as Hok.
    destruct (UdpNetwork.handle_incoming des datagrams self). exact Hok.
  - apply rate_limit_bound.
  - unfold UdpNetwork.send_with_retries. cbn.
    destruct (send_to 1) eqn:H1; [|destruct (send_to 2) eqn:H2; [|destruct (send_to 3) eqn:H3]].
    all: split_and!; try done; try lia; intros i Hi.
    all: assert (i = 1 \/ i = 2) as [-> | ->] by lia; done || lia.
Qed.

(** C29: frames. Reading back what [write_frame] wrote returns the data and
    leaves what follows, except for an empty frame, which the writer accepts
    and the reader refuses; data over 16 MiB is refused by the writer. A
    connection on which a peer wrote a sequence of non-empty frames and closed
    handles each of them, in order, and ends without error, and whatever the
    bytes of a connection are its handler ends. *)
Theorem tcp_framing des handler (frames : list (list u8)) stream rest data :
  (forall bytes, TcpNetwork.write_frame data = Ok bytes ->
     TcpNetwork.read_frame (bytes ++ rest) =
       match data with
       | [] => (Err (Network "Invalid TCP frame size"), rest)
       | _ :: _ => (Ok (Some data), rest)
       end) /\
  (TcpNetwork.write_frame data = Err (Network "Frame too large") <->
     (MAX_FRAME_SIZE < Z.of_nat (length data))%Z) /\
  (Forall2 (fun d bytes => d <> [] /\ TcpNetwork.write_frame d = Ok bytes) frames stream ->
     TcpNetwork.handle_connection des handler (concat stream) =
       Done (TcpNetwork.handle_frame des handler <$> frames, Ok tt)) /\
  returns (TcpNetwork.handle_connection des handler rest).
Proof.
  split_and!.
  - intros bytes. apply TcpNetwork.read_write_frame.
  - unfold TcpNetwork.write_frame.
    destruct (Z.ltb_spec MAX_FRAME_SIZE (Z.of_nat (length data))); [done|]. split; [done|lia].
  - intros Hf. unfold TcpNetwork.handle_connection.
    assert (forall fuel, length (concat stream) < fuel ->
      TcpNetwork.handle_connection_fuel des handler fuel (concat stream) =
        Done (TcpNetwork.handle_frame des handler <$> frames, Ok tt)) as Hgen; [|apply Hgen; lia].
    induction Hf as [|d bytes frames stream [Hd Hw] Hf IH]; intros fuel Hfuel;
      (destruct fuel as [|fuel]; [lia|]); cbn [TcpNetwork.handle_connection_fuel concat]; [done|].
    pose proof (TcpNetwork.read_write_frame _ _ (concat stream) Hw) as Hr.
    destruct d as [|x d]; [done|]. rewrite Hr, IH; [done|].
    apply TcpNetwork.read_frame_shorter in Hr. cbn in Hfuel. lia.
  - apply TcpNetwork.handle_connection_returns. lia.
Qed.

(** C30: the in-memory transport. A message to an address nobody is registered
    at is an error; a response reaches the table of its destination and a
    request its handler. A second transport cannot be made at the address of a
    live one, but the attempt runs the destructor of the rejected transport,
    which frees the address by name: unless the registry is locked by then, the
    live one is unregistered, nothing reaches it any more, and the next
    attempt succeeds. In the same way a late destructor unregisters a new
    transport that has taken the address over in the meantime. *)
Theorem in_memory_network (w : InMemoryNetwork.t) a b i x m :
  InMemoryNetwork.registry w !! a = Some i ->
  InMemoryNetwork.inners w !! i = Some x -> InMemoryNetwork.addr x = a ->
  InMemoryNetwork.alive x = true ->
  (forall locked, InMemoryNetwork.new a locked w =
     (if locked then w else InMemoryNetwork.set_registry (delete a) w,
      Err (Network "Address already registered"))) /\
  (let w1 := (InMemoryNetwork.new a false w).1 in
   InMemoryNetwork.upgrade i w1 = Some x /\
   (InMemoryNetwork.send b a m w1).1.2 = Err (Network "No in-memory transport registered") /\
   (InMemoryNetwork.new a false w1).2 = Ok (length (InMemoryNetwork.inners w))) /\
  InMemoryNetwork.send b a m w =
    match m with
    | Response r => (InMemoryNetwork.update_inner i (InMemoryNetwork.deliver_response r) w, Ok tt, None)
    | Request r =>
        (w, Ok tt, if InMemoryNetwork.request_handler x then Some (i, (r, b)) else None)
    end /\
  (InMemoryNetwork.registry w !! b = None ->
     InMemoryNetwork.send a b m w = (w, Err (Network "No in-memory transport registered"), None)) /\
  (let w1 := InMemoryNetwork.release i w in
   let '(w2, r) := InMemoryNetwork.new a false w1 in
   r = Ok (length (InMemoryNetwork.inners w)) /\
   (InMemoryNetwork.lookup a w2).2 = Some (length (InMemoryNetwork.inners w)) /\
   (InMemoryNetwork.send b a m (InMemoryNetwork.drop i false w2)).1.2
     = Err (Network "No in-memory transport registered") /\
   InMemoryNetwork.upgrade (length (InMemoryNetwork.inners w))
     (InMemoryNetwork.drop i false w2) <> None).
Proof.
  intros Hreg Hx Ha Hal. pose proof (lookup_lt_Some _ _ _ Hx) as Hlt.
  assert (InMemoryNetwork.upgrade i w = Some x) as Hup.
  { unfold InMemoryNetwork.upgrade. rewrite Hx. cbn. by rewrite Hal. }
  split_and!.
  - intros locked. unfold InMemoryNetwork.new. rewrite Hreg. cbn. rewrite Hup. by destruct locked.
  - assert ((InMemoryNetwork.new a false w).1 = InMemoryNetwork.set_registry (delete a) w) as ->.
    { unfold InMemoryNetwork.new. rewrite Hreg. cbn. by rewrite Hup. }
    cbv zeta. split_and!; [done| |].
    + unfold InMemoryNetwork.send, InMemoryNetwork.lookup. cbn. by rewrite lookup_delete_eq.
    + unfold InMemoryNetwork.new. cbn. by rewrite lookup_delete_eq.
  - unfold InMemoryNetwork.send, InMemoryNetwork.lookup. rewrite Hreg, Hup.
    destruct m; [|done]. rewrite Hx. cbn. unfold InMemoryNetwork.forward_request.
    by destruct (InMemoryNetwork.request_handler x).
  - intros Hb. unfold InMemoryNetwork.send, InMemoryNetwork.lookup. by rewrite Hb.
  - cbv zeta. unfold InMemoryNetwork.new.
    set (w1 := InMemoryNetwork.release i w).
    assert (InMemoryNetwork.registry w1 !! a ≫= (fun i => InMemoryNetwork.upgrade i w1) = None) as ->.
    { cbn. rewrite Hreg. cbn. unfold InMemoryNetwork.upgrade, w1, InMemoryNetwork.release. cbn.
      rewrite list_lookup_alter_eq, Hx. done. }
    assert (length (InMemoryNetwork.inners w1) = length (InMemoryNetwork.inners w)) as El.
    { cbn. apply length_alter. }
    assert (InMemoryNetwork.inners w1 !! i =
      Some (InMemoryNetwork.MkInner a (InMemoryNetwork.pending_responses x)
              (InMemoryNetwork.request_handler x) false)) as Hi1.
    { cbn. rewrite list_lookup_alter_eq, Hx. cbn. by rewrite Ha. }
    rewrite El. split_and!; [done| | |].
    + unfold InMemoryNetwork.lookup, InMemoryNetwork.upgrade. cbn [InMemoryNetwork.registry InMemoryNetwork.inners].
      rewrite lookup_insert_eq, <-El, lookup_app_r, Nat.sub_diag by lia. done.
    + unfold InMemoryNetwork.drop. cbn [InMemoryNetwork.inners].
      rewrite lookup_app_l, Hi1 by lia. unfold InMemoryNetwork.send, InMemoryNetwork.lookup. cbn.
      by rewrite lookup_delete_eq.
    + unfold InMemoryNetwork.drop. cbn [InMemoryNetwork.inners].
      rewrite lookup_app_l, Hi1 by lia. unfold InMemoryNetwork.upgrade, InMemoryNetwork.unregister. cbn [InMemoryNetwork.inners InMemoryNetwork.set_registry InMemoryNetwork.unregister].
      rewrite <-El, lookup_app_r, Nat.sub_diag by lia. done.
Qed.

Lemma in_memory_network_witness :
  let w := (InMemoryNetwork.new (sample_addr 1) false InMemoryNetwork.empty).1 in
  InMemoryNetwork.new (sample_addr 1) true w = (w, Err (Network "Address already registered")).
Proof.
  intros w.
  refine (proj1 (in_memory_network w (sample_addr 1) (sample_addr 2) 0
    (InMemoryNetwork.MkInner (sample_addr 1) Pending.new false true) (Request (Ping 7 (contact 1))) _ _ _ _) true);
    vm_compute; reflexivity.
Defined.
