(* ===== verification/SocketSpec.v ===== *)
(** * Theorems on the socket transports

    The queue of outgoing messages and the waiters along every run of a
    transport, and the way of a message from one TCP transport to another. *)

From S2P Require Import Prelude Errors Bytes Ident F64 Contact Fixtures Store Messages.
From S2P Require Import Transport Channel Udp Tcp.

(** ** The runs of the UDP transport *)
Section udp.
Context {C : Type} `{!Mpsc.t C, !Mpsc.Laws C}.
Context (serialize : KademliaMessage -> option (list u8))
  (deserialize : list u8 -> option KademliaMessage).
Local Abbreviation Endpoint := (UdpNetwork.Endpoint (C := C)).

Definition udp_channel (tr : list UdpNetwork.event) : list Mpsc.event :=
  omap (fun e => match e with
                 | UdpNetwork.Queued p => Some (Mpsc.Accepted p)
                 | UdpNetwork.Transmitted p _ _ => Some (Mpsc.Taken p)
                 | _ => None
                 end) tr.

(** What one event shows: a queued packet is a message, a packet is tried at
    most three times. *)
Definition udp_event_ok (e : UdpNetwork.event) : Prop :=
  match e with
  | UdpNetwork.Queued (to, data) => exists m, serialize m = Some data
  | UdpNetwork.Transmitted _ sent attempts => 1 <= attempts <= 3 /\ (sent = false -> attempts = 3)
  | UdpNetwork.Handling _ => True
  end.

Definition udp_inv (tr : list UdpNetwork.event) (n : Endpoint) : Prop :=
  Mpsc.fifo 100 (udp_channel tr) (UdpNetwork.sender n) /\
  Pending.wf (UdpNetwork.pending_responses (UdpNetwork.shared n)) /\ Forall udp_event_ok tr.

Lemma send_with_retries_bounds send_to sent attempts slept :
  UdpNetwork.send_with_retries send_to = (sent, attempts, slept) ->
  1 <= attempts <= 3 /\ (sent = false -> attempts = 3).
Proof.
  unfold UdpNetwork.send_with_retries. cbn.
  destruct (send_to 1); [|destruct (send_to 2); [|destruct (send_to 3)]]; intros [= <- <- _];
    split; done || lia.
Qed.

Lemma datagram_wf now src data self self' s :
  UdpNetwork.handle_datagram deserialize now src data self = (self', s) ->
  Pending.wf (UdpNetwork.pending_responses self) -> Pending.wf (UdpNetwork.pending_responses self').
Proof.
  unfold UdpNetwork.handle_datagram. intros Hd Hwf. repeat case_match; simplify_eq; try done.
  by apply Pending.deliver_wf.
Qed.

Lemma udp_step_channel n evs n' :
  UdpNetwork.step serialize deserialize n evs n' ->
  (udp_channel evs = [] /\ UdpNetwork.sender n' = UdpNetwork.sender n) \/
  Mpsc.step (UdpNetwork.sender n) (udp_channel evs) (UdpNetwork.sender n').
Proof.
  intros Hs. destruct Hs as [now src data inner s Hd|to m data n' Hm Hs|to m e n' Hs
    |send_to p sent attempts slept n' Ho|id c n' Hw|c elapsed o Hw|id r n' Hw|]; try by left.
  - left. by destruct s.
  - right. unfold UdpNetwork.send in Hs.
    destruct (enqueue _ _ _ _ _) as [[c r]|] eqn:He; [|done]. cbn in Hs.
    injection Hs as <- ->. apply enqueue_ok in He as (data' & Hm' & Hc).
    rewrite Hm in Hm'. by injection Hm' as <-.
  - unfold UdpNetwork.send in Hs.
    destruct (enqueue _ _ _ _ _) as [[c r]|] eqn:He; [|done]. cbn in Hs.
    injection Hs as <- ->. apply enqueue_err in He as [->|Hc]; [by left|by right].
  - right. unfold UdpNetwork.handle_outgoing in Ho.
    destruct (Mpsc.recv _) as [[c p']|] eqn:Hr; [|done]. injection Ho as <- -> _.
    by apply Mpsc.step_recv.
  - left. unfold UdpNetwork.wait_response in Hw. destruct (Pending.register _ _). by injection Hw as <- _.
  - left. unfold UdpNetwork.wait_expired in Hw. by injection Hw as <- _.
Qed.

Lemma udp_step_inv tr n evs n' :
  udp_inv tr n -> UdpNetwork.step serialize deserialize n evs n' -> udp_inv (tr ++ evs) n'.
Proof.
  intros (Hf & Hwf & Hev) Hs. split_and!.
  - unfold udp_channel. rewrite omap_app. fold (udp_channel tr) (udp_channel evs).
    destruct (udp_step_channel _ _ _ Hs) as [[-> ->]|Hc]; [by apply Mpsc.fifo_skip|].
    by eapply Mpsc.fifo_step.
  - destruct Hs as [now src data inner s Hd|to m data n' Hm Hs|to m e n' Hs
      |send_to p sent attempts slept n' Ho|id c n' Hw|c elapsed o Hw|id r n' Hw|]; try exact Hwf.
    + by eapply datagram_wf.
    + unfold UdpNetwork.send in Hs. destruct (enqueue _ _ _ _ _) as [[c r]|]; [|done].
      by injection Hs as <- _.
    + unfold UdpNetwork.send in Hs. destruct (enqueue _ _ _ _ _) as [[c r]|]; [|done].
      by injection Hs as <- _.
    + unfold UdpNetwork.handle_outgoing in Ho. destruct (Mpsc.recv _) as [[c p']|]; [|done].
      by injection Ho as <- _ _.
    + apply (Pending.register_wf id) in Hwf. unfold UdpNetwork.wait_response in Hw.
      destruct (Pending.register _ _). by injection Hw as <- _.
    + unfold UdpNetwork.wait_expired in Hw. injection Hw as <- _. by apply (Pending.expire_wf id).
  - apply Forall_app. split; [done|].
    destruct Hs as [now src data inner s Hd|to m data n' Hm Hs| |send_to p sent attempts slept n' Ho| | | |];
      [by destruct s; repeat constructor| |constructor| |constructor..]; apply Forall_singleton.
    + by exists m.
    + unfold UdpNetwork.handle_outgoing in Ho. destruct (Mpsc.recv _) as [[c p']|]; [|done].
      injection Ho as _ _ Ho. by eapply send_with_retries_bounds.
Qed.

Lemma udp_run_inv bind n tr n' :
  UdpNetwork.new bind = Ok n -> UdpNetwork.run serialize deserialize n tr n' -> udp_inv tr n'.
Proof.
  intros Hn. induction 1 as [|tr n1 evs n2 _ IH Hs]; [|by eapply udp_step_inv].
  destruct bind as [u|e]; [|done]. injection Hn as <-.
  split_and!; [apply Mpsc.fifo_channel|apply Pending.new_wf|done].
Qed.
End udp.

(** ** The runs of the TCP transport *)
Section tcp.
Context {C : Type} `{!Mpsc.t C, !Mpsc.Laws C}.
Context (serialize : KademliaMessage -> option (list u8))
  (deserialize : list u8 -> option KademliaMessage).
Local Abbreviation Endpoint := (TcpNetwork.Endpoint (C := C)).

Definition tcp_channel (tr : list TcpNetwork.event) : list Mpsc.event :=
  omap (fun e => match e with
                 | TcpNetwork.Queued p => Some (Mpsc.Accepted p)
                 | TcpNetwork.Written p _ => Some (Mpsc.Taken p)
                 | _ => None
                 end) tr.

Definition tcp_event_ok (e : TcpNetwork.event) : Prop :=
  match e with
  | TcpNetwork.Queued (to, data) => exists m, serialize m = Some data
  | TcpNetwork.Written p (Ok bytes) => TcpNetwork.write_frame p.2 = Ok bytes
  | TcpNetwork.Handling r a => a = Node.addr (RequestMessage.sender r)
  | _ => True
  end.

Definition tcp_inv (tr : list TcpNetwork.event) (n : Endpoint) : Prop :=
  Mpsc.fifo 100 (tcp_channel tr) (TcpNetwork.sender n) /\
  Pending.wf (TcpNetwork.pending_responses n) /\ Forall tcp_event_ok tr.

(** The fields an operation leaves alone. *)
Lemma tcp_send_inv to m (n n' : Endpoint) r :
  TcpNetwork.send serialize to m n = Some (n', r) ->
  TcpNetwork.pending_responses n' = TcpNetwork.pending_responses n /\
  enqueue serialize "Failed to enqueue TCP message" to m (TcpNetwork.sender n)
    = Some (TcpNetwork.sender n', r).
Proof.
  unfold TcpNetwork.send. destruct (enqueue _ _ _ _ _) as [[c r']|]; [|done].
  by intros [= <- <-].
Qed.

Lemma tcp_outgoing_inv connect written (n n' : Endpoint) p r :
  TcpNetwork.handle_outgoing connect written n = Some (n', (p, r)) ->
  TcpNetwork.pending_responses n' = TcpNetwork.pending_responses n /\
  Mpsc.recv (TcpNetwork.sender n) = Some (TcpNetwork.sender n', p) /\
  tcp_event_ok (TcpNetwork.Written p r).
Proof.
  unfold TcpNetwork.handle_outgoing. destruct (Mpsc.recv _) as [[c p']|]; [|done].
  intros [= <- <- Hr]. split_and!; [done..|].
  destruct (connect p'.1), (TcpNetwork.write_frame p'.2) eqn:Hw, (written p'.1); cbn in Hr; by subst r.
Qed.

Lemma tcp_connection_inv i stream (n n' : Endpoint) s :
  TcpNetwork.connection_step deserialize i stream n = (n', s) ->
  TcpNetwork.sender n' = TcpNetwork.sender n /\
  (Pending.wf (TcpNetwork.pending_responses n) -> Pending.wf (TcpNetwork.pending_responses n')) /\
  match s with Some (r, a) => tcp_event_ok (TcpNetwork.Handling r a) | None => True end.
Proof.
  unfold TcpNetwork.connection_step.
  destruct (TcpNetwork.read_frame stream) as [[[frame|]|e] rest]; [|by intros [= <- <-]..].
  unfold TcpNetwork.handle_frame.
  destruct (deserialize frame) as [[request|response]|]; [|intros [= <- <-]|by intros [= <- <-]].
  - destruct (TcpNetwork.request_handler n); by intros [= <- <-].
  - split_and!; [done|apply Pending.deliver_wf|done].
Qed.

Lemma tcp_step_inv tr n evs n' :
  tcp_inv tr n -> TcpNetwork.step serialize deserialize n evs n' -> tcp_inv (tr ++ evs) n'.
Proof.
  intros (Hf & Hwf & Hev) Hs. unfold tcp_inv, tcp_channel. rewrite omap_app, Forall_app.
  destruct Hs as [[stream|]|i stream n' s Hi Hc|to m data n' Hm Hs|to m e n' Hs
    |connect written p r n' Ho|id c n' Hw|c elapsed o Hw|id r n' Hw|].
  - split_and!; [by apply Mpsc.fifo_skip|done..].
  - split_and!; [by apply Mpsc.fifo_skip|done..].
  - apply tcp_connection_inv in Hc as (-> & Hwf' & Hok).
    destruct s as [[r a]|]; (split_and!; [by apply Mpsc.fifo_skip|auto|done|]); by repeat constructor.
  - apply tcp_send_inv in Hs as [-> (data' & Hm' & Hc)%enqueue_ok].
    rewrite Hm in Hm'. injection Hm' as <-.
    split_and!; [by eapply Mpsc.fifo_step|done..|]. apply Forall_singleton. by exists m.
  - apply tcp_send_inv in Hs as [-> [->|Hc]%enqueue_err]; split_and!; try done;
      [by apply Mpsc.fifo_skip|by eapply Mpsc.fifo_step].
  - apply tcp_outgoing_inv in Ho as (-> & Hr & Hok).
    split_and!; [by eapply Mpsc.fifo_step; [|apply Mpsc.step_recv]|done..|by apply Forall_singleton].
  - apply (Pending.register_wf id) in Hwf. unfold TcpNetwork.wait_response in Hw.
    destruct (Pending.register _ _). injection Hw as <- _. split_and!; [by apply Mpsc.fifo_skip|done..].
  - split_and!; [by apply Mpsc.fifo_skip|done..].
  - unfold TcpNetwork.wait_expired in Hw. injection Hw as <- _.
    split_and!; [by apply Mpsc.fifo_skip|by apply (Pending.expire_wf id)|done..].
  - split_and!; [by apply Mpsc.fifo_skip|done..].
Qed.

Lemma tcp_run_inv bind n tr n' :
  TcpNetwork.new bind = Ok n -> TcpNetwork.run serialize deserialize n tr n' -> tcp_inv tr n'.
Proof.
  intros Hn. induction 1 as [|tr n1 evs n2 _ IH Hs]; [|by eapply tcp_step_inv].
  destruct bind as [u|e]; [|done]. injection Hn as <-.
  split_and!; [apply Mpsc.fifo_channel|apply Pending.new_wf|done].
Qed.
End tcp.

(** C14: the outgoing queue and the waiters of the socket transports. Along every
    run of a UDP or a TCP transport, with any datagrams, connections and
    answers of the sockets: the packets its sending task has handled are those
    accepted from callers, in that order, none lost or handled twice, and at
    most 100 more wait in the channel; each is a serialized message, a UDP
    packet is tried at most three times, a frame is what [write_frame] makes of
    it; no two requests ever wait on one channel, and a TCP request is answered
    to the address its sender claims. *)
Theorem socket_runs {C : Type} `{!Mpsc.t C, !Mpsc.Laws C} serialize deserialize bind :
  (forall n0 tr (n : UdpNetwork.Endpoint (C := C)),
     UdpNetwork.new bind = Ok n0 -> UdpNetwork.run serialize deserialize n0 tr n ->
     Mpsc.accepted (udp_channel tr) =
       Mpsc.taken (udp_channel tr) ++ Mpsc.queued (UdpNetwork.sender n) /\
     length (Mpsc.queued (UdpNetwork.sender n)) <= 100 /\
     Pending.wf (UdpNetwork.pending_responses (UdpNetwork.shared n)) /\
     Forall (udp_event_ok serialize) tr) /\
  (forall n0 tr (n : TcpNetwork.Endpoint (C := C)),
     TcpNetwork.new bind = Ok n0 -> TcpNetwork.run serialize deserialize n0 tr n ->
     Mpsc.accepted (tcp_channel tr) =
       Mpsc.taken (tcp_channel tr) ++ Mpsc.queued (TcpNetwork.sender n) /\
     length (Mpsc.queued (TcpNetwork.sender n)) <= 100 /\
     Pending.wf (TcpNetwork.pending_responses n) /\
     Forall (tcp_event_ok serialize) tr).
Proof.
  split; intros n0 tr n Hn Hrun.
  - by destruct (udp_run_inv serialize deserialize bind n0 tr n Hn Hrun) as ((? & ? & _) & ? & ?).
  - by destruct (tcp_run_inv serialize deserialize bind n0 tr n Hn Hrun) as ((? & ? & _) & ? & ?).
Qed.

(** A message goes through the queue of a UDP transport. *)
Lemma socket_runs_witness :
  exists tr (n : UdpNetwork.Endpoint (C := ListChannel.t)),
    UdpNetwork.run (fun _ => Some [u8_of 42]) (fun _ => None)
      (UdpNetwork.MkEndpoint (UdpNetwork.Mk Pending.new false ∅) (ListChannel.Mk [] 100 false)) tr n /\
    length tr = 2 /\ Forall (udp_event_ok (fun _ => Some [u8_of 42])) tr.
Proof.
  assert (exists tr (n : UdpNetwork.Endpoint (C := ListChannel.t)),
    UdpNetwork.run (fun _ => Some [u8_of 42]) (fun _ => None)
      (UdpNetwork.MkEndpoint (UdpNetwork.Mk Pending.new false ∅) (ListChannel.Mk [] 100 false)) tr n /\
    length tr = 2) as (tr & n & Hrun & Hlen).
  { do 2 eexists. split.
    - eapply UdpNetwork.run_snoc; [eapply UdpNetwork.run_snoc; [apply UdpNetwork.run_refl|]|].
      + by eapply (UdpNetwork.step_send _ _ _ (sample_addr 1) (Request (Ping 7 (contact 1)))).
      + by eapply (UdpNetwork.step_outgoing _ _ _ (fun _ _ => true)).
    - reflexivity. }
  exists tr, n. split; [exact Hrun|]. split; [exact Hlen|].
  exact (proj2 (proj2 (proj2 (proj1 (socket_runs (fun _ => Some [u8_of 42]) (fun _ => None) (Ok tt))
    _ tr n eq_refl Hrun)))).
Defined.

(** C39: a message sent over TCP arrives. When the next packet in the queue of a
    transport is a message, within the frame limit and not empty as [bincode]'s
    are, and the connection can be made and written to, then the transport that
    accepts the connection handles exactly this message: a response goes to the
    waiter of its request, a request to the handler with the address of its
    sender (or nowhere while no handler is set), and then the connection ends. *)
Theorem tcp_message_arrives {C : Type} `{!Mpsc.t C, !Mpsc.Laws C} serialize deserialize
    connect written to m data rest (n peer : TcpNetwork.Endpoint (C := C)) :
  serialize m = Some data -> deserialize data = Some m ->
  data <> [] -> (Z.of_nat (length data) <= MAX_FRAME_SIZE)%Z ->
  connect to = Ok tt -> written to = Ok tt ->
  Mpsc.queued (TcpNetwork.sender n) = (to, data) :: rest ->
  let i := length (TcpNetwork.connections peer) in
  exists n' bytes peer' started,
    TcpNetwork.handle_outgoing connect written n = Some (n', ((to, data), Ok bytes)) /\
    Mpsc.queued (TcpNetwork.sender n') = rest /\
    TcpNetwork.connection_step deserialize i bytes (TcpNetwork.accept (Some bytes) peer)
      = (peer', started) /\
    TcpNetwork.connections peer' = TcpNetwork.connections peer ++ [Some []] /\
    TcpNetwork.connections (TcpNetwork.connection_step deserialize i [] peer').1
      = TcpNetwork.connections peer ++ [None] /\
    match m with
    | Request r =>
        started = (if TcpNetwork.request_handler peer
                   then Some (r, Node.addr (RequestMessage.sender r)) else None) /\
        TcpNetwork.pending_responses peer' = TcpNetwork.pending_responses peer
    | Response r =>
        started = None /\
        TcpNetwork.pending_responses peer' =
          Pending.deliver_response r (TcpNetwork.pending_responses peer)
    end.
Proof.
  intros Hm Hdes Hne Hlen Hconn Hwr Hq i.
  destruct (Mpsc.recv_law (to, data) rest _ Hq) as (c & Hrecv & Hrest & _).
  destruct (TcpNetwork.write_frame data) as [bytes|e] eqn:Hw.
  2: { revert Hw. unfold TcpNetwork.write_frame.
       by destruct (Z.ltb_spec MAX_FRAME_SIZE (Z.of_nat (length data))); [lia|]. }
  assert (TcpNetwork.read_frame bytes = (Ok (Some data), [])) as Hread.
  { pose proof (TcpNetwork.read_write_frame data bytes [] Hw) as Hr. rewrite app_nil_r in Hr.
    by destruct data. }
  assert (forall x y : option (list u8), <[i := y]> (TcpNetwork.connections peer ++ [x]) =
    TcpNetwork.connections peer ++ [y]) as Hset.
  { intros x y. unfold i. by rewrite insert_app_r_alt, Nat.sub_diag by lia. }
  exists (TcpNetwork.set_sender c n), bytes,
    (TcpNetwork.apply_effect (TcpNetwork.handle_frame deserialize (TcpNetwork.request_handler peer) data)
       (TcpNetwork.set_connection i (Some []) (TcpNetwork.accept (Some bytes) peer))).1,
    (TcpNetwork.apply_effect (TcpNetwork.handle_frame deserialize (TcpNetwork.request_handler peer) data)
       (TcpNetwork.set_connection i (Some []) (TcpNetwork.accept (Some bytes) peer))).2.
  unfold TcpNetwork.handle_outgoing, TcpNetwork.connection_step. rewrite Hrecv, Hread. cbn.
  rewrite Hconn, Hw. cbn. rewrite Hwr.
  unfold TcpNetwork.handle_frame. rewrite Hdes. destruct m as [r|r]; cbn.
  - destruct (TcpNetwork.request_handler peer); cbn; rewrite !Hset; by split_and!.
  - rewrite !Hset. by split_and!.
Qed.

Lemma tcp_message_arrives_witness :
  let des := fun data : list u8 => match data with [] => None | _ => Some (Request (Ping 7 (contact 1))) end in
  let n := TcpNetwork.MkEndpoint Pending.new true (ListChannel.Mk [(sample_addr 2, [u8_of 42])] 100 false) [] in
  exists bytes, (TcpNetwork.connection_step des 0 bytes (TcpNetwork.accept (Some bytes) n)).2
    = Some (Ping 7 (contact 1), sample_addr 1).
Proof.
  intros des n.
  destruct (tcp_message_arrives (fun _ => Some [u8_of 42]) des (fun _ => Ok tt) (fun _ => Ok tt)
    (sample_addr 2) (Request (Ping 7 (contact 1))) [u8_of 42] [] n n)
    as (n' & bytes & peer' & started & _ & _ & Hstep & _ & _ & Hstarted & _);
    [reflexivity|reflexivity|discriminate|vm_compute; discriminate|reflexivity..|].
  exists bytes. change (length (TcpNetwork.connections n)) with 0 in Hstep. rewrite Hstep. exact Hstarted.
Defined.
