(* ===== verification/Deployment.v ===== *)
(** * Complete nodes (src/src/network/node.rs: [Node], [with_udp], [with_tcp])

    A [Deployed] node is its identity, the state its tasks share and its
    transport. Binding a socket is a parameter. *)

From S2P Require Import Prelude Errors Bytes Ident F64 Contact Bucket Table Store.
From S2P Require Import Messages Effects Protocol Lookup DhtNode Transport Channel.
From S2P Require Import Udp Tcp.
From stdpp Require Import pretty.

Module Deployed.
Record t (S N : Type) := Mk {
  node_id : NodeId;
  addr : SocketAddr;
  shared : Shared S;
  network : N
}.
Arguments Mk {S N} node_id addr shared network.
Arguments node_id {S N} _.
Arguments addr {S N} _.
Arguments shared {S N} _.
Arguments network {S N} _.

Definition new {S N} (node_id : NodeId) (addr : SocketAddr) (storage : S) (network : N) : t S N :=
  Mk node_id addr (DhtNode.new node_id storage) network.

(** [set_request_handler] of the trait [Network]. *)
Class Network (N : Type) := set_request_handler : N -> N * Result unit.
#[export] Instance udp_network {C} : Network (UdpNetwork.Endpoint (C := C)) :=
  fun n => (UdpNetwork.set_shared UdpNetwork.set_request_handler n, Ok tt).
#[export] Instance tcp_network {C} : Network (TcpNetwork.Endpoint (C := C)) :=
  fun n => (TcpNetwork.set_request_handler n, Ok tt).

Definition set_default_request_handler {S N} `{!Network N} (self : t S N) : t S N * Result unit :=
  let '(n, r) := set_request_handler (network self) in
  (Mk (node_id self) (addr self) (shared self) n, r).

Section with_socket.
Context {C : Type} `{!Mpsc.t C}.
(** [sha2]'s digest, the textual form of a socket address, and the operating
    system's answer to the request for a socket. *)
Context (sha256 : list u8 -> list u8) (to_string : SocketAddr -> list u8).
Context (bind : SocketAddr -> Result unit).

Definition with_tcp (addr : SocketAddr) : Result (t MemoryStorage (TcpNetwork.Endpoint (C := C))) :=
  let node_id := NodeId.from_socket_addr sha256 (to_string addr) in
  let storage := MemoryStorage.with_name ("tcp_node_" ++ pretty (port addr)) in
  network ← TcpNetwork.new (bind addr);
  let '(node, r) := set_default_request_handler (new node_id addr storage network) in
  _ ← r;
  mret node.

Definition with_udp (addr : SocketAddr) : Result (t MemoryStorage (UdpNetwork.Endpoint (C := C))) :=
  let node_id := NodeId.from_socket_addr sha256 (to_string addr) in
  let storage := MemoryStorage.with_name ("node_" ++ pretty (port addr)) in
  network ← UdpNetwork.new (bind addr);
  let '(node, r) := set_default_request_handler (new node_id addr storage network) in
  _ ← r;
  mret node.
End with_socket.
End Deployed.
Export (hints) Deployed.
