(* ===== verification/Cli.v ===== *)
(** * The command-line example (src/examples/simple_node.rs)

    Each subcommand is a program over the node that [with_udp] has made. What
    a command logs about its outcome is its [Report]; the process itself
    succeeds or fails as [main] returns [Ok] or [Err]. [clap]'s parsing and
    logging are left out: [Cli.t] is the parsed command line, and a string is
    its bytes. A [Tick] is a [sleep]. *)

From S2P Require Import Prelude Errors Bytes Ident F64 Contact Bucket Table Store.
From S2P Require Import Messages Effects Protocol Lookup DhtNode Transport Channel.
From S2P Require Import Udp Deployment.

Module Cli.
Inductive Command :=
  | Bootstrap
  | Join (bootstrap : list u8)
  | Store (bootstrap key value : list u8)
  | Get (bootstrap key : list u8).
Record t := Mk { port : Z; command : Command }.

Inductive Report :=
  | Stored
  | StoreFailed (e : Error)
  | StoreTimedOut
  | Found (value : Value)
  | NotFound (e : Error)
  | LookupTimedOut.

Section commands.
Context {S : Type} `{!Storage.t S, !Profile, !HashOrder nat KBucket}.
Context (sha256 : list u8 -> list u8) (to_string : SocketAddr -> list u8).
Context (node_id : NodeId) (addr : SocketAddr).

Abbreviation prog := (prog (Shared S) QueryResult).

(** [loop { sleep(1 s) }] *)
Definition keep_running : prog (Result Report) :=
  loop (fun _ : unit => _ ← tick (from_secs 1); mret (inl tt)) tt.

Definition bootstrap : prog (Result Report) :=
  _ ←? DhtNode.start node_id addr;
  keep_running.

Definition join (bootstrap_addr : SocketAddr) : prog (Result Report) :=
  _ ←? DhtNode.start node_id addr;
  _ ←? DhtNode.join sha256 to_string node_id addr bootstrap_addr;
  keep_running.

Definition store (bootstrap_addr : SocketAddr) (key value : list u8) : prog (Result Report) :=
  _ ←? DhtNode.start node_id addr;
  _ ←? DhtNode.join sha256 to_string node_id addr bootstrap_addr;
  r ← within (from_secs 10) (DhtNode.store node_id addr key value);
  let report :=
    match r with
    | Some (Ok _) => Stored
    | Some (Err e) => StoreFailed e
    | None => StoreTimedOut
    end in
  _ ← tick (from_secs 1);
  mret (Ok report).

Definition get (bootstrap_addr : SocketAddr) (key : list u8) : prog (Result Report) :=
  _ ←? DhtNode.start node_id addr;
  _ ←? DhtNode.join sha256 to_string node_id addr bootstrap_addr;
  r ← within (from_secs 10) (DhtNode.get node_id addr key);
  let report :=
    match r with
    | Some (Ok value) => Found value
    | Some (Err e) => NotFound e
    | None => LookupTimedOut
    end in
  _ ← tick (from_secs 1);
  mret (Ok report).
End commands.

Section main.
Context {C : Type} `{!Mpsc.t C, !HashOrder NodeId MemoryStorage.StorageEntry}.
Context `{!Profile, !HashOrder nat KBucket}.
Context (sha256 : list u8 -> list u8) (to_string : SocketAddr -> list u8).
Context (bind : SocketAddr -> Result unit).
(** [str::parse::<SocketAddr>] *)
Context (parse : list u8 -> option SocketAddr).

Definition loopback_addr (port : Z) : SocketAddr := MkSocketAddr (V4 2130706433) port.

(** [parse().unwrap()] *)
Definition parse_unwrap (s : list u8) : exec SocketAddr :=
  match parse s with Some a => Done a | None => Panic end.

(** [async_main]: the node it makes and what it then runs. A bootstrap address
    that does not parse panics before the node is made. *)
Definition async_main (cli : t)
    : exec (Result (Deployed.t MemoryStorage (UdpNetwork.Endpoint (C := C)) *
                    prog (Shared MemoryStorage) QueryResult (Result Report))) :=
  let addr := loopback_addr (port cli) in
  match command cli with
  | Bootstrap =>
      mret (node ← Deployed.with_udp sha256 to_string bind addr;
            mret (node, bootstrap (Deployed.node_id node) (Deployed.addr node)))
  | Join b =>
      bootstrap_addr ← parse_unwrap b;
      mret (node ← Deployed.with_udp sha256 to_string bind addr;
            mret (node, join sha256 to_string (Deployed.node_id node) (Deployed.addr node)
                          bootstrap_addr))
  | Store b key value =>
      bootstrap_addr ← parse_unwrap b;
      mret (node ← Deployed.with_udp sha256 to_string bind addr;
            mret (node, store sha256 to_string (Deployed.node_id node) (Deployed.addr node)
                          bootstrap_addr key value))
  | Get b key =>
      bootstrap_addr ← parse_unwrap b;
      mret (node ← Deployed.with_udp sha256 to_string bind addr;
            mret (node, get sha256 to_string (Deployed.node_id node) (Deployed.addr node)
                          bootstrap_addr key))
  end.
End main.
End Cli.
