(* ===== verification/System.v ===== *)
(** * A node on its UDP transport

    The composition of [DhtNode] and [UdpNetwork] that [with_udp] sets up: the
    requests the transport receives start the node's request handler, and what
    the node's tasks send goes into the transport's queue. *)

From S2P Require Import Prelude Errors Bytes Ident F64 Contact Bucket Table Store.
From S2P Require Import Messages Effects Protocol Lookup DhtNode NodeSafety Transport Channel.
From S2P Require Import Udp SocketSpec Deployment.

Section system.
Context {S C : Type} `{!Storage.t S, !Mpsc.t C, !Profile, !HashOrder nat KBucket}.
Context (sha256 : list u8 -> list u8) (to_string : SocketAddr -> list u8).
Context (serialize : KademliaMessage -> option (list u8))
  (deserialize : list u8 -> option KademliaMessage).

Local Abbreviation prog := (prog (Shared S) QueryResult).
Local Abbreviation Endpoint := (UdpNetwork.Endpoint (C := C)).

(** A deployed node and the tasks that run on it. *)
Record System := MkSystem {
  deployed : Deployed.t S Endpoint;
  running : list (prog QueryResult)
}.

(** Its two parts. *)
Definition node_part (s : System) : node := MkNode (Deployed.shared (deployed s)) (running s).
Definition with_node (n : node) (net : Endpoint) (s : System) : System :=
  MkSystem (Deployed.Mk (Deployed.node_id (deployed s)) (Deployed.addr (deployed s)) (shared n) net)
    (tasks n).
Definition operation_of (s : System) : prog QueryResult -> Prop :=
  DhtNode.operation sha256 to_string (Deployed.node_id (deployed s)) (Deployed.addr (deployed s)).

(** [network.send] of a task, as the transport answers it. Waiting for a
    response is not followed here: waiters come and go by the transport's own
    steps, and the answer to a wait is any. *)
Inductive carried (net : Endpoint) : list event -> list UdpNetwork.event -> Endpoint -> Prop :=
  | carried_none : carried net [] [] net
  | carried_sent to m data net' :
      serialize m = Some data -> UdpNetwork.send serialize to m net = Some (net', Ok tt) ->
      carried net [Sent to m (Ok tt)] [UdpNetwork.Queued (to, data)] net'
  | carried_failed to m e net' :
      UdpNetwork.send serialize to m net = Some (net', Err e) ->
      carried net [Sent to m (Err e)] [] net'
  | carried_wait limit id r : carried net [Waited limit id r] [] net.

(** What happens next, with what the outside sees of the transport. *)
Inductive system_step (s : System) : list event -> list UdpNetwork.event -> System -> Prop :=
  | system_task evs n' uevs net' :
      node_step (operation_of s) (node_part s) evs n' ->
      carried (Deployed.network (deployed s)) evs uevs net' ->
      system_step s evs uevs (with_node n' net' s)
  | system_receive now src data inner started :
      UdpNetwork.handle_datagram deserialize now src data
        (UdpNetwork.shared (Deployed.network (deployed s))) = (inner, started) ->
      system_step s []
        (match started with Some x => [UdpNetwork.Handling x] | None => [] end)
        (with_node
           (MkNode (Deployed.shared (deployed s))
              (running s ++
               match started with
               | Some (request, from) =>
                   [DhtNode.task (DhtNode.forward_request (Deployed.node_id (deployed s))
                      (Deployed.addr (deployed s)) request from)]
               | None => []
               end))
           (UdpNetwork.MkEndpoint inner (UdpNetwork.sender (Deployed.network (deployed s)))) s)
  | system_transport uevs net' :
      UdpNetwork.step serialize deserialize (Deployed.network (deployed s)) uevs net' ->
      (forall x, UdpNetwork.Handling x ∉ uevs) ->
      (forall p, UdpNetwork.Queued p ∉ uevs) ->
      system_step s [] uevs (with_node (node_part s) net' s).

Inductive system_run (s : System) : list event -> list UdpNetwork.event -> System -> Prop :=
  | system_run_refl : system_run s [] [] s
  | system_run_snoc tr utr s1 evs uevs s2 :
      system_run s tr utr s1 -> system_step s1 evs uevs s2 ->
      system_run s (tr ++ evs) (utr ++ uevs) s2.

(** ** The run of the system is a run of each part *)
Lemma node_run_snoc {St R} op (n n1 n2 : Effects.node (St := St) (R := R)) tr evs :
  node_run op n tr n1 -> node_step op n1 evs n2 -> node_run op n (tr ++ evs) n2.
Proof.
  induction 1 as [n|n evs0 n0 tr n1 Hs _ IH]; intros Hs2; cbn.
  - rewrite <-(app_nil_r evs). eapply node_run_step; [done|apply node_run_refl].
  - rewrite <-app_assoc. eapply node_run_step; [done|auto].
Qed.

(** The packets of the messages the tasks have sent, in order. *)
Definition sent_packets (tr : list event) : list Packet :=
  omap (fun e => match e with Sent to m (Ok _) => pair to <$> serialize m | _ => None end) tr.

(** Nothing counts as sent that has no serialization. *)
Definition serialized (e : event) : Prop :=
  match e with Sent _ m (Ok _) => is_Some (serialize m) | _ => True end.

Definition system_inv (s0 : System) (tr : list event) (utr : list UdpNetwork.event) (s : System) : Prop :=
  Deployed.node_id (deployed s) = Deployed.node_id (deployed s0) /\
  Deployed.addr (deployed s) = Deployed.addr (deployed s0) /\
  node_run (operation_of s0) (node_part s0) tr (node_part s) /\
  UdpNetwork.run serialize deserialize (Deployed.network (deployed s0)) utr
    (Deployed.network (deployed s)) /\
  Mpsc.accepted (udp_channel utr) = sent_packets tr /\ Forall serialized tr.

Lemma sent_packets_app tr evs : sent_packets (tr ++ evs) = sent_packets tr ++ sent_packets evs.
Proof. apply omap_app. Qed.

Lemma accepted_app utr uevs :
  Mpsc.accepted (udp_channel (utr ++ uevs)) =
    Mpsc.accepted (udp_channel utr) ++ Mpsc.accepted (udp_channel uevs).
Proof. unfold Mpsc.accepted, udp_channel. by rewrite !omap_app. Qed.

Lemma carried_step net evs uevs net' :
  carried net evs uevs net' ->
  (uevs = [] /\ net' = net \/ UdpNetwork.step serialize deserialize net uevs net') /\
  Mpsc.accepted (udp_channel uevs) = sent_packets evs /\ Forall serialized evs.
Proof.
  destruct 1 as [|to m data net' Hm Hs|to m e net' Hs|limit id r].
  - split; [by left|done].
  - split; [right; by eapply UdpNetwork.step_send|]. split; [|apply Forall_singleton; by exists data].
    unfold sent_packets. csimpl. by rewrite Hm.
  - split; [right; by eapply UdpNetwork.step_send_failed|]. split; [done|by repeat constructor].
  - split; [by left|]. split; [done|by repeat constructor].
Qed.

Lemma no_queued uevs : (forall p, UdpNetwork.Queued p ∉ uevs) -> Mpsc.accepted (udp_channel uevs) = [].
Proof.
  induction uevs as [|[p|p sent n|x] uevs IH]; intros Hno; [done| |..].
  - destruct (Hno p). by left.
  - apply IH. intros p' Hp. apply (Hno p'). by right.
  - apply IH. intros p' Hp. apply (Hno p'). by right.
Qed.

Lemma system_step_inv s0 tr utr s evs uevs s' :
  system_inv s0 tr utr s -> system_step s evs uevs s' -> system_inv s0 (tr ++ evs) (utr ++ uevs) s'.
Proof.
  intros (Hid & Haddr & Hn & Hu & Hq & Hser) Hs.
  assert (operation_of s = operation_of s0) as Hop by (unfold operation_of; by rewrite Hid, Haddr).
  unfold system_inv. rewrite accepted_app, sent_packets_app, Forall_app, Hq.
  destruct Hs as [evs n' uevs net' Hs Hc|now src data inner started Hd|uevs net' Hs Hno1 Hno2].
  - rewrite Hop in Hs. apply carried_step in Hc as (Hc & -> & Hevs). split_and!; [done..| | |done|done|done].
    + destruct n'. by eapply node_run_snoc.
    + destruct Hc as [[-> ->]|Hc]; [by rewrite app_nil_r|by eapply UdpNetwork.run_snoc].
  - split_and!; [done..| | | |done|done].
    + cbn. destruct started as [[request from]|].
      * eapply node_run_snoc; [exact Hn|]. apply (node_start _ (node_part s)).
        rewrite <-Hop. constructor.
      * by rewrite !app_nil_r.
    + eapply UdpNetwork.run_snoc; [done|]. by eapply UdpNetwork.step_receive.
    + by destruct started.
  - split_and!; [done..| | | |done|done].
    + by rewrite app_nil_r.
    + by eapply UdpNetwork.run_snoc.
    + by rewrite no_queued.
Qed.

Lemma system_run_inv s tr utr s' : system_run s tr utr s' -> system_inv s tr utr s'.
Proof.
  induction 1 as [|tr utr s1 evs uevs s2 _ IH Hs]; [|by eapply system_step_inv].
  split_and!; [done..|apply node_run_refl|apply UdpNetwork.run_refl|done|constructor].
Qed.
End system.
