(* ===== verification/Termination.v ===== *)
(** * Termination of the protocol's operations

    Everything but [find_node] and the background tasks is free of loops;
    [find_node] goes on only while an answer brings an unseen identifier, and
    there are [2^160] of them. *)

From S2P Require Import Prelude Errors Bytes Ident F64 Contact Bucket Table Store.
From S2P Require Import Messages Effects Protocol Lookup DhtNode.

(** Goes through the binds of a program without loops. *)
Ltac no_loop_step :=
  match goal with
  | |- loop_free (mret _) => exact I
  | |- loop_free (bind_ok _ _) => apply loop_free_bind; [|intros [?|?]; [|exact I]]
  | |- loop_free (_ ≫= _) => apply loop_free_bind; [|intros ?]
  | |- loop_free (match ?x with _ => _ end) => destruct x
  | |- loop_free (if ?x then _ else _) => destruct x
  | _ => solve [done | intros; exact I | eauto with kad]
  end.
Ltac no_loop := repeat no_loop_step.

Lemma loop_free_for_each {St R X} (l : list X) (body : X -> prog St R unit) :
  (forall x, loop_free (body x)) -> loop_free (for_each l body).
Proof.
  intros Hb. induction l as [|x l IH]; cbn; [done|]. by apply loop_free_bind.
Qed.

Section loop_free.
Context {S : Type} `{!Storage.t S, !Profile, !HashOrder nat KBucket}.
Context (node_id : NodeId) (addr : SocketAddr).
Local Abbreviation lf := (loop_free (St := Shared S) (R := QueryResult)).

Lemma lf_health_check n : lf (Protocol.health_check_ping node_id addr n).
Proof. unfold Protocol.health_check_ping. no_loop. Qed.
Hint Resolve lf_health_check : kad.
Lemma lf_record_contact n : lf (Protocol.record_contact node_id addr n).
Proof. unfold Protocol.record_contact. no_loop. Qed.
Hint Resolve lf_record_contact : kad.
Lemma lf_request_response n id request :
  lf (Protocol.request_response node_id addr n id request).
Proof. unfold Protocol.request_response. no_loop. Qed.
Hint Resolve lf_request_response : kad.
Lemma lf_ping n : lf (Protocol.ping node_id addr n).
Proof. unfold Protocol.ping. no_loop. Qed.
Lemma lf_store n key value : lf (Protocol.store node_id addr n key value).
Proof. unfold Protocol.store. no_loop. Qed.
Lemma lf_find_node_rpc n target : lf (Protocol.find_node_rpc node_id addr n target).
Proof. unfold Protocol.find_node_rpc. no_loop. Qed.
Lemma lf_find_value_rpc n key : lf (Protocol.find_value_rpc node_id addr n key).
Proof. unfold Protocol.find_value_rpc. no_loop. Qed.
Hint Resolve lf_ping lf_store lf_find_node_rpc lf_find_value_rpc : kad.

Lemma lf_handle_request req from : lf (Protocol.handle_request node_id addr req from).
Proof.
  unfold Protocol.handle_request, Protocol.handle_ping, Protocol.handle_store,
    Protocol.handle_find_node, Protocol.handle_find_value, Protocol.replicate_to_new_node.
  no_loop. apply loop_free_for_each. intros key. no_loop.
Qed.

Lemma lf_query_task key n : lf (Lookup.query_task node_id addr key n).
Proof. unfold Lookup.query_task. no_loop. Qed.
Lemma lf_spawn_all key ns : lf (Lookup.spawn_all node_id addr key ns).
Proof. induction ns as [|n ns IH]; cbn [Lookup.spawn_all]; no_loop. Qed.
Lemma lf_await_all key visited hs acc : lf (Lookup.await_all key visited hs acc).
Proof. revert acc. induction hs as [|h hs IH]; intros acc; cbn [Lookup.await_all]; no_loop. Qed.
Lemma lf_find_value_rounds n key visited ns :
  lf (Lookup.find_value_rounds node_id addr n key visited ns).
Proof.
  revert visited ns. induction n as [|n IH]; intros visited ns; cbn [Lookup.find_value_rounds];
    no_loop; auto using lf_spawn_all, lf_await_all.
Qed.
Lemma lf_find_value key : lf (Lookup.find_value node_id addr key).
Proof. unfold Lookup.find_value. no_loop. apply lf_find_value_rounds. Qed.
Lemma lf_store_value key value : lf (Lookup.store_value node_id addr key value).
Proof.
  unfold Lookup.store_value. no_loop. apply loop_free_for_each. intros n.
  case_decide; [done|]. split; [apply lf_store|done].
Qed.
Lemma lf_node_store key value : lf (DhtNode.store node_id addr key value).
Proof.
  unfold DhtNode.store. apply loop_free_bind; [split; [apply lf_store_value|done]|]. intros r.
  no_loop. apply loop_free_for_each. intros n. case_decide; [done|]. split; [apply lf_store|done].
Qed.
Lemma lf_get key : lf (DhtNode.get node_id addr key).
Proof. unfold DhtNode.get. apply loop_free_bind; [apply lf_find_value|]. intros r. no_loop. Qed.
End loop_free.

(** ** Sets of identifiers are bounded *)
Lemma size_ids_bound (X : gset NodeId) : (Z.of_nat (size X) <= 2 ^ 160)%Z.
Proof.
  unfold size, set_size. cbn. rewrite <-(length_fmap NodeId.val).
  assert (NoDup (NodeId.val <$> elements X)) as Hnd.
  { apply NoDup_fmap_2; [apply _|apply NoDup_elements]. }
  assert (length (NodeId.val <$> elements X) <= length (seqZ 0 (2 ^ 160))) as Hle.
  { apply NoDup_incl_length; [by apply NoDup_ListNoDup|].
    intros v Hv%list_elem_of_In. apply list_elem_of_In, elem_of_seqZ.
    apply list_elem_of_fmap in Hv as (i & -> & _). pose proof (NodeId.val_bound i). lia. }
  rewrite length_seqZ in Hle. apply Nat2Z.inj_le in Hle. rewrite Z2Nat.id in Hle; lia.
Qed.

(** Rounds still possible: unseen identifiers, and the last round. *)
Definition rounds_left (s : FindNode.t) : Z :=
  2 * (2 ^ 160 - Z.of_nat (size (FindNode.seen s))) +
  (if FindNode.looking_for_closest s then 1 else 0).

Section find_node.
Context {S : Type} `{!Storage.t S, !Profile, !HashOrder nat KBucket}.
Context (node_id : NodeId) (addr : SocketAddr).

Local Abbreviation round := (Lookup.find_node_round (S := S) node_id addr).

Lemma may_return_if {A} (b : bool) (p q : prog (Shared S) QueryResult A) a :
  may_return (if b then p else q) a -> (b = true /\ may_return p a) \/ (b = false /\ may_return q a).
Proof. destruct b; auto. Qed.

(** One iteration: it goes on from [looking_for_closest] candidates with
    the answers of the round, and ends with the candidates it has. *)
Lemma round_next target s s' :
  may_return (round target s) (inl s') ->
  FindNode.looking_for_closest s = true /\
  exists results, s' = FindNode.process_results target
    (FindNode.Mk (FindNode.seen s) (FindNode.closest_nodes s) false) 0 results.
Proof.
  unfold Lookup.find_node_round. intros [[Hc Hr]|[_ Hr]]%may_return_if.
  - apply andb_true_iff in Hc as [Hl _]. split; [done|].
    apply may_return_bind in Hr as (results & _ & Hr). apply may_return_Ret in Hr.
    injection Hr as ->. by exists results.
  - by apply may_return_Ret in Hr.
Qed.

Lemma round_done target s ns :
  may_return (round target s) (inr ns) -> ns = FindNode.closest_nodes s.
Proof.
  unfold Lookup.find_node_round. intros [[_ Hr]|[_ Hr]]%may_return_if.
  - apply may_return_bind in Hr as (results & _ & Hr). by apply may_return_Ret in Hr.
  - apply may_return_Ret in Hr. by injection Hr.
Qed.

Lemma round_terminates target s : terminates (round target s).
Proof.
  unfold Lookup.find_node_round. case_match; [|apply terminates_Ret].
  apply terminates_bind; [|intros rs _; apply terminates_Ret]. unfold join.
  apply terminates_join; [intros; apply terminates_Ret|].
  apply Forall_forall. intros p (n & <- & _)%list_elem_of_In%in_map_iff.
  apply loop_free_terminates, lf_find_node_rpc.
Qed.

Local Abbreviation sorted target ns :=
  (StronglySorted (fun x y => distance_to target x <= distance_to target y)%Z ns).

Lemma round_decreases target s s' :
  sorted target (FindNode.closest_nodes s) -> may_return (round target s) (inl s') ->
  sorted target (FindNode.closest_nodes s') /\ (0 <= rounds_left s' < rounds_left s)%Z.
Proof.
  intros Hs (Hl & rs & ->)%round_next.
  destruct (process_results_progress target (FindNode.Mk (FindNode.seen s)
    (FindNode.closest_nodes s) false) 0 rs Hs) as (Hok & Hsub & Hlook).
  split; [done|]. set (s' := FindNode.process_results _ _ _ _) in *. unfold rounds_left.
  pose proof (size_ids_bound (FindNode.seen s')). rewrite Hl.
  pose proof (subseteq_size _ _ Hsub) as Hle. cbn in Hle, Hsub, Hlook.
  destruct (FindNode.looking_for_closest s') eqn:Hl'; [|lia].
  destruct (Hlook eq_refl) as [|Hlt]; [done|]. apply subset_size in Hlt. lia.
Qed.

Lemma find_node_loop_terminates target s :
  sorted target (FindNode.closest_nodes s) -> terminates (loop (round target) s).
Proof.
  intros Hs. unfold loop.
  apply (terminates_loop _ _ (fun s => sorted target (FindNode.closest_nodes s))
    (fun s' s => 0 <= rounds_left s' < rounds_left s)%Z); [intros; apply terminates_Ret| | |done|].
  - apply round_terminates.
  - apply round_decreases.
  - apply (wf_projected (fun a b => 0 <= a < b)%Z rounds_left); [done|]. apply Z.lt_wf.
Qed.

Lemma find_node_terminates_all target :
  terminates (Lookup.find_node (S := S) node_id addr target).
Proof.
  unfold Lookup.find_node. apply terminates_bind.
  - apply loop_free_terminates. no_loop.
  - intros ns (st & [= <-])%may_return_reading.
    apply terminates_bind; [|intros; apply terminates_Ret].
    apply find_node_loop_terminates. apply sorted_take, sort_by_sorted, distance_cmp_key.
Qed.

(** What the loop returns satisfies the invariant of its candidates. *)
Lemma find_node_loop_ok target initial s ns :
  candidates_ok target node_id initial s -> may_return (loop (round target) s) ns ->
  exists s', candidates_ok target node_id initial s' /\ ns = FindNode.closest_nodes s'.
Proof.
  intros Hs. apply (may_return_loop (round target) (candidates_ok target node_id initial)
    (fun ns => exists s', candidates_ok target node_id initial s' /\ ns = FindNode.closest_nodes s'));
    [|intros x y Hx ->%round_done; eauto|done].
  intros x x' Hx (_ & rs & ->)%round_next. apply process_results_ok. by destruct Hx.
Qed.
End find_node.
