(* ===== verification/Locks.v ===== *)
(** * The lock discipline of a node's tasks

    The one guard that lives across an [await] is of the pending requests, and
    what runs under it are sections of other locks ([brief]). [plain] programs
    obey this and hold no lock yet; a task keeps [running] under the
    discipline, and while it holds a lock it can always go on. *)

From S2P Require Import Prelude Errors Bytes Ident F64 Contact Store Messages Effects.

Section discipline.
Context {St R : Type}.

(** Sections of other locks, which end. *)
Fixpoint brief {A} (p : prog St R A) : Prop :=
  match p with
  | Ret _ | Abort => True
  | Atomic l f k =>
      l <> pending_requests_lock /\ (forall c st, enough_fuel (f c st)) /\ forall x, brief (k x)
  | _ => False
  end.

(** A task that terminates, or a loop each of whose iterations does. *)
Definition settles (p : prog St R R) : Prop :=
  terminates p \/
  exists X Y (body : X -> prog St R (X + Y)) q k, p = Loop body q k /\ terminates q /\
    (forall x, terminates (body x)) /\ forall y, terminates (k y).

Fixpoint plain {A} (p : prog St R A) : Prop :=
  match p with
  | Ret _ | Abort => True
  | Draw k => forall x, plain (k x)
  | Atomic _ f k => forall x, plain (k x)
  | Guard l f body k =>
      l = pending_requests_lock /\ (forall x, brief (body x)) /\ forall y, plain (k y)
  | Held _ _ _ => False
  | Send _ _ k => forall r, plain (k r)
  | Wait _ _ _ k => forall r ms, plain (k r ms)
  | Join ps k =>
      (fix all (ps : list (prog St R _)) : Prop :=
         match ps with [] => True | q :: ps' => plain q /\ all ps' end) ps /\
      forall xs, plain (k xs)
  | Within _ q k => plain q /\ forall x, plain (k x)
  | Spawn q k => (plain q /\ settles q) /\ forall h, plain (k h)
  | Await h k => forall r, plain (k r)
  | Loop body q k => (forall x, plain (body x)) /\ plain q /\ forall y, plain (k y)
  | Tick _ k => plain k
  end.

(** A program at work: it may hold the lock. *)
Fixpoint running {A} (p : prog St R A) : Prop :=
  match p with
  | Held l q k => l = pending_requests_lock /\ brief q /\ forall y, plain (k y)
  | Join ps k =>
      (fix all (ps : list (prog St R _)) : Prop :=
         match ps with [] => True | q :: ps' => running q /\ all ps' end) ps /\
      forall xs, plain (k xs)
  | Within _ q k => running q /\ forall x, plain (k x)
  | Loop body q k => (forall x, plain (body x)) /\ running q /\ forall y, plain (k y)
  | q => plain q
  end.

Lemma plain_join {X A} (ps : list (prog St R X)) (k : list X -> prog St R A) :
  plain (Join ps k) <-> Forall plain ps /\ forall xs, plain (k xs).
Proof.
  cbn. apply and_iff_compat_r. induction ps as [|q ps IH]; [done|]. by rewrite Forall_cons, IH.
Qed.
Lemma running_join {X A} (ps : list (prog St R X)) (k : list X -> prog St R A) :
  running (Join ps k) <-> Forall running ps /\ forall xs, plain (k xs).
Proof.
  cbn. apply and_iff_compat_r. induction ps as [|q ps IH]; [done|]. by rewrite Forall_cons, IH.
Qed.

Lemma plain_bind {A B} (f : A -> prog St R B) p :
  plain p -> (forall a, plain (f a)) -> plain (p ≫= f).
Proof. intros Hp Hf. induction p; cbn in *; naive_solver. Qed.
Lemma plain_bind_ok {A B} (f : A -> prog St R (Result B)) p :
  plain p -> (forall a, plain (f a)) -> plain (bind_ok f p).
Proof. intros Hp Hf. apply plain_bind; [done|]. intros [a|e]; [apply Hf|done]. Qed.
Lemma plain_for_each {X} (l : list X) body :
  (forall x, plain (body x)) -> plain (for_each l body).
Proof. intros Hb. induction l as [|x l IH]; cbn; [done|]. by apply plain_bind. Qed.

Fixpoint plain_running {A} (p : prog St R A) : plain p -> running p.
Proof.
  destruct p; cbn; try done.
  - intros [Hps Hk]. split; [|done]. induction ps as [|q ps IH]; [done|].
    destruct Hps as [Hq Hps]. split; [by apply plain_running|by apply IH].
  - intros [Hq Hk]. split; [by apply plain_running|done].
  - intros (Hb & Hq & Hk). split_and!; [done|by apply plain_running|done].
Qed.

Fixpoint plain_idle l {A} (p : prog St R A) : plain p -> holds l p = false.
Proof.
  destruct p; cbn; try done.
  - intros [Hps _]. induction ps as [|q ps IH]; [done|]. destruct Hps as [Hq Hps]. cbn.
    by rewrite (plain_idle l _ q Hq), (IH Hps).
  - intros [Hq _]. by apply plain_idle.
  - intros (_ & Hq & _). by apply plain_idle.
Qed.

Lemma brief_idle l {A} (p : prog St R A) : brief p -> holds l p = false.
Proof. by destruct p. Qed.

Fixpoint running_holds l {A} (p : prog St R A) :
  running p -> holds l p = true -> l = pending_requests_lock.
Proof.
  destruct p; cbn; try done.
  - intros (-> & Hq & _) [Hl|Hl]%orb_true_iff; [by apply bool_decide_eq_true in Hl|].
    by rewrite (brief_idle l p) in Hl.
  - intros [Hps _]. induction ps as [|q ps IH]; [done|]. destruct Hps as [Hq Hps]. cbn.
    intros [Hl|Hl]%orb_true_iff; [by apply (running_holds l _ q)|by apply IH].
  - intros [Hq _]. by apply running_holds.
  - intros (_ & Hq & _). by apply running_holds.
Qed.

(** ** Steps keep the discipline *)
Lemma brief_step n fin st A (p : prog St R A) evs st' new p' :
  step n fin st A p evs st' new p' -> brief p -> new = [] /\ brief p'.
Proof. destruct 1; cbn; naive_solver. Qed.

Lemma running_step n fin st A (p : prog St R A) evs st' new p' :
  step n fin st A p evs st' new p' -> running p ->
  running p' /\ Forall (fun q => plain q /\ settles q) new.
Proof.
  pose proof @plain_running as Hpr.
  assert (forall B (q : prog St R B), plain q -> running q /\ Forall (fun q => plain q /\ settles q) [])
    as Hplain by by auto.
  induction 1; rewrite ?running_join, ?Forall_app, ?Forall_cons; cbn; intros Hp; try done;
    try (apply Hplain; tauto || naive_solver).
  - destruct Hp as (-> & Hb & Hk). auto.
  - destruct Hp as (-> & Hq & Hk). by destruct (brief_step _ _ _ _ _ _ _ _ _ H Hq) as [-> ?].
  - naive_solver.
  - naive_solver.
  - destruct Hp as [[? ?] ?]. auto.
  - naive_solver.
  - destruct Hp as (? & ? & ?). auto.
Qed.

(** A lock that is not free is not taken. *)
Lemma idle_step n fin st A (p : prog St R A) evs st' new p' :
  step n fin st A p evs st' new p' -> running p -> ~ free fin pending_requests_lock ->
  holds pending_requests_lock p = false -> holds pending_requests_lock p' = false.
Proof.
  pose proof @plain_idle as Hpi.
  induction 1; rewrite ?running_join, ?Forall_app, ?Forall_cons; cbn; intros Hp Hno Hl; try done;
    try (apply Hpi; tauto || naive_solver).
  - destruct Hno. by destruct Hp as [<- _].
  - destruct Hp as (_ & Hq & _). rewrite (brief_idle pending_requests_lock p) in Hl by done.
    destruct (brief_step _ _ _ _ _ _ _ _ _ H Hq) as [_ Hq'].
    by rewrite (brief_idle pending_requests_lock p').
  - rewrite existsb_app in *. cbn in *. rewrite !orb_false_iff in *. naive_solver.
  - naive_solver.
  - naive_solver.
Qed.

(** While a program holds the lock it can go on, whatever other tasks do. *)
Lemma brief_ready n fin st A (p : prog St R A) :
  brief p -> (forall l, l <> pending_requests_lock -> free fin l) ->
  match p with
  | Ret _ | Abort => True
  | _ => exists st' p', step n fin st A p [] st' [] p'
  end.
Proof.
  destruct p as [| | |X l f k| | | | | | | | | |]; try done. intros (Hl & Hf & _) Hfree.
  destruct (f (MkClock 0 0) st) as [[st' x]| |] eqn:Hs.
  - do 2 eexists. eapply step_atomic; [by apply Hfree|done].
  - do 2 eexists. eapply step_panic; [by apply Hfree|done].
  - by destruct (Hf (MkClock 0 0) st).
Qed.

Fixpoint holder_ready n fin st {A} (p : prog St R A) :
  running p -> (forall l, l <> pending_requests_lock -> free fin l) ->
  holds pending_requests_lock p = true -> exists st' new p', step n fin st A p [] st' new p'.
Proof.
  destruct p as [| | | | |Y l q k| | |X ps k|X limit q k| | |X Y body q k|]; intros Hp Hfree Hl; try done.
  - destruct Hp as (_ & Hq & _). pose proof (brief_ready n fin st _ q Hq Hfree) as Hs.
    destruct q; try done; [do 3 eexists; apply step_held_done|do 3 eexists; apply step_held_abort|].
    destruct Hs as (st' & p' & Hs). do 3 eexists. by apply step_held.
  - assert (Forall (fun q => holds pending_requests_lock q = true ->
      exists st' new q', step n fin st _ q [] st' new q') ps) as Hps.
    { destruct Hp as [Hps _]. clear Hl. induction ps as [|r ps IH]; [done|].
      destruct Hps as [Hr Hps]. constructor; [|by apply IH].
      intros Hl. by apply (holder_ready n fin st _ r). }
    apply existsb_exists in Hl as (q & (l1 & l2 & ->)%list_elem_of_In%list_elem_of_split & Hq).
    rewrite Forall_app, Forall_cons in Hps. destruct Hps as (_ & (st' & new & q' & Hs) & _); [done|].
    do 3 eexists. by apply step_join.
  - destruct Hp as [Hq _]. destruct (holder_ready n fin st _ q Hq Hfree Hl) as (st' & new & q' & Hs).
    do 3 eexists. by apply step_within.
  - destruct Hp as (_ & Hq & _). destruct (holder_ready n fin st _ q Hq Hfree Hl) as (st' & new & q' & Hs).
    do 3 eexists. by apply step_loop.
Qed.

(** ** Tasks that settle *)
Lemma settles_step n fin st (p : prog St R R) evs st' new p' :
  step n fin st R p evs st' new p' -> settles p -> settles p'.
Proof.
  intros Hs [Hp|(X & Y & body & q & k & -> & Hq & Hb & Hk)].
  - left. apply Hp. by repeat eexists.
  - apply step_inv in Hs as [(q' & Hs & ->)|(_ & _ & _ & [(x & -> & ->)|[(y & -> & ->)|[-> ->]]])].
    + right. exists X, Y, body, q', k. split_and!; [done| |done..]. apply Hq. by repeat eexists.
    + right. by exists X, Y, body, (body x), k.
    + by left.
    + left. apply terminates_Abort.
Qed.

(** No infinite sequence of steps of [p] that all keep the lock. *)
Definition releases (p : prog St R R) : Prop :=
  Acc (fun p' p => holds pending_requests_lock p' = true /\ can_step p' p) p.

Lemma settles_releases p : running p -> settles p -> releases p.
Proof.
  intros Hp [Hterm|(X & Y & body & q & k & -> & Hq & Hb & Hk)].
  - clear Hp. induction Hterm as [p _ IH]. constructor. intros p' [_ Hs]. by apply IH.
  - destruct Hp as (Hbp & _ & Hkp). induction Hq as [q _ IH]. constructor.
    intros p' [Hl (n & fin & st & evs & st' & new & Hs)].
    apply step_inv in Hs as [(q' & Hs & ->)|(_ & _ & _ & [(x & -> & ->)|[(y & -> & ->)|[-> ->]]])].
    + apply IH. by repeat eexists.
    + cbn in Hl. by rewrite plain_idle in Hl.
    + by rewrite plain_idle in Hl.
    + done.
Qed.
End discipline.
