(* ===== verification/Liveness.v ===== *)
(** * Progress and fair runs

    [responsive leaf L p]: [p] can always go on once the tasks in [L] have
    ended and the locks are free. Every lock section returns or panics, every
    draw has an outcome, and [p] awaits only tasks in [L] and tasks it has
    spawned itself and that are [leaf]s. In a fair run of a node whose tasks
    keep the lock discipline of [Locks], and whose transport lets every send
    return, such a program ends if it terminates ([responsive_ends]). *)

From S2P Require Import Prelude Errors Bytes Ident F64 Contact Store Messages Effects Locks.

Section responsive.
Context {St R : Type} (leaf : prog St R R -> Prop).

Fixpoint responsive (L : nat -> Prop) {A} (p : prog St R A) : Prop :=
  match p with
  | Ret _ | Abort => True
  | @Draw _ _ _ X k => inhabited X /\ forall x, responsive L (k x)
  | Atomic _ f k => (forall c st, enough_fuel (f c st)) /\ forall x, responsive L (k x)
  | Guard _ f _ k => (forall c st, enough_fuel (f c st)) /\ forall y, responsive L (k y)
  | Held _ _ k => forall y, responsive L (k y)
  | Send _ _ k => forall r, responsive L (k r)
  | Wait _ _ _ k => forall r ms, responsive L (k r ms)
  | Join ps k =>
      (fix all (ps : list (prog St R _)) : Prop :=
         match ps with [] => True | q :: ps' => responsive L q /\ all ps' end) ps /\
      forall xs, responsive L (k xs)
  | Within _ q k => responsive L q /\ forall x, responsive L (k x)
  | Spawn q k =>
      (leaf q /\ forall h, responsive (fun x => L x \/ x = h) (k h)) \/ forall h, responsive L (k h)
  | Await h k => L h /\ forall r, responsive L (k r)
  | Loop body q k =>
      (forall x, responsive L (body x)) /\ responsive L q /\ forall y, responsive L (k y)
  | Tick _ k => responsive L k
  end.

Lemma responsive_join L {X A} (ps : list (prog St R X)) (k : list X -> prog St R A) :
  responsive L (Join ps k) <-> Forall (responsive L) ps /\ forall xs, responsive L (k xs).
Proof.
  cbn. apply and_iff_compat_r. induction ps as [|q ps IH]; [done|]. by rewrite Forall_cons, IH.
Qed.

Fixpoint responsive_mono {A} (p : prog St R A) :
  forall (L L' : nat -> Prop), (forall h, L h -> L' h) -> responsive L p -> responsive L' p.
Proof.
  destruct p; intros L L' HL; cbn.
  - done.
  - done.
  - intros [HX Hk]. split; [done|]. intros x. by apply (responsive_mono _ _ L).
  - intros [Hf Hk]. split; [done|]. intros x. by apply (responsive_mono _ _ L).
  - intros [Hf Hk]. split; [done|]. intros x. by apply (responsive_mono _ _ L).
  - intros Hk y. by apply (responsive_mono _ _ L).
  - intros Hk r. by apply (responsive_mono _ _ L).
  - intros Hk r ms. by apply (responsive_mono _ _ L).
  - intros [Hps Hk]. split; [|intros xs; by apply (responsive_mono _ _ L)]. clear Hk.
    induction ps as [|q ps IH]; [done|].
    destruct Hps as [Hq Hps]. split; [by apply (responsive_mono _ q L)|by apply IH].
  - intros [Hq Hk]. split; [|intros x]; by apply (responsive_mono _ _ L).
  - intros [[Hl Hk]|Hk]; [left; split; [done|]|right]; intros h.
    + apply (responsive_mono _ (k h) (fun x => L x \/ x = h)); [|apply Hk]. naive_solver.
    + by apply (responsive_mono _ (k h) L).
  - intros [Hh Hk]. split; [auto|]. intros r. by apply (responsive_mono _ _ L).
  - intros (Hb & Hq & Hk). split_and!; [intros x| |intros y]; by apply (responsive_mono _ _ L).
  - intros Hk. by apply (responsive_mono _ _ L).
Qed.

Lemma responsive_bind L {A B} (f : A -> prog St R B) p :
  responsive L p -> (forall a, responsive L (f a)) -> responsive L (p ≫= f).
Proof.
  intros Hp Hf. unfold mbind, prog_mbind. revert L Hp Hf.
  induction p; intros L Hp Hf; cbn in *; try naive_solver.
  destruct Hp as [[Hl Hk]|Hk]; [left; split; [done|]|right]; intros h; [|naive_solver].
  apply H; [done|]. intros a. apply (responsive_mono _ L); [by left|apply Hf].
Qed.

Lemma responsive_bind_ok L {A B} (f : A -> prog St R (Result B)) p :
  responsive L p -> (forall a, responsive L (f a)) -> responsive L (bind_ok f p).
Proof. intros Hp Hf. apply responsive_bind; [done|]. intros [a|e]; [apply Hf|done]. Qed.

Lemma responsive_assoc L {A B C} (g : B -> prog St R C) (f : A -> prog St R B) p :
  responsive L (p ≫= (fun a => f a ≫= g)) -> responsive L ((p ≫= f) ≫= g).
Proof.
  unfold mbind, prog_mbind. revert L. induction p; intros L Hp; cbn in *; naive_solver.
Qed.

Lemma responsive_for_each L {X} (l : list X) body :
  (forall x, responsive L (body x)) -> responsive L (for_each l body).
Proof.
  intros Hb. induction l as [|x l IH]; cbn; [done|]. by apply responsive_bind.
Qed.

(** ** Progress *)
Definition ended {A} (p : prog St R A) : Prop :=
  match p with Ret _ | Abort => True | _ => False end.

Lemma split_ended {X} (ps : list (prog St R X)) :
  (exists xs, ps = map Ret xs) \/ exists l1 q l2, ps = l1 ++ q :: l2 /\ forall x, q <> Ret x.
Proof.
  induction ps as [|q ps [[xs ->]|(l1 & r & l2 & -> & Hr)]]; [by left; exists []| |].
  - destruct q; try (right; by eexists [], _, _). left. by exists (a :: xs).
  - right. by exists (q :: l1), r, l2.
Qed.

Lemma ended_dec {A} (p : prog St R A) : ended p \/ (~ ended p /\ forall x, p <> Ret x).
Proof. destruct p; cbn; auto. Qed.

Fixpoint progress n fin st {A} (p : prog St R A) :
  forall L, responsive L p -> running p -> (forall h, L h -> is_Some (ended_with fin h)) ->
  (forall l, free fin l) -> ~ ended p ->
  exists evs st' new p', step n fin st A p evs st' new p'.
Proof.
  destruct p; intros L Hp Hrun HL Hfree Hne; cbn in Hp, Hne; try done.
  - destruct Hp as [[x] _]. do 4 eexists. apply (step_draw _ _ _ _ _ _ x).
  - destruct Hp as [Hf _]. destruct (f (MkClock 0 0) st) as [[st' x]| |] eqn:Hs.
    + do 4 eexists. by eapply step_atomic.
    + do 4 eexists. by eapply step_panic.
    + by destruct (Hf (MkClock 0 0) st).
  - destruct Hp as [Hf _]. destruct (f (MkClock 0 0) st) as [[st' x]| |] eqn:Hs.
    + do 4 eexists. by eapply step_guard.
    + do 4 eexists. by eapply step_guard_panic.
    + by destruct (Hf (MkClock 0 0) st).
  - destruct Hrun as (_ & Hq & _). pose proof (brief_ready n fin st _ p Hq (fun l _ => Hfree l)) as Hs.
    destruct p; try done; [do 4 eexists; apply step_held_done|do 4 eexists; apply step_held_abort|].
    destruct Hs as (st' & p' & Hs). do 4 eexists. by apply step_held.
  - do 4 eexists. apply (step_send _ _ _ _ _ _ _ (Ok tt)).
  - do 4 eexists. apply (step_wait _ _ _ _ _ _ _ _ None 0).
  - assert (Forall (fun q => ~ ended q -> exists evs st' new q',
      step n fin st _ q evs st' new q') ps) as Hps.
    { destruct Hp as [Hps _], Hrun as [Hrs _]. clear Hne. induction ps as [|r ps IH]; [done|].
      destruct Hps as [Hr Hps], Hrs as [Hrr Hrs]. constructor; [|by apply IH].
      intros Hend. by apply (progress n fin st _ r L). }
    destruct (split_ended ps) as [[xs ->]|(l1 & q & l2 & -> & Hq)];
      [do 4 eexists; apply step_join_done|].
    rewrite Forall_app, Forall_cons in Hps. destruct Hps as (_ & Hstep & _).
    destruct (ended_dec q) as [Hend|[Hend _]].
    + destruct q; try done; [by destruct (Hq a)|]. do 4 eexists. apply step_join_abort.
    + destruct (Hstep Hend) as (evs & st' & new & q' & Hs). do 4 eexists. by apply step_join.
  - destruct (ended_dec p) as [Hend|[_ Hend]].
    + destruct p; try done; do 4 eexists; [apply step_within_done|apply step_within_abort].
    + do 4 eexists. by apply step_within_elapsed.
  - do 4 eexists. apply step_spawn.
  - destruct Hp as [Hh _]. destruct (HL h Hh) as [r Hr]. do 4 eexists. by apply step_await.
  - destruct Hp as (_ & Hq & _), Hrun as (_ & Hrq & _). destruct (ended_dec p) as [Hend|[Hend _]].
    + destruct p as [[x|y]| | | | | | | | | | | | |]; try done; do 4 eexists;
        [apply step_loop_next|apply step_loop_done|apply step_loop_abort].
    + destruct (progress n fin st _ _ L Hq Hrq HL Hfree Hend) as (evs & st' & new & q' & Hs).
      do 4 eexists. by apply step_loop.
  - do 4 eexists. apply step_tick.
Qed.
End responsive.

(** ** Steps keep a program responsive

    The task a step spawns is awaited only when it is a leaf. *)
Section preservation.
Context {St R : Type} (leaf : prog St R R -> Prop).

Definition or_new (L : nat -> Prop) (n : nat) (new : list (prog St R R)) {A} (p : prog St R A) : Prop :=
  responsive leaf L p \/
  exists q, new = [q] /\ leaf q /\ responsive leaf (fun h => L h \/ h = n) p.

(** A context that is responsive around every such program. *)
Lemma or_new_context L n new {A B} (p : prog St R A) (p' : prog St R B) :
  (forall L', (forall h, L h -> L' h) -> responsive leaf L' p -> responsive leaf L' p') ->
  or_new L n new p -> or_new L n new p'.
Proof.
  intros Hctx [Hp|(q & -> & Hq & Hp)]; [by left; apply Hctx|].
  right. exists q. split_and!; [done..|]. apply Hctx; [by left|done].
Qed.

Lemma responsive_step n fin st A (p : prog St R A) evs st' new p' L :
  step n fin st A p evs st' new p' -> responsive leaf L p -> or_new L n new p'.
Proof.
  intros Hs. pose proof (@responsive_mono St R leaf) as Hmono. revert L.
  induction Hs; intros L Hp; try (left; cbn in *; naive_solver).
  - apply responsive_join in Hp as [Hps Hk]. rewrite Forall_app, Forall_cons in Hps.
    destruct Hps as (H1 & H2 & H3). eapply or_new_context; [|by apply IHHs].
    intros L' HL Hp'. apply responsive_join. split; [|intros xs; by apply (Hmono _ _ L)].
    apply Forall_app. split; [|constructor; [done|]].
    + eapply Forall_impl; [exact H1|]. intros q Hq. by apply (Hmono _ _ L).
    + eapply Forall_impl; [exact H3|]. intros q Hq. by apply (Hmono _ _ L).
  - destruct Hp as [Hq Hk]. eapply or_new_context; [|by apply IHHs].
    intros L' HL Hp'. split; [done|]. intros x. by apply (Hmono _ _ L).
  - destruct Hp as [[Hl Hk]|Hk]; [|by left]. right. by exists p.
  - destruct Hp as (Hb & Hq & Hk). eapply or_new_context; [|by apply IHHs].
    intros L' HL Hp'. split_and!; [intros x|done|intros y]; by apply (Hmono _ _ L).
Qed.
End preservation.

(** ** Fair runs of a node *)
Section fairness.
Context {St R : Type} (op : prog St R R -> Prop).
Local Abbreviation node := (node (St := St) (R := R)).

(** Task [i] makes a step. *)
Definition task_does (i : nat) (evs : list event) (n n' : node) : Prop :=
  exists p st' new p', tasks n !! i = Some p /\
    step (length (tasks n)) (others (tasks n)) (shared n) R p evs st' new p' /\
    n' = MkNode st' (<[i := p']> (tasks n) ++ new).
Definition task_step (i : nat) (n n' : node) : Prop := exists evs, task_does i evs n n'.

Definition completes_send (evs : list event) : bool :=
  existsb (fun ev => match ev with Sent _ _ _ => true | _ => false end) evs.

(** Task [i] can go on without the return of a [send]; it is at a [send]. *)
Definition ready (i : nat) (n : node) : Prop :=
  exists evs n', task_does i evs n n' /\ completes_send evs = false.
Definition sending (i : nat) (n : node) : Prop :=
  exists evs n', task_does i evs n n' /\ completes_send evs = true.

(** An infinite run in which a task makes a step unless from some time on it
    is never ready: timers fire, and a lock that is free again and again is
    given to each task that waits for it, as tokio's queues do. Nothing is
    said of a task that can only go on when a [send] returns. *)
Record fair_run (run : nat -> node) : Prop := {
  run_step t : run (S t) = run t \/ exists evs, node_step op (run t) evs (run (S t));
  run_fair i t : (exists t', t <= t' /\ task_step i (run t') (run (S t'))) \/
                 (exists t', t <= t' /\ forall t'', t' <= t'' -> ~ ready i (run t''))
}.

(** What is asked of the transport: a task at a [send] makes a step some day. *)
Definition sends_return (run : nat -> node) : Prop :=
  forall i t, sending i (run t) -> exists t', t <= t' /\ task_step i (run t') (run (S t')).

Definition task_ended (i : nat) (n : node) : Prop := is_Some (finished (tasks n) i).

Lemma task_ended_spec i n : task_ended i n <-> exists p, tasks n !! i = Some p /\ ended p.
Proof.
  unfold task_ended, finished. destruct (tasks n !! i) as [p|]; [|naive_solver].
  destruct p; naive_solver.
Qed.

Context (run : nat -> node) (Hfair : fair_run run).

Lemma run_task t i p :
  tasks (run t) !! i = Some p ->
  tasks (run (S t)) !! i = Some p \/ task_step i (run t) (run (S t)).
Proof using Hfair.
  intros Hi. destruct (run_step run Hfair t) as [->|[evs Hs]]; [by left|].
  inversion Hs as [j q evs' st' new q' Hj Hq E1 E2|q Hq E1 E2]; subst; cbn.
  - destruct (decide (i = j)) as [->|Hne].
    + right. by exists evs, q, st', new, q'.
    + left. rewrite lookup_app_l by (rewrite length_insert; by eapply lookup_lt_Some).
      by rewrite list_lookup_insert_ne.
  - left. by apply lookup_app_l_Some.
Qed.

(** A task stays as it is until its next step. *)
Lemma run_until t d i p :
  tasks (run t) !! i = Some p ->
  tasks (run (t + d)) !! i = Some p \/
  exists t1, t <= t1 /\ tasks (run t1) !! i = Some p /\ task_step i (run t1) (run (S t1)).
Proof using Hfair.
  intros Hi. induction d as [|d IH]; [rewrite Nat.add_0_r; by left|].
  destruct IH as [IH|IH]; [|by right]. rewrite Nat.add_succ_r.
  destruct (run_task _ _ _ IH) as [Hn|Hn]; [by left|]. right. exists (t + d). split_and!; [lia|done..].
Qed.

Lemma run_until_le t t' i p :
  t <= t' -> tasks (run t) !! i = Some p ->
  tasks (run t') !! i = Some p \/
  exists t1, t <= t1 /\ tasks (run t1) !! i = Some p /\ task_step i (run t1) (run (S t1)).
Proof using Hfair.
  intros Ht Hi. replace t' with (t + (t' - t)) by lia. by apply run_until.
Qed.

Lemma ended_stays t t' i : t <= t' -> task_ended i (run t) -> task_ended i (run t').
Proof using Hfair.
  intros Ht (p & Hi & Hp)%task_ended_spec. apply task_ended_spec. exists p. split; [|done].
  destruct (run_until_le t t' i p Ht Hi) as [|(t1 & _ & Hi1 & evs & q & st' & new & q' & Hq & Hs & _)];
    [done|].
  rewrite Hi1 in Hq. injection Hq as <-. destruct p; try done; by apply step_inv in Hs.
Qed.

Definition ends_after (t i : nat) : Prop := exists t', t <= t' /\ task_ended i (run t').

Lemma ends_after_later t t' i : t <= t' -> ends_after t i -> ends_after t' i.
Proof using Hfair.
  intros Ht (t1 & Ht1 & Hi). exists (Nat.max t' t1). split; [lia|].
  eapply ended_stays; [|done]. lia.
Qed.

(** All tasks in [L] have ended some day. *)
Definition all_end (t : nat) (L : nat -> Prop) : Prop :=
  exists t', t <= t' /\ forall h, L h -> task_ended h (run t').

Lemma all_end_add t L h : all_end t L -> ends_after t h -> all_end t (fun j => L j \/ j = h).
Proof using Hfair.
  intros (t1 & Ht1 & HL) (t2 & Ht2 & Hh). exists (Nat.max t1 t2). split; [lia|].
  intros j [Hj%HL| ->]; (eapply ended_stays; [|done]); lia.
Qed.

Lemma all_end_later t t' L : t <= t' -> all_end t L -> all_end t' L.
Proof using Hfair.
  intros Ht (t1 & Ht1 & HL). exists (Nat.max t' t1). split; [lia|].
  intros h Hh%HL. eapply ended_stays; [|done]. lia.
Qed.

(** ** The lock discipline along the run *)
Definition fresh (p : prog St R R) : Prop := plain p /\ settles p.
Hypothesis (op_fresh : forall p, op p -> fresh p) (start_fresh : Forall fresh (tasks (run 0))).

Lemma run_disciplined t : Forall (fun p => running p /\ settles p) (tasks (run t)).
Proof using Hfair op_fresh start_fresh.
  assert (forall p, fresh p -> running p /\ settles p) as Hfresh.
  { intros p [Hp Hq]. split; [by apply plain_running|done]. }
  induction t as [|t IH]; [eapply Forall_impl; [exact start_fresh|exact Hfresh]|].
  destruct (run_step run Hfair t) as [->|[evs Hs]]; [done|].
  inversion Hs as [j q evs' st' new q' Hj Hq E1 E2|q Hq E1 E2]; subst; cbn; apply Forall_app.
  - destruct (proj1 (Forall_lookup _ _) IH _ _ Hj) as [Hrun Hset].
    destruct (running_step _ _ _ _ _ _ _ _ _ Hq Hrun) as [Hrun' Hnew]. split.
    + apply Forall_insert; [done|]. split; [done|by eapply settles_step].
    + eapply Forall_impl; [exact Hnew|exact Hfresh].
  - split; [done|]. by apply Forall_singleton, Hfresh, op_fresh.
Qed.

Lemma run_holds t i p l :
  tasks (run t) !! i = Some p -> holds l p = true -> l = pending_requests_lock.
Proof using Hfair op_fresh start_fresh.
  intros Hi. destruct (proj1 (Forall_lookup _ _) (run_disciplined t) _ _ Hi) as [Hp _].
  by apply running_holds.
Qed.

Lemma others_free t l : l <> pending_requests_lock -> free (others (tasks (run t))) l.
Proof using Hfair op_fresh start_fresh.
  intros Hl. apply Forall_lookup. intros i p Hi. apply not_true_is_false.
  intros Hh%(run_holds t i p l Hi). done.
Qed.

Definition lock_is_free (t : nat) : Prop := free (others (tasks (run t))) pending_requests_lock.
Definition lacks_lock (i t : nat) : Prop :=
  forall p, tasks (run t) !! i = Some p -> holds pending_requests_lock p = false.

Lemma lock_free_dec t : Decision (lock_is_free t).
Proof using Type. unfold lock_is_free, free, others. apply _. Qed.

Lemma lock_free_lacks t : (forall i, lacks_lock i t) -> lock_is_free t.
Proof using Type. intros Hl. apply Forall_lookup. intros i p Hi. by apply (Hl i). Qed.

(** As long as the lock is not free, no task takes it. *)
Lemma lacks_lock_next t i : ~ lock_is_free t -> lacks_lock i t -> lacks_lock i (S t).
Proof using Hfair op_fresh start_fresh.
  intros Hno Hl p' Hi. destruct (run_step run Hfair t) as [E|[evs Hs]]; [rewrite E in Hi; by apply Hl|].
  inversion Hs as [j q evs' st' new q' Hj Hq E1 E2|q Hq E1 E2]; rewrite <-E2 in Hi; cbn in Hi;
    apply lookup_app_Some in Hi as [Hi|[_ Hi]].
  - destruct (proj1 (Forall_lookup _ _) (run_disciplined t) _ _ Hj) as [Hrun _].
    destruct (decide (i = j)) as [->|Hne]; [|rewrite list_lookup_insert_ne in Hi by done; by apply Hl].
    rewrite list_lookup_insert_eq in Hi by (by eapply lookup_lt_Some). injection Hi as <-.
    eapply idle_step; [exact Hq|done|exact Hno|by apply Hl].
  - destruct (proj1 (Forall_lookup _ _) (run_disciplined t) _ _ Hj) as [Hrun _].
    destruct (running_step _ _ _ _ _ _ _ _ _ Hq Hrun) as [_ Hnew].
    destruct (proj1 (Forall_lookup _ _) Hnew _ _ Hi) as [Hp _]. by apply plain_idle.
  - by apply Hl.
  - apply list_lookup_singleton_Some in Hi as [_ <-]. apply plain_idle. by apply op_fresh.
Qed.

Lemma lacks_lock_until t d :
  (exists t', t <= t' /\ lock_is_free t') \/ forall i, lacks_lock i t -> lacks_lock i (t + d).
Proof using Hfair op_fresh start_fresh.
  induction d as [|d [IH|IH]]; [right; intros i; by rewrite Nat.add_0_r|by left|].
  destruct (lock_free_dec (t + d)) as [Hf|Hno]; [left; exists (t + d); split; [lia|done]|].
  right. intros i Hi. rewrite Nat.add_succ_r. apply lacks_lock_next; auto.
Qed.

(** A task that holds the lock lets it go. *)
Lemma lock_released t i p :
  tasks (run t) !! i = Some p -> exists t', t <= t' /\ lacks_lock i t'.
Proof using Hfair op_fresh start_fresh.
  intros Hi. destruct (proj1 (Forall_lookup _ _) (run_disciplined t) _ _ Hi) as [Hrun Hset].
  pose proof (settles_releases p Hrun Hset) as Hrel. clear Hrun Hset. revert t Hi.
  induction Hrel as [p _ IH]. intros t Hi.
  destruct (holds pending_requests_lock p) eqn:Hh.
  2: { exists t. split; [done|]. intros q Hq. rewrite Hi in Hq. by injection Hq as <-. }
  assert (forall t1, t <= t1 -> tasks (run t1) !! i = Some p -> task_step i (run t1) (run (S t1)) ->
    exists t', t <= t' /\ lacks_lock i t') as Hstep.
  { intros t1 Ht1 Hi1 (evs & q & st' & new & p' & Hq & Hs & E).
    rewrite Hi1 in Hq. injection Hq as <-. pose proof (lookup_lt_Some _ _ _ Hi1) as Hlt.
    assert (tasks (run (S t1)) !! i = Some p') as Hi'.
    { rewrite E. cbn. rewrite lookup_app_l by (by rewrite length_insert). by rewrite list_lookup_insert_eq. }
    destruct (holds pending_requests_lock p') eqn:Hh'.
    - destruct (IH p') with (S t1) as (t2 & Ht2 & Hl); [split; [done|by repeat eexists]|done|].
      exists t2. split; [lia|done].
    - exists (S t1). split; [lia|]. intros q Hq. rewrite Hi' in Hq. by injection Hq as <-. }
  destruct (run_fair run Hfair i t) as [(t1 & Ht1 & Hs)|(t1 & Ht1 & Hno)].
  - destruct (run_until_le t t1 i p Ht1 Hi) as [Hi1|(t2 & Ht2 & Hi2 & Hs2)]; by eauto.
  - destruct (run_until_le t t1 i p Ht1 Hi) as [Hi1|(t2 & Ht2 & Hi2 & Hs2)]; [|by eauto].
    destruct (Hno t1 (le_n t1)).
    destruct (proj1 (Forall_lookup _ _) (run_disciplined t1) _ _ Hi1) as [Hrun _].
    destruct (holder_ready (length (tasks (run t1))) (others (tasks (run t1))) (shared (run t1)) p Hrun)
      as (st' & new & p' & Hs); [intros l; apply others_free|done|].
    exists []. by repeat eexists.
Qed.

(** The lock is free again and again. *)
Lemma lock_free_again t : exists t', t <= t' /\ lock_is_free t'.
Proof using Hfair op_fresh start_fresh.
  assert (forall m t, (forall i, m <= i -> lacks_lock i t) -> exists t', t <= t' /\ lock_is_free t') as Hgen.
  { clear t. induction m as [|m IH]; intros t Hm.
    - exists t. split; [done|]. apply lock_free_lacks. intros i. apply Hm. lia.
    - assert (exists t1, t <= t1 /\ lacks_lock m t1) as (t1 & Ht1 & Hl).
      { destruct (tasks (run t) !! m) as [p|] eqn:Hp; [by eapply lock_released|].
        exists t. split; [done|]. by intros q; rewrite Hp. }
      destruct (lacks_lock_until t (t1 - t)) as [Hfree|Hkeep]; [done|].
      replace (t + (t1 - t)) with t1 in Hkeep by lia.
      destruct (IH t1) as (t2 & Ht2 & Hfree).
      { intros i Hi. destruct (decide (i = m)) as [->|Hne]; [done|]. apply Hkeep, Hm. lia. }
      exists t2. split; [lia|done]. }
  apply (Hgen (length (tasks (run t)))). intros i Hi p Hp. apply lookup_lt_Some in Hp. lia.
Qed.

(** ** Responsive tasks *)
Context (leaf : prog St R R -> Prop).
Hypothesis (Hsend : sends_return run).
Hypothesis (leaf_ends : forall t i q, leaf q -> tasks (run t) !! i = Some q -> ends_after t i).

(** A responsive task that awaits only tasks that end makes its next step. *)
Lemma responsive_steps t i p L :
  tasks (run t) !! i = Some p -> responsive leaf L p -> all_end t L -> ~ ended p ->
  exists t' p' L', t < t' /\ can_step p' p /\
    tasks (run t') !! i = Some p' /\ responsive leaf L' p' /\ all_end t' L'.
Proof using Hfair op_fresh start_fresh Hsend leaf_ends.
  intros Hi Hp HL Hend.
  assert (forall t1, t <= t1 -> tasks (run t1) !! i = Some p -> task_step i (run t1) (run (S t1)) ->
    exists t' p' L', t < t' /\ can_step p' p /\
      tasks (run t') !! i = Some p' /\ responsive leaf L' p' /\ all_end t' L') as Hstep.
  { intros t1 Ht1 Hi1 (evs & q & st' & new & p' & Hq & Hs & E).
    rewrite Hi1 in Hq. injection Hq as <-.
    pose proof (lookup_lt_Some _ _ _ Hi1) as Hlt. exists (S t1), p'.
    assert (all_end (S t1) L) as HL1 by (eapply all_end_later; [|done]; lia).
    assert (exists L', responsive leaf L' p' /\ all_end (S t1) L') as (L' & Hp' & HL').
    { destruct (responsive_step leaf _ _ _ _ _ _ _ _ _ _ Hs Hp) as [Hp'|(q & -> & Hq & Hp')];
        [by exists L|]. eexists. split; [exact Hp'|]. apply all_end_add; [done|].
      apply (leaf_ends (S t1) _ q Hq). rewrite E. cbn.
      by rewrite lookup_app_r, length_insert, Nat.sub_diag by (by rewrite length_insert). }
    exists L'. split_and!; [lia|by repeat eexists| |done..].
    rewrite E. cbn. rewrite lookup_app_l by (by rewrite length_insert).
    by rewrite list_lookup_insert_eq. }
  assert (forall t1, t <= t1 -> task_step i (run t1) (run (S t1)) ->
    exists t2, t <= t2 /\ tasks (run t2) !! i = Some p /\ task_step i (run t2) (run (S t2))) as Hfirst.
  { intros t1 Ht1 Hs. destruct (run_until_le t t1 i p Ht1 Hi) as [Hi1|(t2 & Ht2 & Hi2 & Hs2)]; eauto. }
  assert (exists t1, t <= t1 /\ task_step i (run t1) (run (S t1))) as (t1 & Ht1 & Hs).
  2: { destruct (Hfirst t1 Ht1 Hs) as (t2 & Ht2 & Hi2 & Hs2). by apply (Hstep t2). }
  destruct (run_fair run Hfair i t) as [Hs|(t1 & Ht1 & Hno)]; [done|].
  destruct HL as (t2 & Ht2 & HL). destruct (lock_free_again (Nat.max t1 t2)) as (t3 & Ht3 & Hfree).
  destruct (run_until_le t t3 i p) as [Hi3|(t4 & Ht4 & Hi4 & Hs4)]; [lia|done| |by eauto].
  destruct (proj1 (Forall_lookup _ _) (run_disciplined t3) _ _ Hi3) as [Hrun _].
  destruct (progress leaf (length (tasks (run t3))) (others (tasks (run t3))) (shared (run t3)) p L)
    as (evs & st' & new & p' & Hs); [done|done| | |done|].
  { intros h Hh%HL. cbn. apply (ended_stays t2 t3); [lia|done]. }
  { intros l. destruct (decide (l = pending_requests_lock)) as [->|Hl]; [done|by apply others_free]. }
  destruct (completes_send evs) eqn:Hev.
  - destruct (Hsend i t3) as (t4 & Ht4 & Hs4); [by repeat eexists|]. exists t4. split; [lia|done].
  - destruct (Hno t3); [lia|]. by repeat eexists.
Qed.

(** A terminating task that awaits only tasks that end, ends. *)
Lemma responsive_ends p :
  terminates p -> forall t i L,
  tasks (run t) !! i = Some p -> responsive leaf L p -> all_end t L -> ends_after t i.
Proof using Hfair op_fresh start_fresh Hsend leaf_ends.
  induction 1 as [p _ IH]. intros t i L Hi Hp HL.
  destruct (ended_dec p) as [Hend|[Hend _]].
  { exists t. split; [done|]. apply task_ended_spec. by exists p. }
  destruct (responsive_steps t i p L) as (t1 & p' & L' & Ht1 & Hs & Hi' & Hp' & HL'); [done..|].
  destruct (IH p' Hs t1 i L' Hi' Hp' HL') as (t2 & Ht2 & He). exists t2. split; [lia|done].
Qed.

(** A loop that is never left reaches its next iteration, or it panics. *)
Lemma loop_recurs {X Y} (body : X -> prog St R (X + Y)) (k : Y -> prog St R R) q :
  terminates q -> (forall y, ~ may_return q (inr y)) -> forall t i L,
  tasks (run t) !! i = Some (Loop body q k) -> responsive leaf L (Loop body q k) -> all_end t L ->
  exists t', t < t' /\ (tasks (run t') !! i = Some Abort \/
    exists x L', tasks (run t') !! i = Some (Loop body (body x) k) /\
      responsive leaf L' (Loop body (body x) k) /\ all_end t' L').
Proof using Hfair op_fresh start_fresh Hsend leaf_ends.
  induction 1 as [q _ IH]. intros Hno t i L Hi Hp HL.
  destruct (responsive_steps t i _ L Hi Hp HL) as (t1 & p' & L' & Ht1 & Hs & Hi' & Hp' & HL');
    [by intros []|].
  destruct Hs as (n & fin & st & evs & st' & new & Hs).
  apply step_inv in Hs as [(q' & Hq & ->)|(_ & _ & _ & [(x & -> & ->)|[(y & -> & ->)|[-> ->]]])].
  - assert (can_step q' q) as Hqq by by repeat eexists.
    destruct (IH q' Hqq) with t1 i L' as (t2 & Ht2 & H2); [|done..|].
    + intros y Hy. apply (Hno y). by eapply rtc_l.
    + exists t2. split; [lia|done].
  - exists t1. split; [done|]. right. by exists x, L'.
  - destruct (Hno y). apply rtc_refl.
  - exists t1. split; [done|]. by left.
Qed.
End fairness.

(** A fair run of disciplined tasks over a transport whose sends return. *)
Record live_run {St R} (op : prog St R R -> Prop) (run : nat -> node (St := St) (R := R)) : Prop := {
  lr_fair : fair_run op run;
  lr_ops p : op p -> fresh p;
  lr_start : Forall fresh (tasks (run 0));
  lr_sends : sends_return run
}.

(** A terminating task that awaits nothing. *)
Definition independent {St R} (q : prog St R R) : Prop :=
  terminates q /\ responsive (fun _ => False) (fun _ => False) q.

Lemma independent_ends {St R} op (run : nat -> node (St := St) (R := R)) t i q :
  live_run op run -> independent q -> tasks (run t) !! i = Some q -> ends_after run t i.
Proof.
  intros [Hfair Hop Hstart Hsend] [Hterm Hq] Hi.
  eapply (responsive_ends op run Hfair Hop Hstart (fun _ => False) Hsend); [by intros ??? []|done..|].
  by exists t.
Qed.

(** An endless loop whose iterations terminate and await only independent
    tasks they have started: it reaches the start of an iteration after any
    point of the run, unless it panics. *)
Lemma endless_loop_recurs {St R} op (run : nat -> node (St := St) (R := R)) {X Y}
    (body : X -> prog St R (X + Y)) (k : Y -> prog St R R) t i x0 :
  live_run op run -> (forall x, terminates (body x)) ->
  (forall x y, ~ may_return (body x) (inr y)) ->
  (forall L x, responsive independent L (body x)) -> (forall L y, responsive independent L (k y)) ->
  tasks (run t) !! i = Some (Loop body (body x0) k) ->
  forall d, exists t', t + d <= t' /\
    (tasks (run t') !! i = Some Abort \/ exists x, tasks (run t') !! i = Some (Loop body (body x) k)).
Proof.
  intros Hlive Hterm Hno Hb Hk Hi d. pose proof Hlive as [Hfair Hop Hstart Hsend]. induction d as [|d (t1 & Ht1 & [Ha|[x Hx]])].
  - exists t. split; [lia|]. right. by exists x0.
  - exists (S t1). split; [lia|]. left.
    destruct (run_until_le op run Hfair t1 (Datatypes.S t1) i Abort (Nat.le_succ_diag_r t1) Ha)
      as [?|(t2 & _ & Hi2 & evs & q & st & new & p' & Hq & Hs & _)]; [done|].
    rewrite Hi2 in Hq. injection Hq as <-. by apply step_inv in Hs.
  - assert (forall t' j q, independent q -> tasks (run t') !! j = Some q -> ends_after run t' j) as Hends.
    { intros t' j q Hq Hj. by eapply independent_ends. }
    destruct (loop_recurs op run Hfair Hop Hstart independent Hsend Hends body k (body x) (Hterm x) (Hno x) t1 i
      (fun _ => False) Hx) as (t2 & Ht2 & [Ha|(x' & L' & Hx' & _)]).
    + split_and!; auto.
    + by exists t1.
    + exists t2. split; [lia|]. by left.
    + exists t2. split; [lia|]. right. by exists x'.
Qed.

(** A terminating task that awaits only independent tasks it has started. *)
Lemma responsive_task_ends {St R} op (run : nat -> node (St := St) (R := R)) t i p :
  live_run op run -> terminates p -> responsive independent (fun _ => False) p ->
  tasks (run t) !! i = Some p -> ends_after run t i.
Proof.
  intros Hlive Hterm Hp Hi. pose proof Hlive as [Hfair Hop Hstart Hsend].
  eapply (responsive_ends op run Hfair Hop Hstart independent Hsend); [|done..|by exists t].
  intros t' j q Hq Hj. by eapply independent_ends.
Qed.

(** ** Building fair runs *)

Lemma ended_not_ready {St R} i (n : node (St := St) (R := R)) evs n' :
  Forall ended (tasks n) -> ~ task_does i evs n n'.
Proof.
  intros Hend (p & st' & new & p' & Hi & Hs & _). rewrite Forall_lookup in Hend.
  apply Hend in Hi. destruct p; try done; by apply step_inv in Hs.
Qed.

(** A run of one task that makes the steps of [l] and stays at [last], where it
    can only wait for a [send]. *)
Lemma stuck_fair_run {St R} op (l : list (node (St := St) (R := R))) last :
  (forall t, S t < length (l ++ [last]) -> task_step 0 (nth t l last) (nth (S t) l last)) ->
  (forall i, ~ ready i last) -> fair_run op (fun t => nth t l last).
Proof.
  intros Hsteps Hend. split.
  - intros t. destruct (decide (S t < length (l ++ [last]))) as [Ht|Ht].
    + right. destruct (Hsteps t Ht) as (evs & p & st' & new & p' & Hi & Hs & ->). exists evs.
      by eapply node_task.
    + rewrite length_app in Ht. cbn in Ht. left. by rewrite !nth_overflow by lia.
  - intros i t. right. exists (t + length l). split; [lia|]. intros t' Ht'.
    rewrite nth_overflow by lia. apply Hend.
Qed.

(** A run of one task that has ended after [l], and stays there. *)
Lemma finite_fair_run {St R} op (l : list (node (St := St) (R := R))) last :
  (forall t, S t < length (l ++ [last]) -> task_step 0 (nth t l last) (nth (S t) l last)) ->
  Forall (fun n => length (tasks n) = 1) (l ++ [last]) -> Forall ended (tasks last) ->
  fair_run op (fun t => nth t l last) /\ sends_return (fun t => nth t l last).
Proof.
  intros Hsteps Hone Hend.
  assert (forall t, length (tasks (nth t l last)) = 1) as Hlen.
  { intros t. rewrite Forall_app, Forall_singleton in Hone. destruct Hone as [Hl Hlast].
    destruct (nth_in_or_default t l last) as [Hin| ->]; [|exact Hlast].
    rewrite Forall_forall in Hl. by apply Hl, list_elem_of_In. }
  split.
  - apply stuck_fair_run; [done|]. intros i (evs & n' & Hd & _). by apply ended_not_ready in Hd.
  - intros i t (evs & n' & Hd & _). destruct (decide (S t < length (l ++ [last]))) as [Ht|Ht].
    + destruct i as [|i]; [exists t; split; [done|by apply Hsteps]|].
      destruct Hd as (p & _ & _ & _ & Hi & _). apply lookup_lt_Some in Hi. rewrite Hlen in Hi. lia.
    + rewrite length_app in Ht. cbn in Ht. rewrite nth_overflow in Hd by lia.
      by apply ended_not_ready in Hd.
Qed.

(** A run of one task that goes round three nodes and sends nothing. *)
Fixpoint cycle {A} (a b c : A) (t : nat) : A :=
  match t with 0 => a | S t => cycle b c a t end.

Lemma cycle_step {A} (P : A -> A -> Prop) a b c :
  P a b -> P b c -> P c a -> forall t, P (cycle a b c t) (cycle a b c (S t)).
Proof. intros Ha Hb Hc t. revert a b c Ha Hb Hc. induction t; intros; [done|]. by apply IHt. Qed.

Lemma cycle_fair_run {St R} op (a b c : node (St := St) (R := R)) :
  length (tasks a) = 1 -> length (tasks b) = 1 -> length (tasks c) = 1 ->
  task_step 0 a b -> task_step 0 b c -> task_step 0 c a ->
  fair_run op (cycle a b c) /\ sends_return (cycle a b c).
Proof.
  intros Ha Hb Hc Hab Hbc Hca.
  pose proof (cycle_step (task_step 0) a b c Hab Hbc Hca) as Hs.
  assert (forall t, length (tasks (cycle a b c t)) = 1) as Hlen.
  { intros t. clear Hab Hbc Hca Hs. revert a b c Ha Hb Hc. induction t; intros; [done|]. by apply IHt. }
  assert (forall i t evs n', ~ task_does (S i) evs (cycle a b c t) n') as Hno.
  { intros i t evs n' (p & _ & _ & _ & Hi & _). apply lookup_lt_Some in Hi. rewrite Hlen in Hi. lia. }
  split; [split|].
  - intros t. right. destruct (Hs t) as (evs & p & st' & new & p' & Hi & Hstep & ->).
    exists evs. by eapply node_task.
  - intros [|i] t; [left; by exists t|]. right. exists t. split; [done|].
    intros t' _ (evs & n' & Hd & _). by apply Hno in Hd.
  - intros [|i] t (evs & n' & Hd & _); [by exists t|by apply Hno in Hd].
Qed.
