(* ===== verification/Responsive.v ===== *)
(** * The operations of a node are responsive

    Every operation but the background tasks always goes on: its lock sections
    end, and the only tasks it awaits are the queries it has started itself.
    It also terminates, and like the background tasks it keeps the lock
    discipline; so it ends in a fair run in which the sends return. *)

From S2P Require Import Prelude Errors Bytes Ident F64 Contact Bucket Table Store.
From S2P Require Import Messages Effects Protocol Lookup DhtNode Termination Locks Liveness.

Section operations.
Context {S : Type} `{!Storage.t S, !Storage.Fuelless S, !Profile, !HashOrder nat KBucket}.
Context (sha256 : list u8 -> list u8) (to_string : SocketAddr -> list u8).
Context (node_id : NodeId) (addr : SocketAddr).

Local Abbreviation prog := (prog (Shared S) QueryResult).

(** ** Lock sections *)
Section sections.
Context (leaf : prog QueryResult -> Prop) (L : nat -> Prop).
Local Abbreviation live := (responsive leaf L).

Lemma live_atomic {X} l (f : Clock -> Shared S -> exec (Shared S * X)) :
  (forall c st, enough_fuel (f c st)) -> live (atomic l f).
Proof. done. Qed.
Lemma live_reading {X} l (f : Shared S -> exec X) : (forall st, enough_fuel (f st)) -> live (reading l f).
Proof. intros Hf. apply live_atomic. intros c st. apply enough_fuel_bind; [apply Hf|auto with kad]. Qed.
Lemma live_table {X} (f : Clock -> RoutingTable -> exec (RoutingTable * X)) :
  (forall c t, enough_fuel (f c t)) -> live (Protocol.table_section f).
Proof.
  intros Hf. apply live_atomic. intros c st. apply enough_fuel_bind; [apply Hf|].
  intros [] _. apply enough_fuel_Done.
Qed.
Lemma live_storage {X} (f : Clock -> S -> exec (S * X)) :
  (forall c s, enough_fuel (f c s)) -> live (Protocol.storage_section f).
Proof.
  intros Hf. apply live_atomic. intros c st. apply enough_fuel_bind; [apply Hf|].
  intros [] _. apply enough_fuel_Done.
Qed.
Lemma live_read_table {X} (f : RoutingTable -> X) : live (Protocol.read_table f).
Proof. apply live_reading. intros st. apply enough_fuel_Done. Qed.
Lemma live_draw X : inhabited X -> live (draw X).
Proof. done. Qed.
Lemma live_draw_id : live (draw MessageId).
Proof. by apply live_draw, (inhabits 0%Z). Qed.
Lemma live_register id request : live (Protocol.register_pending id request).
Proof. apply live_atomic. intros c st. apply enough_fuel_Done. Qed.
Lemma live_remove_pending id : live (Protocol.remove_pending id).
Proof. apply live_atomic. intros c st. apply enough_fuel_Done. Qed.
Lemma live_success id elapsed : live (Protocol.record_success id elapsed).
Proof. apply live_table. intros c t. apply table_clone_fuel. Qed.
Lemma live_failure id : live (Protocol.record_failure id).
Proof. apply live_table. intros c t. apply table_clone_fuel. Qed.
Lemma live_timeout id : live (Protocol.adaptive_timeout id).
Proof.
  apply live_reading. intros st. destruct (RoutingTable.get _ _); [|done].
  unfold ResponseStats.adaptive_timeout. case_match; [|done].
  apply enough_fuel_bind; [apply uadd_fuel|done].
Qed.
Lemma live_storage_store key value : live (Protocol.storage_store key value).
Proof. apply live_storage. intros c s. apply Storage.store_fuel. Qed.
Lemma live_storage_get key : live (Protocol.storage_get key).
Proof. apply live_storage. intros c s. apply Storage.get_fuel. Qed.
Lemma live_node_seen id :
  live (Protocol.table_section (fun c => RoutingTable.node_seen (wall c) id)).
Proof. apply live_table. intros c t. apply table_clone_fuel. Qed.
Lemma live_update n : live (Protocol.table_section (fun c => RoutingTable.update (wall c) n)).
Proof. apply live_table. intros c t. apply table_update_fuel. Qed.
Lemma live_remove id :
  live (Protocol.table_section (fun c t => mret (RoutingTable.remove (wall c) id t))).
Proof. apply live_table. intros c t. apply enough_fuel_Done. Qed.
Lemma live_contact n : live (Protocol.table_section (fun c t =>
  let known := RoutingTable.contains (Node.id n) t in
  '(t, r) ← RoutingTable.update (wall c) n t; mret (t, (r, known)))).
Proof.
  apply live_table. intros c t. apply enough_fuel_bind; [apply table_update_fuel|].
  intros [] _. apply enough_fuel_Done.
Qed.
Lemma live_send to m : live (send to m).
Proof. done. Qed.
Lemma live_wait limit id inner : live (wait limit id inner).
Proof. done. Qed.
Hint Resolve live_read_table live_draw_id live_register live_remove_pending live_success live_failure
  live_timeout live_storage_store live_storage_get live_node_seen live_update live_remove
  live_contact live_send live_wait : kad.

Local Ltac live_step :=
  match goal with
  | |- responsive _ _ (mret _) => exact I
  | |- responsive _ _ (bind_ok _ _) => apply responsive_bind_ok; [|intros ?]
  | |- responsive _ _ (_ ≫= _) => apply responsive_bind; [|intros ?]
  | |- responsive _ _ (match ?x with _ => _ end) => destruct x
  | |- responsive _ _ (if ?x then _ else _) => destruct x
  | |- responsive _ _ (for_each _ _) => apply responsive_for_each; intros ?
  | |- responsive _ _ (within _ _) => split; [|done]
  | |- responsive _ _ (guarded _ _ _) => split; [intros ? ?; apply enough_fuel_Done|done]
  | _ => solve [auto with kad]
  end.
Local Ltac live := repeat live_step.

(** ** Remote procedure calls and requests *)
Lemma live_health_check n : live (Protocol.health_check_ping node_id addr n).
Proof. unfold Protocol.health_check_ping. live. Qed.
Hint Resolve live_health_check : kad.
Lemma live_record_contact n : live (Protocol.record_contact node_id addr n).
Proof. unfold Protocol.record_contact. live. Qed.
Hint Resolve live_record_contact : kad.
Lemma live_request_response n id request :
  live (Protocol.request_response node_id addr n id request).
Proof. unfold Protocol.request_response. live. Qed.
Hint Resolve live_request_response : kad.
Lemma live_ping n : live (Protocol.ping node_id addr n).
Proof. unfold Protocol.ping. live. Qed.
Lemma live_store n key value : live (Protocol.store node_id addr n key value).
Proof. unfold Protocol.store. live. Qed.
Lemma live_find_node_rpc n target : live (Protocol.find_node_rpc node_id addr n target).
Proof. unfold Protocol.find_node_rpc. live. Qed.
Lemma live_find_value_rpc n key : live (Protocol.find_value_rpc node_id addr n key).
Proof. unfold Protocol.find_value_rpc. live. Qed.
Hint Resolve live_ping live_store live_find_node_rpc live_find_value_rpc : kad.
Lemma live_replicate n : live (Protocol.replicate_to_new_node node_id addr n).
Proof. unfold Protocol.replicate_to_new_node. live. by apply live_reading. Qed.
Hint Resolve live_replicate : kad.
Lemma live_handle_request req from : live (Protocol.handle_request node_id addr req from).
Proof.
  unfold Protocol.handle_request, Protocol.handle_ping, Protocol.handle_store,
    Protocol.handle_find_node, Protocol.handle_find_value. live.
Qed.
Hint Resolve live_handle_request : kad.

(** ** Programs that start no task *)
Lemma live_find_node_round target s : live (Lookup.find_node_round node_id addr target s).
Proof.
  unfold Lookup.find_node_round. live. apply responsive_join. split; [|done].
  apply Forall_forall. intros p (n & <- & _)%list_elem_of_In%in_map_iff. auto with kad.
Qed.
Lemma live_find_node target : live (Lookup.find_node node_id addr target).
Proof.
  unfold Lookup.find_node. live. split_and!; [apply live_find_node_round..|done].
Qed.
Hint Resolve live_find_node : kad.
Lemma live_store_value key value : live (Lookup.store_value node_id addr key value).
Proof. unfold Lookup.store_value. live. Qed.
Hint Resolve live_store_value : kad.
Lemma live_node_store key value : live (DhtNode.store node_id addr key value).
Proof. unfold DhtNode.store. live. Qed.
Lemma live_join bootstrap :
  live (DhtNode.join sha256 to_string node_id addr bootstrap).
Proof. unfold DhtNode.join. live. Qed.
Lemma live_start : live (DhtNode.start node_id addr).
Proof. by repeat (right; intros ?). Qed.
Lemma live_refresh : live (DhtNode.refresh node_id addr).
Proof.
  assert (live (DhtNode.random_id (S := S))) by (apply responsive_bind; [by apply live_draw, (inhabits [])|done]).
  assert (live (draw (nat -> bool))) by by apply live_draw, (inhabits (fun _ => true)).
  unfold DhtNode.refresh. live.
Qed.
Lemma live_republish : live (DhtNode.republish node_id addr).
Proof.
  unfold DhtNode.republish. apply responsive_bind; [|intros items; live].
  apply live_storage. intros c s. generalize (@nil (NodeId * Value)). generalize (Storage.keys s).
  intros keys. revert s. induction keys as [|key keys IH]; intros s pairs; cbn; [apply enough_fuel_Done|].
  apply enough_fuel_bind; [apply Storage.get_fuel|]. intros [s' r] _. apply IH.
Qed.
Lemma live_expire : live DhtNode.expire.
Proof.
  apply live_storage. intros c s. apply enough_fuel_bind; [apply Storage.cleanup_fuel|].
  intros s' _. apply enough_fuel_Done.
Qed.
Lemma live_query_task key n : live (Lookup.query_task node_id addr key n).
Proof. unfold Lookup.query_task. live. Qed.
Lemma live_await_all key visited hs acc :
  Forall L hs -> live (Lookup.await_all key visited hs acc).
Proof.
  intros Hhs. revert acc. induction Hhs as [|h hs Hh _ IH]; intros acc; cbn [Lookup.await_all]; [done|].
  apply responsive_bind; [done|]. intros r. live.
Qed.
End sections.

(** ** Value lookups

    The tasks a round spawns are independent, and the round awaits no others. *)
Lemma independent_query_task key n : independent (Lookup.query_task (S := S) node_id addr key n).
Proof. split; [apply loop_free_terminates, lf_query_task|apply live_query_task]. Qed.

Lemma live_spawn_all key ns {A} (k : list nat -> prog A) L :
  (forall hs L', (forall h, L h -> L' h) -> Forall L' hs -> responsive independent L' (k hs)) ->
  responsive independent L (Lookup.spawn_all (S := S) node_id addr key ns ≫= k).
Proof.
  revert k L. induction ns as [|n ns IH]; intros k L Hk; cbn [Lookup.spawn_all]; [by apply Hk|].
  left. split; [apply independent_query_task|]. intros h. apply responsive_assoc, IH.
  intros hs L' HL Hhs. apply Hk; [by auto|]. constructor; [by auto|done].
Qed.

Lemma live_find_value_rounds n key visited ns L :
  responsive independent L (Lookup.find_value_rounds (S := S) node_id addr n key visited ns).
Proof.
  revert visited ns L. induction n as [|n IH]; intros visited ns L; cbn [Lookup.find_value_rounds];
    [done|].
  destruct (FindValue.nodes_to_query _ _ _) as [|m ms]; [done|]. apply live_spawn_all.
  intros hs L' _ Hhs. apply responsive_bind; [by apply live_await_all|].
  intros [v|[|c cs]]; [done..|apply IH].
Qed.
Lemma live_find_value key L : responsive independent L (Lookup.find_value (S := S) node_id addr key).
Proof.
  unfold Lookup.find_value. apply responsive_bind; [apply live_storage_get|]. intros [v|e]; [done|].
  apply responsive_bind; [apply live_read_table|]. intros [|c cs]; [done|].
  apply responsive_bind; [apply live_find_value_rounds|done].
Qed.
Lemma live_get key L : responsive independent L (DhtNode.get (S := S) node_id addr key).
Proof.
  unfold DhtNode.get. apply responsive_bind; [apply live_find_value|]. by intros [[v|]|e].
Qed.

(** ** Everything that can be started on a node *)
Lemma operation_responsive p L :
  DhtNode.operation (S := S) sha256 to_string node_id addr p -> responsive independent L p.
Proof.
  destruct 1; unfold DhtNode.task; (apply responsive_bind; [|done]);
    eauto using live_start, live_node_store, live_get, live_join, live_ping, live_store,
      live_find_node, live_find_value, live_find_value_rpc, live_store_value.
  apply responsive_bind; [apply live_handle_request|done].
Qed.

Lemma join_terminates bootstrap :
  terminates (DhtNode.join (S := S) sha256 to_string node_id addr bootstrap).
Proof.
  unfold DhtNode.join, bind_ok. apply terminates_bind.
  { apply loop_free_terminates, lf_record_contact. }
  intros [b|e] _; [|apply terminates_Ret]. apply terminates_bind.
  { apply loop_free_terminates, lf_ping. }
  intros [r|e] _; [|apply terminates_Ret]. apply terminates_bind.
  { apply loop_free_terminates, lf_record_contact. }
  intros [b'|e] _; [|apply terminates_Ret]. apply terminates_bind.
  { apply find_node_terminates_all. }
  intros [ns|e] _; apply terminates_Ret.
Qed.

Lemma operation_terminates p :
  DhtNode.operation (S := S) sha256 to_string node_id addr p -> terminates p.
Proof.
  destruct 1; unfold DhtNode.task; (apply terminates_bind; [|intros; apply terminates_Ret]);
    eauto using join_terminates, find_node_terminates_all; apply loop_free_terminates;
    eauto using lf_node_store, lf_get, lf_ping, lf_store, lf_find_value, lf_find_value_rpc,
      lf_store_value.
  - apply loop_free_bind; [apply lf_handle_request|done].
  - done.
Qed.

(** ** The background tasks *)
Lemma terminates_for_each {X} (l : list X) (body : X -> prog unit) :
  (forall x, terminates (body x)) -> terminates (for_each l body).
Proof.
  intros Hb. induction l as [|x l IH]; cbn; [apply terminates_Ret|]. by apply terminates_bind.
Qed.
Lemma refresh_terminates : terminates (DhtNode.refresh (S := S) node_id addr).
Proof.
  assert (forall target, terminates (_ ← Lookup.find_node (S := S) node_id addr target; mret tt)) as Hfind.
  { intros target. apply terminates_bind; [apply find_node_terminates_all|]. intros; apply terminates_Ret. }
  unfold DhtNode.refresh. apply terminates_bind; [apply loop_free_terminates; no_loop|].
  intros [|i indices] _.
  - apply terminates_bind; [apply loop_free_terminates; no_loop|]. intros target _. apply Hfind.
  - apply terminates_for_each. intros index.
    apply terminates_bind; [apply loop_free_terminates; no_loop|]. intros coin _.
    apply terminates_bind; [apply loop_free_terminates; no_loop|]. intros target _. apply Hfind.
Qed.
Lemma republish_terminates : terminates (DhtNode.republish (S := S) node_id addr).
Proof.
  unfold DhtNode.republish. apply terminates_bind; [apply loop_free_terminates; no_loop|].
  intros items _. apply terminates_for_each. intros [key value].
  apply terminates_bind; [apply loop_free_terminates, lf_store_value|intros; apply terminates_Ret].
Qed.
Lemma expire_terminates : terminates (DhtNode.expire (S := S)).
Proof. apply loop_free_terminates. unfold DhtNode.expire. no_loop. Qed.

(** ** The lock discipline *)
Lemma plain_table {X} (f : Clock -> RoutingTable -> exec (RoutingTable * X)) :
  plain (Protocol.table_section (S := S) f).
Proof. done. Qed.

(** What runs under the guard of the pending requests. *)
Lemma brief_failure id : brief (Protocol.record_failure (S := S) id).
Proof.
  split; [done|]. split; [|done]. intros c st. apply enough_fuel_bind; [apply table_clone_fuel|].
  intros [] _. apply enough_fuel_Done.
Qed.

Local Ltac plain_step :=
  match goal with
  | |- plain (mret _) => exact I
  | |- plain (guarded _ _ _) => split_and!; [done|intros ?; apply brief_failure|done]
  | |- plain (bind_ok _ _) => apply plain_bind_ok; [|intros ?]
  | |- plain (_ ≫= _) => apply plain_bind; [|intros ?]
  | |- plain (match ?x with _ => _ end) => destruct x
  | |- plain (if ?x then _ else _) => destruct x
  | |- plain (for_each _ _) => apply plain_for_each; intros ?
  | |- plain (within _ _) => split; [|done]
  | _ => first [done | solve [auto with kad]]
  end.
Local Ltac plain := repeat plain_step.

Lemma plain_health_check n : plain (Protocol.health_check_ping (S := S) node_id addr n).
Proof. unfold Protocol.health_check_ping. plain. Qed.
Hint Resolve plain_health_check : kad.
Lemma plain_record_contact n : plain (Protocol.record_contact (S := S) node_id addr n).
Proof. unfold Protocol.record_contact. plain. Qed.
Hint Resolve plain_record_contact : kad.
Lemma plain_request_response n id request :
  plain (Protocol.request_response (S := S) node_id addr n id request).
Proof. unfold Protocol.request_response. plain. Qed.
Hint Resolve plain_request_response : kad.
Lemma plain_ping n : plain (Protocol.ping (S := S) node_id addr n).
Proof. unfold Protocol.ping. plain. Qed.
Lemma plain_store n key value : plain (Protocol.store (S := S) node_id addr n key value).
Proof. unfold Protocol.store. plain. Qed.
Lemma plain_find_value_rpc n key : plain (Protocol.find_value_rpc (S := S) node_id addr n key).
Proof. unfold Protocol.find_value_rpc. plain. Qed.
Hint Resolve plain_ping plain_store plain_find_value_rpc : kad.
Lemma plain_handle_request req from :
  plain (Protocol.handle_request (S := S) node_id addr req from).
Proof.
  unfold Protocol.handle_request, Protocol.handle_ping, Protocol.handle_store,
    Protocol.handle_find_node, Protocol.handle_find_value, Protocol.replicate_to_new_node. plain.
Qed.
Lemma plain_find_node target : plain (Lookup.find_node (S := S) node_id addr target).
Proof.
  assert (forall s, plain (Lookup.find_node_round (S := S) node_id addr target s)) as Hround.
  { intros s. unfold Lookup.find_node_round. plain. apply plain_join. split; [|done].
    apply Forall_forall. intros p (n & <- & _)%list_elem_of_In%in_map_iff.
    unfold Protocol.find_node_rpc. plain. }
  unfold Lookup.find_node. plain.
Qed.
Lemma plain_store_value key value : plain (Lookup.store_value (S := S) node_id addr key value).
Proof. unfold Lookup.store_value. plain. Qed.
Hint Resolve plain_handle_request plain_find_node plain_store_value : kad.

Lemma plain_find_value key : plain (Lookup.find_value (S := S) node_id addr key).
Proof.
  assert (forall ns, plain (Lookup.spawn_all (S := S) node_id addr key ns)) as Hspawn.
  { induction ns as [|n ns IH]; cbn [Lookup.spawn_all]; [done|]. apply plain_bind; [|intros h; plain].
    split; [split|done]; [unfold Lookup.query_task; plain|left].
    apply loop_free_terminates, lf_query_task. }
  assert (forall visited hs acc, plain (Lookup.await_all (S := S) key visited hs acc)) as Hawait.
  { intros visited hs. induction hs as [|h hs IH]; intros acc; cbn [Lookup.await_all]; [done|]. plain. }
  assert (forall n visited ns, plain (Lookup.find_value_rounds (S := S) node_id addr n key visited ns))
    as Hrounds.
  { induction n as [|n IH]; intros visited ns; cbn [Lookup.find_value_rounds]; [done|].
    destruct (FindValue.nodes_to_query _ _ _); [done|]. plain. }
  unfold Lookup.find_value. plain.
Qed.
Hint Resolve plain_find_value : kad.

(** The bodies of the background tasks. *)
Definition background (body : prog unit) : Prop :=
  body ∈ [DhtNode.refresh node_id addr; DhtNode.republish node_id addr; DhtNode.expire].

Lemma background_cases (P : prog unit -> Prop) body :
  P (DhtNode.refresh node_id addr) -> P (DhtNode.republish node_id addr) -> P DhtNode.expire ->
  background body -> P body.
Proof. intros Hr Hp He Hb%list_elem_of_In. by destruct Hb as [<-|[<-|[<-|[]]]]. Qed.

Lemma background_terminates body : background body -> terminates body.
Proof.
  apply background_cases; [apply refresh_terminates|apply republish_terminates|apply expire_terminates].
Qed.
Lemma background_responsive body L : background body -> responsive independent L body.
Proof. apply background_cases; [apply live_refresh|apply live_republish|apply live_expire]. Qed.
Lemma background_plain body : background body -> plain body.
Proof.
  assert (plain (DhtNode.random_id (S := S))) by (unfold DhtNode.random_id; plain).
  apply background_cases; [unfold DhtNode.refresh|unfold DhtNode.republish|done]; plain.
Qed.

Lemma iteration_terminates period (body : prog unit) :
  terminates body -> terminates (_ ← tick period; _ ← body; mret (inl tt) : prog (unit + QueryResult)).
Proof.
  intros Hb. constructor. intros q (n & fin & st & evs & st' & new & (_ & _ & _ & ->)%step_inv).
  apply terminates_bind; [done|]. intros; apply terminates_Ret.
Qed.

Lemma forever_fresh period body : background body -> fresh (DhtNode.forever period body).
Proof.
  intros Hb. pose proof (background_plain body Hb) as Hp. unfold DhtNode.forever, loop. split.
  - assert (plain (_ ← tick period; _ ← body; mret (inl tt) : prog (unit + QueryResult)))
      as Hbody by (apply plain_bind; [done|]; intros _; by apply plain_bind).
    by split_and!.
  - right. do 5 eexists. split; [reflexivity|].
    pose proof (iteration_terminates period body (background_terminates body Hb)).
    split_and!; [done..|]. intros; apply terminates_Ret.
Qed.

Lemma plain_start : plain (DhtNode.start (S := S) node_id addr).
Proof.
  unfold DhtNode.start. repeat (apply plain_bind; [split; [apply forever_fresh|done]|intros _]).
  - by left.
  - by right; left.
  - by right; right; left.
  - done.
Qed.
Hint Resolve plain_start : kad.

Lemma plain_node_store key value : plain (DhtNode.store (S := S) node_id addr key value).
Proof. unfold DhtNode.store. plain. Qed.
Lemma plain_get key : plain (DhtNode.get (S := S) node_id addr key).
Proof. unfold DhtNode.get. plain. Qed.
Lemma plain_join_call bootstrap :
  plain (DhtNode.join (S := S) sha256 to_string node_id addr bootstrap).
Proof. unfold DhtNode.join. plain. Qed.
Hint Resolve plain_node_store plain_get plain_join_call : kad.

Lemma operation_fresh p : DhtNode.operation (S := S) sha256 to_string node_id addr p -> fresh p.
Proof.
  intros Hp. split; [|left; by apply operation_terminates].
  destruct Hp; unfold DhtNode.task, DhtNode.forward_request; plain.
Qed.

(** What a node can be running when it starts. *)
Definition startable (p : prog QueryResult) : Prop :=
  DhtNode.operation (S := S) sha256 to_string node_id addr p \/
  exists period body, background body /\ p = DhtNode.forever period body.

Lemma startable_fresh p : startable p -> fresh p.
Proof.
  intros [Hp|(period & body & Hb & ->)]; [by apply operation_fresh|by apply forever_fresh].
Qed.
End operations.
