(* ===== verification/LivenessSpec.v ===== *)
(** * Liveness of a node

    What happens in every fair run over a transport whose sends return: no
    deadlock, the operations end, the background tasks come back to their
    timers. *)

From S2P Require Import Prelude Errors Bytes Ident F64 Contact Fixtures Bucket Table.
From S2P Require Import Store Messages Effects Protocol Lookup DhtNode SampleNode.
From S2P Require Import Termination Locks Liveness Responsive.

Lemma node_live {S : Type} `{!Storage.t S, !Storage.Fuelless S, !Profile, !HashOrder nat KBucket}
    sha256 to_string node_id addr (run : nat -> node) :
  fair_run (DhtNode.operation (S := S) sha256 to_string node_id addr) run -> sends_return run ->
  Forall (startable (S := S) sha256 to_string node_id addr) (tasks (run 0)) ->
  live_run (DhtNode.operation (S := S) sha256 to_string node_id addr) run.
Proof.
  intros Hfair Hsend Hstart. split; [done|apply operation_fresh| |done].
  eapply Forall_impl; [exact Hstart|]. apply startable_fresh.
Qed.

(** C8: no deadlock, and every operation of a node completes. In a fair run
    that starts with operations and background tasks, with any answers of the
    network, whatever else the node does at the same time: all locks are free
    together again and again, although a health check waits for the routing
    table with the pending requests locked; and every call and every inbound
    request that has been started ends after finitely many steps (it returns or
    it panics), provided the transport lets the sends return. That is asked
    for, as [network.send] waits outside of every timeout for room in the
    queue of the transport: when the transport stops taking messages, the
    operations that send stop with it. *)
Theorem operations_complete {S : Type} `{!Storage.t S, !Storage.Fuelless S, !Profile}
    `{!HashOrder nat KBucket} sha256 to_string node_id addr (run : nat -> node) :
  fair_run (DhtNode.operation (S := S) sha256 to_string node_id addr) run ->
  Forall (startable (S := S) sha256 to_string node_id addr) (tasks (run 0)) ->
  (forall t, exists t', t <= t' /\ forall l, free (others (tasks (run t'))) l) /\
  (sends_return run -> forall t i p,
     DhtNode.operation sha256 to_string node_id addr p -> tasks (run t) !! i = Some p ->
     ends_after run t i).
Proof.
  intros Hfair Hstart. split.
  - assert (Forall fresh (tasks (run 0))) as Hfresh
      by (eapply Forall_impl; [exact Hstart|apply startable_fresh]).
    pose proof (operation_fresh (S := S) sha256 to_string node_id addr) as Hops.
    intros t. destruct (lock_free_again _ run Hfair Hops Hfresh t) as (t' & Ht' & Hfree).
    exists t'. split; [done|]. intros l.
    destruct (decide (l = pending_requests_lock)) as [->|Hl]; [done|]. by eapply others_free.
  - intros Hsend t i p Hp Hi. eapply responsive_task_ends; [by eapply node_live| | |exact Hi].
    + by eapply operation_terminates.
    + by eapply operation_responsive.
Qed.

(** A node without contacts looks up a key it does not have. *)
Lemma operations_complete_witness :
  exists run : nat -> node,
    tasks (run 0) = [DhtNode.task (@DhtNode.get _ sample_storage debug_build listed_order
      (sample_id 0) (sample_addr 0) [])] /\
    @fair_run (Shared MemoryStorage) QueryResult (@DhtNode.operation _ sample_storage debug_build
      listed_order no_hash no_name (sample_id 0) (sample_addr 0)) run /\
    sends_return run /\ ends_after run 0 0.
Proof.
  assert (exists n1 n2,
    task_step 0 (MkNode sample_state [DhtNode.task (@DhtNode.get _ sample_storage debug_build
        listed_order (sample_id 0) (sample_addr 0) [])]) n1 /\
    task_step 0 n1 n2 /\ length (tasks n1) = 1 /\ tasks n2 = [Ret None])
    as (n1 & n2 & H1 & H2 & Hlen & Hend).
  { do 2 eexists. split; [|split; [|split]].
    - do 5 eexists. split; [reflexivity|]. split; [|reflexivity].
      eapply (step_atomic _ _ _ _ _ (MkClock 5 0)); [lock_free|vm_compute; reflexivity].
    - do 5 eexists. split; [cbn [tasks]; rewrite app_nil_r; apply list_lookup_insert_eq; cbn; lia|].
      split; [|reflexivity].
      eapply (step_atomic _ _ _ _ _ (MkClock 5 0)); [lock_free|vm_compute; reflexivity].
    - reflexivity.
    - reflexivity. }
  set (n0 := MkNode sample_state [DhtNode.task (@DhtNode.get _ sample_storage debug_build
    listed_order (sample_id 0) (sample_addr 0) [])]).
  set (run := fun t => nth t [n0; n1] n2).
  destruct (finite_fair_run (@DhtNode.operation _ sample_storage debug_build listed_order no_hash no_name
    (sample_id 0) (sample_addr 0)) [n0; n1] n2) as [Hfair Hsend].
  { intros [|[|t]] Ht; [done..|]. cbn in Ht. lia. }
  { repeat (apply Forall_cons; split); [done|done| |apply Forall_nil; done]. by rewrite Hend. }
  { rewrite Hend. by constructor. }
  exists run. split; [reflexivity|]. split; [exact Hfair|]. split; [exact Hsend|].
  eapply (proj2 (@operations_complete _ sample_storage (@memory_fuelless listed_order) debug_build
    listed_order no_hash no_name (sample_id 0) (sample_addr 0) run Hfair
    ltac:(apply Forall_singleton; left; constructor)) Hsend 0 0); [|reflexivity]. constructor.
Defined.

(** The assumption on the sends is needed: a ping whose message finds no room
    in the queue of the transport never ends, since no timeout covers it. *)
Lemma ping_waits_for_send :
  exists run : nat -> node,
    tasks (run 0) = [DhtNode.task (@Protocol.ping MemoryStorage debug_build
      (sample_id 0) (sample_addr 0) (contact 1))] /\
    @fair_run (Shared MemoryStorage) QueryResult (@DhtNode.operation _ sample_storage debug_build
      listed_order no_hash no_name (sample_id 0) (sample_addr 0)) run /\
    forall t, ~ task_ended 0 (run t).
Proof.
  assert (exists n1 n2 n3 to m k,
    task_step 0 (MkNode sample_state [DhtNode.task (@Protocol.ping MemoryStorage debug_build
      (sample_id 0) (sample_addr 0) (contact 1))]) n1 /\
    task_step 0 n1 n2 /\ task_step 0 n2 n3 /\
    ~ task_ended 0 n1 /\ ~ task_ended 0 n2 /\ tasks n3 = [Send to m k])
    as (n1 & n2 & n3 & to & m & k & H1 & H2 & H3 & E1 & E2 & E3).
  { do 6 eexists. split_and!.
    - do 5 eexists. split; [reflexivity|]. split; [|reflexivity]. apply (step_draw _ _ _ _ MessageId _ 7%Z).
    - do 5 eexists. split; [reflexivity|]. split; [|reflexivity].
      eapply (step_atomic _ _ _ _ _ (MkClock 5 0)); [lock_free|reflexivity].
    - do 5 eexists. split; [reflexivity|]. split; [|reflexivity].
      eapply (step_atomic _ _ _ _ _ (MkClock 5 0)); [lock_free|vm_compute; reflexivity].
    - by intros [x Hx].
    - by intros [x Hx].
    - reflexivity. }
  set (n0 := MkNode sample_state [DhtNode.task (@Protocol.ping MemoryStorage debug_build
    (sample_id 0) (sample_addr 0) (contact 1))]) in H1.
  exists (fun t => nth t [n0; n1; n2] n3). split; [reflexivity|]. split.
  - apply stuck_fair_run.
    + intros [|[|[|t]]] Ht; [done..|]. cbn in Ht. lia.
    + intros i (evs & n' & (p & st' & new & p' & Hi & Hs & _) & Hevs). rewrite E3 in Hi.
      apply list_lookup_singleton_Some in Hi as [_ <-].
      apply step_inv in Hs as (_ & _ & r & -> & _). done.
  - assert (~ task_ended 0 n3) as E4 by (intros [x Hx]; unfold finished in Hx; by rewrite E3 in Hx).
    intros [|[|[|t]]]; [by intros [x Hx]|done|done|]. by destruct t.
Qed.

(** C19: the background tasks go on. In a fair run that starts with operations
    and background tasks, over a transport that lets the sends return, whatever
    the network answers, a task that refreshes the buckets, republishes the
    stored values or removes the expired ones comes back to its timer after any
    point of the run, unless one of its lock sections panics: no iteration
    waits forever for a lock, a timer, an answer or another task. *)
Theorem background_tasks_recur {S : Type} `{!Storage.t S, !Storage.Fuelless S, !Profile}
    `{!HashOrder nat KBucket} sha256 to_string node_id addr (run : nat -> node) t i period body :
  fair_run (DhtNode.operation (S := S) sha256 to_string node_id addr) run -> sends_return run ->
  Forall (startable (S := S) sha256 to_string node_id addr) (tasks (run 0)) ->
  body ∈ [DhtNode.refresh node_id addr; DhtNode.republish node_id addr; DhtNode.expire] ->
  tasks (run t) !! i = Some (DhtNode.forever period body) ->
  forall d, exists t', t + d <= t' /\
    (tasks (run t') !! i = Some Abort \/ tasks (run t') !! i = Some (DhtNode.forever period body)).
Proof.
  intros Hfair Hsend Hstart Hbody Hi d.
  destruct (endless_loop_recurs _ run (fun _ => _ ← tick period; _ ← body; mret (inl tt)) Ret t i tt
    (node_live _ _ _ _ run Hfair Hsend Hstart))
    with d as (t' & Ht' & [Ha|[[] Hx]]); eauto.
  - intros x. by apply iteration_terminates, (background_terminates node_id addr).
  - intros x y Hr. apply may_return_bind in Hr as (u & _ & Hr).
    apply may_return_bind in Hr as (v & _ & Hr). by apply may_return_Ret in Hr.
  - intros L x. apply responsive_bind; [done|]. intros _.
    apply responsive_bind; [by apply (background_responsive node_id addr)|done].
  - done.
Qed.

(** The expiry task of a node that stores nothing. *)
Lemma background_tasks_recur_witness :
  exists run : nat -> node, forall d, exists t', d <= t' /\
    (tasks (run t') !! 0 = Some Abort \/
     tasks (run t') !! 0 = Some (@DhtNode.forever MemoryStorage EXPIRATION_CHECK_INTERVAL
       (@DhtNode.expire _ sample_storage))).
Proof.
  assert (exists b c : node,
    task_step 0 (MkNode sample_state [@DhtNode.forever MemoryStorage EXPIRATION_CHECK_INTERVAL
      (@DhtNode.expire _ sample_storage)]) b /\ task_step 0 b c /\
    task_step 0 c (MkNode sample_state [@DhtNode.forever MemoryStorage EXPIRATION_CHECK_INTERVAL
      (@DhtNode.expire _ sample_storage)]) /\ length (tasks b) = 1 /\ length (tasks c) = 1)
    as (b & c & Ha & Hb & Hc & Hlb & Hlc).
  { do 2 eexists. split_and!.
    - do 5 eexists. split; [reflexivity|]. split; [apply step_loop, step_tick|reflexivity].
    - do 5 eexists. split; [reflexivity|]. split; [|reflexivity].
      eapply step_loop, (step_atomic _ _ _ _ _ (MkClock 0 0)); [lock_free|vm_compute; reflexivity].
    - do 5 eexists. split; [reflexivity|]. split; [apply step_loop_next|reflexivity].
    - reflexivity.
    - reflexivity. }
  destruct (cycle_fair_run (@DhtNode.operation _ sample_storage debug_build listed_order no_hash no_name
    (sample_id 0) (sample_addr 0)) (MkNode sample_state [@DhtNode.forever MemoryStorage
      EXPIRATION_CHECK_INTERVAL (@DhtNode.expire _ sample_storage)]) b c eq_refl Hlb Hlc Ha Hb Hc)
    as [Hfair Hsend].
  eexists. intros d.
  eapply (@background_tasks_recur _ sample_storage (@memory_fuelless listed_order) debug_build
    listed_order no_hash no_name (sample_id 0) (sample_addr 0) _ 0 0 EXPIRATION_CHECK_INTERVAL
    (@DhtNode.expire _ sample_storage) Hfair Hsend);
    [apply Forall_singleton; right; do 2 eexists; split; [|reflexivity]|by right; right; left|reflexivity].
  by right; right; left.
Defined.
