(* ===== verification/LookupRef.v ===== *)
(** * What [find_node] computes while all answers arrive

    The reference: the [K] closest of all contacts it has learned of, the
    first of each identifier. *)

From S2P Require Import Prelude Errors Bytes Ident F64 Contact Fixtures Bucket Table.
From S2P Require Import Store Messages Effects Protocol Lookup Termination TableSpec SampleNode.

(** ** Cutting a sorted list before merging does not change its first elements *)
Section truncate.
Context {A : Type} (key : A -> Z).
Local Abbreviation le_key := (fun x y => key x <= key y)%Z.

Lemma filter_all (P : A -> Prop) `{!forall x, Decision (P x)} l : Forall P l -> filter P l = l.
Proof. induction 1 as [|x l Hx _ IH]; [done|]. rewrite filter_cons_True by done. by f_equal. Qed.
Lemma filter_none (P : A -> Prop) `{!forall x, Decision (P x)} l :
  Forall (fun x => ~ P x) l -> filter P l = [].
Proof. induction 1 as [|x l Hx _ IH]; [done|]. by rewrite filter_cons_False. Qed.

(** A sorted list with [n] elements up to [z] begins with [n] such elements. *)
Lemma sorted_prefix_small n z X L M :
  StronglySorted le_key X -> X ≡ₚ L ++ M -> Forall (fun x => key x <= z)%Z L -> n <= length L ->
  Forall (fun x => key x <= z)%Z (take n X).
Proof.
  intros Hs Hp HL Hn. apply Forall_lookup. intros i y Hy.
  destruct (decide (key y <= z)%Z) as [|Hgt]; [done|exfalso].
  assert (i < n) as Hi.
  { apply lookup_lt_Some in Hy. rewrite length_take in Hy. lia. }
  rewrite lookup_take_lt in Hy by done. apply list_elem_of_split_length in Hy as (X1 & X2 & -> & Ei).
  apply StronglySorted_app in Hs as (_ & _ & Hs). apply StronglySorted_cons in Hs as [Hy _].
  assert (filter (fun x => key x <= z)%Z (y :: X2) = []) as Htail.
  { apply filter_none. constructor; [done|]. eapply Forall_impl; [exact Hy|]. cbn. lia. }
  assert (length (filter (fun x => key x <= z)%Z (X1 ++ y :: X2)) <= length X1) as Hle.
  { rewrite filter_app, Htail, app_nil_r. apply length_filter. }
  rewrite Hp, filter_app, length_app, (filter_all _ L HL) in Hle. lia.
Qed.

Context (cmp : A -> A -> comparison).
Hypothesis (cmp_key : forall x y, cmp x y = (key x ?= key y)%Z).

Lemma take_sort_truncate n l m :
  NoDup (key <$> l ++ m) ->
  take n (sort_by cmp (take n (sort_by cmp l) ++ m)) = take n (sort_by cmp (l ++ m)).
Proof using cmp_key.
  intros Hnd. destruct (decide (length l <= n)) as [Hle|Hgt].
  { rewrite (take_ge (sort_by cmp l)) by (rewrite length_sort_by; lia). f_equal.
    apply (sorted_perm_unique key); [|by apply (sort_by_sorted _ _ cmp_key)..|].
    - eapply NoDup_perm; [|exact Hnd]. by rewrite !sort_by_Permutation.
    - by rewrite !sort_by_Permutation. }
  set (L := take n (sort_by cmp l)). set (B := drop n (sort_by cmp l)).
  assert (length L = n) as HL by (unfold L; rewrite length_take, length_sort_by; lia).
  set (X := sort_by cmp (L ++ m)).
  assert (sort_by cmp (l ++ m) = take n X ++ sort_by cmp (drop n X ++ B)) as ->.
  2: { rewrite take_app_le; [by rewrite take_take, Nat.min_id|].
       rewrite length_take. unfold X. rewrite length_sort_by, length_app. lia. }
  assert (StronglySorted le_key X) as HX by by apply (sort_by_sorted _ _ cmp_key).
  assert (StronglySorted le_key (sort_by cmp l)) as Hl by by apply (sort_by_sorted _ _ cmp_key).
  rewrite <-(take_drop n (sort_by cmp l)) in Hl. apply StronglySorted_app in Hl as (HLB & _ & _).
  apply (sorted_perm_unique key); [|by apply (sort_by_sorted _ _ cmp_key)| |].
  - eapply NoDup_perm; [|exact Hnd]. by rewrite sort_by_Permutation.
  - rewrite <-(take_drop n X) in HX. apply StronglySorted_app in HX as (H12 & H1 & H2).
    apply StronglySorted_app. split_and!; [|done|by apply (sort_by_sorted _ _ cmp_key)].
    intros x y Hx [Hy|Hy]%elem_of_sort_by%elem_of_app; [by apply H12|].
    assert (Forall (fun x => key x <= key y)%Z (take n X)) as Hall.
    { apply (sorted_prefix_small n (key y) X L m); [|apply sort_by_Permutation| |lia].
      - by apply (sort_by_sorted _ _ cmp_key).
      - apply Forall_forall. intros a Ha. by apply HLB. }
    rewrite Forall_forall in Hall. by apply Hall.
  - rewrite sort_by_Permutation, sort_by_Permutation, app_assoc, take_drop. unfold X, B, L.
    rewrite sort_by_Permutation. rewrite <-app_assoc, (Permutation_app_comm m), app_assoc, take_drop.
    by rewrite sort_by_Permutation.
Qed.
End truncate.

(** ** The reference *)
Fixpoint first_by_id (seen : gset NodeId) (ns : list Node) : list Node :=
  match ns with
  | [] => []
  | n :: rest =>
      if decide (Node.id n ∈ seen) then first_by_id seen rest
      else n :: first_by_id ({[Node.id n]} ∪ seen) rest
  end.

(** All contacts learned of: those the lookup starts with, then those of the
    answers, in order; the first of each identifier, and not the node itself. *)
Definition learned (node_id : NodeId) (initial : list Node) (answers : list (list Node)) : list Node :=
  first_by_id {[node_id]} (initial ++ concat answers).

Definition find_node_reference (target node_id : NodeId) (initial : list Node)
    (answers : list (list Node)) : list Node :=
  take K (sort_by (KBucket.distance_cmp target) (learned node_id initial answers)).

Lemma add_new_first_by_id nodes seen closest :
  fold_left FindNode.add_new nodes (seen, closest) =
    (seen ∪ list_to_set (Node.id <$> first_by_id seen nodes), closest ++ first_by_id seen nodes).
Proof.
  revert seen closest. induction nodes as [|n nodes IH]; intros seen closest; cbn [fold_left first_by_id].
  - cbn. f_equal; [set_solver|by rewrite app_nil_r].
  - cbn [FindNode.add_new]. case_decide; [apply IH|]. rewrite IH. f_equal.
    + cbn. set_solver.
    + by rewrite <-app_assoc.
Qed.

Lemma first_by_id_app seen l1 l2 :
  first_by_id seen (l1 ++ l2) =
    first_by_id seen l1 ++ first_by_id (seen ∪ list_to_set (Node.id <$> first_by_id seen l1)) l2.
Proof.
  revert seen. induction l1 as [|n l1 IH]; intros seen; cbn [first_by_id app].
  - cbn. by rewrite union_empty_r_L.
  - case_decide; [apply IH|]. rewrite IH. cbn. do 3 f_equal. set_solver.
Qed.

Lemma first_by_id_NoDup seen ns :
  NoDup (Node.id <$> first_by_id seen ns) /\
  forall i, i ∈ Node.id <$> first_by_id seen ns -> i ∉ seen.
Proof.
  revert seen. induction ns as [|n ns IH]; intros seen; cbn [first_by_id].
  - split; [constructor|]. intros i Hi. by apply elem_of_nil in Hi.
  - case_decide as Hn; [apply IH|]. destruct (IH ({[Node.id n]} ∪ seen)) as [Hnd Hout]. cbn. split.
    + apply NoDup_cons. split; [|done]. intros Hin%Hout. set_solver.
    + intros i [->|Hi]%elem_of_cons; [done|]. apply Hout in Hi. set_solver.
Qed.

Lemma first_by_id_fresh seen ns :
  NoDup (Node.id <$> ns) -> (forall i, i ∈ Node.id <$> ns -> i ∉ seen) -> first_by_id seen ns = ns.
Proof.
  revert seen. induction ns as [|n ns IH]; intros seen Hnd Hout; cbn [first_by_id]; [done|].
  rewrite fmap_cons, NoDup_cons in Hnd. destruct Hnd as [Hn Hnd].
  rewrite decide_False by (apply Hout; by left). f_equal. apply IH; [done|].
  intros i Hi. assert (i <> Node.id n) by by intros ->.
  assert (i ∉ seen) by (apply Hout; by right). set_solver.
Qed.

Section lookup.
Context (target node_id : NodeId) (initial : list Node).

(** The candidates after the answers so far. *)
Definition tracks (s : FindNode.t) (answers : list (list Node)) : Prop :=
  FindNode.closest_nodes s = find_node_reference target node_id initial answers /\
  FindNode.seen s = {[node_id]} ∪ list_to_set (Node.id <$> learned node_id initial answers).

Lemma process_result_tracks s answers idx nodes :
  tracks s answers -> idx < length (FindNode.closest_nodes s) ->
  let s' := FindNode.process_result target s idx (Ok nodes) in
  tracks s' (answers ++ [nodes]) /\
  length (FindNode.closest_nodes s) <= length (FindNode.closest_nodes s').
Proof.
  intros [Hc Hs] Hidx. unfold FindNode.process_result.
  destruct (Nat.leb_spec (length (FindNode.closest_nodes s)) idx); [lia|].
  destruct (FindNode.closest_nodes s) as [|first rest] eqn:E; [cbn in Hidx; lia|]. rewrite <-E in *.
  rewrite add_new_first_by_id, truncate_take, Hs. clear Hidx H.
  assert (learned node_id initial (answers ++ [nodes]) = learned node_id initial answers ++
    first_by_id ({[node_id]} ∪ list_to_set (Node.id <$> learned node_id initial answers)) nodes) as El.
  { unfold learned. rewrite concat_app. cbn. by rewrite app_nil_r, app_assoc, first_by_id_app. }
  set (new := first_by_id _ nodes) in *. cbv zeta. split; [split|].
  - cbn [FindNode.closest_nodes]. unfold find_node_reference. rewrite El, Hc.
    unfold find_node_reference. apply (take_sort_truncate _ _ (distance_cmp_key target)).
    rewrite <-El. apply NoDup_distances. apply first_by_id_NoDup.
  - cbn [FindNode.seen]. rewrite El. rewrite fmap_app, list_to_set_app_L. set_solver.
  - cbn [FindNode.closest_nodes]. rewrite length_take, length_sort_by, length_app.
    rewrite Hc at 1. unfold find_node_reference at 1. rewrite length_take.
    rewrite Hc. unfold find_node_reference. rewrite length_take. lia.
Qed.

Lemma process_results_tracks s answers idx nodes :
  tracks s answers -> idx + length nodes <= length (FindNode.closest_nodes s) ->
  tracks (FindNode.process_results target s idx (Ok <$> nodes)) (answers ++ nodes).
Proof.
  revert s answers idx. induction nodes as [|ns nodes IH]; intros s answers idx Ht Hidx; cbn.
  - by rewrite app_nil_r.
  - cbn in Hidx. destruct (process_result_tracks s answers idx ns Ht) as [Ht' Hlen]; [lia|].
    replace (answers ++ ns :: nodes) with ((answers ++ [ns]) ++ nodes) by (by rewrite <-app_assoc).
    apply IH; [done|]. lia.
Qed.

(** The start: the contacts of the node's own table. *)
Lemma start_tracks :
  candidates_ok target node_id initial (FindNode.start node_id initial) ->
  NoDup (Node.id <$> initial) -> tracks (FindNode.start node_id initial) [].
Proof.
  intros [Hsort Hlen _ Hseen Hself Hnot] Hnd. cbn in *.
  assert (learned node_id initial [] = initial) as E.
  { unfold learned. cbn. rewrite app_nil_r. apply first_by_id_fresh; [done|]. set_solver. }
  split; cbn.
  - unfold find_node_reference. rewrite E.
    assert (sort_by (KBucket.distance_cmp target) initial = initial) as ->; [|by rewrite take_ge].
    apply (sorted_perm_unique (distance_to target)); [|apply sort_by_sorted, distance_cmp_key|done|].
    + apply NoDup_distances. by rewrite sort_by_Permutation.
    + apply sort_by_Permutation.
  - rewrite E. set_solver.
Qed.
End lookup.

(** ** The rounds of the program *)
Section rounds.
Context {S : Type} `{!Storage.t S, !Profile, !HashOrder nat KBucket}.
Context (node_id : NodeId) (addr : SocketAddr) (target : NodeId).

(** [join_all] gives a result of each part, in order. *)
Lemma may_return_join {St R X} (ps : list (prog St R X)) xs :
  may_return (join ps) xs -> Forall2 may_return ps xs.
Proof.
  unfold join, may_return. remember (Join ps Ret) as q eqn:Hq.
  remember (Ret xs : prog St R (list X)) as e eqn:He. intros Hs.
  revert ps Hq He. induction Hs as [q|q q1 q2 Hs Hrun IH]; intros ps -> He; [done|].
  destruct Hs as (n & fin & st & evs & st' & new & Hs). apply step_inv in Hs
    as [(l1 & p & l2 & p' & -> & Hp & ->)|(_ & _ & _ & [(ys & -> & ->)|(l1 & l2 & -> & ->)])].
  - specialize (IH _ eq_refl He). apply Forall2_app_inv_l in IH as (xs1 & xs2 & H1 & H2 & ->).
    apply Forall2_cons_inv_l in H2 as (x & xs3 & Hx & H2 & ->).
    apply Forall2_app; [done|]. constructor; [|done]. eapply rtc_l; [by repeat eexists|exact Hx].
  - subst q2. apply may_return_Ret in Hrun as ->. clear. induction ys; constructor; [apply rtc_refl|done].
  - subst q2. inversion Hrun as [|? ? ? Hs]; subst. by destruct Hs as (? & ? & ? & ? & ? & ? & []%step_inv).
Qed.

(** The state after one round with these results of the queries. *)
Definition after_round (s : FindNode.t) (results : list (Result (list Node))) : FindNode.t :=
  FindNode.process_results target
    (FindNode.Mk (FindNode.seen s) (FindNode.closest_nodes s) false) 0 results.

(** One query for each of the first [ALPHA] candidates. *)
Definition queried (s : FindNode.t) (results : list (Result (list Node))) : Prop :=
  Forall2 (fun n r => may_return (Protocol.find_node_rpc (S := S) node_id addr n target) r)
    (take ALPHA (FindNode.closest_nodes s)) results.

Lemma round_results s s' :
  may_return (Lookup.find_node_round (S := S) node_id addr target s) (inl s') ->
  exists results, queried s results /\ s' = after_round s results.
Proof.
  unfold Lookup.find_node_round. intros [[_ Hr]|[_ Hr]]%may_return_if; [|by apply may_return_Ret in Hr].
  apply may_return_bind in Hr as (results & Hj & Hr). apply may_return_Ret in Hr. injection Hr as ->.
  exists results. split; [|done]. apply may_return_join in Hj. unfold queried.
  rewrite Forall2_fmap_l in Hj. revert Hj. generalize (FindNode.closest_nodes s). intros ns.
  assert (take (ALPHA `min` length ns) ns = take ALPHA ns) as -> by by rewrite <-take_take, (take_ge ns).
  exact id.
Qed.

(** Rounds of the program in which every query is answered, with the answers. *)
Inductive answered (s : FindNode.t) : list (list Node) -> FindNode.t -> Prop :=
  | answered_none : answered s [] s
  | answered_round answers s1 nodes :
      answered s answers s1 -> queried s1 (Ok <$> nodes) ->
      answered s (answers ++ nodes) (after_round s1 (Ok <$> nodes)).

Lemma queried_length s results : queried s results -> length results <= length (FindNode.closest_nodes s).
Proof. intros Hq%Forall2_length. rewrite length_take in Hq. lia. Qed.

Lemma answered_tracks initial answers s :
  candidates_ok target node_id initial (FindNode.start node_id initial) -> NoDup (Node.id <$> initial) ->
  answered (FindNode.start node_id initial) answers s -> tracks target node_id initial s answers.
Proof.
  intros Hok Hnd. induction 1 as [|answers s1 nodes _ IH Hq]; [by apply start_tracks|].
  apply queried_length in Hq. rewrite length_fmap in Hq.
  by apply (process_results_tracks target node_id initial (FindNode.Mk _ _ false) answers 0).
Qed.
End rounds.

(** C6: [find_node] while every query is answered, compared with a reference.
    Each round of the program sends one query to each of the first [ALPHA]
    candidates, in order, and takes in the results. From the contacts of a
    well-formed table, after any number of rounds whose queries all were
    answered, with any answers: the candidates, and so the result when the
    lookup ends there, are the [K] contacts closest to the target among all it
    has ever learned of, the first contact of each identifier and not the node
    itself, although the code cuts its list after every answer and never looks
    again at what it has dropped. (The table is taken without the duplicates
    that a stale cache entry can bring into a bucket.) *)
Theorem find_node_keeps_closest {S : Type} `{!Storage.t S, !Profile, !HashOrder nat KBucket}
    node_id addr target t :
  table_wf t -> table_distinct t -> RoutingTable.local_node_id t = node_id ->
  let initial := RoutingTable.get_closest target K t in
  (forall s s', may_return (Lookup.find_node_round (S := S) node_id addr target s) (inl s') ->
     exists results, queried (S := S) node_id addr target s results /\ s' = after_round target s results) /\
  forall answers s,
    answered (S := S) node_id addr target (FindNode.start node_id initial) answers s ->
    FindNode.closest_nodes s = find_node_reference target node_id initial answers /\
    forall ns, may_return (Lookup.find_node_round (S := S) node_id addr target s) (inr ns) ->
      ns = find_node_reference target node_id initial answers.
Proof.
  intros Hwf Hd Hl initial. split; [apply round_results|]. intros answers s Ha.
  apply answered_tracks in Ha as [Hc _]; [|by apply start_ok|by apply start_distinct].
  split; [done|]. by intros ns ->%round_done.
Qed.

(** A lookup that starts from two contacts. *)
Lemma find_node_keeps_closest_witness :
  let initial := @RoutingTable.get_closest listed_order (sample_id 3) K small_table in
  length initial = 2 /\
  FindNode.closest_nodes (FindNode.start (sample_id 0) initial) =
    find_node_reference (sample_id 3) (sample_id 0) initial [].
Proof.
  intros initial. split; [vm_compute; reflexivity|].
  refine (proj1 (proj2 (@find_node_keeps_closest MemoryStorage sample_storage debug_build listed_order
    (sample_id 0) (sample_addr 0) (sample_id 3) small_table _ _ _) [] _ (answered_none _ _ _ _))).
  - apply (table_reachable_wf _ _ _ small_table_run).
  - by_decide.
  - reflexivity.
Defined.
