(* ===== verification/LookupSpec.v ===== *)
(** * Theorems on lookups

    All operations terminate, and what [find_node] returns. *)

From S2P Require Import Prelude Errors Bytes Ident F64 Contact Fixtures Bucket Table.
From S2P Require Import Store Messages Effects Protocol Lookup DhtNode NodeSafety Termination.

(** C7: every operation of the protocol terminates: whatever the network
    answers, however its concurrent parts and the other tasks of the node are
    interleaved and whatever state it finds, it makes finitely many steps.
    [find_node] has no bound on its rounds; it ends because it only goes on
    when an answer brought an identifier it had not seen. *)
Theorem operations_terminate {S : Type} `{!Storage.t S, !Profile, !HashOrder nat KBucket}
    node_id addr target key value n req from raw_key :
  terminates (Lookup.find_node (S := S) node_id addr target) /\
  terminates (Lookup.find_value (S := S) node_id addr key) /\
  terminates (Lookup.query_task (S := S) node_id addr key n) /\
  terminates (Lookup.store_value (S := S) node_id addr key value) /\
  terminates (Protocol.handle_request (S := S) node_id addr req from) /\
  terminates (Protocol.ping (S := S) node_id addr n) /\
  terminates (DhtNode.store (S := S) node_id addr raw_key value) /\
  terminates (DhtNode.get (S := S) node_id addr raw_key).
Proof.
  split; [apply find_node_terminates_all|].
  split_and!; apply loop_free_terminates; auto using lf_find_value, lf_query_task, lf_store_value,
    lf_handle_request, lf_ping, lf_node_store, lf_get.
Qed.

(** C5: what [find_node] returns, from any well-formed table of the node and with
    any answers (even false ones): it always succeeds, with at most [K]
    contacts in order of distance to the target, and never the node itself. The
    answers bring no identifier in twice: none occurs more often than once or
    than among the contacts of the table the lookup starts with. So all are
    distinct when those are, as in a table without duplicate contacts; in a
    table that a stale cache entry has given a contact twice, they need not
    be. *)
Theorem find_node_result {S : Type} `{!Profile, !HashOrder nat KBucket}
    node_id addr target (st st' : Shared S) tr r :
  table_wf (routing_table st) -> RoutingTable.local_node_id (routing_table st) = node_id ->
  returns_with st (Lookup.find_node node_id addr target) tr st' r ->
  let initial := RoutingTable.get_closest target K (routing_table st) in
  exists ns, r = Ok ns /\ length ns <= K /\
    StronglySorted (fun x y => distance_to target x <= distance_to target y)%Z ns /\
    node_id ∉ Node.id <$> ns /\
    (forall i, occurrences i ns <= Nat.max 1 (occurrences i initial)) /\
    (NoDup (Node.id <$> initial) -> NoDup (Node.id <$> ns)) /\
    (table_distinct (routing_table st) -> NoDup (Node.id <$> initial)).
Proof.
  intros Hwf Hl (tr1 & tr2 & st1 & closest & H1 & H2 & ->)%bind_inv.
  apply reading_inv in H1 as (-> & -> & [= <-]).
  apply bind_inv in H2 as (tr3 & tr4 & st2 & ns & H2 & H3 & ->).
  apply ret_inv in H3 as (-> & -> & ->). apply returns_may_return in H2.
  destruct (find_node_loop_ok _ _ _ _ _ _ (start_ok target node_id _ Hwf Hl) H2) as (s' & Hok & ->).
  intros initial. exists (FindNode.closest_nodes s'). split; [done|].
  pose proof (candidates_NoDup _ _ _ _ Hok). destruct Hok.
  split_and!; [done..|by apply start_distinct].
Qed.

(** A table with no contact: the lookup returns at once. *)
Lemma find_node_result_witness :
  let st := DhtNode.new (sample_id 0) MemoryStorage.new in
  exists ns, @returns_with (Shared MemoryStorage) QueryResult _ st
    (@Lookup.find_node MemoryStorage debug_build listed_order
       (sample_id 0) (sample_addr 0) (sample_id 9)) [] st (Ok ns) /\ length ns <= K.
Proof.
  intros st. assert (@returns_with (Shared MemoryStorage) QueryResult _ st
    (@Lookup.find_node MemoryStorage debug_build listed_order
       (sample_id 0) (sample_addr 0) (sample_id 9)) [] st (Ok [])) as Hrun.
  { unfold returns_with. eapply (solo_step _ _ [] _ _ []).
    - eapply (step_atomic _ _ _ _ _ (MkClock 0 0)); [lock_free|vm_compute; reflexivity].
    - cbn. eapply (solo_step _ _ [] _ _ []); [apply step_loop_done|]. apply solo_refl. }
  exists []. split; [exact Hrun|].
  destruct (find_node_result _ _ _ st st _ _ (table_wf_empty (sample_id 0) K) eq_refl Hrun) as (ns & [= <-] & Hlen & _).
  exact Hlen.
Defined.

(** A round of [find_node] removes the wrong candidates when several do
    not answer. The answers are numbered by the list at the start of the
    round, but each failure removes the candidate at that number from the
    list as it is by then: when the first two candidates fail, the second
    stays in the result and the third, which may have answered, is dropped. *)
Lemma find_node_drops_wrong_candidate target s a b c rest e1 e2 :
  FindNode.closest_nodes s = a :: b :: c :: rest ->
  FindNode.closest_nodes (FindNode.process_results target s 0 [Err e1; Err e2]) = b :: rest.
Proof.
  intros Hs. cbn [FindNode.process_results]. unfold FindNode.process_result at 2.
  rewrite Hs. cbn. unfold FindNode.process_result. cbn. done.
Qed.

Lemma find_node_drops_wrong_candidate_witness :
  let s := FindNode.start (sample_id 0) [contact 1; contact 2; contact 3] in
  FindNode.closest_nodes
    (FindNode.process_results (sample_id 0) s 0 [Err Timeout; Err Timeout]) = [contact 2].
Proof. apply (find_node_drops_wrong_candidate _ _ (contact 1) _ (contact 3)). reflexivity. Defined.
