(* ===== verification/Quiet.v ===== *)
(** * What the client side of the protocol leaves alone

    Remote procedure calls and the recording of contacts send requests only,
    and change nothing but the routing table and the pending requests. Also
    the runs of the single lock sections. *)

From S2P Require Import Prelude Errors Bytes Ident F64 Contact Bucket Table Store.
From S2P Require Import Messages Effects Protocol Lookup DhtNode.

(** A request among those of [Q], or a wait. *)
Definition asks (Q : RequestMessage -> Prop) (ev : event) : Prop :=
  match ev with
  | Sent _ (Request request) _ => Q request
  | Sent _ (Response _) _ => False
  | Waited _ _ _ => True
  end.

(** Any request or a wait: everything but a response. *)
Definition client_event : event -> Prop := asks (fun _ => True).

Section quiet.
Context {S : Type} `{!Storage.t S, !Profile, !HashOrder nat KBucket}.
Context (node_id : NodeId) (addr : SocketAddr).
Context (G : Shared S -> Shared S -> Prop).
Hypothesis (G_refl : forall st, G st st).
Hypothesis (G_table : forall st t, G st (set_table t st)).
Hypothesis (G_pending : forall st f, G st (set_pending f st)).
(** The requests sent: [Q] allows the pings that check the health of contacts. *)
Context (Q : RequestMessage -> Prop).
Local Abbreviation local_node := (Protocol.local_node node_id addr).
Hypothesis (Q_ping : forall id, Q (Ping id local_node)).

Local Abbreviation quiet :=
  (guards (St := Shared S) (R := QueryResult) (fun _ => True) G (asks Q)).

Lemma quiet_register id request : quiet (Protocol.register_pending id request).
Proof using G_pending. apply guards_atomic. intros c st st' x _ [= <- <-]. auto. Qed.
Lemma quiet_remove id : quiet (Protocol.remove_pending id).
Proof using G_pending. apply guards_atomic. intros c st st' x _ [= <- <-]. auto. Qed.
Lemma quiet_table {X} (f : Clock -> RoutingTable -> exec (RoutingTable * X)) :
  quiet (Protocol.table_section f).
Proof using G_table.
  apply guards_atomic. intros c st st' x _ Hc.
  apply exec_bind_inv in Hc as ([t y] & _ & [= <- <-]). auto.
Qed.
Lemma quiet_reading {X} l (f : Shared S -> exec X) : quiet (reading l f).
Proof using G_refl. by apply guards_reading. Qed.
Lemma quiet_timeout id : quiet (Protocol.adaptive_timeout id).
Proof using G_refl. apply quiet_reading. Qed.
Lemma quiet_success id elapsed : quiet (Protocol.record_success id elapsed).
Proof using G_table. apply quiet_table. Qed.
Lemma quiet_failure id : quiet (Protocol.record_failure id).
Proof using G_table. apply quiet_table. Qed.
Lemma quiet_request to r : Q r -> quiet (send to (Request r)).
Proof. done. Qed.
Lemma quiet_wait limit id inner : quiet (wait limit id inner).
Proof. done. Qed.
Lemma quiet_draw X : quiet (draw X).
Proof. done. Qed.

Local Ltac quiet_step :=
  match goal with
  | |- Q _ => solve [auto with nocore]
  | |- guards _ _ _ (mret _) => exact I
  | |- guards _ _ _ (bind_ok _ _) => apply guards_bind_ok; [|intros ?]
  | |- guards _ _ _ (guarded _ _ _) => apply guards_guarded; [apply quiet_remove|intros ?]
  | |- guards _ _ _ (_ ≫= _) => apply guards_bind; [|intros ?]
  | |- guards _ _ _ (match ?x with _ => _ end) => destruct x
  | |- guards _ _ _ (if ?x then _ else _) => destruct x
  | _ => first [apply quiet_register | apply quiet_remove | apply quiet_table
      | apply quiet_timeout | apply quiet_success | apply quiet_failure | apply quiet_reading
      | apply quiet_request | apply quiet_wait | apply quiet_draw | solve [eauto with kad]]
  end.
Local Ltac quiet := repeat quiet_step.

Lemma quiet_health_check n : quiet (Protocol.health_check_ping node_id addr n).
Proof using G_refl G_table G_pending Q_ping. unfold Protocol.health_check_ping. quiet. Qed.
Hint Resolve quiet_health_check : kad.
Lemma quiet_record_contact n : quiet (Protocol.record_contact node_id addr n).
Proof using G_refl G_table G_pending Q_ping. unfold Protocol.record_contact. quiet. Qed.
Hint Resolve quiet_record_contact : kad.
Lemma quiet_request_response n id request :
  Q request -> quiet (Protocol.request_response node_id addr n id request).
Proof using G_refl G_table G_pending Q_ping.
  intros HQ. unfold Protocol.request_response. quiet.
Qed.
Hint Resolve quiet_request_response : kad.
Lemma quiet_store n key value :
  (forall id, Q (Store id local_node key value)) -> quiet (Protocol.store node_id addr n key value).
Proof using G_refl G_table G_pending Q_ping. intros HQ. unfold Protocol.store. quiet. Qed.
Hint Resolve quiet_store : kad.

(** The stores that follow the local one. *)
Lemma quiet_store_all nodes limit key value :
  (forall id, Q (Store id local_node key value)) ->
  quiet (for_each nodes (fun node =>
    if decide (Node.id node = node_id) then mret tt else
    _ ← within limit (Protocol.store node_id addr node key value);
    mret tt)).
Proof using G_refl G_table G_pending Q_ping.
  intros HQ. apply guards_for_each. intros n _. case_decide; [done|].
  split; [by apply quiet_store|done].
Qed.

(** The queries of [find_node]. *)
Lemma quiet_find_node target :
  (forall id, Q (FindNode id local_node target)) -> quiet (Lookup.find_node node_id addr target).
Proof using G_refl G_table G_pending Q_ping.
  intros HQ.
  assert (forall s, quiet (Lookup.find_node_round node_id addr target s)) as Hround.
  { intros s. unfold Lookup.find_node_round. case_match; [|done]. apply guards_bind; [|done].
    unfold join. rewrite guards_join. split; [|done].
    apply Forall_forall. intros p (n & <- & _)%list_elem_of_In%in_map_iff.
    unfold Protocol.find_node_rpc. quiet. }
  unfold Lookup.find_node. apply guards_bind; [apply quiet_reading|]. intros ns.
  apply guards_bind; [|done]. by split_and!.
Qed.

Hypothesis (G_storage : forall st s, G st (set_storage s st)).

Lemma quiet_section {X} (f : Clock -> S -> exec (S * X)) : quiet (Protocol.storage_section f).
Proof using G_storage.
  apply guards_atomic. intros c st st' x _ Hc.
  apply exec_bind_inv in Hc as ([s y] & _ & [= <- <-]). auto.
Qed.

Lemma quiet_replicate n :
  (forall id key value, Q (Store id local_node key value)) ->
  quiet (Protocol.replicate_to_new_node node_id addr n).
Proof using G_refl G_table G_pending Q_ping G_storage.
  intros HQ. unfold Protocol.replicate_to_new_node. apply guards_bind; [apply quiet_reading|].
  intros keys. apply guards_bind; [|done]. apply guards_for_each. intros key _.
  apply guards_bind; [apply quiet_reading|]. intros []; [|done].
  apply guards_bind; [apply quiet_section|intros r; quiet].
Qed.

Lemma quiet_store_value key value :
  (forall id, Q (Store id local_node key value)) ->
  quiet (Lookup.store_value node_id addr key value).
Proof using G_refl G_table G_pending Q_ping G_storage.
  intros HQ. unfold Lookup.store_value. apply guards_bind_ok; [apply quiet_section|]. intros _.
  apply guards_bind; [apply quiet_reading|]. intros ns. apply guards_bind; [|done].
  by apply quiet_store_all.
Qed.
End quiet.

(** The client side does not touch the storage. *)
Definition same_storage {S} (st st' : Shared S) : Prop := storage st' = storage st.

(** What a run of a program with such actions does. *)
Lemma quiet_run {S A} (G : Shared S -> Shared S -> Prop) Q st (p : prog (Shared S) QueryResult A)
    tr st' a :
  (forall st, G st st) -> (forall st1 st2 st3, G st1 st2 -> G st2 st3 -> G st1 st3) ->
  guards (fun _ => True) G (asks Q) p -> returns_with st p tr st' a ->
  G st st' /\ Forall (asks Q) tr.
Proof.
  intros Hrefl Htrans Hp Hr.
  by destruct (solo_guards _ _ _ _ _ _ _ _ Hrefl Htrans Hr I Hp) as (_ & ? & ?).
Qed.

(** ** Runs of the lock sections *)
Section sections.
Context {S : Type}.
Local Abbreviation returns := (returns_with (St := Shared S) (R := QueryResult)).

Lemma section_inv {X} (f : Clock -> S -> exec (S * X)) st tr st' x :
  returns st (Protocol.storage_section f) tr st' x ->
  tr = [] /\ exists c s, f c (storage st) = Done (s, x) /\ st' = set_storage s st.
Proof.
  intros [-> (c & Hc)]%atomic_inv. apply exec_bind_inv in Hc as ([s y] & Hs & [= <- <-]).
  split; [done|]. by exists c, s.
Qed.

Lemma table_inv {X} (f : Clock -> RoutingTable -> exec (RoutingTable * X)) st tr st' x :
  returns st (Protocol.table_section f) tr st' x ->
  tr = [] /\ exists c t, f c (routing_table st) = Done (t, x) /\ st' = set_table t st.
Proof.
  intros [-> (c & Hc)]%atomic_inv. apply exec_bind_inv in Hc as ([t y] & Ht & [= <- <-]).
  split; [done|]. by exists c, t.
Qed.

Lemma register_inv id request st tr st' x :
  returns st (Protocol.register_pending id request) tr st' x ->
  tr = [] /\ st' = set_pending <[id := request]> st.
Proof. by intros [-> (c & [= <- _])]%atomic_inv. Qed.

Lemma remove_pending_inv id st tr st' x :
  returns st (Protocol.remove_pending id) tr st' x ->
  tr = [] /\ st' = set_pending (delete id) st.
Proof. by intros [-> (c & [= <- _])]%atomic_inv. Qed.
End sections.

(** [store_value] is the local store, then requests that store the value. *)
Lemma store_value_run {S} `{!Storage.t S, !Profile, !HashOrder nat KBucket} node_id addr Q
    key value st tr st' r :
  let local_node := Protocol.local_node node_id addr in
  (forall id, Q (Ping id local_node)) -> (forall id, Q (Store id local_node key value)) ->
  returns_with st (Lookup.store_value node_id addr key value) tr st' r ->
  Forall (asks Q) tr /\ (is_ok r = false -> tr = []) /\
  exists c, Storage.store (mono c) key value (storage st) = Done (storage st', r).
Proof.
  intros local_node Hping Hstore. unfold Lookup.store_value.
  intros (tr1 & tr2 & st1 & x & Hx & -> & H2)%bind_ok_inv.
  apply section_inv in Hx as (-> & c & s & Hc & ->).
  assert (storage st' = s /\ r = x /\ Forall (asks Q) tr2 /\ (is_ok r = false -> tr2 = []))
    as (<- & -> & Htr & Hnil); [|by split_and!; [..|exists c]].
  destruct x as [[]|e]; [|by destruct H2 as (-> & -> & ->)].
  apply bind_inv in H2 as (tr3 & tr4 & st2 & nodes & H2 & H3 & ->).
  apply reading_inv in H2 as (-> & -> & _).
  apply bind_inv in H3 as (tr5 & tr6 & st3 & [] & H3 & H4 & ->).
  apply ret_inv in H4 as (-> & -> & ->).
  apply (quiet_run same_storage Q) in H3 as [Hsame Htr];
    [|done|intros ??? E1 E2; unfold same_storage in *; congruence|by apply quiet_store_all].
  rewrite app_nil_r. by split_and!.
Qed.
