(* ===== verification/ProtocolSpec.v ===== *)
(** * Theorems on the operations of the protocol *)

From S2P Require Import Prelude Errors Bytes Ident F64 Contact Fixtures Bucket Table.
From S2P Require Import Store Messages Effects Protocol Lookup DhtNode NodeSafety Quiet SampleNode.

Section answers.
Context {S : Type} `{!Storage.t S, !Profile, !HashOrder nat KBucket}.
Context (node_id : NodeId) (addr : SocketAddr).

(** [resp] answers [req] correctly in state [st], with clock [c]; [st'] is the
    state afterwards. *)
Definition answers (st : Shared S) (c : Clock) (req : RequestMessage) (resp : ResponseMessage)
    (st' : Shared S) : Prop :=
  ResponseMessage.request_id resp = RequestMessage.id req /\
  ResponseMessage.sender resp = Protocol.local_node node_id addr /\
  match req, resp with
  | Ping _ _, Pong _ _ => st' = st
  | Store _ _ key value, StoreResult _ _ success =>
      exists s' r, Storage.store (mono c) key value (storage st) = Done (s', r) /\ success = is_ok r /\
        st' = set_storage s' st
  | FindNode _ _ target, NodesFound _ _ ns =>
      ns = RoutingTable.get_closest target K (routing_table st) /\ st' = st
  | FindValue _ _ key, ValueFound _ _ value ns =>
      exists s' r, Storage.get (mono c) key (storage st) = Done (s', r) /\ value = ok r /\
        ns = match value with
             | Some _ => []
             | None => RoutingTable.get_closest key K (routing_table st)
             end /\ st' = set_storage s' st
  | _, _ => False
  end.

(** The handlers proper: one response, to [from]. *)
Lemma handler_inv req from st tr st' r :
  returns_with st
    (match req with
     | Ping id _ => Protocol.handle_ping node_id addr id from
     | Store id _ key value => Protocol.handle_store node_id addr id key value from
     | FindNode id _ target => Protocol.handle_find_node node_id addr id target from
     | FindValue id _ key => Protocol.handle_find_value node_id addr id key from
     end) tr st' r ->
  exists c resp, tr = [Sent from (Response resp) r] /\ answers st c req resp st'.
Proof.
  destruct req as [id s|id s key value|id s target|id s key]; intros Hr.
  - apply send_inv in Hr as [-> ->]. by exists (MkClock 0 0), (Pong id (Protocol.local_node node_id addr)).
  - apply bind_inv in Hr as (tr1 & tr2 & st1 & x & H1 & H2 & ->).
    apply section_inv in H1 as (-> & c & s' & Hs & ->). apply send_inv in H2 as [-> ->].
    exists c, (StoreResult id (Protocol.local_node node_id addr) (is_ok x)).
    split; [done|]. split_and!; [done..|]. by exists s', x.
  - apply bind_inv in Hr as (tr1 & tr2 & st1 & x & H1 & H2 & ->).
    apply reading_inv in H1 as (-> & -> & [= <-]). apply send_inv in H2 as [-> ->].
    exists (MkClock 0 0). by eexists.
  - apply bind_inv in Hr as (tr1 & tr2 & st1 & x & H1 & H2 & ->).
    apply section_inv in H1 as (-> & c & s' & Hs & ->).
    apply bind_inv in H2 as (tr3 & tr4 & st2 & resp & H2 & H3 & ->).
    apply send_inv in H3 as [-> ->]. exists c, resp. destruct (ok x) as [v|] eqn:Hx.
    + apply ret_inv in H2 as (-> & -> & ->). split; [done|]. split_and!; [done..|].
      exists s', x. by rewrite Hx.
    + apply bind_inv in H2 as (tr5 & tr6 & st3 & ns & H2 & H4 & ->).
      apply reading_inv in H2 as (-> & -> & [= <-]). apply ret_inv in H4 as (-> & -> & ->).
      split; [done|]. split_and!; [done..|]. exists s', x. by rewrite Hx.
Qed.

(** What a successful run of [handle_request] consists of. *)
Definition handled_as (req : RequestMessage) (st : Shared S) (tr1 : list event)
    (resp : ResponseMessage) (tr2 : list event) (st' : Shared S) : Prop :=
  exists is_new st1 c st2,
    returns_with st (Protocol.record_contact node_id addr (RequestMessage.sender req)) tr1 st1 (Ok is_new) /\
    answers st1 c req resp st2 /\
    if is_new : bool then
      exists r, returns_with st2
        (Protocol.replicate_to_new_node node_id addr (RequestMessage.sender req)) tr2 st' r
    else tr2 = [] /\ st' = st2.
End answers.

(** A handled request: the contact is recorded, the request answered from the
    state that leaves, and a new contact gets its values. *)
Lemma handled {S : Type} `{!Storage.t S, !Profile, !HashOrder nat KBucket}
    node_id addr req from (st st' : Shared S) tr :
  returns_with st (Protocol.handle_request node_id addr req from) tr st' (Ok tt) ->
  exists tr1 resp tr2,
    tr = tr1 ++ Sent from (Response resp) (Ok tt) :: tr2 /\
    Forall client_event tr1 /\ Forall client_event tr2 /\
    handled_as node_id addr req st tr1 resp tr2 st'.
Proof.
  intros (tr1 & tr2 & st1 & new & H1 & -> & H2)%bind_ok_inv.
  destruct new as [new|e]; [|by destruct H2 as (_ & _ & [=])].
  apply bind_ok_inv in H2 as (tr3 & tr4 & st2 & r & H2 & -> & H3).
  apply handler_inv in H2 as (c & resp & -> & Hresp).
  destruct r as [[]|e]; [|by destruct H3 as (_ & _ & [=])].
  apply bind_inv in H3 as (tr5 & tr6 & st3 & r & H3 & H4 & ->).
  apply ret_inv in H4 as (-> & -> & _). rewrite app_nil_r.
  exists tr1, resp, tr5. split_and!; [done| | |].
  - eapply (quiet_run (fun _ _ => True) (fun _ => True)) in H1 as [_ ?]; [done..|]. by apply quiet_record_contact.
  - destruct new; [|by apply ret_inv in H3 as (-> & _)].
    eapply (quiet_run (fun _ _ => True) (fun _ => True)) in H3 as [_ ?]; [done..|]. by apply quiet_replicate.
  - exists new, st1, c, st2. split_and!; [done..|]. destruct new; [by exists r|].
    by apply ret_inv in H3 as (-> & -> & _).
Qed.

(** C4: handling a request. When [handle_request] succeeds, it has recorded the
    sender as a contact, sent exactly one response, to the address the request
    came from, with the request's id and in the node's own name, and, when the
    contact was new, copied values to it. The response is right for the state
    in which the recording left the node: a pong; the outcome of the store,
    which is made; the [K] closest contacts of the table; or the stored value,
    and without one the closest contacts. All else it sent are requests of its
    own, before the response for the contact and after it for the copies. *)
Theorem handle_request_replies {S : Type} `{!Storage.t S, !Profile, !HashOrder nat KBucket}
    node_id addr req from (st st' : Shared S) tr :
  returns_with st (Protocol.handle_request node_id addr req from) tr st' (Ok tt) ->
  exists tr1 resp tr2,
    tr = tr1 ++ Sent from (Response resp) (Ok tt) :: tr2 /\
    Forall client_event tr1 /\ Forall client_event tr2 /\
    exists is_new st1 c st2,
      returns_with st (Protocol.record_contact node_id addr (RequestMessage.sender req)) tr1 st1
        (Ok is_new) /\
      answers node_id addr st1 c req resp st2 /\
      if is_new : bool then
        exists r, returns_with st2
          (Protocol.replicate_to_new_node node_id addr (RequestMessage.sender req)) tr2 st' r
      else tr2 = [] /\ st' = st2.
Proof. apply handled. Qed.

(** A ping the node sends itself. *)
Lemma handle_request_replies_witness :
  exists tr, sample_run sample_state
    (@Protocol.handle_request _ sample_storage debug_build listed_order (sample_id 0) (sample_addr 0)
       (Ping 7 (contact 0)) (sample_addr 0)) tr sample_state (Ok tt) /\
  exists tr1 tr2 resp, tr = tr1 ++ Sent (sample_addr 0) (Response resp) (Ok tt) :: tr2 /\
    ResponseMessage.request_id resp = 7%Z.
Proof.
  eexists. apply and_wlog_r.
  - cbn. eapply solo_step; [eapply (step_send _ _ _ _ _ _ _ (Ok tt))|]. apply solo_refl.
  - intros (tr1 & resp & tr2 & E & _ & _ & new & st1 & c & st2 & _ & (Hid & _) & _)%handle_request_replies.
    exists tr1, tr2, resp. split; [exact E|exact Hid].
Defined.
