(* ===== verification/RpcSpec.v ===== *)
(** * A request and its response over the in-memory transport

    The composition of the protocol with [InMemoryNetwork]: what the handler
    of one node sends is carried to the waiter of another. *)

From S2P Require Import Prelude Errors Bytes Ident F64 Contact Fixtures Bucket Table.
From S2P Require Import Store Messages Effects Protocol Lookup DhtNode NodeSafety Quiet SampleNode.
From S2P Require Import Transport Udp Mock ProtocolSpec.

(** What the events of a task of the node at [from] do to the network. *)
Definition carry (from : SocketAddr) (tr : list event) (w : InMemoryNetwork.t) : InMemoryNetwork.t :=
  fold_left (fun w ev => match ev with
                         | Sent to m _ => (InMemoryNetwork.send from to m w).1.1
                         | Waited _ _ _ => w
                         end) tr w.

(** The transport at [a] is number [i], in state [x], and alive. *)
Definition transport_at (a : SocketAddr) (i : nat) (x : InMemoryNetwork.Inner) (w : InMemoryNetwork.t)
    : Prop :=
  InMemoryNetwork.registry w !! a = Some i /\ InMemoryNetwork.inners w !! i = Some x /\
  InMemoryNetwork.alive x = true.

Lemma lookup_at a i x w : transport_at a i x w -> InMemoryNetwork.lookup a w = (w, Some i).
Proof.
  intros (Hr & Hi & Ha). unfold InMemoryNetwork.lookup, InMemoryNetwork.upgrade.
  rewrite Hr, Hi. cbn. by rewrite Ha.
Qed.

Lemma lookup_keeps a i x to w :
  transport_at a i x w -> transport_at a i x (InMemoryNetwork.lookup to w).1.
Proof.
  intros (Hr & Hi & Ha). unfold InMemoryNetwork.lookup, InMemoryNetwork.upgrade.
  destruct (InMemoryNetwork.registry w !! to) as [j|] eqn:Hj; [|done].
  destruct (InMemoryNetwork.inners w !! j) as [y|] eqn:Hy; cbn.
  - destruct (InMemoryNetwork.alive y) eqn:Hal; [done|]. split_and!; [|done..]. cbn.
    rewrite lookup_delete_ne; [done|]. intros ->. congruence.
  - split_and!; [|done..]. cbn. rewrite lookup_delete_ne; [done|]. intros ->. congruence.
Qed.

Lemma send_request_keeps a i x from to r w :
  transport_at a i x w -> transport_at a i x (InMemoryNetwork.send from to (Request r) w).1.1.
Proof.
  intros Ht%(lookup_keeps a i x to). unfold InMemoryNetwork.send.
  by destruct (InMemoryNetwork.lookup to w) as [w' [j|]].
Qed.

Lemma carry_client a i x from tr w :
  Forall client_event tr -> transport_at a i x w -> transport_at a i x (carry from tr w).
Proof.
  intros Htr. revert w. induction Htr as [|ev tr Hev _ IH]; intros w Ht; [done|]. cbn. apply IH.
  destruct ev as [to [r|r] res|]; [by apply send_request_keeps|done|done].
Qed.

Lemma carry_app from tr1 tr2 w : carry from (tr1 ++ tr2) w = carry from tr2 (carry from tr1 w).
Proof. apply fold_left_app. Qed.

Lemma send_response_at a i x from r w :
  transport_at a i x w ->
  transport_at a i (InMemoryNetwork.deliver_response r x)
    (InMemoryNetwork.send from a (Response r) w).1.1.
Proof.
  intros Ht. unfold InMemoryNetwork.send. rewrite (lookup_at _ _ _ _ Ht).
  destruct Ht as (Hr & Hi & Ha). split_and!; cbn; [done| |done].
  by rewrite list_lookup_alter_eq, Hi.
Qed.

Lemma poll_delivered id c r (p : Pending) :
  Pending.wf p -> Pending.pending_responses p !! id = Some c -> ResponseMessage.request_id r = id ->
  Pending.poll c (Pending.deliver_response r p) = Some (Ok r).
Proof.
  intros [Hop _] Hc Hid. unfold Pending.deliver_response, Pending.poll. rewrite Hid, Hc. cbn.
  by rewrite list_lookup_insert_eq by (by eapply lookup_lt_Some, Hop).
Qed.

(** C15: a remote procedure call over the in-memory transport. A request to the
    address of a live transport with a handler starts that handler with the
    sender's address. When the handler of the node there succeeds, whatever
    else its task sends meanwhile, the response its trace shows, which answers
    the request from that node's state after recording the contact, is what the
    requester's waiter has then, unchanged; and a requester that has not
    registered its waiter by then has lost it: its table is as before and it
    waits in vain. *)
Theorem memory_rpc {S : Type} `{!Storage.t S, !Profile, !HashOrder nat KBucket}
    node_id a b i j xa xb w req (st st' : Shared S) tr :
  transport_at a i xa w -> transport_at b j xb w -> Pending.wf (InMemoryNetwork.pending_responses xa) ->
  InMemoryNetwork.request_handler xb = true ->
  InMemoryNetwork.send a b (Request req) w = (w, Ok tt, Some (j, (req, a))) /\
  (returns_with st (Protocol.handle_request node_id b req a) tr st' (Ok tt) ->
   exists tr1 resp tr2 x', tr = tr1 ++ Sent a (Response resp) (Ok tt) :: tr2 /\
     Forall client_event tr1 /\ Forall client_event tr2 /\
     handled_as node_id b req st tr1 resp tr2 st' /\ transport_at a i x' (carry b tr w) /\
     match Pending.pending_responses (InMemoryNetwork.pending_responses xa) !! RequestMessage.id req with
     | Some waiter => Pending.poll waiter (InMemoryNetwork.pending_responses x') = Some (Ok resp)
     | None =>
         InMemoryNetwork.pending_responses x' = InMemoryNetwork.pending_responses xa /\
         let '(p, waiter) := Pending.register (RequestMessage.id req) (InMemoryNetwork.pending_responses x') in
         Pending.poll waiter p = None
     end).
Proof.
  intros Ha Hb Hwf Hh. split.
  { unfold InMemoryNetwork.send. rewrite (lookup_at _ _ _ _ Hb). destruct Hb as (_ & -> & _). cbn.
    unfold InMemoryNetwork.forward_request. by rewrite Hh. }
  intros (tr1 & resp & tr2 & -> & H1 & H2 & Has)%handled.
  pose proof Has as (is_new & st1 & c & st2 & _ & Hresp & _).
  exists tr1, resp, tr2, (InMemoryNetwork.deliver_response resp xa). split_and!; [done..| |].
  - rewrite carry_app. cbn. apply carry_client; [done|]. by apply send_response_at, carry_client.
  - destruct Hresp as (Hid & _). destruct (Pending.pending_responses _ !! _) as [waiter|] eqn:Hw.
    + by eapply poll_delivered.
    + cbn. unfold Pending.deliver_response. rewrite Hid, Hw. split; [done|].
      unfold Pending.poll. cbn. by rewrite Hw, lookup_app_r, Nat.sub_diag by done.
Qed.

(** A ping and its pong. *)
Lemma memory_rpc_witness :
  let x p h a := InMemoryNetwork.MkInner (sample_addr a) p h true in
  let p := (Pending.register 7 Pending.new).1 in
  let w := InMemoryNetwork.Mk {[sample_addr 1 := 0; sample_addr 0 := 1]} [x p true 1%Z; x Pending.new true 0%Z] in
  exists tr resp x',
    sample_run sample_state (@Protocol.handle_request _ sample_storage debug_build listed_order
      (sample_id 0) (sample_addr 0) (Ping 7 (contact 0)) (sample_addr 1)) tr sample_state (Ok tt) /\
    InMemoryNetwork.inners (carry (sample_addr 0) tr w) !! 0 = Some x' /\
    Pending.poll 0 (InMemoryNetwork.pending_responses x') = Some (Ok resp).
Proof.
  intros x p w. eexists.
  assert (sample_run sample_state (@Protocol.handle_request _ sample_storage debug_build listed_order
      (sample_id 0) (sample_addr 0) (Ping 7 (contact 0)) (sample_addr 1))
    [Sent (sample_addr 1) (Response (Pong 7 (Protocol.local_node (sample_id 0) (sample_addr 0)))) (Ok tt)]
    sample_state (Ok tt)) as Hrun.
  { cbn. eapply (solo_step _ _ [_] _ _ []); [eapply (step_send _ _ _ _ _ _ _ (Ok tt))|]. apply solo_refl. }
  destruct (proj2 (memory_rpc (sample_id 0) (sample_addr 1) (sample_addr 0) 0 1 (x p true 1%Z)
    (x Pending.new true 0%Z) w (Ping 7 (contact 0)) sample_state sample_state _
    (conj eq_refl (conj eq_refl eq_refl)) (conj eq_refl (conj eq_refl eq_refl))
    (Pending.register_wf 7 Pending.new Pending.new_wf) eq_refl) Hrun)
    as (tr1 & resp & tr2 & x' & _ & _ & _ & _ & (_ & Hx & _) & Hpoll).
  exists resp, x'. split; [exact Hrun|]. split; [exact Hx|exact Hpoll].
Defined.
