(* ===== verification/ContactSpec.v ===== *)
(** * Theorems on contacts and remote procedure calls

    What [record_contact] reports, and the outcomes of a request. *)

From S2P Require Import Prelude Errors Bytes Ident F64 Contact Fixtures Bucket Table.
From S2P Require Import Store Messages Effects Protocol Lookup DhtNode SampleNode NodeSafety Quiet.

Section lemmas.
Context {S : Type} `{!Storage.t S, !Profile, !HashOrder nat KBucket}.
Context (node_id : NodeId) (addr : SocketAddr).

(** A run of one operation keeps the invariant of the node. *)
Lemma safe_run {A} st (p : prog (Shared S) QueryResult A) tr st' a :
  guards (node_inv node_id addr) any_change (event_ok node_id addr) p ->
  returns_with st p tr st' a -> node_inv node_id addr st -> node_inv node_id addr st'.
Proof.
  intros Hp Hr Hst.
  by destruct (solo_guards _ _ _ _ _ _ _ _ any_change_refl (fun _ _ _ _ _ => I) Hr Hst Hp).
Qed.

(** An update of the node's table never fails, and [Updated] means present. *)
Lemma contact_update now n t t' r :
  table_wf t -> RoutingTable.update now n t = Done (t', r) ->
  table_wf t' /\ exists s, r = Ok s /\
    (Protocol.is_updated s = true -> RoutingTable.contains (Node.id n) t' = true).
Proof.
  intros Hwf Hu. pose proof (table_update_wf _ _ _ _ _ Hwf Hu) as [Hwf' _]. split; [done|].
  destruct (table_update_cases _ _ _ _ _ Hwf Hu)
    as [(_ & -> & ->)|(i & t1 & b & b' & u & _ & _ & Hg & Hs & -> & ->)]; [by eexists|].
  eexists. split; [done|]. destruct u; cbn; [done| |done]. intros _.
  apply update_spec_updated in Hs as (_ & front & x & Hns & Hx & _).
  apply table_contains_spec; [done|]. exists x. split; [|done].
  apply (in_table_replaced _ _ _ _ b' x Hg). left. rewrite Hns. set_solver.
Qed.
End lemmas.

Lemma record_contact_runs {S : Type} `{!Profile}
    node_id addr n (st st' : Shared S) tr r :
  node_inv node_id addr st ->
  returns_with st (Protocol.record_contact node_id addr n) tr st' r ->
  exists inserted, r = Ok inserted /\
    (Node.id n = node_id -> inserted = false /\ tr = [] /\ st' = st) /\
    (inserted = true ->
       RoutingTable.contains (Node.id n) (routing_table st) = false /\
       RoutingTable.contains (Node.id n) (routing_table st') = true).
Proof.
  intros Hst. unfold Protocol.record_contact. case_decide as Hn.
  { intros (-> & -> & ->)%ret_inv. by exists false. }
  intros (tr1 & tr2 & st1 & [r1 known] & H1 & H2 & ->)%bind_inv.
  pose proof (safe_run _ _ _ _ _ _ _ (safe_table_section _ _ _ (keeps_contact n)) H1 Hst) as Hst1.
  apply table_inv in H1 as (-> & c & t & Hc & ->).
  apply exec_bind_inv in Hc as ([t1 r2] & Hu & [= -> -> <-]).
  destruct (contact_update _ _ _ _ _ (proj1 Hst) Hu) as (_ & s & -> & Hin).
  destruct s as [| |x]; cbv beta iota zeta in H2; cbn [Protocol.is_updated] in H2.
  - apply ret_inv in H2 as (-> & -> & ->). exists false. by rewrite andb_false_r.
  - apply ret_inv in H2 as (-> & -> & ->). eexists. split; [done|]. split; [done|].
    rewrite andb_true_r, negb_true_iff. cbn. auto.
  - apply bind_inv in H2 as (tr3 & tr4 & st2 & h & H2 & H3 & ->).
    pose proof (safe_run _ _ _ _ _ _ _ (safe_health_check _ _ _) H2 Hst1) as Hst2.
    rewrite andb_false_r in H3. destruct h as [[]|e].
    + apply bind_ok_inv in H3 as (tr5 & tr6 & st3 & r3 & H3 & -> & H4).
      apply table_inv in H3 as (-> & c' & t' & Hc & ->).
      apply update_clone_cases in Hc as [-> _]; [|done|apply Hst2].
      apply ret_inv in H4 as (-> & -> & ->). by exists false.
    + apply bind_inv in H3 as (tr5 & tr6 & st3 & y & H3 & H4 & ->).
      pose proof (safe_run _ _ _ _ _ _ _ (safe_table_section _ _ _ (keeps_remove _)) H3 Hst2) as Hst3.
      apply bind_ok_inv in H4 as (tr7 & tr8 & st4 & r4 & H4 & -> & H5).
      apply table_inv in H4 as (-> & c' & t' & Hc & ->).
      destruct (contact_update _ _ _ _ _ (proj1 Hst3) Hc) as (_ & s & -> & Hin').
      apply ret_inv in H5 as (-> & -> & ->). eexists. split; [done|]. split; [done|].
      destruct (Protocol.is_updated s), (RoutingTable.contains (Node.id n) (routing_table st));
        cbn; auto; done.
Qed.

Lemma record_contact_never_fails {S : Type} `{!Profile} node_id addr n (st st' : Shared S) tr r :
  node_inv node_id addr st ->
  returns_with st (Protocol.record_contact node_id addr n) tr st' r -> exists b, r = Ok b.
Proof. intros Hst Hr. destruct (record_contact_runs _ _ _ _ _ _ _ Hst Hr) as (b & -> & _). eauto. Qed.

(** C10: recording a contact never fails in a node's state, keeps the node's
    invariant, leaves the storage alone and sends requests only. The node's
    own identifier is ignored. The result [true], on which the new contact is
    sent the node's values, means that the contact was not in the table
    before and is in it at the end, also when it took the place of a contact
    that did not answer the health check. *)
Theorem record_contact_result {S : Type} `{!Profile}
    node_id addr n (st st' : Shared S) tr r :
  node_inv node_id addr st ->
  returns_with st (Protocol.record_contact node_id addr n) tr st' r ->
  node_inv node_id addr st' /\ storage st' = storage st /\ Forall client_event tr /\
  exists inserted, r = Ok inserted /\
    (Node.id n = node_id -> inserted = false /\ tr = [] /\ st' = st) /\
    (inserted = true ->
       RoutingTable.contains (Node.id n) (routing_table st) = false /\
       RoutingTable.contains (Node.id n) (routing_table st') = true).
Proof.
  intros Hst Hr. pose proof Hr as Hr'.
  apply (quiet_run same_storage (fun _ => True)) in Hr' as [Hsame Htr];
    [|done|intros ??? E1 E2; unfold same_storage in *; congruence|by apply quiet_record_contact].
  split_and!; [|done|done|by eapply record_contact_runs].
  eapply safe_run; [apply safe_record_contact|done|done].
Qed.

Lemma record_contact_result_witness :
  exists st', sample_run sample_state
    (@Protocol.record_contact _ debug_build (sample_id 0) (sample_addr 0) (contact 1))
    [] st' (Ok true) /\ RoutingTable.contains (sample_id 1) (routing_table st') = true.
Proof.
  eexists. apply and_wlog_r.
  - cbn. eapply (solo_step _ _ [] _ _ []).
    + eapply (step_atomic _ _ _ _ _ (MkClock 5 0)); [lock_free|vm_compute; reflexivity].
    + cbn. apply solo_refl.
  - intros Hrun. unfold sample_run in Hrun. apply record_contact_result in Hrun.
    + destruct Hrun as (_ & _ & _ & i & [= <-] & _ & H). apply H. reflexivity.
    + split_and!; [apply table_wf_empty|reflexivity|reflexivity|apply map_Forall_empty].
Defined.

(** The timeout of a request to [node]: adapted to the response times of a
    known contact. *)
Definition request_timeout `{!Profile} {S} (st : Shared S) (node : Node) : exec Duration :=
  match RoutingTable.get (Node.id node) (routing_table st) with
  | Some known => ResponseStats.adaptive_timeout f64_3_0 (from_secs 5) (Node.response_stats known)
  | None => mret RPC_TIMEOUT
  end.

(** A section of the node's table, at some time: the rest of the state stays. *)
Definition table_changed {S X} (f : Clock -> RoutingTable -> exec (RoutingTable * Result X))
    (st st' : Shared S) : Prop :=
  exists c t x, f c (routing_table st) = Done (t, x) /\ st' = set_table t st.

(** C9: the outcome of a request (of [ping], [store] and [find_node_rpc]) in a
    node's state. It is sent once, to the node's address, and then awaited
    for the timeout of that contact. It succeeds exactly when the network
    delivers an answer, with that answer. When sending or waiting fails, the
    error is returned, the request is left among the pending ones and nothing
    else changes. When the timeout fires, the result is [Timeout]; the request
    is no longer pending, a failure is recorded for the node, and nothing else
    changes. When the answer comes, the request is no longer pending, a success
    is recorded for the node, and from there the rest of the call is the
    recording of the answer's sender as a contact. *)
Theorem request_outcome {S : Type} `{!Profile} node_id addr node id request (st st' : Shared S) tr r :
  node_inv node_id addr st ->
  RequestMessage.id request = id -> RequestMessage.sender request = Protocol.local_node node_id addr ->
  returns_with st (Protocol.request_response node_id addr node id request) tr st' r ->
  exists s rest, tr = Sent (Node.addr node) (Request request) s :: rest /\
  match s with
  | Err e => rest = [] /\ r = Err e /\ st' = set_pending <[id := request]> st
  | Ok _ => exists limit answer rest', rest = Waited limit id answer :: rest' /\
      request_timeout st node = Done limit /\
      match answer with
      | Some (Ok response) => r = Ok response /\ Forall client_event rest' /\
          exists elapsed st1 inserted,
            table_changed (fun c => RoutingTable.record_success (wall c) (Node.id node) elapsed)
              (set_pending (delete id) st) st1 /\
            returns_with st1 (Protocol.record_contact node_id addr (ResponseMessage.sender response))
              rest' st' (Ok inserted)
      | Some (Err e) => rest' = [] /\ r = Err e /\ st' = set_pending <[id := request]> st
      | None => rest' = [] /\ r = Err Timeout /\
          table_changed (fun c => RoutingTable.record_failure (wall c) (Node.id node))
            (set_pending (delete id) st) st'
      end
  end.
Proof.
  intros Hst Hid Hsender. unfold Protocol.request_response.
  intros (tr1 & tr2 & st1 & [] & H1 & H2 & ->)%bind_inv.
  pose proof (safe_run _ _ _ _ _ _ _ (safe_register _ _ _ _ Hid Hsender) H1 Hst) as Hst1.
  apply register_inv in H1 as [-> ->].
  apply bind_inv in H2 as (tr3 & tr4 & st2 & limit & H2 & H3 & ->).
  apply reading_inv in H2 as (-> & -> & Hlimit).
  apply bind_ok_inv in H3 as (tr5 & tr6 & st3 & s & H3 & -> & H4).
  apply send_inv in H3 as [-> ->]. exists s, tr6. split; [done|].
  destruct s as [[]|e].
  2: { destruct H4 as (-> & -> & ->). done. }
  apply bind_inv in H4 as (tr7 & tr8 & st4 & [answer elapsed] & H4 & H5 & ->).
  apply wait_inv in H4 as [-> ->]. exists limit, answer, tr8. split_and!; [done|done|].
  assert (set_pending (delete id) (set_pending <[id:=request]> st) = set_pending (delete id) st) as Hdel.
  { unfold set_pending. cbn. by rewrite delete_insert_eq. }
  destruct answer as [[response|e]|].
  - apply bind_inv in H5 as (tr9 & tr10 & st5 & [] & H5 & H6 & ->).
    pose proof (safe_run _ _ _ _ _ _ _ (safe_remove_pending _ _ _) H5 Hst1) as Hst5.
    apply remove_pending_inv in H5 as [-> ->]. rewrite Hdel in *.
    apply bind_inv in H6 as (tr11 & tr12 & st6 & r6 & H6 & H7 & ->).
    pose proof (safe_run _ _ _ _ _ _ _ (safe_record_success _ _ _ _) H6 Hst5) as Hst6.
    apply table_inv in H6 as (-> & c & t & Hc & ->).
    apply bind_ok_inv in H7 as (tr13 & tr14 & st7 & r7 & H7 & -> & H8).
    pose proof (record_contact_never_fails _ _ _ _ _ _ _ Hst6 H7) as [b ->].
    apply ret_inv in H8 as (-> & -> & ->). split; [done|]. rewrite app_nil_r. split.
    + eapply (quiet_run (fun _ _ => True) (fun _ => True)) in H7 as [_ ?]; [done..|]. by apply quiet_record_contact.
    + eexists _, _, b. split; [by exists c, t, r6|done].
  - by apply ret_inv in H5 as (-> & -> & ->).
  - apply bind_inv in H5 as (tr9 & tr10 & st5 & [] & H5 & H6 & ->).
    apply remove_pending_inv in H5 as [-> ->]. rewrite Hdel in *.
    apply bind_inv in H6 as (tr11 & tr12 & st6 & r6 & H6 & H7 & ->).
    apply table_inv in H6 as (-> & c & t & Hc & ->).
    apply ret_inv in H7 as (-> & -> & ->). split_and!; [done..|]. by exists c, t, r6.
Qed.

(** Sending fails: the request stays pending. *)
Lemma request_outcome_witness :
  exists tr st', sample_run sample_state
    (@Protocol.request_response _ debug_build (sample_id 0) (sample_addr 0) (contact 1) 7
       (Ping 7 (contact 0))) tr st' (Err Timeout) /\
    pending_requests st' !! (7%Z : MessageId) = Some (Ping 7 (contact 0)).
Proof.
  exists [Sent (sample_addr 1) (Request (Ping 7 (contact 0))) (Err Timeout)].
  eexists. apply and_wlog_r.
  - cbn. eapply (solo_step _ _ [] _ _ [_]).
    + eapply (step_atomic _ _ _ _ _ (MkClock 5 0)); [lock_free|reflexivity].
    + cbn. eapply (solo_step _ _ [] _ _ [_]).
      * eapply (step_atomic _ _ _ _ _ (MkClock 5 0)); [lock_free|vm_compute; reflexivity].
      * cbn. eapply (solo_step _ _ [_] _ _ []); [eapply (step_send _ _ _ _ _ _ _ (Err Timeout))|]. apply solo_refl.
  - intros Hrun. unfold sample_run in Hrun. apply request_outcome in Hrun.
    + destruct Hrun as (s & rest & [= <- <-] & _ & _ & ->). reflexivity.
    + split_and!; [apply table_wf_empty|reflexivity|reflexivity|apply map_Forall_empty].
    + reflexivity.
    + reflexivity.
Defined.
