(* ===== verification/ValueSpec.v ===== *)
(** * Theorems on values

    Storing them, reading them, and the bounds of [find_value]. *)

From S2P Require Import Prelude Errors Bytes Ident F64 Contact Fixtures Bucket Table.
From S2P Require Import Store StoreSpec Messages Effects Protocol Lookup DhtNode SampleNode Quiet.

(** ** How many tasks a program starts

    [spawns_within Q n p]: on every path [p] spawns at most [n] tasks, each
    satisfying [Q]; it does not send or wait itself, and has no inner
    programs. *)
Section spawns.
Context {St R : Type} (Q : prog St R R -> Prop).

Fixpoint spawns_within {A} (n : nat) (p : prog St R A) : Prop :=
  match p with
  | Ret _ | Abort => True
  | Draw k => forall x, spawns_within n (k x)
  | Atomic _ _ k => forall x, spawns_within n (k x)
  | Spawn q k => Q q /\ match n with 0 => False | S n' => forall h, spawns_within n' (k h) end
  | Await _ k => forall r, spawns_within n (k r)
  | _ => False
  end.

Lemma spawns_within_S {A} n (p : prog St R A) : spawns_within n p -> spawns_within (S n) p.
Proof.
  revert n. induction p; intros n Hp; cbn in *; try naive_solver.
  destruct Hp as [? Hp]. split; [done|]. destruct n; naive_solver.
Qed.

Lemma spawns_within_le {A} n m (p : prog St R A) :
  n <= m -> spawns_within n p -> spawns_within m p.
Proof. induction 1; [done|]. intros Hp. apply spawns_within_S. auto. Qed.

Lemma spawns_within_bind {A B} (f : A -> prog St R B) p n m :
  spawns_within n p -> (forall a, spawns_within m (f a)) -> spawns_within (n + m) (p ≫= f).
Proof.
  intros Hp Hf. unfold mbind, prog_mbind. revert n Hp.
  induction p; intros m' Hp; cbn in *; try naive_solver.
  - eapply spawns_within_le; [|apply Hf]. lia.
  - destruct Hp as [? Hp]. split; [done|]. destruct m'; [done|]. cbn. naive_solver.
Qed.
End spawns.

Section find_value.
Context {S : Type} `{!Storage.t S, !Profile, !HashOrder nat KBucket}.
Context (node_id : NodeId) (addr : SocketAddr) (key : NodeId).

(** A query of [find_value] for [key] to another node. *)
Definition query_to_other (q : prog (Shared S) QueryResult QueryResult) : Prop :=
  exists n, Node.id n <> node_id /\ q = Lookup.query_task node_id addr key n.
Local Abbreviation spawns := (spawns_within query_to_other).

Lemma nodes_to_query_spec visited ns n :
  n ∈ FindValue.nodes_to_query node_id visited ns ->
  Node.id n <> node_id /\ Node.id n ∉ visited.
Proof. intros Hn%elem_of_take_l%list_elem_of_filter. naive_solver. Qed.

Lemma spawns_spawn_all ns :
  Forall (fun n => Node.id n <> node_id) ns ->
  spawns (length ns) (Lookup.spawn_all node_id addr key ns).
Proof.
  induction 1 as [|n ns Hn _ IH]; cbn [Lookup.spawn_all length]; [done|].
  apply (spawns_within_bind _ _ _ 1); [split; [by exists n|done]|]. intros h.
  rewrite <-(Nat.add_0_r (length ns)). by apply spawns_within_bind.
Qed.

Lemma spawns_await_all visited hs acc : spawns 0 (Lookup.await_all key visited hs acc).
Proof.
  revert acc. induction hs as [|h hs IH]; intros acc; cbn [Lookup.await_all]; [done|].
  apply (spawns_within_bind _ _ _ 0); [done|]. intros [[[n [[v|] ns]]|]|]; auto; done.
Qed.

Lemma spawns_rounds n visited ns :
  spawns (n * ALPHA) (Lookup.find_value_rounds node_id addr n key visited ns).
Proof.
  revert visited ns. induction n as [|n IH]; intros visited ns; [done|].
  cbn [Lookup.find_value_rounds]. destruct (FindValue.nodes_to_query _ _ _) as [|m ms] eqn:Hq; [done|].
  rewrite Nat.mul_succ_l, Nat.add_comm. apply spawns_within_bind.
  - eapply spawns_within_le; [|apply spawns_spawn_all].
    + rewrite <-Hq. unfold FindValue.nodes_to_query. rewrite length_take. lia.
    + apply Forall_forall. rewrite <-Hq. by intros x [? _]%nodes_to_query_spec.
  - intros hs. apply (spawns_within_bind _ _ _ 0); [apply spawns_await_all|].
    intros [v|[|x xs]]; [done..|apply IH].
Qed.
End find_value.

(** C24: [find_value] is bounded: at most 10 rounds of 5 queries, so 50 queries
    in all, each of them in a task of its own and never to the node itself;
    it never fails, whatever the storage and the peers answer. *)
Theorem find_value_bounded {S : Type} `{!Storage.t S, !Profile, !HashOrder nat KBucket}
    node_id addr key :
  spawns_within (query_to_other (S := S) node_id addr key) 50 (Lookup.find_value node_id addr key) /\
  forall r, may_return (Lookup.find_value (S := S) node_id addr key) r -> exists v, r = Ok v.
Proof.
  split.
  - unfold Lookup.find_value. apply (spawns_within_bind _ _ _ 0); [done|]. intros [v|e]; [done|].
    apply (spawns_within_bind _ _ _ 0); [done|]. intros [|n ns]; [done|].
    apply (spawns_within_bind _ _ _ 50 0); [apply (spawns_rounds _ _ _ 10)|done].
  - unfold Lookup.find_value. intros r (x & _ & Hr)%may_return_bind. destruct x as [v|e].
    + apply may_return_Ret in Hr as ->. eauto.
    + apply may_return_bind in Hr as ([|n ns] & _ & Hr).
      * apply may_return_Ret in Hr as ->. eauto.
      * apply may_return_bind in Hr as (v & _ & ->%may_return_Ret). eauto.
Qed.

(** ** The candidates of [find_value] *)
Lemma find_value_cmp_key key x y :
  FindValue.distance_cmp key x y = Z.compare (distance_to key x) (distance_to key y).
Proof.
  unfold FindValue.distance_cmp, distance_to. rewrite cmp_val, !NodeId.val_distance.
  by rewrite (Z.lxor_comm (NodeId.val key)), (Z.lxor_comm (NodeId.val key)).
Qed.

(** Copies of an element below all others come first in a sorted list. *)
Lemma sorted_copies_first {A} (f : A -> Z) x m ns l :
  StronglySorted (fun a b => f a <= f b)%Z l -> l ≡ₚ ns ++ replicate m x ->
  (forall y, y ∈ ns -> (f x < f y)%Z) -> exists rest, l = replicate m x ++ rest.
Proof.
  revert l. induction m as [|m IH]; intros l Hs Hp Hlt; [by exists l|].
  assert (l ≡ₚ x :: (ns ++ replicate m x)) as Hp' by (rewrite Hp; apply symmetry, Permutation_middle).
  destruct l as [|y l]; [by apply Permutation_nil_cons in Hp'|].
  apply StronglySorted_cons in Hs as [Hy Hs].
  assert (y = x) as ->.
  { assert (y ∈ x :: (ns ++ replicate m x)) as Hin by (rewrite <-Hp'; by left).
    apply elem_of_cons in Hin as [->|[Hin|Hin]%elem_of_app]; [done| |by apply elem_of_replicate_inv in Hin].
    assert (x ∈ y :: l) as [->|Hx]%elem_of_cons by (rewrite Hp'; by left); [done|].
    apply Hlt in Hin. rewrite Forall_forall in Hy. apply Hy in Hx. lia. }
  apply Permutation_cons_inv in Hp'.
  destruct (IH l Hs Hp' Hlt) as [rest ->]. by exists rest.
Qed.

(** [find_value] keeps no candidate out for being there already. When at
    least 5 answers of a round name the same contact, closer to the key than
    all the candidates, and it has not been visited, all the queries of the
    next round go to that contact. *)
Lemma find_value_duplicates_crowd_out node_id visited key closest n m :
  ALPHA <= m -> Node.id n ∉ visited -> Node.id n <> node_id ->
  (forall c, c ∈ closest -> (distance_to key n < distance_to key c)%Z) ->
  FindValue.nodes_to_query node_id visited (FindValue.merge key closest (replicate m n)) =
    replicate ALPHA n.
Proof.
  intros Hm Hv Hn Hlt. unfold FindValue.nodes_to_query, FindValue.merge. rewrite truncate_take.
  destruct (sorted_copies_first (distance_to key) n m closest
    (sort_by (FindValue.distance_cmp key) (closest ++ replicate m n))) as [rest ->]; [| |done|].
  - apply sort_by_sorted, find_value_cmp_key.
  - apply sort_by_Permutation.
  - assert (m = ALPHA + (m - ALPHA)) as -> by lia.
    assert (K = ALPHA + (K - ALPHA)) as -> by (vm_compute; done).
    rewrite replicate_add, <-app_assoc, take_app_add'
      by (by rewrite length_replicate).
    assert (forall a, filter (fun c => (Node.id c ∉ visited) /\ Node.id c <> node_id) (replicate a n) =
      replicate a n) as Hkeep.
    { induction a as [|a IH]; [done|]. cbn [replicate]. rewrite filter_cons_True by done. by rewrite IH. }
    rewrite filter_app, Hkeep.
    by rewrite take_app_length' by (by rewrite length_replicate).
Qed.

Lemma find_value_duplicates_crowd_out_witness :
  FindValue.nodes_to_query (sample_id 0) ∅
    (FindValue.merge (sample_id 0) [contact 2; contact 3] (replicate 5 (contact 1))) =
  replicate 5 (contact 1).
Proof.
  apply find_value_duplicates_crowd_out; [apply Nat.le_refl|by_decide|by_decide|].
  apply Forall_forall. repeat constructor.
Defined.

(** C22: [store_value] returns exactly what the local store returned, whatever
    the other nodes do, and the storage ends as that store left it: a lookup
    finds the value until its lifetime has passed. If the local store fails,
    no other node is asked; otherwise only requests are sent. *)
Theorem store_value_local {S : Type} `{!Storage.t S, !Storage.Laws S, !Profile, !HashOrder nat KBucket}
    node_id addr key value (st st' : Shared S) tr r :
  returns_with st (Lookup.store_value node_id addr key value) tr st' r ->
  Forall client_event tr /\ (is_ok r = false -> tr = []) /\
  exists c, Storage.store (mono c) key value (storage st) = Done (storage st', r) /\
    (Storage.sane (mono c) (storage st) -> r = Ok tt /\
       forall now, (now < mono c + Storage.lifetime (storage st))%Z ->
         Storage.view now (storage st') key = Some value).
Proof.
  intros (Htr & Hnil & c & Hc)%(store_value_run node_id addr (fun _ => True)); [|done..].
  split_and!; [done..|]. exists c. split; [done|]. intros Hsane.
  destruct (Storage.store_law (mono c) key value _ Hsane) as (s' & Hs & _ & _ & _ & Hview & _).
  rewrite Hs in Hc. injection Hc as <- <-. by split.
Qed.

(** No contact is known: the value is stored here. *)
Lemma store_value_local_witness :
  exists st' c, sample_run sample_state
    (@Lookup.store_value _ sample_storage debug_build listed_order (sample_id 0) (sample_addr 0)
       (sample_id 9) (one_byte 42)) [] st' (Ok tt) /\
    Storage.store (t := sample_storage) (mono c) (sample_id 9) (one_byte 42) (storage sample_state)
      = Done (storage st', Ok tt).
Proof.
  assert (exists st', sample_run sample_state
    (@Lookup.store_value _ sample_storage debug_build listed_order (sample_id 0) (sample_addr 0)
       (sample_id 9) (one_byte 42)) [] st' (Ok tt)) as [st' Hrun].
  { eexists. eapply (solo_step _ _ [] _ _ []).
    - eapply (step_atomic _ _ _ _ _ (MkClock 5 0)); [lock_free|vm_compute; reflexivity].
    - cbn. eapply (solo_step _ _ [] _ _ []).
      + eapply (step_atomic _ _ _ _ _ (MkClock 5 0)); [lock_free|vm_compute; reflexivity].
      + apply solo_refl. }
  destruct (@store_value_local _ sample_storage (@memory_laws listed_order) debug_build listed_order
    _ _ _ _ _ _ _ _ Hrun) as (_ & _ & c & Hc & _).
  exists st', c. split; [exact Hrun|exact Hc].
Defined.

(** C23: a value in the local storage is returned without asking anyone:
    [find_value] and [DhtNode::get] on a key that the storage finds return
    its value and send nothing. Otherwise, with no contacts, the lookup ends
    with [None] and [get] with [ValueNotFound]. *)
Theorem local_value_first {S : Type} `{!Storage.t S, !Profile, !HashOrder nat KBucket}
    node_id addr raw_key (st st' : Shared S) tr r :
  let key := NodeId.from_bytes raw_key in
  returns_with st (DhtNode.get node_id addr raw_key) tr st' r ->
  exists c s x, Storage.get (mono c) key (storage st) = Done (s, x) /\
    match x with
    | Ok value => r = Ok value /\ tr = [] /\ st' = set_storage s st
    | Err _ => Lookup.closest_or_all key (routing_table st) = [] ->
        r = Err ValueNotFound /\ tr = [] /\ st' = set_storage s st
    end.
Proof.
  intros key. unfold DhtNode.get. fold key.
  intros (tr1 & tr2 & st1 & found & Hfound & Hrest & ->)%bind_inv.
  apply bind_inv in Hfound as (tr3 & tr4 & st2 & x & Hx & H3 & ->).
  apply section_inv in Hx as (-> & c & s & Hc & ->). exists c, s, x. split; [done|].
  destruct x as [value|e].
  - apply ret_inv in H3 as (-> & -> & ->). by apply ret_inv in Hrest as (-> & -> & ->).
  - intros Hnone. apply bind_inv in H3 as (tr5 & tr6 & st3 & nodes & H3 & H4 & ->).
    apply reading_inv in H3 as (-> & -> & Hn). injection Hn as Hn.
    change (routing_table (set_storage s st)) with (routing_table st) in Hn.
    rewrite Hnone in Hn. subst nodes.
    apply ret_inv in H4 as (-> & -> & ->). by apply ret_inv in Hrest as (-> & -> & ->).
Qed.

(** A value stored 5 ns ago is read back. *)
Lemma local_value_first_witness :
  let st := set_storage (MemoryStorage.store 0 (NodeId.from_bytes []) (one_byte 42)
                           MemoryStorage.new).1 sample_state in
  exists st' s x, sample_run st
    (@DhtNode.get _ sample_storage debug_build listed_order (sample_id 0) (sample_addr 0) [])
    [] st' (Ok (one_byte 42)) /\ st' = set_storage s st /\ x = one_byte 42.
Proof.
  intros st. assert (exists st', sample_run st
    (@DhtNode.get _ sample_storage debug_build listed_order (sample_id 0) (sample_addr 0) [])
    [] st' (Ok (one_byte 42))) as [st' Hrun].
  { eexists. eapply (solo_step _ _ [] _ _ []).
    - eapply (step_atomic _ _ _ _ _ (MkClock 5 0)); [lock_free|vm_compute; reflexivity].
    - apply solo_refl. }
  destruct (@local_value_first _ sample_storage debug_build listed_order _ _ _ _ _ _ _ Hrun)
    as (c & s & [v|e] & Hc & Hx).
  - destruct Hx as ([= <-] & _ & ->). exists (set_storage s st), s, (one_byte 42).
    split; [exact Hrun|]. split; reflexivity.
  - destruct Hx as [[=] _]. vm_compute. reflexivity.
Defined.
