(* ===== verification/MaintenanceSpec.v ===== *)
(** * Theorems on the background tasks

    What one round of the refresh, the republish and the expiry task does. *)

From S2P Require Import Prelude Errors Bytes Ident F64 Contact Fixtures Bucket Table.
From S2P Require Import Store StoreSpec Messages Effects Protocol Lookup DhtNode SampleNode.
From S2P Require Import TableSpec NodeSafety Quiet.

(** The requests of a lookup of [target], and of copying one value. *)
Definition lookup_of (local_node : Node) (target : NodeId) (request : RequestMessage) : Prop :=
  match request with
  | Ping _ sender => sender = local_node
  | FindNode _ sender t => sender = local_node /\ t = target
  | _ => False
  end.
Definition copy_of (local_node : Node) (p : NodeId * Value) (request : RequestMessage) : Prop :=
  match request with
  | Ping _ sender => sender = local_node
  | Store _ sender key value => sender = local_node /\ (key, value) = p
  | _ => False
  end.

Section maintenance.
Context {S : Type} `{!Storage.t S, !Storage.Laws S, !Profile, !HashOrder nat KBucket}.
Context (node_id : NodeId) (addr : SocketAddr).

(** The pairs a storage serves at a time. *)
Definition live_pairs (now : Instant) (s : S) : list (NodeId * Value) :=
  omap (fun key => (fun value => (key, value)) <$> Storage.view now s key) (Storage.keys s).

(** Storing pairs one after the other, each at a time of its own. *)
Inductive stored_in_order : list (NodeId * Value) -> S -> S -> Prop :=
  | stored_nil s : stored_in_order [] s s
  | stored_cons now key value l s s1 r s2 :
      Storage.store now key value s = Done (s1, r) -> stored_in_order l s1 s2 ->
      stored_in_order ((key, value) :: l) s s2.

Lemma collect_pairs_live now keys s pairs :
  Storage.sane now s ->
  exists s', DhtNode.collect_pairs now keys s pairs =
      Done (s', pairs ++ omap (fun key => (fun value => (key, value)) <$> Storage.view now s key) keys) /\
    Storage.sane now s' /\ Storage.lifetime s' = Storage.lifetime s /\
    forall j, Storage.view now s' j = Storage.view now s j.
Proof.
  assert (forall (view : NodeId -> option Value) s pairs,
    Storage.sane now s -> (forall j, Storage.view now s j = view j) ->
    exists s', DhtNode.collect_pairs now keys s pairs =
      Done (s', pairs ++ omap (fun key => (fun value => (key, value)) <$> view key) keys) /\
    Storage.sane now s' /\ Storage.lifetime s' = Storage.lifetime s /\
    forall j, Storage.view now s' j = view j) as Hgen; [|by intros Hs; apply Hgen].
  clear s pairs. intros view. induction keys as [|key keys IH]; intros s pairs Hs Hv;
    cbn [DhtNode.collect_pairs omap list_omap].
  - exists s. by rewrite app_nil_r.
  - destruct (Storage.get_law now key s Hs) as (s1 & -> & Hs1 & Hl1 & Hv1).
    rewrite Hv. destruct (view key) as [v|]; cbn.
    + destruct (IH s1 (pairs ++ [(key, v)]) Hs1) as (s' & E & Hs' & Hl' & Hv'); [congruence|].
      exists s'. rewrite E, <-app_assoc. split_and!; [done..|congruence|done].
    + destruct (IH s1 pairs Hs1) as (s' & E & Hs' & Hl' & Hv'); [congruence|].
      exists s'. split_and!; [done..|congruence|done].
Qed.

Local Abbreviation local_node := (Protocol.local_node node_id addr).
Local Abbreviation returns := (returns_with (St := Shared S) (R := QueryResult)).

Lemma lookup_run target st tr st' r :
  returns st (Lookup.find_node node_id addr target) tr st' r ->
  same_storage st st' /\ Forall (asks (lookup_of local_node target)) tr.
Proof.
  apply quiet_run; [done|unfold same_storage; congruence|]. by apply quiet_find_node.
Qed.

(** Lookups and stores as the rounds make them: their results are ignored. *)
Definition look_up (target : NodeId) : prog (Shared S) QueryResult unit :=
  _ ← Lookup.find_node node_id addr target; mret tt.
Definition copy (p : NodeId * Value) : prog (Shared S) QueryResult unit :=
  _ ← Lookup.store_value node_id addr p.1 p.2; mret tt.

(** The round of the refresh task for one bucket. *)
Lemma refresh_bucket_run index st tr st' :
  index < KEY_LENGTH_BITS ->
  returns st (coin ← draw (nat -> bool);
    target ← match NodeId.random_in_bucket coin node_id index with
             | Some target => mret target
             | None => DhtNode.random_id
             end;
    look_up target) tr st' tt ->
  exists target, NodeId.bucket_index node_id target = Some index /\ returns st (look_up target) tr st' tt.
Proof.
  intros Hi (tr1 & tr2 & st1 & coin & (-> & ->)%draw_inv & H2 & ->)%bind_inv.
  destruct (NodeId.random_in_bucket_index coin node_id index Hi) as (r & Hr & Hidx).
  rewrite Hr in H2. apply bind_inv in H2 as (tr3 & tr4 & st3 & t & H3 & H4 & ->).
  apply ret_inv in H3 as (-> & -> & ->). by exists r.
Qed.

Lemma refresh_buckets_run (body : nat -> prog (Shared S) QueryResult unit) indices trs st st' :
  (forall i st tr st', i ∈ indices -> returns st (body i) tr st' tt ->
     exists target, NodeId.bucket_index node_id target = Some i /\ returns st (look_up target) tr st' tt) ->
  runs body indices trs st st' ->
  exists targets, Forall2 (fun i target => NodeId.bucket_index node_id target = Some i) indices targets /\
    runs look_up targets trs st st'.
Proof.
  intros Hbody. induction 1 as [st|i l st tr st1 trs st2 Hi _ IH]; [exists []; split; constructor|].
  apply Hbody in Hi as (t & Ht & Hrun); [|by left]. destruct IH as (ts & Hts & Hruns).
  { intros; eapply Hbody; [by right|done]. }
  exists (t :: ts). split; [by constructor|]. by econstructor.
Qed.

(** What a sequence of lookups sends. *)
Lemma look_ups_run targets trs st st' :
  runs look_up targets trs st st' ->
  same_storage st st' /\ Forall2 (fun target => Forall (asks (lookup_of local_node target))) targets trs.
Proof.
  induction 1 as [st|t l st tr st1 trs st2 Ht _ [Hs' Htrs]]; [done|].
  apply bind_inv in Ht as (tr1 & tr2 & st3 & r & [Hs Htr]%lookup_run & (-> & <- & _)%ret_inv & ->).
  rewrite app_nil_r. split; [|by constructor]. unfold same_storage in *. congruence.
Qed.

(** The round of the republish task. *)
Lemma republish_items_run items trs st st' :
  runs copy items trs st st' ->
  Forall2 (fun p => Forall (asks (copy_of local_node p))) items trs /\
  stored_in_order items (storage st) (storage st').
Proof.
  induction 1 as [st|[key value] l st tr st1 trs st2 Hp _ [Htrs Hs]]; [by repeat constructor|].
  apply bind_inv in Hp as (tr1 & tr2 & st3 & r & Hp & (-> & <- & _)%ret_inv & ->).
  apply (store_value_run node_id addr (copy_of local_node (key, value))) in Hp
    as (Htr & _ & c & Hc); [|done..].
  rewrite app_nil_r. split; [by constructor|]. by econstructor.
Qed.
End maintenance.

(** C31: one round of each background task, run by itself with any answers of the
    network. Refresh makes one call of [find_node] per bucket of the table, one
    after the other, in increasing order of the indices, each for a target that
    lies in its bucket (the fallback to any random identifier is never taken),
    or a single call for a random target when the table has no bucket; it leaves
    the storage alone and each call sends nothing but queries for its target and
    pings. Republish collects the pairs the storage serves at one time, in the
    order of its keys, all of them if its clock allows, and makes one call of
    [store_value] for each, one after the other: each stores its pair here, and
    sends no store but of this pair. Expiry sends nothing, changes nothing but
    the storage, does not panic, and no key gains a value. *)
Theorem maintenance_rounds {S : Type} `{!Storage.t S, !Storage.Laws S, !Profile, !HashOrder nat KBucket}
    node_id addr (st st' : Shared S) tr :
  node_inv node_id addr st ->
  let local_node := Protocol.local_node node_id addr in
  (returns_with st (DhtNode.refresh node_id addr) tr st' tt ->
   storage st' = storage st /\
   exists targets trs, tr = concat trs /\ runs (look_up node_id addr) targets trs st st' /\
     Forall2 (fun target => Forall (asks (lookup_of local_node target))) targets trs /\
     match RoutingTable.bucket_indices (routing_table st) with
     | [] => length targets = 1
     | indices => StronglySorted lt indices /\
         Forall2 (fun i target => NodeId.bucket_index node_id target = Some i) indices targets
     end) /\
  (returns_with st (DhtNode.republish node_id addr) tr st' tt ->
   exists c s items trs, DhtNode.collect_pairs (mono c) (Storage.keys (storage st)) (storage st) [] =
       Done (s, items) /\
     (Storage.sane (mono c) (storage st) -> items = live_pairs (mono c) (storage st) /\
        forall key, Storage.view (mono c) s key = Storage.view (mono c) (storage st) key) /\
     tr = concat trs /\ runs (copy node_id addr) items trs (set_storage s st) st' /\
     Forall2 (fun p => Forall (asks (copy_of local_node p))) items trs /\
     stored_in_order items s (storage st')) /\
  (returns_with st DhtNode.expire tr st' tt ->
   tr = [] /\ exists c s, Storage.cleanup (mono c) (storage st) = Done s /\ st' = set_storage s st /\
     (Storage.sane (mono c) (storage st) -> forall key value,
        Storage.view (mono c) s key = Some value -> Storage.view (mono c) (storage st) key = Some value)).
Proof.
  intros (Hwf & Hl & _) local_node. split_and!.
  - unfold DhtNode.refresh.
    intros (tr1 & tr2 & st1 & indices & (-> & -> & Hidx)%reading_inv & H2 & ->)%bind_inv.
    injection Hidx as <-.
    destruct (bucket_indices_sorted (routing_table st)) as [Hsort Hin].
    destruct (RoutingTable.bucket_indices (routing_table st)) as [|i l] eqn:E.
    + apply bind_inv in H2 as (tr3 & tr4 & st2 & target & H3 & H4 & ->).
      apply bind_inv in H3 as (tr5 & tr6 & st3 & fill & (-> & ->)%draw_inv & (-> & -> & _)%ret_inv & ->).
      assert (runs (look_up node_id addr) [target] [tr4] st st') as Hruns by (repeat (econstructor; [exact H4|]); constructor).
      pose proof (look_ups_run node_id addr _ _ _ _ Hruns) as [Hs Htr].
      split; [done|]. exists [target], [tr4]. cbn. by rewrite app_nil_r.
    + apply for_each_inv in H2 as (trs & -> & H2).
      apply (refresh_buckets_run node_id addr) in H2 as (targets & Htargets & Hruns).
      2: { intros j st3 tr st4 Hj. apply refresh_bucket_run. apply Hin in Hj as [b Hb].
           by apply (Hwf j b Hb). }
      pose proof (look_ups_run node_id addr _ _ _ _ Hruns) as [Hs Htr].
      split; [done|]. by exists targets, trs.
  - unfold DhtNode.republish.
    intros (tr1 & tr2 & st1 & items & (-> & c & s & Hc & ->)%section_inv & H2 & ->)%bind_inv.
    apply for_each_inv in H2 as (trs & -> & Hruns).
    pose proof (republish_items_run node_id addr _ _ _ _ Hruns) as [Htrs Hs].
    exists c, s, items, trs. split_and!; [done| |done..].
    intros Hsane. destruct (collect_pairs_live (mono c) (Storage.keys (storage st)) _ [] Hsane)
      as (s' & E & _ & _ & Hv). rewrite E in Hc. by injection Hc as <- <-.
  - intros (-> & c & s & Hc & ->)%section_inv. split; [done|].
    apply exec_bind_inv in Hc as (s1 & Hc & [= ->]). exists c, s. split_and!; [done..|].
    intros Hsane. destruct (Storage.cleanup_law (mono c) _ Hsane) as (s' & E & _ & _ & Hv).
    rewrite E in Hc. by injection Hc as <-.
Qed.

(** A node without contacts that republishes the one value it holds. *)
Lemma maintenance_rounds_witness :
  let st := set_storage (MemoryStorage.store 0 (sample_id 9) (one_byte 42) MemoryStorage.new).1
              sample_state in
  exists st' c s items,
    sample_run st (@DhtNode.republish _ sample_storage debug_build listed_order (sample_id 0)
      (sample_addr 0)) [] st' tt /\
    @DhtNode.collect_pairs _ sample_storage (mono c)
      (@Storage.keys _ sample_storage (storage st)) (storage st) [] = Done (s, items) /\
    @stored_in_order _ sample_storage items s (storage st').
Proof.
  intros st. assert (exists st', sample_run st (@DhtNode.republish _ sample_storage debug_build
    listed_order (sample_id 0) (sample_addr 0)) [] st' tt) as [st' Hrun].
  { eexists. eapply (solo_step _ _ [] _ _ []).
    - eapply (step_atomic _ _ _ _ _ (MkClock 5 5)); [lock_free|vm_compute; reflexivity].
    - cbn. eapply (solo_step _ _ [] _ _ []).
      + eapply (step_atomic _ _ _ _ _ (MkClock 6 6)); [lock_free|vm_compute; reflexivity].
      + cbn. eapply (solo_step _ _ [] _ _ []).
        * eapply (step_atomic _ _ _ _ _ (MkClock 6 6)); [lock_free|vm_compute; reflexivity].
        * apply solo_refl. }
  destruct (@maintenance_rounds _ sample_storage (@memory_laws listed_order) debug_build listed_order
    (sample_id 0) (sample_addr 0) st st' []) as (_ & H & _).
  - split; [apply table_wf_empty|]. split; [reflexivity|]. split; [reflexivity|].
    apply map_Forall_empty.
  - destruct (H Hrun) as (c & s & items & trs & Hc & _ & _ & _ & _ & Hs).
    exists st', c, s, items. split; [exact Hrun|]. split; [exact Hc|exact Hs].
Defined.
