(* ===== verification/SystemSpec.v ===== *)
(** * Theorems on deployed nodes and on the command-line example

    Safety of a node on its UDP transport, and what each subcommand of the
    example returns and reports. *)

From S2P Require Import Prelude Errors Bytes Ident F64 Contact Fixtures Bucket Table.
From S2P Require Import Store Messages Effects Protocol Lookup DhtNode NodeSafety SampleNode.
From S2P Require Import Transport Channel Udp Tcp SocketSpec Deployment Cli System.
From S2P Require Import Termination Locks Liveness Responsive.

(** ** The node [with_udp] makes *)
Section deployed.
Context {C : Type} `{!Mpsc.t C, !Mpsc.Laws C}.
Context (sha256 : list u8 -> list u8) (to_string : SocketAddr -> list u8).
Context (bind : SocketAddr -> Result unit).

Lemma with_udp_Ok addr (node : Deployed.t MemoryStorage (UdpNetwork.Endpoint (C := C))) :
  Deployed.with_udp sha256 to_string bind addr = Ok node ->
  Deployed.node_id node = NodeId.from_socket_addr sha256 (to_string addr) /\
  Deployed.addr node = addr /\
  node_inv (Deployed.node_id node) addr (Deployed.shared node) /\
  UdpNetwork.request_handler (UdpNetwork.shared (Deployed.network node)) = true /\
  exists n0, UdpNetwork.new (bind addr) = Ok n0 /\
    forall serialize deserialize, UdpNetwork.run serialize deserialize n0 [] (Deployed.network node).
Proof using Type.
  unfold Deployed.with_udp. destruct (bind addr) as [u|e] eqn:Hb; [|done]. intros [= <-]. cbn.
  split_and!; [done..| |done|].
  - split_and!; [apply table_wf_empty|done|done|apply map_Forall_empty].
  - eexists. split; [done|]. intros serialize deserialize. refine (UdpNetwork.run_snoc _ _ _ [] _ [] _ (UdpNetwork.run_refl _ _ _) _).
    apply UdpNetwork.step_set_request_handler.
Qed.
End deployed.

Lemma udp_run_app {C} `{!Mpsc.t C} ser des (n n1 n2 : UdpNetwork.Endpoint (C := C)) tr tr' :
  UdpNetwork.run ser des n tr n1 -> UdpNetwork.run ser des n1 tr' n2 ->
  UdpNetwork.run ser des n (tr ++ tr') n2.
Proof.
  intros H1. induction 1 as [|tr' n2 evs n3 _ IH Hs]; [by rewrite app_nil_r|].
  rewrite app_assoc. by eapply UdpNetwork.run_snoc.
Qed.

Lemma udp_step_handler {C} `{!Mpsc.t C} ser des (n n' : UdpNetwork.Endpoint (C := C)) evs :
  UdpNetwork.step ser des n evs n' -> UdpNetwork.request_handler (UdpNetwork.shared n) = true ->
  UdpNetwork.request_handler (UdpNetwork.shared n') = true.
Proof.
  intros Hs Hh. destruct Hs as [now src data inner s Hd|to m data n' Hm Hs|to m e n' Hs
    |send_to p sent attempts slept n' Ho|id c n' Hw|c elapsed o Hw|id r n' Hw|]; try done.
  - revert Hd. unfold UdpNetwork.handle_datagram. cbn. intros Hd. by repeat case_match; simplify_eq/=.
  - unfold UdpNetwork.send in Hs. destruct (enqueue _ _ _ _ _) as [[c r]|]; [|done].
    by injection Hs as <- _.
  - unfold UdpNetwork.send in Hs. destruct (enqueue _ _ _ _ _) as [[c r]|]; [|done].
    by injection Hs as <- _.
  - unfold UdpNetwork.handle_outgoing in Ho. destruct (Mpsc.recv _) as [[c p']|]; [|done].
    by injection Ho as <- _ _.
  - unfold UdpNetwork.wait_response in Hw. destruct (Pending.register _ _). by injection Hw as <- _.
  - unfold UdpNetwork.wait_expired in Hw. by injection Hw as <- _.
Qed.

Lemma udp_run_handler {C} `{!Mpsc.t C} ser des (n n' : UdpNetwork.Endpoint (C := C)) tr :
  UdpNetwork.run ser des n tr n' -> UdpNetwork.request_handler (UdpNetwork.shared n) = true ->
  UdpNetwork.request_handler (UdpNetwork.shared n') = true.
Proof. induction 1; eauto using udp_step_handler. Qed.

(** The packets that did leave: one of their attempts succeeded. *)
Definition transmitted (utr : list UdpNetwork.event) : list Packet :=
  omap (fun e => match e with UdpNetwork.Transmitted p true _ => Some p | _ => None end) utr.

Lemma transmitted_taken utr : transmitted utr `sublist_of` Mpsc.taken (udp_channel utr).
Proof.
  unfold transmitted, Mpsc.taken, udp_channel.
  induction utr as [|[p|p [] n|x] utr IH]; csimpl; by try constructor.
Qed.

(** C11: a deployed node. When the socket cannot be bound [with_udp] fails with
    that error. Otherwise, along every run of the node and its transport
    together, with any datagrams from outside, any interleaving of the tasks
    and any answers of the socket: the node is named after its address and
    always has its request handler; the invariant of its tables holds; every
    message its tasks send is in the node's own name with at most [K] contacts,
    never the node itself; the packets the sending task has taken and those, at
    most 100, that wait are together the serializations of the messages the
    tasks have sent, in that order, none lost, added or repeated; and the
    packets that did leave are some of those, in the same order. *)
Theorem deployed_node_safety {C : Type} `{!Mpsc.t C, !Mpsc.Laws C}
    `{!HashOrder NodeId MemoryStorage.StorageEntry, !Profile, !HashOrder nat KBucket}
    sha256 to_string bind serialize deserialize addr :
  (forall e, bind addr = Err e ->
     Deployed.with_udp (C := C) sha256 to_string bind addr = Err e) /\
  forall (node : Deployed.t MemoryStorage (UdpNetwork.Endpoint (C := C))) tr utr s,
  Deployed.with_udp sha256 to_string bind addr = Ok node ->
  system_run sha256 to_string serialize deserialize (MkSystem node []) tr utr s ->
  let id := NodeId.from_socket_addr sha256 (to_string addr) in
  let net := Deployed.network (deployed s) in
  node_inv id addr (Deployed.shared (deployed s)) /\
  UdpNetwork.request_handler (UdpNetwork.shared net) = true /\
  Forall (event_ok id addr) tr /\ Forall (serialized serialize) tr /\
  sent_packets serialize tr =
    Mpsc.taken (udp_channel utr) ++ Mpsc.queued (UdpNetwork.sender net) /\
  length (Mpsc.queued (UdpNetwork.sender net)) <= 100 /\
  transmitted utr `sublist_of` Mpsc.taken (udp_channel utr).
Proof.
  split.
  { intros e He. unfold Deployed.with_udp. by rewrite He. }
  intros node tr utr s (Hid & Haddr & Hinv & Hh & n0 & Hnew & Hrun0)%with_udp_Ok Hrun id net.
  apply system_run_inv in Hrun as (_ & _ & Hn & Hu & Hq & Hser). cbn in Hn, Hu.
  destruct (node_run_guards _ (node_inv id addr) any_change (event_ok id addr)
    any_change_refl (fun _ _ _ _ _ => I) (safe_operation sha256 to_string id addr) (node_part (MkSystem node [])) tr (node_part s))
    as (Hinv' & _ & Htr & _); [|by rewrite Hid in Hinv|constructor|].
  { unfold operation_of in Hn. cbn in Hn. by rewrite Hid, Haddr in Hn. }
  destruct (udp_run_inv serialize deserialize (bind addr) n0 utr net Hnew
    (udp_run_app _ _ _ _ _ _ _ (Hrun0 serialize deserialize) Hu)) as ((Hfifo & Hlen & _) & _ & _).
  split_and!; [done|by eapply udp_run_handler|done|done|congruence|done|apply transmitted_taken].
Qed.

(** A ping arrives; the pong leaves. *)
Lemma deployed_node_safety_witness :
  exists (node : Deployed.t MemoryStorage (UdpNetwork.Endpoint (C := ListChannel.t))) tr utr s,
    Deployed.with_udp no_hash no_name (fun _ => Ok tt) (sample_addr 0) = Ok node /\
    @system_run MemoryStorage ListChannel.t sample_storage _ debug_build listed_order no_hash no_name
      (fun _ => Some [u8_of 42]) (fun _ => Some (Request (Ping 7 (contact 1)))) (MkSystem node []) tr utr s /\
    Mpsc.taken (udp_channel utr) = [(sample_addr 1, [u8_of 42])] /\
    sent_packets (fun _ => Some [u8_of 42]) tr = Mpsc.taken (udp_channel utr) ++
      Mpsc.queued (UdpNetwork.sender (Deployed.network (deployed s))).
Proof.
  assert (exists (node : Deployed.t MemoryStorage (UdpNetwork.Endpoint (C := ListChannel.t))) tr utr s,
    Deployed.with_udp no_hash no_name (fun _ => Ok tt) (sample_addr 0) = Ok node /\
    @system_run MemoryStorage ListChannel.t sample_storage _ debug_build listed_order no_hash no_name
      (fun _ => Some [u8_of 42]) (fun _ => Some (Request (Ping 7 (contact 1)))) (MkSystem node []) tr utr s /\
    Mpsc.taken (udp_channel utr) = [(sample_addr 1, [u8_of 42])])
    as (node & tr & utr & s & Hnode & Hrun & Htaken).
  { do 4 eexists. split; [reflexivity|]. split.
    - eapply system_run_snoc; [eapply system_run_snoc; [eapply system_run_snoc;
        [eapply system_run_snoc; [apply system_run_refl|]|]|]|].
      + by eapply (system_receive _ _ _ _ _ 0 (sample_addr 1) [u8_of 1]).
      + eapply system_task; [|apply carried_none].
        eapply (node_task _ _ 0); [reflexivity|].
        eapply (step_atomic _ _ _ _ _ (MkClock 100 0)); [lock_free|vm_compute; reflexivity].
      + eapply system_task; [|by eapply carried_sent].
        eapply (node_task _ _ 0); [reflexivity|]. eapply (step_send _ _ _ _ _ _ _ (Ok tt)).
      + eapply system_transport.
        * by eapply (UdpNetwork.step_outgoing _ _ _ (fun _ _ => true)).
        * set_solver.
        * set_solver.
    - reflexivity. }
  exists node, tr, utr, s. split; [exact Hnode|]. split; [exact Hrun|]. split; [exact Htaken|].
  refine (proj1 (proj2 (proj2 (proj2 (proj2 (proj2 (@deployed_node_safety ListChannel.t _ _ listed_order debug_build
    listed_order no_hash no_name (fun _ => Ok tt) _ _ (sample_addr 0)) node tr utr s Hnode Hrun)))))).
Defined.

(** ** The command line *)
Section cli.
Context {S : Type} `{!Storage.t S, !Storage.Fuelless S, !Profile, !HashOrder nat KBucket}.
Context (sha256 : list u8 -> list u8) (to_string : SocketAddr -> list u8).
Context (node_id : NodeId) (addr : SocketAddr).
Local Abbreviation prog := (prog (Shared S) QueryResult).












End cli.


